(** * IBTK [PETScMatUtilities]: assembly of PETSc matrices and index sets

    A shallow embedding of [ibtk/src/math/PETScMatUtilities.cpp] and the
    properties of its assemblers.

    Conventions of the embedding.
    - A C++ [int] is a [Z]; arithmetic on it wraps at 32 bits ([Int.wrap]),
      and the theorems carry the range hypotheses under which nothing wraps.
    - A C++ [double] is an exact rational in canonical form ([Qc]).
    - [Index<NDIM>], [IntVector<NDIM>] and [CellIndex<NDIM>] are lists of
      [NDIM] integers; a [Box<NDIM>] is its lower and upper corner, and its
      iterator visits the cells with the first coordinate running fastest.
    - [std::vector] is a list.  A read past its end has no defined behaviour
      in C++; it is an explicit [OutOfBounds] outcome where the code can
      reach it.
    - A PETSc [Mat] is its preallocation together with the finite set of
      entries put in by [MatSetValues]. *)

From Stdlib Require Import ZArith QArith Qround Qcanon Qcabs Lia Lqa Bool.
From stdpp Require Import base list gmap.

Local Open Scope Z_scope.

(** ** 32-bit signed arithmetic *)

Module Int.
Definition INT_MAX : Z := 2147483647.
Definition INT_MIN : Z := -2147483648.

Definition in_range (z : Z) : Prop := INT_MIN <= z <= INT_MAX.

Definition wrap (z : Z) : Z := (z + 2147483648) mod 4294967296 - 2147483648.

Definition add (a b : Z) : Z := wrap (a + b).
Definition sub (a b : Z) : Z := wrap (a - b).
Definition mul (a b : Z) : Z := wrap (a * b).
End Int.

(** ** Outcomes of code that can fail *)

Inductive failure : Type :=
| TboxError          (* TBOX_ERROR: the call aborts with a message *)
| AssertionFailure   (* a TBOX_ASSERT that fails, in a build that checks them *)
| LengthError.       (* a std::vector asked for a negative size *)

Inductive outcome (A : Type) : Type :=
| Returns (a : A)
| Fatal (e : failure)
| OutOfBounds (k : Z)     (* an array accessed at position k, outside its bounds *)
| OutOfFuel.              (* the bounded model of a loop ran out of steps *)
Arguments Returns {A} a.
Arguments Fatal {A} e.
Arguments OutOfBounds {A} k.
Arguments OutOfFuel {A}.

Definition obind {A B} (x : outcome A) (f : A -> outcome B) : outcome B :=
  match x with
  | Returns a => f a
  | Fatal e => Fatal e
  | OutOfBounds k => OutOfBounds k
  | OutOfFuel => OutOfFuel
  end.

Notation "'let*' x ':=' c1 'in' c2" := (obind c1 (fun x => c2))
  (at level 10, x pattern, c1 at level 100, c2 at level 200).

(** ** Index space: [Index<NDIM>] and [Box<NDIM>] *)

Definition Index := list Z.

Record Box : Type := mkBox { lower : Index; upper : Index }.

(** [Box::contains(idx)]: every component lies between the corners. *)
Fixpoint index_between (lo up i : Index) : bool :=
  match lo, up, i with
  | l :: lo', u :: up', x :: i' => (l <=? x) && (x <=? u) && index_between lo' up' i'
  | _, _, _ => true
  end.

Definition box_contains (b : Box) (i : Index) : bool :=
  index_between (lower b) (upper b) i.

(** The integers [lo], [lo + 1], ..., [hi]. *)
Definition zrange (lo hi : Z) : list Z :=
  map (fun k => lo + Z.of_nat k) (seq 0 (Z.to_nat (hi - lo + 1))).

(** [Box::Iterator]: all cells of the box, first coordinate fastest. *)
Fixpoint cells_between (lo up : Index) : list Index :=
  match lo, up with
  | l :: lo', u :: up' =>
      flat_map (fun rest => map (fun x => x :: rest) (zrange l u)) (cells_between lo' up')
  | _, _ => [[]]
  end.

Definition box_cells (b : Box) : list Index := cells_between (lower b) (upper b).

(** [i + offset] on indices. *)
Definition index_add (i j : Index) : Index := zip_with Int.add i j.

(** [CellGeometry::toCellBox] is the identity on boxes;
    [SideGeometry::toSideBox(box, axis)] has one more layer along [axis]. *)
Definition toCellBox (b : Box) : Box := b.
Definition toSideBox (b : Box) (axis : nat) : Box :=
  mkBox (lower b) (alter (fun u => Int.add u 1) axis (upper b)).

(** ** DOF partition: the index ranges of a process

    [std::accumulate(first, last, 0)] over [int]s. *)

Definition accumulate (l : list Z) (init : Z) : Z := fold_left Int.add l init.

Section DofPartition.
Variable num_dofs_per_proc : list Z.
Variable mpi_rank : nat.

(** [num_dofs_per_proc[mpi_rank]] *)
Definition n_local : Z := num_dofs_per_proc !!! mpi_rank.
Definition i_lower : Z := accumulate (take mpi_rank num_dofs_per_proc) 0.
Definition i_upper : Z := Int.add i_lower n_local.
Definition n_total : Z := accumulate num_dofs_per_proc 0.

(** The guard [i_lower <= dof_index && dof_index < i_upper]. *)
Definition is_local (dof_index : Z) : bool :=
  (i_lower <=? dof_index) && (dof_index <? i_upper).
End DofPartition.

(** The exact (unbounded) sum of a count vector, to say that the [int] sums
    of the code do not overflow. *)
Definition total_of (l : list Z) : Z := foldr Z.add 0 l.

(** ** [is_cf_bdry_idx]

<<
    bool contains_idx = false;
    int n_cf_bdry_boxes = static_cast<int>(cf_bdry_boxes.size());
    for (int k = 0; !contains_idx || k < n_cf_bdry_boxes; ++k)
        contains_idx = contains_idx || cf_bdry_boxes[k].contains(idx);
    return contains_idx;
>>
    One unit of fuel is one evaluation of the loop condition.  The right
    operand of [||] in the body is evaluated (and the vector read) only when
    [contains_idx] is false. *)

Fixpoint is_cf_bdry_idx_loop (fuel : nat) (idx : Index) (cf_bdry_boxes : list Box)
    (contains_idx : bool) (k : nat) : outcome bool :=
  match fuel with
  | O => OutOfFuel
  | S fuel' =>
      if negb contains_idx || (k <? length cf_bdry_boxes)%nat then
        if contains_idx then
          is_cf_bdry_idx_loop fuel' idx cf_bdry_boxes true (S k)
        else
          match cf_bdry_boxes !! k with
          | Some b => is_cf_bdry_idx_loop fuel' idx cf_bdry_boxes (box_contains b idx) (S k)
          | None => OutOfBounds (Z.of_nat k)
          end
      else Returns contains_idx
  end.

Definition is_cf_bdry_idx_fuel (fuel : nat) (idx : Index) (cf_bdry_boxes : list Box)
    : outcome bool :=
  is_cf_bdry_idx_loop fuel idx cf_bdry_boxes false 0.

(** The loop condition is evaluated at most [size + 1] times
    ([is_cf_bdry_idx_fuel_enough]). *)
Definition is_cf_bdry_idx (idx : Index) (cf_bdry_boxes : list Box) : outcome bool :=
  is_cf_bdry_idx_fuel (S (length cf_bdry_boxes)) idx cf_bdry_boxes.

(** Point-in-any-box: the index lies in some box of the list. *)
Definition in_any_box (idx : Index) (boxes : list Box) : bool :=
  existsb (fun b => box_contains b idx) boxes.

(** ** PETSc matrices

    [MatCreateAIJ(comm, m, n, M, N, d_nz, d_nnz, o_nz, o_nnz, &mat)] records
    the local sizes and the per-row budgets of the diagonal and off-diagonal
    blocks (a null pointer when there is no local row).  [MatSetValues] with
    [INSERT_VALUES] puts one value per column of the row; PETSc ignores a
    negative row or column index, and a second value for the same entry
    replaces the first. *)

Definition entry : Type := Z * Z * Qc.

Definition entry_at (r c : Z) (e : entry) : bool := (e.1.1 =? r) && (e.1.2 =? c).

Record Mat : Type := mkMat {
  mat_m_local : Z;
  mat_n_local : Z;
  mat_d_nnz : option (list Z);
  mat_o_nnz : option (list Z);
  mat_entries : list entry
}.

Definition MatCreateAIJ (m n : Z) (d_nnz o_nnz : option (list Z)) : Mat :=
  mkMat m n d_nnz o_nnz [].

Definition set_entry (es : list entry) (r c : Z) (v : Qc) : list entry :=
  if (r <? 0) || (c <? 0) then es
  else (r, c, v) :: List.filter (fun e => negb (entry_at r c e)) es.

Definition set_row (es : list entry) (row : Z) (cols : list Z) (vals : list Qc) : list entry :=
  fold_left (fun es cv => set_entry es row cv.1 cv.2) (zip cols vals) es.

(** [MatSetValues(mat, 1, &row, n, cols, vals, INSERT_VALUES)] *)
Definition MatSetValues (mat : Mat) (row : Z) (cols : list Z) (vals : list Qc) : Mat :=
  mkMat (mat_m_local mat) (mat_n_local mat) (mat_d_nnz mat) (mat_o_nnz mat)
        (set_row (mat_entries mat) row cols vals).

(** The entries after a sequence of [MatSetValues] calls, each given by its
    row, its columns and its values. *)
Definition assemble (steps : list (Z * list Z * list Qc)) (es : list entry) : list entry :=
  fold_left (fun es s => set_row es s.1.1 s.1.2 s.2) steps es.

(** A well-formed call of [MatSetValues]: a valid row, and valid, distinct
    columns, one value for each. *)
Definition step_ok (s : Z * list Z * list Qc) : Prop :=
  0 <= s.1.1 /\ Forall (fun c => 0 <= c) s.1.2 /\ NoDup s.1.2 /\ length s.1.2 = length s.2.

(** The entries of one row, as (column, value) pairs, and their sum. *)
Definition row_entries (es : list entry) (r : Z) : list (Z * Qc) :=
  map (fun e => (e.1.2, e.2)) (List.filter (fun e => e.1.1 =? r) es).

Definition row_cols (es : list entry) (r : Z) : list Z := map fst (row_entries es r).

Definition Qc_sum (l : list Qc) : Qc := foldr Qcplus 0%Qc l.

Definition row_sum (es : list entry) (r : Z) : Qc := Qc_sum (map snd (row_entries es r)).

(** The budget that a preallocation buffer gives to local row [k]. *)
Definition budget (b : option (list Z)) (k : Z) : option Z :=
  match b with Some v => v !! Z.to_nat k | None => None end.

(** [n ? &v[0] : NULL] *)
Definition buffer_or_null (n : Z) (v : list Z) : option (list Z) :=
  if n =? 0 then None else Some v.

(** [v[k] += 1] and [v[k] = std::min(bound, v[k])] on a vector of counters.
    The assemblers that use them index the counters with [dof_index -
    i_lower] for a DOF index that passed the range test, or with [NDIM * k +
    axis] for a local point [k]: positions inside the vector. *)
Definition incr (v : list Z) (k : Z) : list Z := alter (fun x => Int.add x 1) (Z.to_nat k) v.
Definition clamp (bound : Z) (v : list Z) (k : Z) : list Z := alter (Z.min bound) (Z.to_nat k) v.

(** [std::vector<int> v(n, 0)]: a negative [n] throws. *)
Definition new_counters (n : Z) : outcome (list Z) :=
  if n <? 0 then Fatal LengthError else Returns (replicate (Z.to_nat n) 0).

(** ** Cell-centred DOF index data

    One patch of a level, as the assemblers read it: its box, and the
    [CellData<NDIM,int>] of DOF indices (the accessor [dof_index_data(i, d)], defined
    on the box and its ghost cells; negative where masked). *)

Record CellPatch : Type := mkCellPatch {
  cp_box : Box;
  cp_depth : nat;
  cp_dof : Index -> nat -> Z
}.

(** The locations that the loops over a level visit: a local patch, a cell
    of its box, a component of its data. *)
Definition cell_location (level : list CellPatch) (p : CellPatch) (i : Index) (d : nat) : Prop :=
  In p level /\ In i (box_cells (toCellBox (cp_box p))) /\ (d < cp_depth p)%nat.

(** ** [constructPatchLevelCCLaplaceOp] *)

Section CCLaplaceOp.
Variable NDIM : nat.
(** [!defined(NDEBUG)]: whether [TBOX_ASSERT]s are compiled in. *)
Variable debug : bool.
(** [PoissonUtilities::computeMatrixCoefficients], supplied externally:
    the coefficient [matrix_coefs(i, k)] on a patch. *)
Variable computeMatrixCoefficients : CellPatch -> Index -> nat -> Qc.
(** [bc_coefs.size()] *)
Variable depth : nat.
Variable num_dofs_per_proc : list Z.
Variable mpi_rank : nat.
(** The local patches, in the order of [PatchLevel::Iterator]. *)
Variable patch_level : list CellPatch.

Definition stencil_sz : nat := 2 * NDIM + 1.

(** The finite difference stencil: the centre, then for each axis the
    lower and the upper neighbour. *)
Definition stencil : list Index :=
  replicate NDIM 0
    :: flat_map (fun axis => [ <[axis := -1]> (replicate NDIM 0);
                               <[axis := 1]> (replicate NDIM 0) ]) (seq 0 NDIM).

Abbreviation nl := (n_local num_dofs_per_proc mpi_rank).
Abbreviation lo := (i_lower num_dofs_per_proc mpi_rank).
Abbreviation nt := (n_total num_dofs_per_proc).
Abbreviation local := (is_local num_dofs_per_proc mpi_rank).

(** The DOF indices at the [2 * NDIM] neighbours, in stencil order. *)
Definition neighbor_dofs (p : CellPatch) (i : Index) (d : nat) : list Z :=
  map (fun s => cp_dof p (index_add i s) d) (drop 1 stencil).

(** One neighbour of the stencil: booked as local when its DOF index is in
    the range of this process, as remote otherwise. *)
Definition nbr_step (local_idx : Z) (st : list Z * list Z) (dof_index : Z)
    : list Z * list Z :=
  if (dof_index >=? lo) && (dof_index <? i_upper num_dofs_per_proc mpi_rank)
  then (incr st.1 local_idx, st.2)
  else (st.1, incr st.2 local_idx).

(** The body of the count loop for one owned location and component. *)
Definition count_row (st : list Z * list Z) (local_idx : Z) (nbrs : list Z)
    : list Z * list Z :=
  let st := (incr st.1 local_idx, st.2) in
  let st := fold_left (nbr_step local_idx) nbrs st in
  (clamp nl st.1 local_idx, clamp (Int.sub nt nl) st.2 local_idx).

Definition count_visit (st : list Z * list Z) (p : CellPatch) (i : Index) (d : nat)
    : list Z * list Z :=
  let dof_index := cp_dof p i d in
  if local dof_index
  then count_row st (Int.sub dof_index lo) (neighbor_dofs p i d)
  else st.

(** Determine the non-zero structure of the matrix. *)
Definition count_phase (st : list Z * list Z) : list Z * list Z :=
  fold_left (fun st p =>
    fold_left (fun st i =>
      fold_left (fun st d => count_visit st p i d) (seq 0 depth) st)
      (box_cells (toCellBox (cp_box p))) st)
    patch_level st.

(** The row handed to [MatSetValues] for one location and component. *)
Definition mat_cols (p : CellPatch) (i : Index) (d : nat) : list Z :=
  cp_dof p i d :: neighbor_dofs p i d.

Definition mat_vals (p : CellPatch) (i : Index) (d : nat) : list Qc :=
  map (fun k => computeMatrixCoefficients p i (d * stencil_sz + k)%nat) (seq 0 stencil_sz).

Definition value_visit (mat : Mat) (p : CellPatch) (i : Index) (d : nat) : Mat :=
  let dof_index := cp_dof p i d in
  if local dof_index
  then MatSetValues mat dof_index (mat_cols p i d) (mat_vals p i d)
  else mat.

(** Set the matrix coefficients. *)
Definition value_phase (mat : Mat) : Mat :=
  fold_left (fun mat p =>
    fold_left (fun mat i =>
      fold_left (fun mat d => value_visit mat p i d) (seq 0 depth) mat)
      (box_cells (toCellBox (cp_box p))) mat)
    patch_level mat.

Definition constructPatchLevelCCLaplaceOp : outcome Mat :=
  let* d_nnz := new_counters nl in
  let* o_nnz := new_counters nl in
  if debug && negb (forallb (fun p => Nat.eqb depth (cp_depth p)) patch_level)
  then Fatal AssertionFailure
  else
    let st := count_phase (d_nnz, o_nnz) in
    let mat := MatCreateAIJ nl nl (buffer_or_null nl st.1) (buffer_or_null nl st.2) in
    Returns (value_phase mat).

(** The locations the two loops visit, in order. *)
Definition visits : list (CellPatch * Index * nat) :=
  flat_map (fun p =>
    flat_map (fun i => map (fun d => (p, i, d)) (seq 0 depth))
             (box_cells (toCellBox (cp_box p)))) patch_level.

(** The row and the columns of one visit, and the columns handed to the
    matrix for row [r] over a list of visits. *)
Definition visit_row (v : CellPatch * Index * nat) : Z := cp_dof v.1.1 v.1.2 v.2.
Definition visit_cols (v : CellPatch * Index * nat) : list Z := mat_cols v.1.1 v.1.2 v.2.

Definition columns_offered (vs : list (CellPatch * Index * nat)) (r : Z) : list Z :=
  flat_map (fun v => if visit_row v =? r then visit_cols v else []) vs.

(** The stencil positions of row [r] that the count loop books as local
    and as remote. *)
Definition booked_local (vs : list (CellPatch * Index * nat)) (r : Z) : Z :=
  Z.of_nat (length (List.filter local (columns_offered vs r))).

Definition booked_remote (vs : list (CellPatch * Index * nat)) (r : Z) : Z :=
  Z.of_nat (length (List.filter (fun c => negb (local c)) (columns_offered vs r))).

Definition local_positions (r : Z) : Z := booked_local visits r.
Definition remote_positions (r : Z) : Z := booked_remote visits r.

(** The counters after the visits [vs] of the count loop. *)
Definition counters_after (vs : list (CellPatch * Index * nat)) (st : list Z * list Z) : Prop :=
  length st.1 = Z.to_nat nl /\ length st.2 = Z.to_nat nl /\
  forall j, 0 <= j < nl ->
    st.1 !! Z.to_nat j = Some (Z.min nl (booked_local vs (lo + j))) /\
    st.2 !! Z.to_nat j = Some (Z.min (nt - nl) (booked_remote vs (lo + j))).

(** The entries of the matrix after the visits [vs] of the value loop. *)
Definition entries_after (vs : list (CellPatch * Index * nat)) (es : list entry) : Prop :=
  NoDup (map fst es) /\
  forall r c x, In (r, c, x) es -> In c (columns_offered vs r) /\ 0 <= c.
End CCLaplaceOp.

(** ** Loops that can fail, and checked vector writes *)

Fixpoint ofold {A B} (f : A -> B -> outcome A) (l : list B) (a : A) : outcome A :=
  match l with
  | [] => Returns a
  | x :: l' => let* a' := f a x in ofold f l' a'
  end.

(** [v[k] = x]; outside the vector the write has no defined behaviour. *)
Definition checked_write (v : list Z) (k : Z) (x : Z) : outcome (list Z) :=
  if (0 <=? k) && (k <? Z.of_nat (length v))
  then Returns (<[Z.to_nat k := x]> v)
  else OutOfBounds k.

(** A read of a vector of doubles outside its bounds is given the value 0. *)
#[global] Instance Qc_inhabited : Inhabited Qc := populate 0%Qc.

(** [a <= b] on doubles. *)
Definition Qc_leb (a b : Qc) : bool := Qle_bool a b.

(** [static_cast<double>(z)] *)
Definition Z2Qc (z : Z) : Qc := Q2Qc (inject_Z z).

(** ** [IndexUtilities]

    [ibtk/IndexUtilities.h] is not among the sources.  The assemblers are
    embedded over its functions as parameters; where a property depends on
    what they return, they are the definitions below. *)

(** Modelled from the spec: [IndexUtilities::coarsen(i_fine, ratio)], which is
    missing from the sources, is the coarse cell containing the fine cell,
    found by integer-coarsening the fine index by the refinement ratio:
    each component is divided by the ratio, rounding down. *)
Definition IndexUtilities_coarsen (i_fine ratio : Index) : Index :=
  zip_with Z.div i_fine ratio.

(** Modelled from the spec: [IndexUtilities::refine(i_coarse, ratio)], which
    is missing from the sources, is the image of a coarse index under
    refinement: each component is multiplied by the ratio. *)
Definition IndexUtilities_refine (i_coarse ratio : Index) : Index :=
  zip_with Z.mul i_coarse ratio.

(** Modelled from the spec: [IndexUtilities::mapIndexToInteger(i, lower,
    num_cells, depth, offset)], which is missing from the sources, is a
    deterministic lexicographic (location, component) to integer formula:
    the first coordinate runs fastest, then the others, then the component. *)
Fixpoint lexicographic (i lower num_cells : Index) : Z * Z :=
  match i, lower, num_cells with
  | x :: i', l :: lower', n :: num_cells' =>
      let rest := lexicographic i' lower' num_cells' in
      ((x - l) + n * rest.1, n * rest.2)
  | _, _, _ => (0, 1)
  end.

Definition IndexUtilities_mapIndexToInteger
    (i lower num_cells : Index) (depth : nat) (offset : Z) : Z :=
  let lex := lexicographic i lower num_cells in
  lex.1 + Z.of_nat depth * lex.2 + offset.

(** Modelled from the spec: [IndexUtilities::getCellIndex(X, x_lower, x_upper,
    dx, domain_lower, domain_upper)], which is missing from the sources,
    locates the grid cell that contains the point [X]: in each direction the
    number of whole cells between the lower end of the domain and the point,
    counted from the lower index of the domain. *)
Definition IndexUtilities_getCellIndex
    (X x_lower x_upper dx : list Qc) (domain_lower domain_upper : Index) : Index :=
  zip_with (fun c l => Qfloor (this c) + l)
           (zip_with (fun xl h => (xl / h)%Qc) (zip_with Qcminus X x_lower) dx)
           domain_lower.

(** ** Side-centred DOF index data

    [SideData<NDIM,int>]: the accessor [dof_index_data(SideIndex(i, axis,
    Lower), d)] is [sp_dof axis i d]. *)

Record SidePatch : Type := mkSidePatch {
  sp_box : Box;
  sp_depth : nat;
  sp_dof : nat -> Index -> nat -> Z
}.

(** ** [constructProlongationOp_cell] and [constructProlongationOp_side] *)

Section ProlongationOp.
Variable NDIM : nat.
Variable debug : bool.
(** [IndexUtilities::coarsen], [IndexUtilities::refine] and
    [IndexUtilities::mapIndexToInteger] are declared in
    [ibtk/IndexUtilities.h], which is not among the sources. *)
Variable coarsen : Index -> Index -> Index.
Variable refine : Index -> Index -> Index.
Variable mapIndexToInteger : Index -> Index -> Index -> nat -> Z -> Z.
(** [AOApplicationToPetsc(coarse_level_ao, n, ia)] replaces every [ia[k]]
    by its image under the application ordering. *)
Variable coarse_level_ao : Z -> Z.
Variable coarse_ao_offset : Z.
Variable num_fine_dofs_per_proc : list Z.
Variable num_coarse_dofs_per_proc : list Z.
Variable mpi_rank : nat.
(** [getPhysicalDomain()] and [getRatio()] of the two levels. *)
Variable coarse_domain_boxes : list Box.
Variable fine_domain_boxes : list Box.
Variable coarse_ratio : Index.
Variable fine_ratio : Index.

Abbreviation m_local := (n_local num_fine_dofs_per_proc mpi_rank).
Abbreviation i_fine_lower := (i_lower num_fine_dofs_per_proc mpi_rank).
Abbreviation i_fine_upper := (i_upper num_fine_dofs_per_proc mpi_rank).
Abbreviation j_coarse_lower := (i_lower num_coarse_dofs_per_proc mpi_rank).
Abbreviation j_coarse_upper := (i_upper num_coarse_dofs_per_proc mpi_rank).

(** [fine_ratio / coarse_ratio], component by component. *)
Definition fine_coarse_ratio : Index := zip_with Z.quot fine_ratio coarse_ratio.

(** [domain_boxes[0]], after [TBOX_ASSERT(domain_boxes.size() == 1)]. *)
Definition the_domain_box (boxes : list Box) : outcome Box :=
  match boxes with
  | [b] => Returns b
  | [] => if debug then Fatal AssertionFailure else OutOfBounds 0
  | b :: _ => if debug then Fatal AssertionFailure else Returns b
  end.

(** The test [col >= j_coarse_lower && col < j_coarse_upper]. *)
Definition on_proc_coarse (col : Z) : bool :=
  (col >=? j_coarse_lower) && (col <? j_coarse_upper).

(** *** Cell-centred data *)

Section Cell.
Variable fine_patch_level : list CellPatch.
Variable coarse_domain : Box.

(** [coarse_num_cells = 1; coarse_num_cells += upper - lower] *)
Definition cell_coarse_num_cells : Index :=
  zip_with (fun u l => Int.add 1 (Int.sub u l)) (upper coarse_domain) (lower coarse_domain).

(** [samrai_petsc_map] for the fine cell [i_fine], after
    [AOApplicationToPetsc]. *)
Definition cell_samrai_petsc_map (depth : nat) (i_fine : Index) : list Z :=
  let i_coarse := coarsen i_fine fine_coarse_ratio in
  map coarse_level_ao
      (map (fun d => mapIndexToInteger i_coarse (lower coarse_domain)
                       cell_coarse_num_cells d coarse_ao_offset)
           (seq 0 depth)).

(** The count loop for one fine cell. *)
Definition cell_count_cell (st : list Z * list Z) (p : CellPatch) (i_fine : Index)
    : outcome (list Z * list Z) :=
  let rows := map (fun d => cp_dof p i_fine d) (seq 0 (cp_depth p)) in
  if debug && negb (forallb (is_local num_fine_dofs_per_proc mpi_rank) rows)
  then Fatal AssertionFailure
  else
    let local_row := map (fun r => Int.sub r i_fine_lower) rows in
    ofold (fun st rc =>
             if on_proc_coarse rc.2
             then let* d := checked_write st.1 rc.1 1 in Returns (d, st.2)
             else let* o := checked_write st.2 rc.1 1 in Returns (st.1, o))
          (zip local_row (cell_samrai_petsc_map (cp_depth p) i_fine)) st.

Definition cell_count_phase (st : list Z * list Z) : outcome (list Z * list Z) :=
  ofold (fun st p => ofold (fun st i => cell_count_cell st p i)
                           (box_cells (toCellBox (cp_box p))) st)
        fine_patch_level st.

(** The value loop for one fine cell: one entry, of value 1, per component. *)
Definition cell_value_cell (mat : Mat) (p : CellPatch) (i_fine : Index) : Mat :=
  fold_left (fun mat dc => MatSetValues mat (cp_dof p i_fine dc.1) [dc.2] [1%Qc])
            (zip (seq 0 (cp_depth p)) (cell_samrai_petsc_map (cp_depth p) i_fine)) mat.

Definition cell_value_phase (mat : Mat) : Mat :=
  fold_left (fun mat p => fold_left (fun mat i => cell_value_cell mat p i)
                                    (box_cells (toCellBox (cp_box p))) mat)
            fine_patch_level mat.

(** The column of component [d] of the fine cell [i_fine]: the DOF of the
    coarse cell [coarsen(i_fine, ratio)], through the application ordering. *)
Definition cell_column (i_fine : Index) (d : nat) : Z :=
  coarse_level_ao
    (mapIndexToInteger (coarsen i_fine fine_coarse_ratio) (lower coarse_domain)
                       cell_coarse_num_cells d coarse_ao_offset).

(** The calls of [MatSetValues] that the value loop makes, in order. *)
Definition cell_steps : list (Z * list Z * list Qc) :=
  flat_map (fun p =>
    flat_map (fun i => map (fun d => (cp_dof p i d, [cell_column i d], [1%Qc]))
                           (seq 0 (cp_depth p)))
             (box_cells (toCellBox (cp_box p))))
    fine_patch_level.
End Cell.

Definition constructProlongationOp_cell (fine_patch_level : list CellPatch) : outcome Mat :=
  let* coarse_domain := the_domain_box coarse_domain_boxes in
  let* d_nnz := new_counters m_local in
  let* o_nnz := new_counters m_local in
  let* st := cell_count_phase fine_patch_level coarse_domain (d_nnz, o_nnz) in
  let mat := MatCreateAIJ m_local (n_local num_coarse_dofs_per_proc mpi_rank)
               (buffer_or_null m_local st.1) (buffer_or_null m_local st.2) in
  Returns (cell_value_phase fine_patch_level coarse_domain mat).

(** *** Side-centred data *)

Section Side.
Variable fine_patch_level : list SidePatch.
Variable coarse_domain : Box.

(** [coarse_num_cells[d] = upper - lower + offset], where [offset] is 1
    except for a 2 at component [d]. *)
Definition side_coarse_num_cells (d : nat) : Index :=
  zip_with Int.add
    (zip_with Int.sub (upper coarse_domain) (lower coarse_domain))
    (<[d := 2]> (replicate NDIM 1)).

(** [data_offset]: the DOFs of the components before [axis]. *)
Definition data_offset (depth : nat) (axis : nat) : Z :=
  fold_left (fun data_offset side =>
               Int.add data_offset
                 (fold_left Int.mul (side_coarse_num_cells side) (Z.of_nat depth)))
            (seq 0 axis) 0.

(** The two bracketing coarse indices [I_L] and [I_U = I_L + offset]. *)
Definition bracket_lower (i : Index) : Index := coarsen i fine_coarse_ratio.
Definition bracket_upper (axis : nat) (i : Index) : Index :=
  index_add (bracket_lower i) (<[axis := 1]> (replicate NDIM 0)).

Definition side_column (depth axis : nat) (I : Index) (d : nat) : Z :=
  coarse_level_ao
    (mapIndexToInteger I (lower coarse_domain) (side_coarse_num_cells axis) d
                       (Int.add coarse_ao_offset (data_offset depth axis))).

(** [samrai_petsc_map[d]] and [samrai_petsc_map[depth + d]]. *)
Definition col_lower (depth axis : nat) (i : Index) (d : nat) : Z :=
  side_column depth axis (bracket_lower i) d.
Definition col_upper (depth axis : nat) (i : Index) (d : nat) : Z :=
  side_column depth axis (bracket_upper axis i) d.

(** [on_proc_fine_loc]: every component of the fine location is owned. *)
Definition on_proc_fine_loc (p : SidePatch) (axis : nat) (i : Index) : bool :=
  forallb (fun d => is_local num_fine_dofs_per_proc mpi_rank (sp_dof p axis i d))
          (seq 0 (sp_depth p)).

Definition side_count_component (p : SidePatch) (axis : nat) (i : Index)
    (st : list Z * list Z) (d : nat) : list Z * list Z :=
  let local_row := Z.to_nat (Int.sub (sp_dof p axis i d) i_fine_lower) in
  let st := if on_proc_coarse (col_lower (sp_depth p) axis i d)
            then (<[local_row := 1]> st.1, st.2)
            else (st.1, <[local_row := 1]> st.2) in
  if on_proc_coarse (col_upper (sp_depth p) axis i d)
  then (alter (fun x => Int.add x 1) local_row st.1, st.2)
  else (st.1, alter (fun x => Int.add x 1) local_row st.2).

Definition side_count_phase (st : list Z * list Z) : list Z * list Z :=
  fold_left (fun st p =>
    fold_left (fun st axis =>
      fold_left (fun st i =>
        if on_proc_fine_loc p axis i
        then fold_left (side_count_component p axis i) (seq 0 (sp_depth p)) st
        else st)
        (box_cells (toSideBox (sp_box p) axis)) st)
      (seq 0 NDIM) st)
    fine_patch_level st.

(** [w_L = 1 - (i(axis) - refine(I_L, ratio)(axis)) / ratio(axis)] *)
Definition w_L (axis : nat) (i : Index) : Qc :=
  (1 - (Z2Qc (i !!! axis) - Z2Qc (refine (bracket_lower i) fine_coarse_ratio !!! axis))
       / Z2Qc (fine_coarse_ratio !!! axis))%Qc.

Definition col_val (axis : nat) (i : Index) : list Qc :=
  [w_L axis i; (1 - w_L axis i)%Qc].

Definition side_value_component (p : SidePatch) (axis : nat) (i : Index)
    (mat : Mat) (d : nat) : Mat :=
  MatSetValues mat (sp_dof p axis i d)
               [col_lower (sp_depth p) axis i d; col_upper (sp_depth p) axis i d]
               (col_val axis i).

Definition side_value_phase (mat : Mat) : Mat :=
  fold_left (fun mat p =>
    fold_left (fun mat axis =>
      fold_left (fun mat i =>
        if on_proc_fine_loc p axis i
        then fold_left (side_value_component p axis i) (seq 0 (sp_depth p)) mat
        else mat)
        (box_cells (toSideBox (sp_box p) axis)) mat)
      (seq 0 NDIM) mat)
    fine_patch_level mat.

(** The calls of [MatSetValues] that the value loop makes, in order. *)
Definition side_steps : list (Z * list Z * list Qc) :=
  flat_map (fun p =>
    flat_map (fun axis =>
      flat_map (fun i =>
        if on_proc_fine_loc p axis i
        then map (fun d => (sp_dof p axis i d,
                            [col_lower (sp_depth p) axis i d; col_upper (sp_depth p) axis i d],
                            col_val axis i))
                 (seq 0 (sp_depth p))
        else [])
        (box_cells (toSideBox (sp_box p) axis)))
      (seq 0 NDIM))
    fine_patch_level.

(** The fine locations that the loops treat: a local patch, an axis, a side
    of the patch along that axis all of whose components are owned, and a
    component. *)
Definition side_location (p : SidePatch) (axis : nat) (i : Index) (d : nat) : Prop :=
  In p fine_patch_level /\ (axis < NDIM)%nat
  /\ In i (box_cells (toSideBox (sp_box p) axis))
  /\ on_proc_fine_loc p axis i = true /\ (d < sp_depth p)%nat.
End Side.

Definition constructProlongationOp_side (fine_patch_level : list SidePatch) : outcome Mat :=
  let* coarse_domain := the_domain_box coarse_domain_boxes in
  let* fine_domain := the_domain_box fine_domain_boxes in
  let* d_nnz := new_counters m_local in
  let* o_nnz := new_counters m_local in
  let st := side_count_phase fine_patch_level coarse_domain (d_nnz, o_nnz) in
  let mat := MatCreateAIJ m_local (n_local num_coarse_dofs_per_proc mpi_rank)
               (buffer_or_null m_local st.1) (buffer_or_null m_local st.2) in
  Returns (side_value_phase fine_patch_level coarse_domain mat).
End ProlongationOp.

(** ** [constructRestrictionScalingOp] *)

Section RestrictionScaling.
(** [MathUtilities<double>::equalEps] of SAMRAI: whether two doubles are
    equal up to a tolerance. *)
Variable equalEps : Qc -> Qc -> bool.

(** [a / b] on doubles.  [None] stands for a result that is not a finite
    number (an infinity or a NaN), which is what a zero divisor gives. *)
Definition double_div (a b : Qc) : option Qc :=
  if Qc_eq_bool b 0 then None else Some (a / b)%Qc.

(** [MatGetColumnNorms(P, NORM_1, norms)]: for each of the [N] columns of
    [P], the sum of the absolute values of its entries. *)
Definition column_norm (P : list entry) (k : Z) : Qc :=
  Qc_sum (map (fun e => Qcabs e.2) (List.filter (fun e => e.1.2 =? k) P)).

Definition MatGetColumnNorms (P : list entry) (N : Z) : list Qc :=
  map (column_norm P) (zrange 0 (N - 1)).

(** The body of the loop over the columns:
<<
    if (!MathUtilities<double>::equalEps(sum, 0.0)) column_sum_inv[k] = 1.0 / sum;
    else column_sum_inv[k] = 0.0;
>> *)
Definition invert_norm (sum : Qc) : option Qc :=
  if negb (equalEps sum 0) then double_div 1 sum else Some 0%Qc.

Definition column_sum_inv (P : list entry) (N : Z) : list (option Qc) :=
  map invert_norm (MatGetColumnNorms P N).

(** The values put into [L] for the owned range [[ilower, iupper)]: index
    [k] gets [column_sum_inv[k]] (the outer [None] is a read outside the
    vector). *)
Definition constructRestrictionScalingOp (P : list entry) (N ilower iupper : Z)
    : list (Z * option (option Qc)) :=
  let inv := column_sum_inv P N in
  let num_elems := Int.sub iupper ilower in
  if num_elems =? 0 then []
  else map (fun k => (k, inv !! Z.to_nat k)) (zrange ilower (iupper - 1)).
End RestrictionScaling.

(** ** PETSc index sets

    An [IS] is a handle to a reference-counted object that holds a list of
    indices.  The heap lists the objects created so far; a handle is the
    position of its object. *)

Record ISObject : Type := mkIS { is_indices : list Z; is_refct : nat }.

Definition IS : Type := nat.

(** [ISCreateGeneral(comm, n, idx, PETSC_COPY_VALUES, &is)] makes a new
    object, referenced once. *)
Definition ISCreateGeneral (heap : list ISObject) (idx : list Z) : list ISObject * IS :=
  (heap ++ [mkIS idx 1], length heap).

(** [PetscObjectReference(obj)] adds a reference to an existing object. *)
Definition PetscObjectReference (heap : list ISObject) (h : IS) : list ISObject :=
  alter (fun o => mkIS (is_indices o) (S (is_refct o))) h heap.

(** [std::sort] and [std::unique] on vectors of [int]. *)
Fixpoint insert_sorted (x : Z) (l : list Z) : list Z :=
  match l with
  | [] => [x]
  | y :: l' => if x <=? y then x :: l else y :: insert_sorted x l'
  end.

Definition sort (l : list Z) : list Z := foldr insert_sorted [] l.

Fixpoint unique (l : list Z) : list Z :=
  match l with
  | x :: ((y :: _) as l') => if x =? y then unique l' else x :: unique l'
  | _ => l
  end.

(** [IntVector::max()] *)
Definition IntVector_max (v : Index) : Z :=
  match v with
  | [] => 0
  | x :: v' => fold_left Z.max v' x
  end.

(** ** [constructPatchLevelASMSubdomains_cell] and [_side]

    The two private functions are called by
    [constructPatchLevelASMSubdomains], which first destroys the sets of the
    two vectors and clears them; [resize] then fills them with null
    handles. *)

(** The two vectors of index sets under construction (a null handle is
    [None]), the heap of index-set objects, and [subdomain_counter]. *)
Record asm_state : Type := mkAsm {
  asm_heap : list ISObject;
  is_overlap : list (option IS);
  is_nonoverlap : list (option IS);
  subdomain_counter : nat
}.

(** The first [n] overlapping sets are the very objects of the
    non-overlapping sets: slot by slot the same handle, to an object that is
    referenced twice. *)
Definition sets_shared (st : asm_state) (n : nat) : Prop :=
  length (is_overlap st) = n /\ length (is_nonoverlap st) = n /\
  forall k, (k < n)%nat ->
    exists h o, is_overlap st !! k = Some (Some h)
                /\ is_nonoverlap st !! k = Some (Some h)
                /\ asm_heap st !! h = Some o /\ is_refct o = 2%nat.

(** The state of the fill loop with [r] of the [n] sub-boxes still to come:
    the sets made so far are shared. *)
Definition shared_so_far (n r : nat) (st : asm_state) : Prop :=
  (subdomain_counter st + r = n)%nat
  /\ length (is_overlap st) = n /\ length (is_nonoverlap st) = n
  /\ forall k, (k < subdomain_counter st)%nat ->
       exists h o, is_overlap st !! k = Some (Some h)
                   /\ is_nonoverlap st !! k = Some (Some h)
                   /\ asm_heap st !! h = Some o /\ is_refct o = 2%nat.

(** A boundary box of the coarse-fine boundary, and what the assembler
    reads of the geometry of a patch. *)
Record BoundaryBox : Type := mkBoundaryBox { getBox : Box; getLocationIndex : nat }.

Record PatchGeometry : Type := mkPatchGeometry {
  intersectsPhysicalBoundary : bool;
  getTouchesRegularBoundary : nat -> nat -> bool
}.

Definition LOWER : nat := 0.
Definition UPPER : nat := 1.

Section ASMSubdomains.
Variable NDIM : nat.
Variable debug : bool.
(** [IndexUtilities::partitionPatchBox(overlap_boxes, nonoverlap_boxes,
    patch_box, box_size, overlap_size)], not among the sources: the
    overlapping and the non-overlapping sub-boxes of a patch box. *)
Variable partitionPatchBox : Box -> Index -> Index -> list Box * list Box.
Variable box_size : Index.
Variable overlap_size : Index.

(** [const bool there_is_overlap = overlap_size.max();] *)
Definition there_is_overlap : bool := negb (IntVector_max overlap_size =? 0).

Definition overlap_boxes (patch_box : Box) : list Box :=
  (partitionPatchBox patch_box box_size overlap_size).1.
Definition nonoverlap_boxes (patch_box : Box) : list Box :=
  (partitionPatchBox patch_box box_size overlap_size).2.

(** The end of the loop body for one sub-box, the same in the two
    variants: the non-overlapping set is created from the sorted local
    DOFs; without overlap the overlapping set is that same object, with one
    more reference; with overlap it is a second object, made from the
    sorted DOFs of the overlapping box without repetitions.  The handles
    are written to the slot [subdomain_counter] of the two vectors, which
    have the size that [resize] gave them. *)
Definition make_subdomain_sets (st : asm_state) (box_local_dofs : list Z)
    (box_overlap_dofs : outcome (list Z)) : outcome asm_state :=
  let k := subdomain_counter st in
  if (length (is_nonoverlap st) <=? k)%nat then OutOfBounds (Z.of_nat k)
  else
    let (heap, is_local) := ISCreateGeneral (asm_heap st) (sort box_local_dofs) in
    let nonoverlap := <[k := Some is_local]> (is_nonoverlap st) in
    if negb there_is_overlap then
      let heap := match nonoverlap !!! k with
                  | Some h => PetscObjectReference heap h
                  | None => heap
                  end in
      if (length (is_overlap st) <=? k)%nat then OutOfBounds (Z.of_nat k)
      else Returns (mkAsm heap (<[k := nonoverlap !!! k]> (is_overlap st)) nonoverlap (S k))
    else
      let* dofs := box_overlap_dofs in
      let (heap, is_ovl) := ISCreateGeneral heap (unique (sort dofs)) in
      if (length (is_overlap st) <=? k)%nat then OutOfBounds (Z.of_nat k)
      else Returns (mkAsm heap (<[k := Some is_ovl]> (is_overlap st)) nonoverlap (S k)).

(** [v[i]] on a vector of boxes. *)
Definition box_at (v : list Box) (i : nat) : outcome Box :=
  match v !! i with
  | Some b => Returns b
  | None => OutOfBounds (Z.of_nat i)
  end.

(** *** Cell-centred data *)

Section CellSubdomains.
Variable patch_level : list CellPatch.
(** [dof_data->getGhostCellWidth().min()] *)
Variable cell_ghost_width_min : CellPatch -> Z.

Definition cell_box_dofs (p : CellPatch) (b : Box) : list Z :=
  flat_map (fun i => map (fun d => cp_dof p i d) (seq 0 (cp_depth p))) (box_cells b).

Definition cell_subdomain (p : CellPatch) (st : asm_state) (i : nat) : outcome asm_state :=
  let* box_local := box_at (nonoverlap_boxes (cp_box p)) i in
  make_subdomain_sets st (cell_box_dofs p box_local)
    (let* box_overlap := box_at (overlap_boxes (cp_box p)) i in
     Returns (List.filter (fun dof_idx => dof_idx >=? 0) (cell_box_dofs p box_overlap))).

Definition cell_patch_subdomains (st : asm_state) (p : CellPatch) : outcome asm_state :=
  if debug && negb (cell_ghost_width_min p >=? IntVector_max overlap_size)
  then Fatal AssertionFailure
  else ofold (cell_subdomain p) (seq 0 (length (overlap_boxes (cp_box p)))) st.

(** The number of sub-boxes of the level: the last value of
    [subdomain_counter] in the first loop. *)
Definition cell_subdomain_count : nat :=
  fold_left (fun n p => (n + length (overlap_boxes (cp_box p)))%nat) patch_level 0%nat.

Definition constructPatchLevelASMSubdomains_cell (heap : list ISObject) : outcome asm_state :=
  let n := cell_subdomain_count in
  ofold cell_patch_subdomains patch_level
        (mkAsm heap (replicate n None) (replicate n None) 0).
End CellSubdomains.

(** *** Side-centred data *)

Section SideSubdomains.
Variable patch_level : list SidePatch.
Variable side_ghost_width_min : SidePatch -> Z.
Variable getPatchGeometry : SidePatch -> PatchGeometry.
(** [patch_level->getLevelNumber()] and
    [cf_boundary->getBoundaries(patch->getPatchNumber(), 1)]. *)
Variable level_num : Z.
Variable getBoundaries : SidePatch -> list BoundaryBox.

Definition cf_codim1_boxes (p : SidePatch) : list BoundaryBox :=
  if level_num =? 0 then [] else getBoundaries p.

Definition patch_touches_cf_bdry (p : SidePatch) : bool :=
  negb (Nat.eqb (length (cf_codim1_boxes p)) 0).

(** [touches_cf_bdry[axis][side]] after the loop over the boundary boxes. *)
Definition touches_cf_bdry (p : SidePatch) (axis side : nat) : bool :=
  existsb (fun bb => Nat.eqb (getLocationIndex bb / 2) axis
                     && Nat.eqb (getLocationIndex bb mod 2) side)
          (cf_codim1_boxes p).

(** [upper_side_cf_bdry_box[axis]] after the loop over the boundary boxes. *)
Definition upper_side_cf_bdry_box (p : SidePatch) (axis : nat) : list Box :=
  map getBox
      (List.filter (fun bb => Nat.eqb (getLocationIndex bb mod 2) UPPER
                              && Nat.eqb (getLocationIndex bb / 2) axis)
                   (cf_codim1_boxes p)).

(** Whether the side [i] of axis [axis] belongs to the sub-box. *)
Definition side_is_local (p : SidePatch) (axis : nat) (i : Index) : outcome bool :=
  let at_upper_bdry := (i !!! axis) =? (upper (toSideBox (sp_box p) axis) !!! axis) in
  let at_upper_physical_bdry :=
    at_upper_bdry && intersectsPhysicalBoundary (getPatchGeometry p)
    && getTouchesRegularBoundary (getPatchGeometry p) axis UPPER in
  let* at_upper_cf_bdry :=
    if at_upper_bdry && patch_touches_cf_bdry p && touches_cf_bdry p axis UPPER
    then is_cf_bdry_idx i (upper_side_cf_bdry_box p axis)
    else Returns false in
  Returns (negb at_upper_bdry || at_upper_physical_bdry || at_upper_cf_bdry).

(** Get the local DOFs. *)
Definition side_local_dofs (p : SidePatch) (box_local : Box) : outcome (list Z) :=
  ofold (fun dofs axis =>
           ofold (fun dofs i =>
                    let* keep := side_is_local p axis i in
                    Returns (if keep then dofs ++ [sp_dof p axis i 0%nat] else dofs))
                 (box_cells (toSideBox box_local axis)) dofs)
        (seq 0 NDIM) [].

Definition side_overlap_dofs (p : SidePatch) (box_overlap : Box) : list Z :=
  List.filter (fun dof_idx => dof_idx >=? 0)
    (flat_map (fun axis => map (fun i => sp_dof p axis i 0%nat)
                               (box_cells (toSideBox box_overlap axis)))
              (seq 0 NDIM)).

Definition side_subdomain (p : SidePatch) (st : asm_state) (i : nat) : outcome asm_state :=
  let* box_local := box_at (nonoverlap_boxes (sp_box p)) i in
  let* box_local_dofs := side_local_dofs p box_local in
  make_subdomain_sets st box_local_dofs
    (let* box_overlap := box_at (overlap_boxes (sp_box p)) i in
     Returns (side_overlap_dofs p box_overlap)).

Definition side_patch_subdomains (st : asm_state) (p : SidePatch) : outcome asm_state :=
  if debug && negb (Nat.eqb (sp_depth p) 1
                    && (side_ghost_width_min p >=? IntVector_max overlap_size))
  then Fatal AssertionFailure
  else ofold (side_subdomain p) (seq 0 (length (nonoverlap_boxes (sp_box p)))) st.

Definition side_subdomain_count : nat :=
  fold_left (fun n p => (n + length (overlap_boxes (sp_box p)))%nat) patch_level 0%nat.

Definition constructPatchLevelASMSubdomains_side (heap : list ISObject) : outcome asm_state :=
  let n := side_subdomain_count in
  ofold side_patch_subdomains patch_level
        (mkAsm heap (replicate n None) (replicate n None) 0).
End SideSubdomains.
End ASMSubdomains.

(** ** [constructPatchLevelSCInterpOp] *)

(** [Box::intersects], [Box::grow(IntVector(1))], [Box::empty] and
    [Box::contains(Box)] of SAMRAI. *)
Fixpoint ranges_meet (lo1 up1 lo2 up2 : Index) : bool :=
  match lo1, up1, lo2, up2 with
  | l1 :: lo1', u1 :: up1', l2 :: lo2', u2 :: up2' =>
      (Z.max l1 l2 <=? Z.min u1 u2) && ranges_meet lo1' up1' lo2' up2'
  | _, _, _, _ => true
  end.

Definition box_intersects (a b : Box) : bool :=
  ranges_meet (lower a) (upper a) (lower b) (upper b).

Definition box_grow (b : Box) (g : Z) : Box :=
  mkBox (map (fun l => Int.sub l g) (lower b)) (map (fun u => Int.add u g) (upper b)).

Definition box_empty (b : Box) : bool :=
  existsb (fun lu => lu.2 <? lu.1) (zip (lower b) (upper b)).

Definition box_contains_box (a b : Box) : bool :=
  box_empty b || (box_contains a (lower b) && box_contains a (upper b)).

(** [BoxTree::findOverlapIndices(result, box)]: the numbers of the patches of
    the level whose boxes meet [box]. *)
Definition findOverlapIndices (patch_level : list SidePatch) (box : Box) : list nat :=
  List.filter (fun n => match patch_level !! n with
                        | Some p => box_intersects (sp_box p) box
                        | None => false
                        end)
              (seq 0 (length patch_level)).

Section SCInterpOp.
Variable NDIM : nat.
Variable debug : bool.
(** The kernel [interp_fcn(r_lower, w)]: the weights that it writes to
    [w[0], w[1], ...] for the offset [r_lower]. *)
Variable interp_fcn : Qc -> list Qc.
(** [IndexUtilities::getCellIndex(X, x_lower, x_upper, dx, domain_lower,
    domain_upper)], not among the sources. *)
Variable getCellIndex : list Qc -> list Qc -> list Qc -> list Qc -> Index -> Index -> Index.
(** The grid geometry and the level. *)
Variable x_lower : list Qc.
Variable x_upper : list Qc.
Variable dx0 : list Qc.
Variable ratio : Index.
Variable domain_boxes : list Box.
Variable patch_level : list SidePatch.
Variable getGhostBox : SidePatch -> Box.
(** The local array of [X_vec] and the start of its ownership range. *)
Variable X_arr : list Qc.
Variable X_i_lower : Z.
Variable num_dofs_per_proc : list Z.
Variable mpi_rank : nat.

(** [if (interp_stencil % 2 != 0) interp_stencil += 1;] *)
Definition round_up_to_even (interp_stencil : Z) : Z :=
  if negb (Z.rem interp_stencil 2 =? 0) then Int.add interp_stencil 1 else interp_stencil.

(** [dx[d] = dx0[d] / ratio(d)] *)
Definition dx : list Qc := zip_with (fun h r => (h / Z2Qc r)%Qc) dx0 ratio.

Definition m_local_X : Z := Z.of_nat (length X_arr).
Definition n_local_points : Z := Z.quot m_local_X (Z.of_nat NDIM).

(** [X = &X_arr[NDIM * k]] *)
Definition point (k : nat) : list Qc := take NDIM (drop (NDIM * k) X_arr).

Section WithDomain.
Variable domain : Box.
(** The stencil width after the rounding at the head of the function. *)
Variable interp_stencil : Z.

Definition X_idx (k : nat) : Index :=
  getCellIndex (point k) x_lower x_upper dx (lower domain) (upper domain).

(** The centre of the cell that contains the point. *)
Definition X_cell (k : nat) : list Qc :=
  map (fun d => ((Z2Qc (Int.sub (X_idx k !!! d) (lower domain !!! d)) + Q2Qc (1 # 2))
                 * (dx !!! d) + (x_lower !!! d))%Qc)
      (seq 0 NDIM).

(** Find a patch that contains the point: the cell itself, and if no patch
    meets it, the cell grown by one, once. *)
Definition locate_patch (k : nat) : outcome nat :=
  let box := mkBox (X_idx k) (X_idx k) in
  let patch_num_arr := findOverlapIndices patch_level box in
  let* patch_num_arr :=
    match patch_num_arr with
    | [] =>
        let patch_num_arr := findOverlapIndices patch_level (box_grow box 1) in
        if debug && Nat.eqb (length patch_num_arr) 0
        then Fatal AssertionFailure
        else Returns patch_num_arr
    | _ => Returns patch_num_arr
    end in
  match patch_num_arr with
  | n :: _ => Returns n
  | [] => OutOfBounds 0
  end.

(** The stencil box of point [k] for the component [axis]. *)
Definition stencil_box_lower (k axis : nat) : Index :=
  map (fun d =>
         let x := X_idx k !!! d in
         let half := Z.quot interp_stencil 2 in
         if Nat.eqb d axis then Int.add (Int.sub x half) 1
         else if Qc_leb (point k !!! d) (X_cell k !!! d) then Int.sub x half
         else Int.add (Int.sub x half) 1)
      (seq 0 NDIM).

Definition stencil_box_upper (k axis : nat) : Index :=
  map (fun d =>
         let x := X_idx k !!! d in
         let half := Z.quot interp_stencil 2 in
         if Nat.eqb d axis then Int.add x half
         else if Qc_leb (point k !!! d) (X_cell k !!! d) then Int.sub (Int.add x half) 1
         else Int.add x half)
      (seq 0 NDIM).

Definition stencil_box (k axis : nat) : Box :=
  mkBox (stencil_box_lower k axis) (stencil_box_upper k axis).

(** The DOF indices over the stencil box, in the order of its iterator. *)
Definition stencil_box_cols (p : SidePatch) (k axis : nat) : list Z :=
  map (fun b => sp_dof p axis b 0%nat) (box_cells (stencil_box k axis)).

(** The count loop over the stencil box of one row. *)
Definition interp_count_row (st : list Z * list Z) (local_idx : Z) (cols : list Z)
    : list Z * list Z :=
  let st := fold_left (fun st dof_index =>
              if (dof_index >=? i_lower num_dofs_per_proc mpi_rank)
                 && (dof_index <? i_upper num_dofs_per_proc mpi_rank)
              then (incr st.1 local_idx, st.2)
              else (st.1, incr st.2 local_idx)) cols st in
  (clamp (n_local num_dofs_per_proc mpi_rank) st.1 local_idx,
   clamp (Int.sub (n_total num_dofs_per_proc) (n_local num_dofs_per_proc mpi_rank))
         st.2 local_idx).

Definition interp_count_axis (p : SidePatch) (k : nat) (st : list Z * list Z) (axis : nat)
    : outcome (list Z * list Z) :=
  if negb (Z.rem interp_stencil 2 =? 0) then Fatal TboxError
  else if debug && negb (box_contains_box (toSideBox (getGhostBox p) axis) (stencil_box k axis))
  then Fatal AssertionFailure
  else
    let local_idx := Int.add (Int.mul (Z.of_nat NDIM) (Z.of_nat k)) (Z.of_nat axis) in
    Returns (interp_count_row st local_idx (stencil_box_cols p k axis)).

(** The first loop, for the point [k]: [patch_num[k]] and the counters. *)
Definition interp_count_point (st : list nat * (list Z * list Z)) (k : nat)
    : outcome (list nat * (list Z * list Z)) :=
  let* n := locate_patch k in
  match patch_level !! n with
  | None => OutOfBounds (Z.of_nat n)
  | Some p =>
      if debug && negb (Nat.eqb (sp_depth p) 1) then Fatal AssertionFailure
      else
        let* counters := ofold (interp_count_axis p k) (seq 0 NDIM) st.2 in
        Returns (st.1 ++ [n], counters)
  end.

(** [interp_fcn(r_lower, &w[d][0])]: the kernel writes its weights over the
    head of the buffer [w[d]] and leaves the rest of the buffer as it is; a
    kernel with more weights than the buffer holds writes past its end. *)
Definition write_weights (buf : list Qc) (r_lower : Qc) : outcome (list Qc) :=
  let ws := interp_fcn r_lower in
  if (length ws <=? length buf)%nat
  then Returns (ws ++ drop (length ws) buf)
  else OutOfBounds (Z.of_nat (length buf)).

(** The content of a buffer of [interp_stencil] zeros after the kernel has
    written its weights for the offset [r_lower]. *)
Definition kernel_weights (r_lower : Qc) : list Qc :=
  interp_fcn r_lower
    ++ replicate (Z.to_nat interp_stencil - length (interp_fcn r_lower)) 0%Qc.

(** The offset of the point from the lower line of the stencil box, in
    cells: [(X[d] - X_stencil_lower) / dx[d]]. *)
Definition r_lower (k axis d : nat) : Qc :=
  let i := stencil_box_lower k axis !!! d in
  let X_stencil_lower :=
    ((Z2Qc (Int.sub i (lower domain !!! d)) + (if Nat.eqb d axis then 0 else Q2Qc (1 # 2)))
     * (dx !!! d) + (x_lower !!! d))%Qc in
  ((point k !!! d - X_stencil_lower) / (dx !!! d))%Qc.

(** The weights [w[0], ..., w[NDIM - 1]] of the 1-dimensional kernels for
    the component [axis] of the point [k], each in a buffer of its own. *)
Definition axis_weights (k axis : nat) : list (list Qc) :=
  map (fun d => kernel_weights (r_lower k axis d)) (seq 0 NDIM).

(** The tensor product of the 1-dimensional weights at one cell of the
    stencil box. *)
Definition tensor_weight (w : list (list Qc)) (stencil_box_lower : Index) (i : Index) : Qc :=
  fold_left (fun val d =>
               (val * ((w !!! d) !!! Z.to_nat (Int.sub (i !!! d) (stencil_box_lower !!! d))))%Qc)
            (seq 0 NDIM) 1%Qc.


(** The tensor products of the weights [axis_weights] over the cells of the
    stencil box, in the order of its iterator. *)
Definition stencil_box_vals (k axis : nat) : list Qc :=
  map (tensor_weight (axis_weights k axis) (stencil_box_lower k axis))
      (box_cells (stencil_box k axis)).

Definition stencil_box_row (k axis : nat) : Z :=
  Int.add (Int.add X_i_lower (Int.mul (Z.of_nat NDIM) (Z.of_nat k))) (Z.of_nat axis).

(** [stencil_box_nvals]: the product of [NDIM] factors [interp_stencil]. *)
Definition stencil_box_nvals : Z :=
  fold_left (fun n _ => Int.mul n interp_stencil) (seq 0 NDIM) 1.

(** One turn of the loop over [axis] in the second loop.  Its state is the
    matrix and the two buffers that live across the turns: the weight
    buffers [w[0..NDIM-1]] and the vector [stencil_box_cols].  The vector
    [stencil_box_vals] is filled with 1.0 at every turn.  The loop over the
    stencil box writes one value and one column for each cell, from the head
    of the two vectors, and [MatSetValues] is given both vectors whole. *)
Definition interp_value_axis (p : SidePatch) (k : nat)
    (st : Mat * list (list Qc) * list Z) (axis : nat)
    : outcome (Mat * list (list Qc) * list Z) :=
  let* w := ofold (fun w d => let* wd := write_weights (w !!! d) (r_lower k axis d) in
                              Returns (<[d := wd]> w))
                  (seq 0 NDIM) st.1.2 in
  let cells := box_cells (stencil_box k axis) in
  let nvals := length st.2 in
  if (length cells <=? nvals)%nat
  then
    let vals := map (tensor_weight w (stencil_box_lower k axis)) cells
                  ++ replicate (nvals - length cells) 1%Qc in
    let cols := map (fun b => sp_dof p axis b 0%nat) cells ++ drop (length cells) st.2 in
    Returns (MatSetValues st.1.1 (stencil_box_row k axis) cols vals, w, cols)
  else OutOfBounds (Z.of_nat nvals).

(** The second loop, for the point [k]. *)
Definition interp_value_point (patch_num : list nat) (mat : Mat) (k : nat) : outcome Mat :=
  match patch_num !! k with
  | None => OutOfBounds (Z.of_nat k)
  | Some n =>
      match patch_level !! n with
      | None => OutOfBounds (Z.of_nat n)
      | Some p =>
          if debug && negb (Nat.eqb (sp_depth p) 1) then Fatal AssertionFailure
          else if interp_stencil <? 0 then Fatal LengthError
          else if stencil_box_nvals <? 0 then Fatal LengthError
          else
            let w := replicate NDIM (replicate (Z.to_nat interp_stencil) 0%Qc) in
            let cols := replicate (Z.to_nat stencil_box_nvals) 0 in
            let* st := ofold (interp_value_axis p k) (seq 0 NDIM) (mat, w, cols) in
            Returns st.1.1
      end
  end.

(** The calls of [MatSetValues] of the second loop for the point [k] when
    every stencil box fills the two vectors: one call for each component,
    with the DOF indices of the stencil box as columns and the tensor
    products of the weights as values. *)
Definition interp_point_steps (patch_num : list nat) (k : nat) : list (Z * list Z * list Qc) :=
  match patch_num !! k with
  | Some n =>
      match patch_level !! n with
      | Some p =>
          map (fun axis => (stencil_box_row k axis, stencil_box_cols p k axis,
                            stencil_box_vals k axis))
              (seq 0 NDIM)
      | None => []
      end
  | None => []
  end.

Definition interp_steps (patch_num : list nat) (points : list nat)
    : list (Z * list Z * list Qc) :=
  flat_map (interp_point_steps patch_num) points.
End WithDomain.

Definition constructPatchLevelSCInterpOp (interp_stencil : Z) : outcome Mat :=
  let interp_stencil := round_up_to_even interp_stencil in
  let* domain := the_domain_box debug domain_boxes in
  let* d_nnz := new_counters m_local_X in
  let* o_nnz := new_counters m_local_X in
  let points := seq 0 (Z.to_nat n_local_points) in
  let* st := ofold (interp_count_point domain interp_stencil) points ([], (d_nnz, o_nnz)) in
  let mat := MatCreateAIJ m_local_X (n_local num_dofs_per_proc mpi_rank)
               (buffer_or_null m_local_X st.2.1) (buffer_or_null m_local_X st.2.2) in
  ofold (interp_value_point domain interp_stencil st.1) points mat.
End SCInterpOp.

(** * More of [PETScMatUtilities]

    The calls of [MatSetValues] of the stencil assemblers, and the
    side-centred stencil assembler. *)

(** The (column, value) pairs of a [MatSetValues] call that PETSc keeps:
    those with a non-negative column. *)
Definition kept_entries (cols : list Z) (vals : list Qc) : list (Z * Qc) :=
  List.filter (fun cv => 0 <=? cv.1) (zip cols vals).

(** The calls of [MatSetValues] that the value loop of
    [constructPatchLevelCCLaplaceOp] makes, in order: one for each visited
    location and component whose DOF index passes the range test. *)
Definition laplace_steps (NDIM : nat) (computeMatrixCoefficients : CellPatch -> Index -> nat -> Qc)
    (depth : nat) (num_dofs_per_proc : list Z) (mpi_rank : nat) (patch_level : list CellPatch)
    : list (Z * list Z * list Qc) :=
  flat_map (fun v : CellPatch * Index * nat =>
              if is_local num_dofs_per_proc mpi_rank (cp_dof v.1.1 v.1.2 v.2)
              then [(cp_dof v.1.1 v.1.2 v.2, mat_cols NDIM v.1.1 v.1.2 v.2,
                     mat_vals NDIM computeMatrixCoefficients v.1.1 v.1.2 v.2)]
              else [])
           (visits depth patch_level).

(** ** [constructPatchLevelSCLaplaceOp]

    The stencil assembler for side-centred data of depth 1: for each axis
    the sides of the patch box along that axis, with the same stencil, the
    same count loop and the same value loop as for cell-centred data.  A
    [SideIndex] plus a stencil offset is a side of the same axis. *)

Section SCLaplaceOp.
Variable NDIM : nat.
Variable debug : bool.
(** [PoissonUtilities::computeMatrixCoefficients] for side data, supplied
    externally: the coefficient [matrix_coefs(SideIndex(i, axis, Lower), k)]
    on a patch. *)
Variable computeMatrixCoefficients : SidePatch -> nat -> Index -> nat -> Qc.
(** [bc_coefs.size()] *)
Variable bc_coefs_size : nat.
Variable num_dofs_per_proc : list Z.
Variable mpi_rank : nat.
Variable patch_level : list SidePatch.

Abbreviation nl := (n_local num_dofs_per_proc mpi_rank).
Abbreviation lo := (i_lower num_dofs_per_proc mpi_rank).
Abbreviation local := (is_local num_dofs_per_proc mpi_rank).

(** The DOF indices at the [2 * NDIM] neighbours of a side, in stencil
    order. *)
Definition sc_neighbor_dofs (p : SidePatch) (axis : nat) (i : Index) : list Z :=
  map (fun s => sp_dof p axis (index_add i s) 0%nat) (drop 1 (stencil NDIM)).

Definition sc_count_visit (st : list Z * list Z) (p : SidePatch) (axis : nat) (i : Index)
    : list Z * list Z :=
  let dof_index := sp_dof p axis i 0%nat in
  if local dof_index
  then count_row num_dofs_per_proc mpi_rank st (Int.sub dof_index lo) (sc_neighbor_dofs p axis i)
  else st.

(** Determine the non-zero structure of the matrix. *)
Definition sc_count_phase (st : list Z * list Z) : list Z * list Z :=
  fold_left (fun st p =>
    fold_left (fun st axis =>
      fold_left (fun st i => sc_count_visit st p axis i)
                (box_cells (toSideBox (sp_box p) axis)) st)
      (seq 0 NDIM) st)
    patch_level st.

Definition sc_mat_cols (p : SidePatch) (axis : nat) (i : Index) : list Z :=
  sp_dof p axis i 0%nat :: sc_neighbor_dofs p axis i.

Definition sc_mat_vals (p : SidePatch) (axis : nat) (i : Index) : list Qc :=
  map (fun k => computeMatrixCoefficients p axis i k) (seq 0 (stencil_sz NDIM)).

Definition sc_value_visit (mat : Mat) (p : SidePatch) (axis : nat) (i : Index) : Mat :=
  let dof_index := sp_dof p axis i 0%nat in
  if local dof_index
  then MatSetValues mat dof_index (sc_mat_cols p axis i) (sc_mat_vals p axis i)
  else mat.

(** Set the matrix coefficients. *)
Definition sc_value_phase (mat : Mat) : Mat :=
  fold_left (fun mat p =>
    fold_left (fun mat axis =>
      fold_left (fun mat i => sc_value_visit mat p axis i)
                (box_cells (toSideBox (sp_box p) axis)) mat)
      (seq 0 NDIM) mat)
    patch_level mat.

Definition constructPatchLevelSCLaplaceOp : outcome Mat :=
  if debug && negb (Nat.eqb bc_coefs_size NDIM) then Fatal AssertionFailure
  else
    let* d_nnz := new_counters nl in
    let* o_nnz := new_counters nl in
    if debug && negb (forallb (fun p => Nat.eqb (sp_depth p) 1) patch_level)
    then Fatal AssertionFailure
    else
      let st := sc_count_phase (d_nnz, o_nnz) in
      let mat := MatCreateAIJ nl nl (buffer_or_null nl st.1) (buffer_or_null nl st.2) in
      Returns (sc_value_phase mat).

(** The sides the two loops visit, in order. *)
Definition sc_visits : list (SidePatch * nat * Index) :=
  flat_map (fun p =>
    flat_map (fun axis => map (fun i => (p, axis, i)) (box_cells (toSideBox (sp_box p) axis)))
             (seq 0 NDIM)) patch_level.

(** The calls of [MatSetValues] of the value loop, in order. *)
Definition sc_laplace_steps : list (Z * list Z * list Qc) :=
  flat_map (fun v : SidePatch * nat * Index =>
              if local (sp_dof v.1.1 v.1.2 v.2 0%nat)
              then [(sp_dof v.1.1 v.1.2 v.2 0%nat, sc_mat_cols v.1.1 v.1.2 v.2,
                     sc_mat_vals v.1.1 v.1.2 v.2)]
              else [])
           sc_visits.
End SCLaplaceOp.

(** One axis of the side data of a patch, seen as cell data of depth 1 on
    the side box of that axis. *)
Definition side_component (p : SidePatch) (axis : nat) : CellPatch :=
  mkCellPatch (toSideBox (sp_box p) axis) 1 (fun i d => sp_dof p axis i 0%nat).

(** The visits of the side-centred loops, as visits of cell data. *)
Definition sc_as_cell_visit (v : SidePatch * nat * Index) : CellPatch * Index * nat :=
  (side_component v.1.1 v.1.2, v.2, 0%nat).

(** The columns that the visits [vs] of the side-centred value loop hand to
    the matrix for row [r]. *)
Definition sc_columns_offered (NDIM : nat) (vs : list (SidePatch * nat * Index)) (r : Z)
    : list Z :=
  flat_map (fun v : SidePatch * nat * Index =>
              if sp_dof v.1.1 v.1.2 v.2 0%nat =? r then sc_mat_cols NDIM v.1.1 v.1.2 v.2 else [])
           vs.

(** ** The preallocation counters of [constructProlongationOp_cell]

    The count loop assigns ([d_nnz[local_row[d]] = 1], [o_nnz[local_row[d]] =
    1]) where the stencil assemblers increment.  After the (local row,
    column) pairs [acc] have been treated, position [j] of a counter vector
    holds a 1 when one of the pairs has the row [j] and a column that [sel]
    selects, and the initial 0 otherwise. *)
Definition booked (sel : Z -> bool) (acc : list (Z * Z)) (j : Z) : Z :=
  if existsb (fun rc : Z * Z => (rc.1 =? j) && sel rc.2) acc then 1 else 0.

(** ** The preallocation counters of [constructProlongationOp_side]

    For every component of an owned fine side, the count loop first assigns
    a 1 for the lower bracketing column and then increments for the upper
    one.  [side_count_row on r v s] is what the treatment of the row and the
    two columns of the call [s] of [MatSetValues] does to the pair [v] of
    counters ([d_nnz], [o_nnz]) of the row [r]. *)
Definition side_count_row (on : Z -> bool) (r : Z) (v : Z * Z) (s : Z * list Z * list Qc)
    : Z * Z :=
  match s.1.2 with
  | [cL; cU] =>
      if s.1.1 =? r
      then let v := if on cL then (1, v.2) else (v.1, 1) in
           if on cU then (Int.add v.1 1, v.2) else (v.1, Int.add v.2 1)
      else v
  | _ => v
  end.

(** ** The local DOFs of a sub-box in [constructPatchLevelASMSubdomains_side]

    The side [i] of axis [axis] is tested against the coarse-fine boundary
    boxes (by a call of [is_cf_bdry_idx]) when it lies in the upper layer of
    sides of the patch along [axis] and the patch has a coarse-fine boundary
    box on the upper side of that axis. *)
Section SideLocalDofs.
Variable getPatchGeometry : SidePatch -> PatchGeometry.
Variable level_num : Z.
Variable getBoundaries : SidePatch -> list BoundaryBox.

Definition side_at_upper_bdry (p : SidePatch) (axis : nat) (i : Index) : bool :=
  (i !!! axis) =? (upper (toSideBox (sp_box p) axis) !!! axis).

Definition side_tested_at_cf_bdry (p : SidePatch) (axis : nat) (i : Index) : bool :=
  side_at_upper_bdry p axis i && patch_touches_cf_bdry level_num getBoundaries p
  && touches_cf_bdry level_num getBoundaries p axis UPPER.

(** A side that is tested and that none of the upper boundary boxes of its
    axis contains. *)
Definition side_outside_cf_boxes (p : SidePatch) (axis : nat) (i : Index) : bool :=
  side_tested_at_cf_bdry p axis i
  && negb (in_any_box i (upper_side_cf_bdry_box level_num getBoundaries p axis)).

(** The sides of which a run that returns keeps the DOF: those below the
    upper layer, those of an upper layer on a regular physical boundary, and
    those that are tested. *)
Definition side_kept (p : SidePatch) (axis : nat) (i : Index) : bool :=
  negb (side_at_upper_bdry p axis i)
  || (side_at_upper_bdry p axis i && intersectsPhysicalBoundary (getPatchGeometry p)
      && getTouchesRegularBoundary (getPatchGeometry p) axis UPPER)
  || side_tested_at_cf_bdry p axis i.
End SideLocalDofs.

(** ** The index sets of [constructPatchLevelASMSubdomains_cell] *)

(** The list is in increasing order: strictly, or with repetitions. *)
Fixpoint ascending (strict : bool) (l : list Z) : bool :=
  match l with
  | x :: ((y :: _) as l') => (if strict then x <? y else x <=? y) && ascending strict l'
  | _ => true
  end.

Section CellSubdomainContents.
Variable partitionPatchBox : Box -> Index -> Index -> list Box * list Box.
Variable box_size : Index.
Variable overlap_size : Index.

(** The sub-boxes of the level in the order of the fill loop: the patch and
    the position of the sub-box in the box lists of the patch. *)
Definition cell_subdomains (patch_level : list CellPatch) : list (CellPatch * nat) :=
  flat_map (fun p =>
              map (fun i => (p, i))
                  (seq 0 (length (overlap_boxes partitionPatchBox box_size overlap_size
                                                (cp_box p)))))
           patch_level.

(** [box_local_dofs] and [box_overlap_dofs] of the sub-box [i] of the patch
    [p], before they are sorted. *)
Definition cell_box_local_dofs (p : CellPatch) (i : nat) : list Z :=
  match nonoverlap_boxes partitionPatchBox box_size overlap_size (cp_box p) !! i with
  | Some box_local => cell_box_dofs p box_local
  | None => []
  end.

Definition cell_box_overlap_dofs (p : CellPatch) (i : nat) : list Z :=
  match overlap_boxes partitionPatchBox box_size overlap_size (cp_box p) !! i with
  | Some box_overlap => List.filter (fun dof_idx => dof_idx >=? 0) (cell_box_dofs p box_overlap)
  | None => []
  end.
End CellSubdomainContents.

(** ** [constructPatchLevelASMSubdomains]

    The public function first destroys the index sets that the two vectors
    hold and clears the vectors, then looks up the variable of the DOF
    index data and calls the function for its centering. *)

(** [ISDestroy(&is)]: a null handle is left alone; otherwise the object
    loses a reference, and PETSc frees it when none is left.  The
    destruction of a handle to no object of the heap, or to an object
    without a reference left (one that has been freed), has no defined
    behaviour: it is an access outside the live objects. *)
Definition ISDestroy (heap : list ISObject) (handle : option IS) : outcome (list ISObject) :=
  match handle with
  | None => Returns heap
  | Some h =>
      match heap !! h with
      | Some o =>
          match is_refct o with
          | O => OutOfBounds (Z.of_nat h)
          | S n => Returns (<[h := mkIS (is_indices o) n]> heap)
          end
      | None => OutOfBounds (Z.of_nat h)
      end
  end.

(** What the variable database gives for [dof_index_idx]: a cell-centred or
    a side-centred variable of [int]s, with what the two private functions
    read of the level, or a variable of another kind. *)
Inductive dof_index_variable : Type :=
| CellVariable (patch_level : list CellPatch) (cell_ghost_width_min : CellPatch -> Z)
| SideVariable (patch_level : list SidePatch) (side_ghost_width_min : SidePatch -> Z)
    (getPatchGeometry : SidePatch -> PatchGeometry) (level_num : Z)
    (getBoundaries : SidePatch -> list BoundaryBox)
| OtherVariable.

Definition constructPatchLevelASMSubdomains (NDIM : nat) (debug : bool)
    (partitionPatchBox : Box -> Index -> Index -> list Box * list Box)
    (box_size overlap_size : Index) (dof_index_var : dof_index_variable)
    (is_overlap is_nonoverlap : list (option IS)) (heap : list ISObject)
    : outcome asm_state :=
  let* heap := ofold ISDestroy is_overlap heap in
  let* heap := ofold ISDestroy is_nonoverlap heap in
  match dof_index_var with
  | CellVariable patch_level ghost =>
      constructPatchLevelASMSubdomains_cell debug partitionPatchBox box_size overlap_size
        patch_level ghost heap
  | SideVariable patch_level ghost geom level_num getBoundaries =>
      constructPatchLevelASMSubdomains_side NDIM debug partitionPatchBox box_size overlap_size
        patch_level ghost geom level_num getBoundaries heap
  | OtherVariable => Fatal TboxError
  end.

(** The number of slots of a vector of index sets that hold the handle [h]. *)
Definition references (v : list (option IS)) (h : IS) : nat :=
  length (List.filter (fun x : option IS =>
                         match x with Some h' => Nat.eqb h' h | None => false end) v).

(** ** The index sets of [constructPatchLevelASMSubdomains_side] *)

Section SideSubdomainContents.
Variable NDIM : nat.
Variable partitionPatchBox : Box -> Index -> Index -> list Box * list Box.
Variable box_size : Index.
Variable overlap_size : Index.
Variable getPatchGeometry : SidePatch -> PatchGeometry.
Variable level_num : Z.
Variable getBoundaries : SidePatch -> list BoundaryBox.

(** The sub-boxes of the level in the order of the fill loop, which runs
    over the non-overlapping boxes of each patch. *)
Definition side_subdomains (patch_level : list SidePatch) : list (SidePatch * nat) :=
  flat_map (fun p =>
              map (fun i => (p, i))
                  (seq 0 (length (nonoverlap_boxes partitionPatchBox box_size overlap_size
                                                   (sp_box p)))))
           patch_level.

(** The DOFs that the loop over a non-overlapping box collects when it
    returns: those of the sides that it keeps, axis by axis. *)
Definition side_collected_dofs (p : SidePatch) (box_local : Box) : list Z :=
  flat_map (fun axis =>
              map (fun i => sp_dof p axis i 0%nat)
                  (List.filter (side_kept getPatchGeometry level_num getBoundaries p axis)
                               (box_cells (toSideBox box_local axis))))
           (seq 0 NDIM).

(** [box_local_dofs] and [box_overlap_dofs] of the sub-box [i] of the patch
    [p], before they are sorted. *)
Definition side_box_local_dofs (p : SidePatch) (i : nat) : list Z :=
  match nonoverlap_boxes partitionPatchBox box_size overlap_size (sp_box p) !! i with
  | Some box_local => side_collected_dofs p box_local
  | None => []
  end.

Definition side_box_overlap_dofs (p : SidePatch) (i : nat) : list Z :=
  match overlap_boxes partitionPatchBox box_size overlap_size (sp_box p) !! i with
  | Some box_overlap => side_overlap_dofs NDIM p box_overlap
  | None => []
  end.
End SideSubdomainContents.
(** A level of one 2 x 2 patch on one process, numbered row by row, with
    masked ghost cells; the coefficients of the 5-point Laplacian. *)
Definition example_cell_dof (i : Index) (d : nat) : Z :=
  match i with
  | [x; y] => if (0 <=? x) && (x <=? 1) && (0 <=? y) && (y <=? 1) then x + 2 * y else -1
  | _ => -1
  end.

Definition example_cell_patch : CellPatch :=
  mkCellPatch (mkBox [0; 0] [1; 1]) 1 example_cell_dof.

Definition example_coefs (p : CellPatch) (i : Index) (k : nat) : Qc :=
  match k with O => Q2Qc (-4) | _ => Q2Qc 1 end.

(** A fine level of one 4 x 2 patch over a coarse level of 2 x 1 cells,
    refinement ratio 2, numbered row by row. *)
Definition example_fine_dof (i : Index) (d : nat) : Z :=
  match i with
  | [x; y] => if (0 <=? x) && (x <=? 3) && (0 <=? y) && (y <=? 1) then x + 4 * y else -1
  | _ => -1
  end.

Definition example_fine_patch : CellPatch :=
  mkCellPatch (mkBox [0; 0] [3; 1]) 1 example_fine_dof.

Definition example_coarse_domain : Box := mkBox [0; 0] [1; 0].

(** The side-centred DOFs of one 2 x 2 fine patch over one coarse cell,
    refinement ratio 2: the 3 x 2 sides of axis 0, then the 2 x 3 sides of
    axis 1. *)
Definition example_side_dof (axis : nat) (i : Index) (d : nat) : Z :=
  match axis, i with
  | 0%nat, [x; y] =>
      if (0 <=? x) && (x <=? 2) && (0 <=? y) && (y <=? 1) then x + 3 * y else -1
  | 1%nat, [x; y] =>
      if (0 <=? x) && (x <=? 1) && (0 <=? y) && (y <=? 2) then 6 + x + 2 * y else -1
  | _, _ => -1
  end.

Definition example_side_patch : SidePatch :=
  mkSidePatch (mkBox [0; 0] [1; 1]) 1 example_side_dof.

Definition example_unit_domain : Box := mkBox [0; 0] [0; 0].

(** A comparison up to the tolerance [1e-8], and a prolongation matrix with
    three coarse columns of which the last receives nothing. *)
Definition example_equalEps (a b : Qc) : bool :=
  if Qclt_le_dec (Qcabs (a - b)) (Q2Qc (1 # 100000000)) then true else false.

Definition example_prolongation : list entry :=
  [(0, 0, Q2Qc 1); (1, 0, Q2Qc 1); (2, 1, Q2Qc (1 # 2)); (3, 1, Q2Qc (1 # 2))].

(** A partition of a two-dimensional box into its left and its right half
    (the same sub-boxes with and without overlap), and the geometry of a
    patch that fills the physical domain. *)
Definition example_partition (b : Box) (box_size overlap_size : Index) : list Box * list Box :=
  match lower b, upper b with
  | [x0; y0], [x1; y1] =>
      let mid := (x0 + x1) / 2 in
      let halves := [mkBox [x0; y0] [mid; y1]; mkBox [mid + 1; y0] [x1; y1]] in
      (halves, halves)
  | _, _ => ([b], [b])
  end.

Definition example_geometry (p : SidePatch) : PatchGeometry :=
  mkPatchGeometry true (fun axis upperlower => true).

(** The piecewise-linear kernel of width 2: the weights [1 - r] and [r] of
    the two stencil lines for the offset [r] from the lower one. *)
Definition example_kernel (r : Qc) : list Qc := [(1 - r)%Qc; r].

(** The ghost box of the example side patch: one layer of ghost cells. *)
Definition example_ghost_box (p : SidePatch) : Box := mkBox [-1; -1] [2; 2].

(** The unit-spaced grid geometry of the 2 x 2 example domain, and two
    sample points: one well inside, one within half a cell of the lower
    boundary in the second direction. *)
Definition example_x_lower : list Qc := [Q2Qc 0; Q2Qc 0].
Definition example_x_upper : list Qc := [Q2Qc 2; Q2Qc 2].
Definition example_dx0 : list Qc := [Q2Qc 1; Q2Qc 1].
Definition example_interior_point : list Qc := [Q2Qc (8 # 10); Q2Qc (7 # 10)].
Definition example_boundary_point : list Qc := [Q2Qc (3 # 10); Q2Qc (2 # 10)].

(** The interpolation assembler on the example level, for the sample points
    [X] and the stencil width [s]. *)
Definition example_interp (debug : bool) (X : list Qc) (s : Z) : outcome Mat :=
  constructPatchLevelSCInterpOp 2 debug example_kernel IndexUtilities_getCellIndex
    example_x_lower example_x_upper example_dx0 [1; 1] [mkBox [0; 0] [1; 1]]
    [example_side_patch] example_ghost_box X 0 [12] 0 s.

(** The coefficients of the 5-point Laplacian on side data. *)
Definition example_side_coefs (p : SidePatch) (axis : nat) (i : Index) (k : nat) : Qc :=
  match k with O => Q2Qc (-4) | _ => Q2Qc 1 end.

(** Two fine patches, the left and the right column of cells of a 2 x 2
    level; they share the sides of axis 0 at [x = 1]. *)
Definition example_left_patch : SidePatch :=
  mkSidePatch (mkBox [0; 0] [0; 1]) 1 example_side_dof.
Definition example_right_patch : SidePatch :=
  mkSidePatch (mkBox [1; 0] [1; 1]) 1 example_side_dof.

(** A coarse-fine boundary box on the upper side of axis 0 (location index
    1) that covers the lower half of the upper face of the 2 x 2 patch. *)
Definition example_cf_boundary (p : SidePatch) : list BoundaryBox :=
  [mkBoundaryBox (mkBox [2; 0] [2; 0]) 1].

(** * Properties *)

(** ** 32-bit arithmetic in range *)

Lemma Int_wrap_exact z : Int.in_range z -> Int.wrap z = z.
Proof.
  unfold Int.in_range, Int.wrap, Int.INT_MIN, Int.INT_MAX. intros H.
  rewrite Z.mod_small; lia.
Qed.

Lemma Int_add_exact a b : Int.in_range (a + b) -> Int.add a b = a + b.
Proof. apply Int_wrap_exact. Qed.

Lemma Int_sub_exact a b : Int.in_range (a - b) -> Int.sub a b = a - b.
Proof. apply Int_wrap_exact. Qed.

Ltac int_range := unfold Int.in_range, Int.INT_MIN, Int.INT_MAX in *; lia.

(** ** The DOF partition *)

Lemma total_of_nonneg l : Forall (fun c => 0 <= c) l -> 0 <= total_of l.
Proof. induction 1; simpl; lia. Qed.

Lemma accumulate_exact l init :
  Forall (fun c => 0 <= c) l -> 0 <= init -> init + total_of l <= Int.INT_MAX ->
  accumulate l init = init + total_of l.
Proof.
  intros Hl. revert init. induction Hl as [|c l Hc Hl IH]; intros init Hi Hmax; simpl in *.
  - lia.
  - pose proof (total_of_nonneg l Hl) as Hn.
    unfold accumulate in *. rewrite Int_add_exact by int_range.
    rewrite IH; lia.
Qed.

Lemma total_of_take_succ l r :
  (r < length l)%nat -> total_of (take (S r) l) = total_of (take r l) + l !!! r.
Proof.
  revert r. induction l as [|c l IH]; intros r Hr; simpl in *; [lia|].
  destruct r as [|r]; simpl.
  - lia.
  - specialize (IH r ltac:(lia)). simpl in IH. rewrite IH.
    change ((c :: l) !!! S r) with (l !!! r). lia.
Qed.

Lemma total_of_take_mono l r1 r2 :
  Forall (fun c => 0 <= c) l -> (r1 <= r2)%nat ->
  total_of (take r1 l) <= total_of (take r2 l).
Proof.
  intros Hl. revert r1 r2. induction Hl as [|c l Hc Hl IH]; intros r1 r2 Hr.
  - rewrite !take_nil. lia.
  - destruct r1 as [|r1], r2 as [|r2]; simpl; try lia.
    + pose proof (total_of_nonneg (take r2 l)) as Hn.
      assert (Forall (fun c => 0 <= c) (take r2 l)) by (apply Forall_take; done).
      specialize (Hn H). lia.
    + specialize (IH r1 r2 ltac:(lia)). lia.
Qed.

Lemma total_of_take_all l r : (length l <= r)%nat -> total_of (take r l) = total_of l.
Proof. intros H. rewrite take_ge by lia. done. Qed.

Lemma lookup_total_nonneg (l : list Z) r :
  Forall (fun c => 0 <= c) l -> 0 <= l !!! r.
Proof.
  intros Hl. destruct (decide (r < length l)%nat) as [Hr|Hr].
  - apply (Forall_lookup_total_1 _ _ _ Hl Hr).
  - rewrite list_lookup_total_alt. rewrite lookup_ge_None_2 by lia. simpl. done.
Qed.

(** Without overflow the code's ranges are the exact prefix sums. *)
Lemma partition_exact counts r :
  Forall (fun c => 0 <= c) counts -> total_of counts <= Int.INT_MAX ->
  (r < length counts)%nat ->
  i_lower counts r = total_of (take r counts)
  /\ n_local counts r = counts !!! r
  /\ i_upper counts r = total_of (take (S r) counts)
  /\ n_total counts = total_of counts
  /\ 0 <= i_lower counts r /\ 0 <= n_local counts r
  /\ i_upper counts r <= n_total counts.
Proof.
  intros Hl Hmax Hr.
  assert (Hle : total_of (take r counts) <= total_of (take (S r) counts))
    by (apply total_of_take_mono; [done|lia]).
  assert (Hle2 : total_of (take (S r) counts) <= total_of counts).
  { rewrite <- (total_of_take_all counts (length counts)) by lia.
    apply total_of_take_mono; [done|lia]. }
  assert (H0 : 0 <= total_of (take r counts))
    by (apply total_of_nonneg, Forall_take; done).
  assert (Hlow : i_lower counts r = total_of (take r counts)).
  { unfold i_lower. rewrite accumulate_exact; [lia|apply Forall_take; done|lia|lia]. }
  assert (Htot : n_total counts = total_of counts).
  { unfold n_total. rewrite accumulate_exact; [lia|done|lia|lia]. }
  pose proof (total_of_take_succ counts r Hr) as Hs.
  pose proof (lookup_total_nonneg counts r Hl) as Hn.
  unfold i_upper, n_local. rewrite Hlow, Htot.
  rewrite Int_add_exact by int_range.
  repeat split; try lia.
Qed.

Lemma Int_wrap_in_range z : Int.in_range (Int.wrap z).
Proof.
  unfold Int.in_range, Int.wrap, Int.INT_MIN, Int.INT_MAX.
  pose proof (Z.mod_pos_bound (z + 2147483648) 4294967296). lia.
Qed.

Lemma accumulate_in_range l init : Int.in_range init -> Int.in_range (accumulate l init).
Proof.
  unfold accumulate. revert init. induction l as [|x l IH]; intros init Hi; simpl; [done|].
  apply IH. apply Int_wrap_in_range.
Qed.

(** The guard of an owned row keeps the index of its counter inside the
    vector of [n_local] counters, whatever the counts are. *)
Lemma owned_row_in_counters counts rank dof_index :
  0 <= n_local counts rank <= Int.INT_MAX ->
  is_local counts rank dof_index = true ->
  0 <= Int.sub dof_index (i_lower counts rank) < n_local counts rank.
Proof.
  intros Hn Hloc. unfold is_local, i_upper in Hloc.
  apply andb_true_iff in Hloc as [H1 H2]. apply Z.leb_le in H1. apply Z.ltb_lt in H2.
  assert (Hlo : Int.in_range (i_lower counts rank)).
  { unfold i_lower. apply accumulate_in_range. int_range. }
  pose proof (Int_wrap_in_range (i_lower counts rank + n_local counts rank)) as Hup.
  unfold Int.add in H2.
  destruct (Z_le_dec (i_lower counts rank + n_local counts rank) Int.INT_MAX) as [Hfit|Hover].
  - rewrite Int_wrap_exact in H2 by int_range.
    rewrite Int_sub_exact by int_range. lia.
  - exfalso. revert H2. unfold Int.wrap, Int.in_range, Int.INT_MIN, Int.INT_MAX in *.
    replace (i_lower counts rank + n_local counts rank + 2147483648)
      with ((i_lower counts rank + n_local counts rank - 2147483648) + 1 * 4294967296) by lia.
    rewrite Z.mod_add by lia. rewrite Z.mod_small by lia. lia.
Qed.

Lemma prefix_locate l i :
  Forall (fun c => 0 <= c) l -> 0 <= i < total_of l ->
  exists r, (r < length l)%nat /\ total_of (take r l) <= i < total_of (take (S r) l).
Proof.
  intros Hl. revert i. induction Hl as [|c l Hc Hl IH]; intros i Hi; simpl in *.
  - lia.
  - destruct (Z_lt_dec i c) as [Hlt|Hge].
    + exists 0%nat. simpl. lia.
    + destruct (IH (i - c) ltac:(lia)) as (r & Hr & Hb).
      exists (S r). simpl in *. split; [lia|]. lia.
Qed.

(** C1. For every vector of non-negative per-process DOF counts whose total
    is representable as an [int], the ranges [[i_lower, i_upper)] that the
    assemblers derive for the processes tile [[0, n_total)]: an index lies in
    [[0, n_total)] exactly when some process owns it, no index is owned by
    two processes, and the range of process [r] starts at the prefix sum of
    the counts below [r], has [counts[r]] elements and ends where the range
    of the next process starts. *)
Theorem ownership_ranges_tile (counts : list Z) :
  Forall (fun c => 0 <= c) counts ->
  total_of counts <= Int.INT_MAX ->
  (forall i : Z, 0 <= i < n_total counts <->
     exists r, (r < length counts)%nat /\ is_local counts r i = true)
  /\ (forall (r1 r2 : nat) (i : Z),
        (r1 < length counts)%nat -> (r2 < length counts)%nat ->
        is_local counts r1 i = true -> is_local counts r2 i = true -> r1 = r2)
  /\ (forall r, (r < length counts)%nat ->
        i_lower counts r = total_of (take r counts)
        /\ i_upper counts r = i_lower counts r + counts !!! r
        /\ i_upper counts r = i_lower counts (S r)).
Proof.
  intros Hl Hmax.
  assert (Hloc : forall r i, (r < length counts)%nat ->
            is_local counts r i = true <->
            total_of (take r counts) <= i < total_of (take (S r) counts)).
  { intros r i Hr. destruct (partition_exact counts r Hl Hmax Hr) as (E1 & _ & E3 & _).
    unfold is_local. rewrite E1, E3. rewrite andb_true_iff, Z.leb_le, Z.ltb_lt. done. }
  split; [|split].
  - intros i. split.
    + intros Hi. destruct counts as [|c counts'] eqn:E.
      { unfold n_total in Hi. simpl in Hi. lia. }
      rewrite <- E in *.
      assert (Hr0 : (0 < length counts)%nat) by (rewrite E; simpl; lia).
      destruct (partition_exact counts 0 Hl Hmax Hr0) as (_ & _ & _ & E4 & _).
      rewrite E4 in Hi.
      destruct (prefix_locate counts i Hl Hi) as (r & Hr & Hb).
      exists r. split; [done|]. apply Hloc; done.
    + intros (r & Hr & Hown). apply Hloc in Hown; [|done].
      destruct (partition_exact counts r Hl Hmax Hr) as (_ & _ & E3 & E4 & E5 & _ & E7).
      rewrite E3, E4 in E7. rewrite E4.
      assert (0 <= total_of (take r counts)) by (apply total_of_nonneg, Forall_take; done).
      lia.
  - intros r1 r2 i Hr1 Hr2 H1 H2.
    apply Hloc in H1; [|done]. apply Hloc in H2; [|done].
    destruct (Nat.lt_trichotomy r1 r2) as [Hlt|[Heq|Hgt]]; [|done|].
    + pose proof (total_of_take_mono counts (S r1) r2 Hl ltac:(lia)). lia.
    + pose proof (total_of_take_mono counts (S r2) r1 Hl ltac:(lia)). lia.
  - intros r Hr.
    destruct (partition_exact counts r Hl Hmax Hr) as (E1 & E2 & E3 & E4 & E5 & E6 & E7).
    split; [done|]. split.
    + rewrite E3, E1. apply total_of_take_succ. done.
    + rewrite E3. unfold i_lower.
      rewrite accumulate_exact; [lia|apply Forall_take; done|lia|].
      rewrite E3, E4 in E7. lia.
Qed.

Lemma ownership_ranges_tile_witness :
  (forall i : Z, 0 <= i < n_total [3; 0; 5] <->
     exists r, (r < 3)%nat /\ is_local [3; 0; 5] r i = true)
  /\ is_local [3; 0; 5] 2 7 = true.
Proof.
  split.
  - apply (ownership_ranges_tile [3; 0; 5]).
    + repeat constructor; lia.
    + unfold Int.INT_MAX. simpl. lia.
  - reflexivity.
Defined.

(** ** The boundary-containment helper *)

Lemma is_cf_bdry_idx_loop_found fuel idx boxes k :
  (length boxes - k < fuel)%nat ->
  is_cf_bdry_idx_loop fuel idx boxes true k = Returns true.
Proof.
  revert k. induction fuel as [|fuel IH]; intros k Hf; [lia|].
  simpl. destruct (k <? length boxes)%nat eqn:Hk.
  - apply Nat.ltb_lt in Hk. apply IH. lia.
  - done.
Qed.

Lemma is_cf_bdry_idx_loop_scan fuel idx boxes k :
  (k <= length boxes)%nat -> (length boxes - k < fuel)%nat ->
  is_cf_bdry_idx_loop fuel idx boxes false k =
    if in_any_box idx (drop k boxes) then Returns true else OutOfBounds (Z.of_nat (length boxes)).
Proof.
  revert k. induction fuel as [|fuel IH]; intros k Hk Hf; [lia|].
  simpl. destruct (boxes !! k) as [b|] eqn:Hb.
  - pose proof (lookup_lt_Some _ _ _ Hb) as Hlt.
    rewrite (drop_S _ _ _ Hb). unfold in_any_box. simpl.
    destruct (box_contains b idx) eqn:Hc; simpl.
    + apply is_cf_bdry_idx_loop_found. lia.
    + apply IH; lia.
  - apply lookup_ge_None_1 in Hb. assert (k = length boxes) as -> by lia.
    rewrite drop_all. done.
Qed.

(** What the helper computes: [true] when some box holds the index, and a
    read one past the end of the vector when none does. *)
Lemma is_cf_bdry_idx_fuel_enough fuel idx boxes :
  (length boxes < fuel)%nat ->
  is_cf_bdry_idx_fuel fuel idx boxes =
    if in_any_box idx boxes then Returns true else OutOfBounds (Z.of_nat (length boxes)).
Proof.
  intros Hf. unfold is_cf_bdry_idx_fuel.
  rewrite is_cf_bdry_idx_loop_scan by lia. rewrite drop_0. done.
Qed.

Lemma is_cf_bdry_idx_eq idx boxes :
  is_cf_bdry_idx idx boxes =
    if in_any_box idx boxes then Returns true else OutOfBounds (Z.of_nat (length boxes)).
Proof. apply is_cf_bdry_idx_fuel_enough. lia. Qed.

(** C10. The helper does not implement point-in-any-box: when no box of the
    list holds the index (the empty list included) the loop condition
    [!contains_idx || k < n] stays true at [k = n], and the helper reads
    [cf_bdry_boxes[n]], one position past the end, instead of returning
    [false]. *)
Theorem is_cf_bdry_idx_absent_index_reads_past_end (idx : Index) (boxes : list Box) (fuel : nat) :
  in_any_box idx boxes = false ->
  (length boxes < fuel)%nat ->
  is_cf_bdry_idx_fuel fuel idx boxes = OutOfBounds (Z.of_nat (length boxes)).
Proof.
  intros Hno Hf. rewrite is_cf_bdry_idx_fuel_enough by done. rewrite Hno. done.
Qed.

Lemma is_cf_bdry_idx_absent_index_witness :
  is_cf_bdry_idx_fuel 2 [0; 5] [mkBox [4; 0] [4; 3]] = OutOfBounds 1.
Proof.
  apply (is_cf_bdry_idx_absent_index_reads_past_end [0; 5] [mkBox [4; 0] [4; 3]] 2).
  - reflexivity.
  - simpl. lia.
Defined.

(** ** Lists, loops and counters *)

Lemma fold_left_flat_map {A B C} (f : A -> C -> A) (g : B -> list C) l a :
  fold_left f (flat_map g l) a = fold_left (fun a x => fold_left f (g x) a) l a.
Proof.
  revert a. induction l as [|x l IH]; intros a; simpl; [done|].
  rewrite fold_left_app. apply IH.
Qed.

Lemma fold_left_map_list {A B C} (f : A -> C -> A) (g : B -> C) l a :
  fold_left f (map g l) a = fold_left (fun a x => f a (g x)) l a.
Proof. revert a. induction l as [|x l IH]; intros a; simpl; [done|]. apply IH. Qed.

Lemma fold_left_ext_in {A B} (f g : A -> B -> A) l a :
  (forall a x, In x l -> f a x = g a x) -> fold_left f l a = fold_left g l a.
Proof.
  revert a. induction l as [|x l IH]; intros a H; simpl; [done|].
  rewrite H by (left; done). apply IH. intros. apply H. right. done.
Qed.

Lemma iter_incr_exact n x :
  0 <= x -> x + Z.of_nat n <= Int.INT_MAX ->
  Nat.iter n (fun x => Int.add x 1) x = x + Z.of_nat n.
Proof.
  induction n as [|n IH]; intros H0 Hmax; simpl; [lia|].
  rewrite IH by lia. rewrite Int_add_exact by int_range. lia.
Qed.

Lemma zrange_length lo hi : Z.of_nat (length (zrange lo hi)) = Z.max 0 (hi - lo + 1).
Proof. unfold zrange. rewrite length_map, length_seq. lia. Qed.

Lemma zrange_in lo hi x : In x (zrange lo hi) <-> lo <= x <= hi.
Proof.
  unfold zrange. rewrite in_map_iff. split.
  - intros (k & <- & Hk). apply in_seq in Hk. lia.
  - intros H. exists (Z.to_nat (x - lo)). split; [lia|]. apply in_seq. lia.
Qed.

(** A list of distinct integers of an interval is no longer than the interval. *)
Lemma NoDup_interval_length (l : list Z) lo hi :
  NoDup l -> (forall x, In x l -> lo <= x < hi) -> lo <= hi ->
  Z.of_nat (length l) <= hi - lo.
Proof.
  intros Hnd Hin Hle.
  assert (Hincl : incl l (zrange lo (hi - 1))).
  { intros x Hx. apply zrange_in. specialize (Hin x Hx). lia. }
  apply NoDup_ListNoDup in Hnd.
  pose proof (NoDup_incl_length Hnd Hincl) as Hlen.
  pose proof (zrange_length lo (hi - 1)). lia.
Qed.

Lemma NoDup_two_intervals_length (l : list Z) a b c :
  NoDup l -> (forall x, In x l -> (0 <= x < a) \/ (b <= x < c)) ->
  0 <= a -> a <= b -> b <= c ->
  Z.of_nat (length l) <= a + (c - b).
Proof.
  intros Hnd Hin Ha Hab Hbc.
  assert (Hincl : incl l (zrange 0 (a - 1) ++ zrange b (c - 1))).
  { intros x Hx. apply in_or_app. destruct (Hin x Hx); [left|right]; apply zrange_in; lia. }
  apply NoDup_ListNoDup in Hnd.
  pose proof (NoDup_incl_length Hnd Hincl) as Hlen.
  rewrite length_app in Hlen.
  pose proof (zrange_length 0 (a - 1)). pose proof (zrange_length b (c - 1)). lia.
Qed.

Lemma filter_incl_length (P : Z -> bool) (l m : list Z) :
  NoDup l -> (forall x, In x l -> In x m) ->
  (length (List.filter P l) <= length (List.filter P m))%nat.
Proof.
  intros Hnd Hin. apply NoDup_ListNoDup in Hnd. apply NoDup_incl_length.
  - apply List.NoDup_filter. done.
  - intros x Hx. apply List.filter_In in Hx as [Hx HP]. apply List.filter_In. auto.
Qed.

(** ** Matrix entries *)

Lemma entry_at_true r c (e : entry) : entry_at r c e = true <-> e.1 = (r, c).
Proof.
  destruct e as [[r' c'] v]. unfold entry_at. simpl.
  rewrite andb_true_iff, !Z.eqb_eq. split; [intros [-> ->]; done|intros [= -> ->]; done].
Qed.

Lemma set_entry_in es r c v e :
  In e (set_entry es r c v) -> In e es \/ (e = (r, c, v) /\ 0 <= r /\ 0 <= c).
Proof.
  unfold set_entry. destruct ((r <? 0) || (c <? 0)) eqn:Hneg; [auto|].
  apply orb_false_iff in Hneg as [Hr Hc]. apply Z.ltb_ge in Hr, Hc.
  intros [<-|Hin]; [right; done|].
  apply List.filter_In in Hin as [Hin _]. auto.
Qed.

Lemma set_entry_keys_nodup es r c v :
  NoDup (map fst es) -> NoDup (map fst (set_entry es r c v)).
Proof.
  intros Hnd. unfold set_entry. destruct ((r <? 0) || (c <? 0)); [done|].
  simpl. apply NoDup_cons. split.
  - rewrite list_elem_of_In, in_map_iff. intros (e & He & Hin).
    apply List.filter_In in Hin as [_ Hne].
    apply negb_true_iff in Hne.
    assert (entry_at r c e = true) by (apply entry_at_true; done). congruence.
  - clear -Hnd. induction es as [|e es IH]; simpl in *; [done|].
    apply NoDup_cons in Hnd as [Hnot Hnd].
    destruct (negb (entry_at r c e)); simpl; [|auto].
    apply NoDup_cons. split; [|auto].
    rewrite list_elem_of_In, in_map_iff in *. intros (e' & He' & Hin).
    apply Hnot. exists e'. split; [done|]. apply List.filter_In in Hin as [Hin _]. done.
Qed.

Lemma set_entries_in (cvs : list (Z * Qc)) es row e :
  In e (fold_left (fun es cv => set_entry es row cv.1 cv.2) cvs es) ->
  In e es \/ (e.1.1 = row /\ (exists cv, In cv cvs /\ cv.1 = e.1.2) /\ 0 <= e.1.2 /\ 0 <= row).
Proof.
  revert es. induction cvs as [|cv cvs IH]; intros es Hin; simpl in *; [auto|].
  apply IH in Hin as [Hin|(H1 & (cv' & Hcv' & H2) & H3 & H4)].
  - apply set_entry_in in Hin as [Hin|(-> & Hr & Hc)]; [auto|].
    right. simpl. repeat split; try done. exists cv. auto.
  - right. repeat split; try done. exists cv'. auto.
Qed.

Lemma set_row_in es row cols vals e :
  In e (set_row es row cols vals) ->
  In e es \/ (e.1.1 = row /\ In e.1.2 cols /\ 0 <= e.1.2 /\ 0 <= row).
Proof.
  intros Hin. apply set_entries_in in Hin as [Hin|(H1 & (cv & Hcv & H2) & H3 & H4)]; [auto|].
  right. repeat split; try done. rewrite <- H2.
  apply list_elem_of_In in Hcv. destruct cv as [c v].
  apply elem_of_zip_l in Hcv. apply list_elem_of_In. done.
Qed.

Lemma set_row_keys_nodup es row cols vals :
  NoDup (map fst es) -> NoDup (map fst (set_row es row cols vals)).
Proof.
  unfold set_row. generalize (zip cols vals). intros cvs. revert es.
  induction cvs as [|cv cvs IH]; intros es Hnd; simpl; [done|].
  apply IH, set_entry_keys_nodup, Hnd.
Qed.

Lemma row_cols_in es r c : In c (row_cols es r) <-> exists v, In (r, c, v) es.
Proof.
  unfold row_cols, row_entries. rewrite map_map. rewrite in_map_iff. split.
  - intros ([[r' c'] v] & <- & Hin). apply List.filter_In in Hin as [Hin Hr].
    simpl in *. apply Z.eqb_eq in Hr as ->. eauto.
  - intros (v & Hin). exists (r, c, v). split; [done|].
    apply List.filter_In. split; [done|]. simpl. apply Z.eqb_refl.
Qed.

Lemma row_cols_nodup es r : NoDup (map fst es) -> NoDup (row_cols es r).
Proof.
  unfold row_cols, row_entries. rewrite map_map. simpl.
  induction es as [|[[r' c'] v] es IH]; simpl; intros Hnd; [constructor|].
  apply NoDup_cons in Hnd as [Hnot Hnd].
  destruct (r' =? r) eqn:Hr; simpl; [|auto].
  apply Z.eqb_eq in Hr as ->. apply NoDup_cons. split; [|auto].
  rewrite list_elem_of_In in Hnot. rewrite list_elem_of_In, in_map_iff.
  intros ([[r'' c''] v'] & Hc & Hin).
  apply List.filter_In in Hin as [Hin Hr]. simpl in *.
  apply Z.eqb_eq in Hr. subst. apply Hnot. apply in_map_iff. exists (r, c', v'). done.
Qed.

(** ** The stencil operator: budgets of the count phase *)

Section CCLaplaceBudgets.
Variable NDIM : nat.
Variable debug : bool.
Variable computeMatrixCoefficients : CellPatch -> Index -> nat -> Qc.
Variable depth : nat.
Variable counts : list Z.
Variable rank : nat.
Variable patch_level : list CellPatch.

Hypothesis counts_nonneg : Forall (fun c => 0 <= c) counts.
Hypothesis rank_valid : (rank < length counts)%nat.
Hypothesis no_overflow : total_of counts + Z.of_nat (stencil_sz NDIM) <= Int.INT_MAX.

Abbreviation nl := (n_local counts rank).
Abbreviation lo := (i_lower counts rank).
Abbreviation up := (i_upper counts rank).
Abbreviation nt := (n_total counts).
Abbreviation local := (is_local counts rank).

Abbreviation cols_of := (columns_offered NDIM).
Abbreviation LP := (booked_local NDIM counts rank).
Abbreviation RP := (booked_remote NDIM counts rank).
Abbreviation visit_cols := (visit_cols NDIM).
Abbreviation nbr_step := (nbr_step counts rank).
Abbreviation counters_ok := (counters_after NDIM counts rank).
Abbreviation entries_ok := (entries_after NDIM).

Lemma ranges_facts :
  0 <= lo /\ 0 <= nl /\ up = lo + nl /\ up <= nt
  /\ nt + Z.of_nat (stencil_sz NDIM) <= Int.INT_MAX /\ Int.sub nt nl = nt - nl.
Proof.
  assert (Hmax : total_of counts <= Int.INT_MAX) by (pose proof no_overflow; lia).
  pose proof no_overflow as Hov.
  destruct (partition_exact counts rank counts_nonneg Hmax rank_valid)
    as (E1 & E2 & E3 & E4 & E5 & E6 & E7).
  assert (up = lo + nl).
  { pose proof (total_of_take_succ counts rank rank_valid) as Hs.
    unfold i_upper. rewrite Int_add_exact; [done|].
    rewrite E2 in *. rewrite E1 in *. rewrite E3, E4 in E7. int_range. }
  repeat split; try lia.
  rewrite Int_sub_exact; [done|]. int_range.
Qed.

Lemma local_iff c : local c = true <-> lo <= c < lo + nl.
Proof.
  destruct ranges_facts as (_ & _ & E & _).
  unfold is_local. rewrite E, andb_true_iff, Z.leb_le, Z.ltb_lt. done.
Qed.

Lemma neighbor_dofs_length p i d : length (neighbor_dofs NDIM p i d) = (2 * NDIM)%nat.
Proof.
  unfold neighbor_dofs, stencil. rewrite length_map. simpl drop. rewrite drop_0.
  generalize (replicate NDIM 0). intros z.
  assert (forall k n, length (flat_map (fun axis => [ <[axis := -1]> z; <[axis := 1]> z ]) (seq k n))
                      = (2 * n)%nat) as H.
  { intros k n. revert k. induction n as [|n IH]; intros k; simpl; [done|]. rewrite IH. lia. }
  apply H.
Qed.

Lemma nbr_fold k nbrs st :
  fold_left (nbr_step k) nbrs st =
    (alter (Nat.iter (length (List.filter local nbrs)) (fun x => Int.add x 1)) (Z.to_nat k) st.1,
     alter (Nat.iter (length (List.filter (fun c => negb (local c)) nbrs)) (fun x => Int.add x 1))
           (Z.to_nat k) st.2).
Proof.
  revert st. induction nbrs as [|c nbrs IH]; intros [dv ov]; simpl.
  - rewrite !list_alter_id by done. done.
  - rewrite IH. unfold nbr_step. unfold is_local. rewrite Z.geb_leb.
    destruct ((lo <=? c) && (c <? up)); simpl; unfold incr.
    + rewrite list_alter_alter_eq. f_equal. apply list_alter_ext; [|done].
      intros x _. unfold compose. rewrite Nat.iter_succ_r. done.
    + rewrite list_alter_alter_eq. f_equal. apply list_alter_ext; [|done].
      intros x _. unfold compose. rewrite Nat.iter_succ_r. done.
Qed.

Lemma filter_split_length (P : Z -> bool) l :
  (length (List.filter P l) + length (List.filter (fun c => negb (P c)) l) = length l)%nat.
Proof. induction l as [|x l IH]; simpl; [done|]. destruct (P x); simpl; lia. Qed.

(** The effect of one pass of the count loop on the two counters of its row. *)
Lemma count_row_lookup dv ov k nbrs x y :
  0 <= k -> length nbrs = (2 * NDIM)%nat ->
  dv !! Z.to_nat k = Some x -> ov !! Z.to_nat k = Some y ->
  0 <= x <= nl -> 0 <= y <= nt - nl ->
  let st := count_row counts rank (dv, ov) k nbrs in
  st.1 = <[Z.to_nat k := Z.min nl (x + 1 + Z.of_nat (length (List.filter local nbrs)))]> dv
  /\ st.2 = <[Z.to_nat k := Z.min (nt - nl)
                (y + Z.of_nat (length (List.filter (fun c => negb (local c)) nbrs)))]> ov.
Proof.
  intros Hk Hlen Hx Hy Hxr Hyr.
  destruct ranges_facts as (F1 & F2 & F3 & F4 & F5 & F6).
  pose proof (filter_split_length local nbrs) as Hsplit.
  unfold stencil_sz in F5.
  unfold count_row. cbv zeta. simpl fst. simpl snd.
  change (fold_left _ nbrs ?s) with (fold_left (nbr_step k) nbrs s).
  rewrite nbr_fold. simpl fst. simpl snd. unfold clamp, incr.
  rewrite !list_alter_alter_eq. rewrite F6. split.
  - apply list_eq. intros j. destruct (decide (j = Z.to_nat k)) as [->|Hne].
    + rewrite list_lookup_alter_eq, list_lookup_insert_eq by (eapply lookup_lt_Some; done).
      rewrite Hx. simpl. f_equal. rewrite iter_incr_exact.
      * rewrite Int_add_exact by int_range. lia.
      * rewrite Int_add_exact by int_range. lia.
      * rewrite Int_add_exact by int_range. int_range.
    + rewrite list_lookup_alter_ne, list_lookup_insert_ne by done. done.
  - apply list_eq. intros j. destruct (decide (j = Z.to_nat k)) as [->|Hne].
    + rewrite list_lookup_alter_eq, list_lookup_insert_eq by (eapply lookup_lt_Some; done).
      rewrite Hy. simpl. f_equal. rewrite iter_incr_exact; [lia|lia|int_range].
    + rewrite list_lookup_alter_ne, list_lookup_insert_ne by done. done.
Qed.

Lemma cols_of_snoc vs v r :
  cols_of (vs ++ [v]) r = cols_of vs r ++ (if visit_row v =? r then visit_cols v else []).
Proof. unfold cols_of. rewrite flat_map_app. simpl. rewrite app_nil_r. done. Qed.

Lemma LP_snoc vs v r :
  LP (vs ++ [v]) r =
    LP vs r + (if visit_row v =? r
               then Z.of_nat (length (List.filter local (visit_cols v))) else 0).
Proof.
  unfold LP. rewrite cols_of_snoc, List.filter_app, length_app.
  destruct (visit_row v =? r); simpl; lia.
Qed.

Lemma RP_snoc vs v r :
  RP (vs ++ [v]) r =
    RP vs r + (if visit_row v =? r
               then Z.of_nat (length (List.filter (fun c => negb (local c)) (visit_cols v)))
               else 0).
Proof.
  unfold RP. rewrite cols_of_snoc, List.filter_app, length_app.
  destruct (visit_row v =? r); simpl; lia.
Qed.

Lemma LP_nonneg vs r : 0 <= LP vs r.
Proof. unfold LP. lia. Qed.

Lemma RP_nonneg vs r : 0 <= RP vs r.
Proof. unfold RP. lia. Qed.

Lemma count_visit_ok vs st v :
  counters_ok vs st ->
  counters_ok (vs ++ [v]) (count_visit NDIM counts rank st v.1.1 v.1.2 v.2).
Proof.
  destruct st as [dv ov]. intros (L1 & L2 & H). simpl in L1, L2.
  destruct ranges_facts as (F1 & F2 & F3 & F4 & F5 & F6).
  unfold count_visit. fold (visit_row v).
  destruct (local (visit_row v)) eqn:Hloc.
  - apply local_iff in Hloc.
    assert (Hk : Int.sub (visit_row v) lo = visit_row v - lo)
      by (apply Int_sub_exact; int_range).
    rewrite Hk.
    destruct (H (visit_row v - lo) ltac:(lia)) as [Hd Ho].
    pose proof (LP_nonneg vs (lo + (visit_row v - lo))) as HLP.
    pose proof (RP_nonneg vs (lo + (visit_row v - lo))) as HRP.
    destruct (count_row_lookup dv ov (visit_row v - lo) (neighbor_dofs NDIM v.1.1 v.1.2 v.2)
                _ _ ltac:(lia) (neighbor_dofs_length _ _ _) Hd Ho ltac:(lia) ltac:(lia))
      as [E1 E2].
    rewrite (surjective_pairing (count_row _ _ _ _ _)). rewrite E1, E2.
    split; [|split].
    + simpl. rewrite length_insert. done.
    + simpl. rewrite length_insert. done.
    + intros j Hj. simpl. rewrite LP_snoc, RP_snoc.
      destruct (decide (j = visit_row v - lo)) as [->|Hne].
      * rewrite !list_lookup_insert_eq by lia.
        replace (lo + (visit_row v - lo)) with (visit_row v) in * by lia.
        rewrite Z.eqb_refl. unfold visit_cols, mat_cols. fold (visit_row v). simpl.
        assert (Hl : local (visit_row v) = true) by (apply local_iff; lia).
        rewrite Hl. simpl. split; f_equal; lia.
      * rewrite !list_lookup_insert_ne by lia.
        assert ((visit_row v =? lo + j) = false) as -> by (apply Z.eqb_neq; lia).
        rewrite !Z.add_0_r. apply H. done.
  - split; [done|]. split; [done|]. intros j Hj. rewrite LP_snoc, RP_snoc.
    assert ((visit_row v =? lo + j) = false) as ->.
    { apply Z.eqb_neq. intros E. rewrite E in Hloc.
      assert (local (lo + j) = true) by (apply local_iff; lia). congruence. }
    rewrite !Z.add_0_r. apply H. done.
Qed.

Lemma count_visits_ok vs acc st :
  counters_ok acc st ->
  counters_ok (acc ++ vs)
    (fold_left (fun st v => count_visit NDIM counts rank st v.1.1 v.1.2 v.2) vs st).
Proof.
  revert acc st. induction vs as [|v vs IH]; intros acc st Hok; simpl.
  - rewrite app_nil_r. done.
  - replace (acc ++ v :: vs) with ((acc ++ [v]) ++ vs) by (rewrite <- app_assoc; done).
    apply IH, count_visit_ok, Hok.
Qed.

Lemma count_phase_visits st :
  count_phase NDIM depth counts rank patch_level st =
  fold_left (fun st v => count_visit NDIM counts rank st v.1.1 v.1.2 v.2)
            (visits depth patch_level) st.
Proof.
  unfold count_phase, visits. rewrite fold_left_flat_map.
  apply fold_left_ext_in. intros a p _.
  rewrite fold_left_flat_map. apply fold_left_ext_in. intros b i _.
  rewrite fold_left_map_list. done.
Qed.

Lemma value_phase_visits mat :
  value_phase NDIM computeMatrixCoefficients depth counts rank patch_level mat =
  fold_left (fun mat v => value_visit NDIM computeMatrixCoefficients counts rank mat v.1.1 v.1.2 v.2)
            (visits depth patch_level) mat.
Proof.
  unfold value_phase, visits. rewrite fold_left_flat_map.
  apply fold_left_ext_in. intros a p _.
  rewrite fold_left_flat_map. apply fold_left_ext_in. intros b i _.
  rewrite fold_left_map_list. done.
Qed.

Lemma cols_of_mono vs v r c : In c (cols_of vs r) -> In c (cols_of (vs ++ [v]) r).
Proof. rewrite cols_of_snoc. intros H. apply in_or_app. auto. Qed.

Lemma value_visit_ok vs mat v :
  entries_ok vs (mat_entries mat) ->
  entries_ok (vs ++ [v])
    (mat_entries (value_visit NDIM computeMatrixCoefficients counts rank mat v.1.1 v.1.2 v.2)).
Proof.
  intros [Hnd Hin]. unfold value_visit. fold (visit_row v).
  destruct (local (visit_row v)); simpl.
  - split; [apply set_row_keys_nodup, Hnd|].
    intros r c x Hx. apply set_row_in in Hx as [Hx|(E1 & E2 & E3 & E4)]; simpl in *.
    + destruct (Hin r c x Hx). split; [apply cols_of_mono|]; done.
    + split; [|done]. rewrite cols_of_snoc. apply in_or_app. right.
      rewrite E1, Z.eqb_refl. done.
  - split; [done|]. intros r c x Hx. destruct (Hin r c x Hx).
    split; [apply cols_of_mono|]; done.
Qed.

Lemma value_visits_ok vs acc mat :
  entries_ok acc (mat_entries mat) ->
  let mat' := fold_left (fun mat v =>
                value_visit NDIM computeMatrixCoefficients counts rank mat v.1.1 v.1.2 v.2) vs mat in
  entries_ok (acc ++ vs) (mat_entries mat')
  /\ mat_d_nnz mat' = mat_d_nnz mat /\ mat_o_nnz mat' = mat_o_nnz mat.
Proof.
  revert acc mat. induction vs as [|v vs IH]; intros acc mat Hok; simpl.
  - rewrite app_nil_r. done.
  - replace (acc ++ v :: vs) with ((acc ++ [v]) ++ vs) by (rewrite <- app_assoc; done).
    destruct (IH (acc ++ [v]) _ (value_visit_ok acc mat v Hok)) as (H1 & H2 & H3).
    split; [done|]. rewrite H2, H3. unfold value_visit.
    destruct (local _); done.
Qed.

Lemma cols_of_dofs vs r c :
  In c (cols_of vs r) -> exists v i, In v vs /\ c = cp_dof v.1.1 i v.2.
Proof.
  unfold cols_of. rewrite in_flat_map. intros (v & Hv & Hc).
  destruct (visit_row v =? r); [|done].
  unfold visit_cols, mat_cols in Hc. destruct Hc as [<-|Hc].
  - exists v, v.1.2. done.
  - unfold neighbor_dofs in Hc. apply in_map_iff in Hc as (s & <- & _). eauto.
Qed.

Lemma visits_patch v : In v (visits depth patch_level) -> In v.1.1 patch_level.
Proof.
  unfold visits. rewrite in_flat_map. intros (p & Hp & Hv).
  apply in_flat_map in Hv as (i & _ & Hv). apply in_map_iff in Hv as (d & <- & _). done.
Qed.
End CCLaplaceBudgets.

(** C2. The count phase of the stencil assembler books, for every owned
    row, the centre as local and each of the [2 * NDIM] neighbours as local
    or remote by the range test, and clamps the two budgets to [n_local] and
    to [n_total - n_local].  The clamped budgets cover the entries that the
    value phase puts into the row: the row holds no more distinct local
    columns than its local budget and no more distinct remote columns than
    its remote budget.  (Counts non-negative and without [int] overflow;
    DOF indices of the field below the total, or negative where masked.) *)
Theorem stencil_budgets_cover_inserted_entries
    (NDIM : nat) (debug : bool) (coefs : CellPatch -> Index -> nat -> Qc) (depth : nat)
    (counts : list Z) (rank : nat) (patch_level : list CellPatch) :
  Forall (fun c => 0 <= c) counts ->
  (rank < length counts)%nat ->
  total_of counts + Z.of_nat (stencil_sz NDIM) <= Int.INT_MAX ->
  Forall (fun p => cp_depth p = depth) patch_level ->
  (forall p i d, In p patch_level -> cp_dof p i d < n_total counts) ->
  exists mat,
    constructPatchLevelCCLaplaceOp NDIM debug coefs depth counts rank patch_level = Returns mat
    /\ forall r, is_local counts rank r = true ->
         let k := r - i_lower counts rank in
         let cols := row_cols (mat_entries mat) r in
         let d_budget := Z.min (n_local counts rank)
                               (local_positions NDIM depth counts rank patch_level r) in
         let o_budget := Z.min (n_total counts - n_local counts rank)
                               (remote_positions NDIM depth counts rank patch_level r) in
         budget (mat_d_nnz mat) k = Some d_budget
         /\ budget (mat_o_nnz mat) k = Some o_budget
         /\ NoDup cols
         /\ Z.of_nat (length (List.filter (is_local counts rank) cols)) <= d_budget
         /\ Z.of_nat (length (List.filter (fun c => negb (is_local counts rank c)) cols))
              <= o_budget.
Proof.
  intros Hnn Hrank Hov Hdepth Hvalid.
  destruct (ranges_facts NDIM counts rank Hnn Hrank Hov) as (F1 & F2 & F3 & F4 & F5 & F6).
  unfold constructPatchLevelCCLaplaceOp, new_counters.
  assert ((n_local counts rank <? 0) = false) as -> by (apply Z.ltb_ge; lia).
  simpl obind.
  assert (forallb (fun p => Nat.eqb depth (cp_depth p)) patch_level = true) as ->.
  { apply forallb_forall. intros p Hp. rewrite List.Forall_forall in Hdepth.
    rewrite (Hdepth p Hp). apply Nat.eqb_refl. }
  rewrite andb_false_r.
  set (st0 := (replicate (Z.to_nat (n_local counts rank)) 0,
               replicate (Z.to_nat (n_local counts rank)) 0)).
  set (st := count_phase NDIM depth counts rank patch_level st0).
  set (mat0 := MatCreateAIJ _ _ _ _).
  eexists. split; [reflexivity|].
  assert (Hst : counters_after NDIM counts rank (visits depth patch_level) st).
  { unfold st. rewrite count_phase_visits.
    apply (count_visits_ok NDIM counts rank Hnn Hrank Hov _ [] st0).
    unfold st0. split; [|split]; simpl; try (rewrite length_replicate; done).
    intros j Hj. rewrite !lookup_replicate_2 by lia.
    unfold booked_local, booked_remote. simpl. split; f_equal; lia. }
  rewrite value_phase_visits.
  destruct (value_visits_ok NDIM coefs counts rank (visits depth patch_level) [] mat0)
    as (Hes & Hd & Ho).
  { split; [constructor|]. intros r c x []. }
  cbv zeta in Hes, Hd, Ho. simpl app in Hes.
  set (mat := fold_left _ _ mat0) in *.
  destruct Hes as [Hnd Hin]. destruct Hst as (_ & _ & Hst).
  intros r Hr. cbv zeta.
  apply (local_iff NDIM counts rank Hnn Hrank Hov) in Hr.
  destruct (Hst (r - i_lower counts rank) ltac:(lia)) as [Hdv Hov'].
  replace (i_lower counts rank + (r - i_lower counts rank)) with r in * by lia.
  assert (Hnz : (n_local counts rank =? 0) = false) by (apply Z.eqb_neq; lia).
  pose proof (row_cols_nodup (mat_entries mat) r Hnd) as Hcols.
  assert (Hoff : forall c, In c (row_cols (mat_entries mat) r) ->
            In c (columns_offered NDIM (visits depth patch_level) r) /\ 0 <= c
            /\ c < n_total counts).
  { intros c Hc. apply row_cols_in in Hc as [x Hx]. destruct (Hin r c x Hx) as [H1 H2].
    split; [done|]. split; [done|].
    destruct (cols_of_dofs NDIM _ _ _ H1) as (v & i & Hv & ->).
    apply Hvalid. apply (visits_patch depth patch_level v Hv). }
  split; [|split; [|split; [done|split]]].
  - rewrite Hd. unfold mat0, MatCreateAIJ, buffer_or_null. simpl. rewrite Hnz. done.
  - rewrite Ho. unfold mat0, MatCreateAIJ, buffer_or_null. simpl. rewrite Hnz. done.
  - apply Z.min_glb.
    + enough (Z.of_nat (length (List.filter (is_local counts rank)
                                  (row_cols (mat_entries mat) r)))
              <= (i_lower counts rank + n_local counts rank) - i_lower counts rank) by lia.
      apply NoDup_interval_length; [|  |lia].
      * apply NoDup_ListNoDup, List.NoDup_filter, NoDup_ListNoDup, Hcols.
      * intros c Hc. apply List.filter_In in Hc as [_ Hc].
        apply (local_iff NDIM counts rank Hnn Hrank Hov) in Hc. done.
    + unfold local_positions, booked_local. apply inj_le.
      apply filter_incl_length; [done|]. intros c Hc. apply Hoff. done.
  - apply Z.min_glb.
    + enough (Z.of_nat (length (List.filter (fun c => negb (is_local counts rank c))
                                  (row_cols (mat_entries mat) r)))
              <= i_lower counts rank + (n_total counts - i_upper counts rank)) by lia.
      apply NoDup_two_intervals_length; [| |lia|lia|lia].
      * apply NoDup_ListNoDup, List.NoDup_filter, NoDup_ListNoDup, Hcols.
      * intros c Hc. apply List.filter_In in Hc as [Hc Hnl].
        destruct (Hoff c Hc) as (_ & H0 & Hlt).
        apply negb_true_iff in Hnl.
        assert (~ (i_lower counts rank <= c < i_lower counts rank + n_local counts rank)).
        { intros Hl. apply (local_iff NDIM counts rank Hnn Hrank Hov) in Hl. congruence. }
        lia.
    + unfold remote_positions, booked_remote. apply inj_le.
      apply filter_incl_length; [done|]. intros c Hc. apply Hoff. done.
Qed.

Lemma example_cell_dof_bound i d : -1 <= example_cell_dof i d < 4.
Proof.
  unfold example_cell_dof.
  destruct i as [|x [|y [|z i]]]; try lia.
  destruct ((0 <=? x) && (x <=? 1) && (0 <=? y) && (y <=? 1)) eqn:E; [|lia].
  rewrite !andb_true_iff, !Z.leb_le in E. lia.
Qed.

Lemma stencil_budgets_witness :
  exists mat,
    constructPatchLevelCCLaplaceOp 2 true example_coefs 1 [4] 0 [example_cell_patch] = Returns mat
    /\ forall r, is_local [4] 0 r = true ->
         let k := r - i_lower [4] 0 in
         let cols := row_cols (mat_entries mat) r in
         let d_budget := Z.min (n_local [4] 0)
                               (local_positions 2 1 [4] 0 [example_cell_patch] r) in
         let o_budget := Z.min (n_total [4] - n_local [4] 0)
                               (remote_positions 2 1 [4] 0 [example_cell_patch] r) in
         budget (mat_d_nnz mat) k = Some d_budget
         /\ budget (mat_o_nnz mat) k = Some o_budget
         /\ NoDup cols
         /\ Z.of_nat (length (List.filter (is_local [4] 0) cols)) <= d_budget
         /\ Z.of_nat (length (List.filter (fun c => negb (is_local [4] 0 c)) cols))
              <= o_budget.
Proof.
  apply (stencil_budgets_cover_inserted_entries 2 true example_coefs 1 [4] 0 [example_cell_patch]).
  - repeat constructor. lia.
  - simpl. lia.
  - vm_compute. discriminate.
  - repeat constructor.
  - intros p i d [<-|[]]. simpl. pose proof (example_cell_dof_bound i d).
    change (n_total [4]) with 4. lia.
Defined.

(** ** Rows of an assembled matrix *)

Lemma row_entries_set_entry_other es r c v r' :
  r' <> r -> row_entries (set_entry es r c v) r' = row_entries es r'.
Proof.
  intros Hne. unfold set_entry. destruct ((r <? 0) || (c <? 0)); [done|].
  unfold row_entries. simpl.
  assert ((r =? r') = false) as -> by (apply Z.eqb_neq; lia).
  f_equal. induction es as [|[[r1 c1] v1] es IH]; simpl; [done|].
  unfold entry_at. simpl.
  destruct (r1 =? r') eqn:E1; simpl.
  - apply Z.eqb_eq in E1. subst r1.
    assert ((r' =? r) = false) as -> by (apply Z.eqb_neq; lia). simpl.
    rewrite Z.eqb_refl. f_equal. apply IH.
  - destruct (negb ((r1 =? r) && (c1 =? c))); simpl; [rewrite E1|]; apply IH.
Qed.

Lemma row_entries_set_entry_same es r c v :
  0 <= r -> 0 <= c ->
  row_entries (set_entry es r c v) r =
    (c, v) :: List.filter (fun cv => negb (cv.1 =? c)) (row_entries es r).
Proof.
  intros Hr Hc. unfold set_entry.
  assert ((r <? 0) || (c <? 0) = false) as ->.
  { apply orb_false_iff. split; apply Z.ltb_ge; done. }
  unfold row_entries. simpl. rewrite Z.eqb_refl. simpl. f_equal.
  induction es as [|[[r1 c1] v1] es IH]; simpl; [done|].
  unfold entry_at. simpl. destruct (r1 =? r) eqn:E1; simpl.
  - destruct (c1 =? c); simpl; [apply IH|]. rewrite E1. simpl. f_equal. apply IH.
  - rewrite E1. apply IH.
Qed.

Lemma row_entries_set_row_other es row cols vals r' :
  r' <> row -> row_entries (set_row es row cols vals) r' = row_entries es r'.
Proof.
  intros Hne. unfold set_row. generalize (zip cols vals). intros cvs. revert es.
  induction cvs as [|cv cvs IH]; intros es; simpl; [done|].
  rewrite IH. apply row_entries_set_entry_other. done.
Qed.

Lemma filter_filter_entries (cvs : list (Z * Qc)) c (cs : list Z) :
  List.filter (fun cv => negb (existsb (Z.eqb cv.1) cs))
              (List.filter (fun cv => negb (cv.1 =? c)) cvs)
  = List.filter (fun cv => negb (existsb (Z.eqb cv.1) (c :: cs))) cvs.
Proof.
  induction cvs as [|cv cvs IH]; simpl; [done|].
  destruct (cv.1 =? c) eqn:E; simpl; [apply IH|].
  destruct (existsb (Z.eqb cv.1) cs); simpl; [apply IH|]. f_equal. apply IH.
Qed.

Lemma existsb_eqb_false c (cs : list Z) : ~ In c cs -> existsb (Z.eqb c) cs = false.
Proof.
  intros H. destruct (existsb (Z.eqb c) cs) eqn:E; [|done].
  apply existsb_exists in E as (x & Hx & Hc). apply Z.eqb_eq in Hc. subst. done.
Qed.

Lemma row_entries_set_entries (cvs : list (Z * Qc)) es row :
  0 <= row -> Forall (fun c => 0 <= c) (map fst cvs) -> NoDup (map fst cvs) ->
  row_entries (fold_left (fun es cv => set_entry es row cv.1 cv.2) cvs es) row
  = rev cvs ++ List.filter (fun cv => negb (existsb (Z.eqb cv.1) (map fst cvs)))
                           (row_entries es row).
Proof.
  intros Hrow. revert es. induction cvs as [|[c v] cvs IH]; intros es Hnn Hnd; simpl.
  - induction (row_entries es row) as [|x l IHl]; simpl; [done|]. f_equal. done.
  - simpl in Hnn, Hnd. apply Forall_cons in Hnn as [Hc Hnn].
    apply NoDup_cons in Hnd as [Hnot Hnd].
    rewrite IH by done. rewrite row_entries_set_entry_same by done. simpl.
    rewrite existsb_eqb_false by (rewrite <- list_elem_of_In; done). simpl.
    rewrite <- app_assoc. simpl. f_equal. f_equal.
    apply filter_filter_entries.
Qed.

Lemma filter_covered (cvs : list (Z * Qc)) (cs : list Z) :
  (forall cv, In cv cvs -> In cv.1 cs) ->
  List.filter (fun cv => negb (existsb (Z.eqb cv.1) cs)) cvs = [].
Proof.
  intros H. induction cvs as [|cv cvs IH]; simpl; [done|].
  assert (existsb (Z.eqb cv.1) cs = true) as ->.
  { apply existsb_exists. exists cv.1. split; [apply H; left; done|apply Z.eqb_refl]. }
  simpl. apply IH. intros. apply H. right. done.
Qed.

Lemma zip_fst_same_length {A B} (l : list A) (k : list B) :
  length l = length k -> map fst (zip l k) = l.
Proof.
  revert k. induction l as [|x l IH]; intros [|y k] H; simpl in *; try done.
  f_equal. apply IH. lia.
Qed.


(** If the calls for the row of a well-formed call [s] all equal [s], then
    after all calls the row holds the columns and values of [s]. *)
Lemma assemble_row steps s :
  In s steps -> step_ok s ->
  (forall s', In s' steps -> s'.1.1 = s.1.1 -> s' = s) ->
  row_entries (assemble steps []) s.1.1 = rev (zip s.1.2 s.2).
Proof.
  intros Hs (Hrow & Hnn & Hnd & Hlen) Hcons.
  assert (Hset : forall es,
            row_entries es s.1.1 = [] \/ row_entries es s.1.1 = rev (zip s.1.2 s.2) ->
            row_entries (set_row es s.1.1 s.1.2 s.2) s.1.1 = rev (zip s.1.2 s.2)).
  { intros es Hes. unfold set_row. rewrite row_entries_set_entries; try done.
    2,3: rewrite zip_fst_same_length by done; done.
    rewrite filter_covered; [apply app_nil_r|].
    intros cv Hcv. rewrite zip_fst_same_length by done.
    destruct Hes as [He|He]; rewrite He in Hcv; [done|].
    apply in_rev in Hcv. apply list_elem_of_In in Hcv. destruct cv as [c v].
    apply elem_of_zip_l in Hcv. apply list_elem_of_In. done. }
  assert (G : forall todo es,
            (forall s', In s' todo -> s'.1.1 = s.1.1 -> s' = s) ->
            row_entries es s.1.1 = [] \/ row_entries es s.1.1 = rev (zip s.1.2 s.2) ->
            (row_entries (assemble todo es) s.1.1 = rev (zip s.1.2 s.2))
            \/ (~ In s todo /\ row_entries (assemble todo es) s.1.1 = row_entries es s.1.1)).
  { induction todo as [|s0 todo IH]; intros es Hc Hes; simpl.
    - right. split; [tauto|done].
    - destruct (decide (s0.1.1 = s.1.1)) as [Heq|Hne].
      + assert (s0 = s) as -> by (apply Hc; [left|]; done).
        left. destruct (IH (set_row es s.1.1 s.1.2 s.2)) as [H|[_ H]].
        * intros. apply Hc; [right|]; done.
        * right. apply Hset. done.
        * done.
        * rewrite H. apply Hset. done.
      + destruct (IH (set_row es s0.1.1 s0.1.2 s0.2)) as [H|[Hno H]].
        * intros. apply Hc; [right|]; done.
        * rewrite row_entries_set_row_other by done. done.
        * left. done.
        * right. split.
          -- intros [->|Hin]; done.
          -- rewrite H. apply row_entries_set_row_other. done. }
  destruct (G steps [] Hcons (or_introl eq_refl)) as [H|[Hno _]]; done.
Qed.

Lemma assemble_rows steps :
  Forall step_ok steps ->
  (forall s1 s2, In s1 steps -> In s2 steps -> s1.1.1 = s2.1.1 -> s1 = s2) ->
  forall s, In s steps ->
    row_entries (assemble steps []) s.1.1 = rev (zip s.1.2 s.2).
Proof.
  intros Hok Hcons s Hs. apply assemble_row; [done| |].
  - rewrite List.Forall_forall in Hok. apply Hok. done.
  - intros s' Hs' Hr. apply Hcons; done.
Qed.

Lemma assemble_app a b es : assemble (a ++ b) es = assemble b (assemble a es).
Proof. unfold assemble. apply fold_left_app. Qed.

Lemma mat_entries_fold {A} (g : Mat -> A -> Mat) (h : A -> list (Z * list Z * list Qc)) l mat :
  (forall mat x, mat_entries (g mat x) = assemble (h x) (mat_entries mat)) ->
  mat_entries (fold_left g l mat) = assemble (flat_map h l) (mat_entries mat).
Proof.
  intros H. revert mat. induction l as [|x l IH]; intros mat; simpl; [done|].
  rewrite IH, H, assemble_app. done.
Qed.

Lemma mat_entries_fold_if {A} (c : A -> bool) (g : Mat -> A -> Mat)
    (h : A -> list (Z * list Z * list Qc)) l mat :
  (forall mat x, mat_entries (g mat x) = assemble (h x) (mat_entries mat)) ->
  mat_entries (fold_left (fun mat x => if c x then g mat x else mat) l mat)
  = assemble (flat_map (fun x => if c x then h x else []) l) (mat_entries mat).
Proof.
  intros H. apply mat_entries_fold. intros m x. destruct (c x); [apply H|done].
Qed.

Lemma mat_entries_MatSetValues mat row cols vals :
  mat_entries (MatSetValues mat row cols vals) = assemble [(row, cols, vals)] (mat_entries mat).
Proof. done. Qed.

Lemma flat_map_singleton {A B} (f : A -> B) l : flat_map (fun x => [f x]) l = map f l.
Proof. induction l as [|x l IH]; simpl; [done|]. rewrite IH. done. Qed.

Lemma zip_map_self {A B} (g : A -> B) l : zip l (map g l) = map (fun x => (x, g x)) l.
Proof. induction l as [|x l IH]; simpl; [done|]. rewrite IH. done. Qed.

(** A loop that can fail returns when its body keeps an invariant. *)
Lemma ofold_returns {A B} (P : A -> Prop) (f : A -> B -> outcome A) l a :
  P a ->
  (forall a x, In x l -> P a -> exists a', f a x = Returns a' /\ P a') ->
  exists a', ofold f l a = Returns a' /\ P a'.
Proof.
  revert a. induction l as [|x l IH]; intros a Ha H; simpl.
  - eauto.
  - destruct (H a x (or_introl eq_refl) Ha) as (a1 & E & H1). rewrite E. simpl.
    apply IH; [done|]. intros. apply H; [right|]; done.
Qed.

Lemma checked_write_returns v k x :
  0 <= k < Z.of_nat (length v) ->
  checked_write v k x = Returns (<[Z.to_nat k := x]> v).
Proof.
  intros H. unfold checked_write.
  assert ((0 <=? k) && (k <? Z.of_nat (length v)) = true) as ->; [|done].
  apply andb_true_iff. split; [apply Z.leb_le|apply Z.ltb_lt]; lia.
Qed.

(** ** The volumetric prolongation *)

Section CellProlongation.
Variable NDIM : nat.
Variable debug : bool.
Variable coarsen : Index -> Index -> Index.
Variable mapIndexToInteger : Index -> Index -> Index -> nat -> Z -> Z.
Variable ao : Z -> Z.
Variable ao_offset : Z.
Variable fine_counts : list Z.
Variable coarse_counts : list Z.
Variable rank : nat.
Variable coarse_ratio : Index.
Variable fine_ratio : Index.
Variable level : list CellPatch.
Variable dom : Box.

Hypothesis counts_nonneg : Forall (fun c => 0 <= c) fine_counts.
Hypothesis rank_valid : (rank < length fine_counts)%nat.
Hypothesis no_overflow : total_of fine_counts <= Int.INT_MAX.
Hypothesis owned : forall p i d,
  In p level -> In i (box_cells (cp_box p)) -> (d < cp_depth p)%nat ->
  is_local fine_counts rank (cp_dof p i d) = true.

Lemma cell_value_phase_entries mat :
  mat_entries (cell_value_phase coarsen mapIndexToInteger ao ao_offset coarse_ratio fine_ratio
                                level dom mat)
  = assemble (cell_steps coarsen mapIndexToInteger ao ao_offset coarse_ratio fine_ratio level dom)
             (mat_entries mat).
Proof.
  unfold cell_value_phase, cell_steps. apply mat_entries_fold. intros m p.
  apply mat_entries_fold. intros m' i.
  unfold cell_value_cell, cell_samrai_petsc_map. rewrite map_map, zip_map_self.
  rewrite fold_left_map_list. rewrite <- flat_map_singleton.
  apply (mat_entries_fold
           (fun mat d => MatSetValues mat (cp_dof p i d) [_] [1%Qc])
           (fun d => [(cp_dof p i d, [_], [1%Qc])])).
  intros. apply mat_entries_MatSetValues.
Qed.

Lemma cell_count_phase_returns :
  exists st,
    cell_count_phase debug coarsen mapIndexToInteger ao ao_offset fine_counts coarse_counts rank
      coarse_ratio fine_ratio level dom
      (replicate (Z.to_nat (n_local fine_counts rank)) 0,
       replicate (Z.to_nat (n_local fine_counts rank)) 0) = Returns st.
Proof.
  destruct (partition_exact fine_counts rank counts_nonneg no_overflow rank_valid)
    as (E1 & E2 & E3 & E4 & E5 & E6 & E7).
  pose proof (total_of_take_succ fine_counts rank rank_valid) as Hs.
  set (P := fun st : list Z * list Z =>
              length st.1 = Z.to_nat (n_local fine_counts rank)
              /\ length st.2 = Z.to_nat (n_local fine_counts rank)).
  enough (exists st, cell_count_phase debug coarsen mapIndexToInteger ao ao_offset fine_counts
                       coarse_counts rank coarse_ratio fine_ratio level dom
                       (replicate (Z.to_nat (n_local fine_counts rank)) 0,
                        replicate (Z.to_nat (n_local fine_counts rank)) 0) = Returns st /\ P st)
    as (st & H & _) by eauto.
  unfold cell_count_phase. apply ofold_returns.
  { split; simpl; apply length_replicate. }
  intros st p Hp Hst. apply ofold_returns; [done|].
  clear st Hst. intros st i Hi Hst. unfold cell_count_cell.
  assert (forallb (is_local fine_counts rank)
            (map (fun d => cp_dof p i d) (seq 0 (cp_depth p))) = true) as ->.
  { apply forallb_forall. intros r Hr. apply in_map_iff in Hr as (d & <- & Hd).
    apply in_seq in Hd. apply owned; [done|done|lia]. }
  rewrite andb_false_r.
  apply ofold_returns; [done|].
  clear st Hst. intros st [k c] Hkc [L1 L2].
  apply list_elem_of_In, elem_of_zip_l in Hkc.
  apply list_elem_of_In, in_map_iff in Hkc as (r & <- & Hr).
  apply in_map_iff in Hr as (d & <- & Hd). apply in_seq in Hd.
  pose proof (owned p i d Hp Hi ltac:(lia)) as Hown.
  unfold is_local in Hown. apply andb_true_iff in Hown as [Hl Hu].
  apply Z.leb_le in Hl. apply Z.ltb_lt in Hu.
  assert (Hk : Int.sub (cp_dof p i d) (i_lower fine_counts rank)
               = cp_dof p i d - i_lower fine_counts rank).
  { apply Int_sub_exact. rewrite E3 in Hu. rewrite E4 in E7. rewrite E3 in E7.
    rewrite E1 in *. int_range. }
  simpl. rewrite Hk.
  assert (Hrange : 0 <= cp_dof p i d - i_lower fine_counts rank < n_local fine_counts rank).
  { rewrite E3 in Hu. rewrite E1, E2 in *. lia. }
  destruct (on_proc_coarse coarse_counts rank c).
  - rewrite checked_write_returns by lia. simpl. eexists. split; [done|].
    split; simpl; [rewrite length_insert|]; done.
  - rewrite checked_write_returns by lia. simpl. eexists. split; [done|].
    split; simpl; [|rewrite length_insert]; done.
Qed.
End CellProlongation.

Lemma cell_steps_in coarsen mapIndexToInteger ao ao_offset coarse_ratio fine_ratio level dom s :
  In s (cell_steps coarsen mapIndexToInteger ao ao_offset coarse_ratio fine_ratio level dom) <->
  exists p i d, cell_location level p i d
    /\ s = (cp_dof p i d,
            [cell_column coarsen mapIndexToInteger ao ao_offset coarse_ratio fine_ratio dom i d],
            [1%Qc]).
Proof.
  unfold cell_steps, cell_location. rewrite in_flat_map. split.
  - intros (p & Hp & Hs). apply in_flat_map in Hs as (i & Hi & Hs).
    apply in_map_iff in Hs as (d & <- & Hd). apply in_seq in Hd.
    exists p, i, d. repeat split; try done. lia.
  - intros (p & i & d & (Hp & Hi & Hd) & ->). exists p. split; [done|].
    apply in_flat_map. exists i. split; [done|]. apply in_map_iff. exists d.
    split; [done|]. apply in_seq. lia.
Qed.

(** C3. In the volumetric prolongation every row of a fine DOF holds
    exactly one entry: its column is the image under the application
    ordering of the integer that [mapIndexToInteger] gives to the coarse cell
    [coarsen(i_fine, fine_ratio / coarse_ratio)], and its value is 1.
    (Fine DOFs owned by the process, as the code asserts; the DOF index
    field numbers distinct cells and components differently; the columns
    are valid indices.) *)
Theorem cell_prolongation_row_is_one_unit_entry
    (debug : bool) (coarsen : Index -> Index -> Index)
    (mapIndexToInteger : Index -> Index -> Index -> nat -> Z -> Z)
    (ao : Z -> Z) (ao_offset : Z) (fine_counts coarse_counts : list Z) (rank : nat)
    (dom : Box) (coarse_ratio fine_ratio : Index) (level : list CellPatch) :
  Forall (fun c => 0 <= c) fine_counts ->
  (rank < length fine_counts)%nat ->
  total_of fine_counts <= Int.INT_MAX ->
  (forall p i d, cell_location level p i d ->
     is_local fine_counts rank (cp_dof p i d) = true) ->
  (forall p1 i1 d1 p2 i2 d2,
     cell_location level p1 i1 d1 -> cell_location level p2 i2 d2 ->
     cp_dof p1 i1 d1 = cp_dof p2 i2 d2 -> i1 = i2 /\ d1 = d2) ->
  (forall p i d, cell_location level p i d ->
     0 <= cell_column coarsen mapIndexToInteger ao ao_offset coarse_ratio fine_ratio dom i d) ->
  exists mat,
    constructProlongationOp_cell debug coarsen mapIndexToInteger ao ao_offset
      fine_counts coarse_counts rank [dom] coarse_ratio fine_ratio level = Returns mat
    /\ forall p i d, cell_location level p i d ->
         row_entries (mat_entries mat) (cp_dof p i d)
         = [(ao (mapIndexToInteger (coarsen i (fine_coarse_ratio coarse_ratio fine_ratio))
                                   (lower dom) (cell_coarse_num_cells dom) d ao_offset),
             1%Qc)].
Proof.
  intros Hnn Hrank Hmax Hown Hinj Hcol.
  destruct (partition_exact fine_counts rank Hnn Hmax Hrank) as (E1 & E2 & E3 & E4 & E5 & E6 & E7).
  unfold constructProlongationOp_cell. simpl the_domain_box. simpl obind.
  unfold new_counters.
  assert ((n_local fine_counts rank <? 0) = false) as -> by (apply Z.ltb_ge; lia).
  simpl obind.
  destruct (cell_count_phase_returns debug coarsen mapIndexToInteger ao ao_offset fine_counts
              coarse_counts rank coarse_ratio fine_ratio level dom Hnn Hrank Hmax) as [st Hst].
  { intros p i d Hp Hi Hd. apply Hown. done. }
  rewrite Hst. simpl obind. eexists. split; [reflexivity|].
  intros p i d Hloc. rewrite cell_value_phase_entries. simpl mat_entries.
  set (steps := cell_steps _ _ _ _ _ _ _ _).
  set (s := (cp_dof p i d,
             [cell_column coarsen mapIndexToInteger ao ao_offset coarse_ratio fine_ratio dom i d],
             [1%Qc])).
  change (cp_dof p i d) with s.1.1.
  rewrite (assemble_rows steps); [done| | |].
  - apply List.Forall_forall. intros s' Hs'. apply cell_steps_in in Hs' as (p' & i' & d' & Hl' & ->).
    unfold step_ok. simpl. split; [|split; [|split]].
    + pose proof (Hown p' i' d' Hl') as Ho. unfold is_local in Ho.
      apply andb_true_iff in Ho as [Ho _]. apply Z.leb_le in Ho. lia.
    + constructor; [|constructor]. apply Hcol with p'. done.
    + apply NoDup_singleton.
    + done.
  - intros s1 s2 H1 H2 Hrow.
    apply cell_steps_in in H1 as (p1 & i1 & d1 & Hl1 & ->).
    apply cell_steps_in in H2 as (p2 & i2 & d2 & Hl2 & ->).
    simpl in Hrow. destruct (Hinj _ _ _ _ _ _ Hl1 Hl2 Hrow) as [-> ->].
    rewrite Hrow. done.
  - apply cell_steps_in. exists p, i, d. done.
Qed.

Ltac enum_in H := simpl in H; repeat (destruct H as [<-|H]); [..|destruct H].

Lemma cell_prolongation_witness :
  exists mat,
    constructProlongationOp_cell true IndexUtilities_coarsen IndexUtilities_mapIndexToInteger
      (fun j => j) 0 [8] [2] 0 [example_coarse_domain] [1; 1] [2; 2] [example_fine_patch]
    = Returns mat
    /\ forall p i d, cell_location [example_fine_patch] p i d ->
         row_entries (mat_entries mat) (cp_dof p i d)
         = [(IndexUtilities_mapIndexToInteger
               (IndexUtilities_coarsen i (fine_coarse_ratio [1; 1] [2; 2]))
               (lower example_coarse_domain) (cell_coarse_num_cells example_coarse_domain) d 0,
             1%Qc)].
Proof.
  apply (cell_prolongation_row_is_one_unit_entry true IndexUtilities_coarsen
           IndexUtilities_mapIndexToInteger (fun j => j) 0 [8] [2] 0 example_coarse_domain
           [1; 1] [2; 2] [example_fine_patch]).
  - repeat constructor. lia.
  - simpl. lia.
  - vm_compute. discriminate.
  - intros p i d (Hp & Hi & Hd). enum_in Hp. enum_in Hi; reflexivity.
  - intros p1 i1 d1 p2 i2 d2 (Hp1 & Hi1 & Hd1) (Hp2 & Hi2 & Hd2).
    enum_in Hp1. enum_in Hp2. simpl in Hd1, Hd2.
    assert (d1 = d2) as -> by lia.
    enum_in Hi1; enum_in Hi2; simpl; intros E; first [discriminate E | split; reflexivity].
  - intros p i d (Hp & Hi & Hd). enum_in Hp. simpl in Hd.
    assert (d = 0%nat) as -> by lia.
    enum_in Hi; vm_compute; discriminate.
Defined.

(** ** The directional prolongation *)



Section SideProlongation.
Variable NDIM : nat.
Variable debug : bool.
Variable coarsen : Index -> Index -> Index.
Variable refine : Index -> Index -> Index.
Variable mapIndexToInteger : Index -> Index -> Index -> nat -> Z -> Z.
Variable ao : Z -> Z.
Variable ao_offset : Z.
Variable fine_counts : list Z.
Variable coarse_counts : list Z.
Variable rank : nat.
Variable coarse_ratio : Index.
Variable fine_ratio : Index.
Variable level : list SidePatch.
Variable dom : Box.

Lemma side_value_phase_entries mat :
  mat_entries (side_value_phase NDIM coarsen refine mapIndexToInteger ao ao_offset fine_counts
                                rank coarse_ratio fine_ratio level dom mat)
  = assemble (side_steps NDIM coarsen refine mapIndexToInteger ao ao_offset fine_counts
                         rank coarse_ratio fine_ratio level dom)
             (mat_entries mat).
Proof.
  unfold side_value_phase, side_steps. apply mat_entries_fold. intros m p.
  apply mat_entries_fold. intros m' axis.
  apply (mat_entries_fold_if (fun i => on_proc_fine_loc fine_counts rank p axis i)
           (fun mat i => fold_left (side_value_component NDIM coarsen refine mapIndexToInteger ao
                                      ao_offset coarse_ratio fine_ratio dom p axis i)
                                   (seq 0 (sp_depth p)) mat)).
  intros m'' i. rewrite <- flat_map_singleton.
  apply mat_entries_fold. intros. apply mat_entries_MatSetValues.
Qed.

Lemma side_steps_in s :
  In s (side_steps NDIM coarsen refine mapIndexToInteger ao ao_offset fine_counts
                   rank coarse_ratio fine_ratio level dom) <->
  exists p axis i d,
    side_location NDIM fine_counts rank level p axis i d
    /\ s = (sp_dof p axis i d,
            [col_lower NDIM coarsen mapIndexToInteger ao ao_offset coarse_ratio fine_ratio dom
                       (sp_depth p) axis i d;
             col_upper NDIM coarsen mapIndexToInteger ao ao_offset coarse_ratio fine_ratio dom
                       (sp_depth p) axis i d],
            col_val coarsen refine coarse_ratio fine_ratio axis i).
Proof.
  unfold side_steps, side_location. rewrite in_flat_map. split.
  - intros (p & Hp & Hs). apply in_flat_map in Hs as (axis & Ha & Hs).
    apply in_flat_map in Hs as (i & Hi & Hs). apply in_seq in Ha.
    destruct (on_proc_fine_loc fine_counts rank p axis i) eqn:Hon; [|done].
    apply in_map_iff in Hs as (d & <- & Hd). apply in_seq in Hd.
    exists p, axis, i, d. repeat split; try done; lia.
  - intros (p & axis & i & d & (Hp & Ha & Hi & Hon & Hd) & ->). exists p. split; [done|].
    apply in_flat_map. exists axis. split; [apply in_seq; lia|].
    apply in_flat_map. exists i. split; [done|]. rewrite Hon.
    apply in_map_iff. exists d. split; [done|]. apply in_seq. lia.
Qed.
End SideProlongation.







(** ** The restriction scaling *)

Lemma zrange_lookup lo hi k :
  lo <= k <= hi -> zrange lo hi !! Z.to_nat (k - lo) = Some k.
Proof.
  intros H. unfold zrange. rewrite list_lookup_fmap_Some. exists (Z.to_nat (k - lo)).
  split; [lia|]. rewrite lookup_seq. split; [done|lia].
Qed.

Lemma invert_norm_cases equalEps sum :
  equalEps 0%Qc 0%Qc = true ->
  exists v, invert_norm equalEps sum = Some v
    /\ (sum = 0%Qc -> v = 0%Qc)
    /\ (equalEps sum 0%Qc = false -> v = (1 / sum)%Qc /\ sum <> 0%Qc)
    /\ (equalEps sum 0%Qc = true -> v = 0%Qc).
Proof.
  intros H0. unfold invert_norm, double_div.
  destruct (equalEps sum 0%Qc) eqn:He; simpl.
  - exists 0%Qc. split; [done|]. split; [done|]. split; [discriminate|done].
  - unfold Qc_eq_bool. destruct (Qcanon.Qc_eq_dec sum 0%Qc) as [->|Hne]; [congruence|].
    exists (1 / sum)%Qc. split; [done|]. split; [done|]. split; [done|discriminate].
Qed.

Lemma column_norm_no_entry P k :
  (forall e, In e P -> e.1.2 <> k) -> column_norm P k = 0%Qc.
Proof.
  intros Hno. unfold column_norm.
  induction P as [|e P' IH]; simpl; [done|].
  assert ((e.1.2 =? k) = false) as ->.
  { apply Z.eqb_neq. apply Hno. left. done. }
  apply IH. intros. apply Hno. right. done.
Qed.

(** C5. The restriction scaling takes the 1-norm of every column of [P]
    and gives the column the reciprocal of the norm when the norm is not
    zero and exactly 0 when it is zero (in particular for a column without
    entries); no value is an infinity or a NaN, and no division has a zero
    divisor.  ([equalEps] holds of equal numbers, and no column norm of [P]
    is a nonzero number that [equalEps] takes for zero.) *)
Theorem restriction_scaling_inverts_nonzero_norms
    (equalEps : Qc -> Qc -> bool) (P : list entry) (N ilower iupper : Z) :
  equalEps 0%Qc 0%Qc = true ->
  (forall j, 0 <= j < N ->
     equalEps (column_norm P j) 0%Qc = true -> column_norm P j = 0%Qc) ->
  0 <= ilower -> iupper <= N -> N <= Int.INT_MAX ->
  let L := constructRestrictionScalingOp equalEps P N ilower iupper in
  (forall k x, In (k, x) L -> exists v, x = Some (Some v))
  /\ forall k, ilower <= k < iupper ->
       exists v, In (k, Some (Some v)) L
         /\ (column_norm P k <> 0%Qc -> v = (1 / column_norm P k)%Qc)
         /\ (column_norm P k = 0%Qc -> v = 0%Qc)
         /\ ((forall e, In e P -> e.1.2 <> k) -> v = 0%Qc).
Proof.
  intros H0 Htol Hlo Hup Hmax L.
  assert (Hinv : forall k, 0 <= k < N ->
            column_sum_inv equalEps P N !! Z.to_nat k
            = Some (invert_norm equalEps (column_norm P k))).
  { intros k Hk. unfold column_sum_inv, MatGetColumnNorms. rewrite !list_lookup_fmap.
    replace (Z.to_nat k) with (Z.to_nat (k - 0)) by lia.
    rewrite zrange_lookup by lia. done. }
  assert (HL : forall k x, In (k, x) L ->
            ilower <= k < iupper
            /\ x = Some (invert_norm equalEps (column_norm P k))).
  { intros k x Hin. unfold L, constructRestrictionScalingOp in Hin.
    destruct (Int.sub iupper ilower =? 0); [done|].
    apply in_map_iff in Hin as (k' & [= <- <-] & Hk'). apply zrange_in in Hk'.
    split; [lia|]. apply Hinv. lia. }
  split.
  - intros k x Hin. destruct (HL k x Hin) as [Hk ->].
    destruct (invert_norm_cases equalEps (column_norm P k) H0) as (v & -> & _). eauto.
  - intros k Hk.
    destruct (invert_norm_cases equalEps (column_norm P k) H0) as (v & Hv & Hz & Hnz & He).
    exists v. split; [|split; [|split]].
    + unfold L, constructRestrictionScalingOp.
      rewrite Int_sub_exact by int_range.
      assert ((iupper - ilower =? 0) = false) as -> by (apply Z.eqb_neq; lia).
      apply in_map_iff. exists k. split; [|apply zrange_in; lia].
      rewrite Hinv by lia. rewrite Hv. done.
    + intros Hne. destruct (equalEps (column_norm P k) 0%Qc) eqn:E.
      * exfalso. apply Hne. apply Htol; [lia|done].
      * apply Hnz. done.
    + done.
    + intros Hno. apply Hz. apply column_norm_no_entry. done.
Qed.

Lemma restriction_scaling_witness :
  let L := constructRestrictionScalingOp example_equalEps example_prolongation 3 0 3 in
  (forall k x, In (k, x) L -> exists v, x = Some (Some v))
  /\ forall k, 0 <= k < 3 ->
       exists v, In (k, Some (Some v)) L
         /\ (column_norm example_prolongation k <> 0%Qc ->
             v = (1 / column_norm example_prolongation k)%Qc)
         /\ (column_norm example_prolongation k = 0%Qc -> v = 0%Qc)
         /\ ((forall e, In e example_prolongation -> e.1.2 <> k) -> v = 0%Qc).
Proof.
  apply (restriction_scaling_inverts_nonzero_norms example_equalEps example_prolongation 3 0 3).
  - reflexivity.
  - intros j Hj. assert (j = 0 \/ j = 1 \/ j = 2) as [-> | [-> | ->]] by lia.
    + vm_compute. discriminate.
    + vm_compute. discriminate.
    + intros _. apply Qc_is_canon. vm_compute. reflexivity.
  - lia.
  - lia.
  - vm_compute. discriminate.
Defined.

(** ** The subdomain partitioner without overlap *)

Lemma IntVector_max_zero v : Forall (fun o => o = 0) v -> IntVector_max v = 0.
Proof.
  intros H. destruct H as [|x v -> Hv]; simpl; [done|].
  induction Hv as [|y v -> Hv IH]; simpl; done.
Qed.

(** A loop over a list of items, each of which makes a known number of
    sub-boxes, against the number of sub-boxes still to come. *)
Lemma ofold_measure {A B} (I : nat -> A -> Prop) (f : A -> B -> outcome A)
    (w : B -> nat) (l : list B) :
  (forall a x r, In x l -> I (w x + r)%nat a -> exists a', f a x = Returns a' /\ I r a') ->
  forall a r, I (fold_right (fun x n => (w x + n)%nat) 0%nat l + r)%nat a ->
    exists a', ofold f l a = Returns a' /\ I r a'.
Proof.
  induction l as [|x l IH]; intros Hf a r Ha; simpl in *.
  - eauto.
  - destruct (Hf a x (fold_right (fun x n => (w x + n)%nat) 0%nat l + r)%nat
                (or_introl eq_refl)) as (a1 & E & H1).
    { rewrite Nat.add_assoc. done. }
    rewrite E. simpl. apply IH; [|done]. intros. apply Hf; [right|]; done.
Qed.

Lemma fold_left_count {B} (w : B -> nat) (l : list B) n :
  fold_left (fun n x => (n + w x)%nat) l n
  = (n + fold_right (fun x n => (w x + n)%nat) 0%nat l)%nat.
Proof.
  revert n. induction l as [|x l IH]; intros n; simpl; [lia|]. rewrite IH. lia.
Qed.

Section ZeroOverlap.
Variable NDIM : nat.
Variable partitionPatchBox : Box -> Index -> Index -> list Box * list Box.
Variable box_size : Index.
Variable overlap_size : Index.
Variable N : nat.

Hypothesis no_overlap : Forall (fun o => o = 0) overlap_size.

Abbreviation shared_so_far := (shared_so_far N).

Lemma make_subdomain_sets_shared st r dofs ovl :
  shared_so_far (S r) st ->
  exists st', make_subdomain_sets overlap_size st dofs ovl = Returns st'
              /\ shared_so_far r st'.
Proof.
  intros (Hc & L1 & L2 & Hsh).
  unfold make_subdomain_sets, there_is_overlap.
  rewrite IntVector_max_zero by done.
  set (k := subdomain_counter st) in *.
  assert (Hk : (k < N)%nat) by lia.
  assert ((length (is_nonoverlap st) <=? k)%nat = false) as -> by (apply Nat.leb_gt; lia).
  assert ((length (is_overlap st) <=? k)%nat = false) as -> by (apply Nat.leb_gt; lia).
  simpl.
  rewrite list_lookup_total_insert_eq by lia.
  eexists. split; [reflexivity|].
  split; [simpl; lia|]. split; [simpl; rewrite length_insert; done|].
  split; [simpl; rewrite length_insert; done|].
  simpl. intros j Hj. destruct (decide (j = k)) as [->|Hne].
  - exists (length (asm_heap st)), (mkIS (sort dofs) 2).
    rewrite !list_lookup_insert_eq by lia. split; [done|]. split; [done|].
    split; [|done]. unfold PetscObjectReference.
    rewrite list_lookup_alter_eq. rewrite lookup_app_r by lia.
    rewrite Nat.sub_diag. done.
  - destruct (Hsh j ltac:(lia)) as (h & o & H1 & H2 & H3 & H4).
    exists h, o. rewrite !list_lookup_insert_ne by lia.
    split; [done|]. split; [done|]. split; [|done].
    pose proof (lookup_lt_Some _ _ _ H3) as Hlt.
    unfold PetscObjectReference. rewrite list_lookup_alter_ne by lia.
    rewrite lookup_app_l by lia. done.
Qed.

Lemma count_ones {B} (l : list B) :
  fold_right (fun (_ : B) n => (1 + n)%nat) 0%nat l = length l.
Proof. induction l as [|x l IH]; [done|]. cbn [fold_right length]. rewrite IH. lia. Qed.

Hypothesis parallel_boxes : forall b,
  length (overlap_boxes partitionPatchBox box_size overlap_size b)
  = length (nonoverlap_boxes partitionPatchBox box_size overlap_size b).

Lemma box_at_returns (v : list Box) i :
  (i < length v)%nat -> exists b, box_at v i = Returns b /\ In b v.
Proof.
  intros H. unfold box_at. destruct (lookup_lt_is_Some_2 v i H) as [b Hb].
  rewrite Hb. exists b. split; [done|]. apply list_elem_of_In. eapply list_elem_of_lookup_2. done.
Qed.

Lemma cell_patch_subdomains_shared debug ghost p st r :
  0 <= ghost p ->
  shared_so_far (length (overlap_boxes partitionPatchBox box_size overlap_size (cp_box p)) + r) st ->
  exists st', cell_patch_subdomains debug partitionPatchBox box_size overlap_size ghost st p
              = Returns st'
              /\ shared_so_far r st'.
Proof.
  intros Hg Hst. unfold cell_patch_subdomains.
  rewrite IntVector_max_zero by done.
  assert ((ghost p >=? 0) = true) as -> by (rewrite Z.geb_leb; apply Z.leb_le; done).
  rewrite andb_false_r.
  apply (ofold_measure (fun r st => shared_so_far r st) _ (fun _ => 1%nat)).
  - intros a i r' Hi Ha. apply in_seq in Hi. unfold cell_subdomain.
    destruct (box_at_returns (nonoverlap_boxes partitionPatchBox box_size overlap_size (cp_box p)) i)
      as (b & -> & _); [rewrite <- parallel_boxes; lia|].
    simpl. apply make_subdomain_sets_shared. done.
  - rewrite count_ones, length_seq. done.
Qed.

Lemma side_patch_subdomains_shared debug ghost geom level_num getBoundaries p st r :
  0 <= ghost p -> sp_depth p = 1%nat ->
  (forall b, In b (nonoverlap_boxes partitionPatchBox box_size overlap_size (sp_box p)) ->
     exists dofs, side_local_dofs NDIM geom level_num getBoundaries p b = Returns dofs) ->
  shared_so_far (length (overlap_boxes partitionPatchBox box_size overlap_size (sp_box p)) + r) st ->
  exists st', side_patch_subdomains NDIM debug partitionPatchBox box_size overlap_size ghost
                geom level_num getBoundaries st p = Returns st'
              /\ shared_so_far r st'.
Proof.
  intros Hg Hd Hdofs Hst. unfold side_patch_subdomains.
  rewrite IntVector_max_zero by done. rewrite Hd.
  assert ((ghost p >=? 0) = true) as -> by (rewrite Z.geb_leb; apply Z.leb_le; done).
  simpl. rewrite andb_false_r.
  apply (ofold_measure (fun r st => shared_so_far r st) _ (fun _ => 1%nat)).
  - intros a i r' Hi Ha. apply in_seq in Hi. unfold side_subdomain.
    destruct (box_at_returns (nonoverlap_boxes partitionPatchBox box_size overlap_size (sp_box p)) i)
      as (b & -> & Hb); [lia|].
    simpl. destruct (Hdofs b Hb) as [dofs ->]. simpl.
    apply make_subdomain_sets_shared. done.
  - rewrite count_ones, length_seq, <- parallel_boxes. done.
Qed.

Lemma shared_initial heap :
  shared_so_far N (mkAsm heap (replicate N None) (replicate N None) 0).
Proof.
  split; [simpl; lia|]. split; [apply length_replicate|]. split; [apply length_replicate|].
  simpl. intros k Hk. lia.
Qed.

Lemma shared_final st : shared_so_far 0 st -> sets_shared st N.
Proof.
  intros (Hc & L1 & L2 & H). split; [done|]. split; [done|].
  intros k Hk. apply H. lia.
Qed.
End ZeroOverlap.

(** C7. When the overlap size is zero, both variants of the subdomain
    partitioner return, for every sub-box, one index-set object in the two
    vectors: [is_overlap[k]] and [is_nonoverlap[k]] are the same handle, to
    an object that is referenced twice, and not two objects with equal
    contents.  (The sub-box lists of [partitionPatchBox] are parallel; ghost
    widths are not negative and side data has depth 1, as the code asserts;
    the local DOFs of every sub-box of the directional variant are found
    without a read past the end of a boundary-box vector.) *)
Theorem zero_overlap_sets_are_one_object
    (NDIM : nat) (debug : bool)
    (partitionPatchBox : Box -> Index -> Index -> list Box * list Box)
    (box_size overlap_size : Index)
    (cell_level : list CellPatch) (cell_ghost : CellPatch -> Z)
    (side_level : list SidePatch) (side_ghost : SidePatch -> Z)
    (geom : SidePatch -> PatchGeometry) (level_num : Z)
    (getBoundaries : SidePatch -> list BoundaryBox) (heap : list ISObject) :
  Forall (fun o => o = 0) overlap_size ->
  (forall b, length (overlap_boxes partitionPatchBox box_size overlap_size b)
             = length (nonoverlap_boxes partitionPatchBox box_size overlap_size b)) ->
  (forall p, In p cell_level -> 0 <= cell_ghost p) ->
  (forall p, In p side_level ->
     0 <= side_ghost p /\ sp_depth p = 1%nat
     /\ forall b, In b (nonoverlap_boxes partitionPatchBox box_size overlap_size (sp_box p)) ->
          exists dofs, side_local_dofs NDIM geom level_num getBoundaries p b = Returns dofs) ->
  (exists st,
     constructPatchLevelASMSubdomains_cell debug partitionPatchBox box_size overlap_size
       cell_level cell_ghost heap = Returns st
     /\ sets_shared st (cell_subdomain_count partitionPatchBox box_size overlap_size cell_level))
  /\ (exists st,
        constructPatchLevelASMSubdomains_side NDIM debug partitionPatchBox box_size overlap_size
          side_level side_ghost geom level_num getBoundaries heap = Returns st
        /\ sets_shared st (side_subdomain_count partitionPatchBox box_size overlap_size side_level)).
Proof.
  intros Hzero Hpar Hcell Hside. split.
  - unfold constructPatchLevelASMSubdomains_cell.
    set (N := cell_subdomain_count _ _ _ _).
    destruct (ofold_measure (shared_so_far N)
                (cell_patch_subdomains debug partitionPatchBox box_size overlap_size cell_ghost)
                (fun p => length (overlap_boxes partitionPatchBox box_size overlap_size (cp_box p)))
                cell_level) with (r := 0%nat) (a := mkAsm heap (replicate N None) (replicate N None) 0)
      as (st & Hst & Hsh).
    + intros a p r Hp Ha. apply cell_patch_subdomains_shared; auto.
    + replace (_ + 0)%nat with N; [apply shared_initial|].
      unfold N, cell_subdomain_count. rewrite fold_left_count. lia.
    + exists st. split; [done|]. apply shared_final. done.
  - unfold constructPatchLevelASMSubdomains_side.
    set (N := side_subdomain_count _ _ _ _).
    destruct (ofold_measure (shared_so_far N)
                (side_patch_subdomains NDIM debug partitionPatchBox box_size overlap_size
                   side_ghost geom level_num getBoundaries)
                (fun p => length (overlap_boxes partitionPatchBox box_size overlap_size (sp_box p)))
                side_level) with (r := 0%nat) (a := mkAsm heap (replicate N None) (replicate N None) 0)
      as (st & Hst & Hsh).
    + intros a p r Hp Ha. destruct (Hside p Hp) as (H1 & H2 & H3).
      apply side_patch_subdomains_shared; auto.
    + replace (_ + 0)%nat with N; [apply shared_initial|].
      unfold N, side_subdomain_count. rewrite fold_left_count. lia.
    + exists st. split; [done|]. apply shared_final. done.
Qed.

Lemma zero_overlap_witness :
  (exists st,
     constructPatchLevelASMSubdomains_cell true example_partition [2; 2] [0; 0]
       [example_fine_patch] (fun _ => 1) [] = Returns st
     /\ sets_shared st 2)
  /\ (exists st,
        constructPatchLevelASMSubdomains_side 2 true example_partition [2; 2] [0; 0]
          [example_side_patch] (fun _ => 1) example_geometry 0 (fun _ => []) [] = Returns st
        /\ sets_shared st 2).
Proof.
  apply (zero_overlap_sets_are_one_object 2 true example_partition [2; 2] [0; 0]
           [example_fine_patch] (fun _ => 1) [example_side_patch] (fun _ => 1)
           example_geometry 0 (fun _ => []) []).
  - repeat constructor.
  - intros b. unfold overlap_boxes, nonoverlap_boxes, example_partition.
    destruct (lower b) as [|x0 [|y0 [|? ?]]]; try reflexivity.
    destruct (upper b) as [|x1 [|y1 [|? ?]]]; reflexivity.
  - intros p _. lia.
  - intros p Hp. enum_in Hp. split; [lia|]. split; [reflexivity|].
    intros b Hb. enum_in Hb; eexists; vm_compute; reflexivity.
Defined.

(** ** The interpolation assembler: stencil width and point location *)

Lemma wrap_parity z : Z.Even z -> Z.Even (Int.wrap z).
Proof.
  intros [k Hk]. unfold Int.wrap.
  pose proof (Z.mod_eq (z + 2147483648) 4294967296 ltac:(lia)) as Hm.
  exists (k + 1073741824 - 2147483648 * ((z + 2147483648) / 4294967296) - 1073741824).
  lia.
Qed.

Lemma rem2_even z : Z.rem z 2 = 0 <-> Z.Even z.
Proof.
  rewrite Z.rem_divide by lia. split.
  - intros [k Hk]. exists k. lia.
  - intros [k Hk]. exists k. lia.
Qed.

(** After the rounding at the head of the function the width is even. *)
Lemma round_up_to_even_even s : Z.rem (round_up_to_even s) 2 = 0.
Proof.
  unfold round_up_to_even. destruct (Z.rem s 2 =? 0) eqn:E; simpl.
  - apply Z.eqb_eq. done.
  - apply Z.eqb_neq in E. apply rem2_even. unfold Int.add. apply wrap_parity.
    destruct (Z.Even_or_Odd s) as [He|[k Hk]].
    + apply rem2_even in He. done.
    + exists (k + 1). lia.
Qed.

Lemma round_up_to_even_idem s : round_up_to_even (round_up_to_even s) = round_up_to_even s.
Proof.
  unfold round_up_to_even at 1. rewrite round_up_to_even_even. done.
Qed.

Lemma obind_not_tbox {A B} (x : outcome A) (f : A -> outcome B) :
  x <> Fatal TboxError -> (forall a, f a <> Fatal TboxError) ->
  obind x f <> Fatal TboxError.
Proof. destruct x; simpl; auto; congruence. Qed.

Lemma ofold_not_tbox {A B} (f : A -> B -> outcome A) l a :
  (forall a x, f a x <> Fatal TboxError) -> ofold f l a <> Fatal TboxError.
Proof.
  intros H. revert a. induction l as [|x l IH]; intros a; simpl; [done|].
  apply obind_not_tbox; auto.
Qed.

Section InterpOpErrors.
Variable NDIM : nat.
Variable debug : bool.
Variable interp_fcn : Qc -> list Qc.
Variable getCellIndex : list Qc -> list Qc -> list Qc -> list Qc -> Index -> Index -> Index.
Variable x_lower : list Qc.
Variable x_upper : list Qc.
Variable dx0 : list Qc.
Variable ratio : Index.
Variable domain_boxes : list Box.
Variable patch_level : list SidePatch.
Variable getGhostBox : SidePatch -> Box.
Variable X_arr : list Qc.
Variable X_i_lower : Z.
Variable num_dofs_per_proc : list Z.
Variable mpi_rank : nat.

Abbreviation construct :=
  (constructPatchLevelSCInterpOp NDIM debug interp_fcn getCellIndex x_lower x_upper dx0 ratio
     domain_boxes patch_level getGhostBox X_arr X_i_lower num_dofs_per_proc mpi_rank).

Lemma the_domain_box_not_tbox boxes : the_domain_box debug boxes <> Fatal TboxError.
Proof. unfold the_domain_box. destruct boxes as [|b [|b' boxes]], debug; discriminate. Qed.

Lemma new_counters_not_tbox n : new_counters n <> Fatal TboxError.
Proof. unfold new_counters. destruct (n <? 0); discriminate. Qed.

Lemma locate_patch_not_tbox domain k :
  locate_patch NDIM debug getCellIndex x_lower x_upper dx0 ratio patch_level X_arr domain k
  <> Fatal TboxError.
Proof.
  unfold locate_patch.
  destruct (findOverlapIndices patch_level (mkBox _ _)) as [|n l]; simpl; [|discriminate].
  destruct (debug && _); simpl; [discriminate|].
  destruct (findOverlapIndices _ _); discriminate.
Qed.

Lemma construct_not_tbox s : construct s <> Fatal TboxError.
Proof.
  unfold constructPatchLevelSCInterpOp.
  pose proof (round_up_to_even_even s) as Heven.
  set (s' := round_up_to_even s) in *.
  apply obind_not_tbox; [apply the_domain_box_not_tbox|]. intros domain.
  apply obind_not_tbox; [apply new_counters_not_tbox|]. intros d_nnz.
  apply obind_not_tbox; [apply new_counters_not_tbox|]. intros o_nnz.
  apply obind_not_tbox.
  - apply ofold_not_tbox. intros st k. unfold interp_count_point.
    apply obind_not_tbox; [apply locate_patch_not_tbox|]. intros n.
    destruct (patch_level !! n) as [p|]; [|discriminate].
    destruct (debug && _); [discriminate|].
    apply obind_not_tbox; [|discriminate].
    apply ofold_not_tbox. intros c axis. unfold interp_count_axis.
    rewrite Heven. simpl. destruct (debug && _); discriminate.
  - intros st. apply ofold_not_tbox. intros mat k. unfold interp_value_point.
    destruct (st.1 !! k) as [n|]; [|discriminate].
    destruct (patch_level !! n) as [p|]; [|discriminate].
    destruct (debug && _); [discriminate|].
    destruct (s' <? 0); [discriminate|].
    destruct (_ <? 0); [discriminate|].
    apply obind_not_tbox; [|discriminate].
    apply ofold_not_tbox. intros m axis. unfold interp_value_axis.
    apply obind_not_tbox.
    + apply ofold_not_tbox. intros w d.
      apply obind_not_tbox; [|discriminate].
      unfold write_weights. cbv zeta. destruct (_ <=? _)%nat; discriminate.
    + intros w. cbv zeta. destruct (_ <=? _)%nat; discriminate.
Qed.

(** C8 (as the code has it). An odd interpolation-stencil width is not
    rejected: the assembler adds one to it at its head and goes on exactly
    as for that even width, and the error for odd widths in the loop over
    the points can never be raised. *)
Theorem odd_stencil_width_is_rounded_up (interp_stencil : Z) :
  Z.rem interp_stencil 2 <> 0 ->
  construct interp_stencil = construct (Int.add interp_stencil 1)
  /\ Z.rem (Int.add interp_stencil 1) 2 = 0
  /\ construct interp_stencil <> Fatal TboxError.
Proof.
  intros Hodd.
  assert (Hr : round_up_to_even interp_stencil = Int.add interp_stencil 1).
  { unfold round_up_to_even. apply Z.eqb_neq in Hodd. rewrite Hodd. done. }
  split; [|split].
  - unfold constructPatchLevelSCInterpOp.
    rewrite <- Hr. rewrite round_up_to_even_idem. done.
  - rewrite <- Hr. apply round_up_to_even_even.
  - apply construct_not_tbox.
Qed.
End InterpOpErrors.

Lemma odd_stencil_width_witness :
  example_interp true example_interior_point 1
  = example_interp true example_interior_point (Int.add 1 1)
  /\ Z.rem (Int.add 1 1) 2 = 0
  /\ example_interp true example_interior_point 1 <> Fatal TboxError.
Proof.
  apply (odd_stencil_width_is_rounded_up 2 true example_kernel IndexUtilities_getCellIndex
           example_x_lower example_x_upper example_dx0 [1; 1] [mkBox [0; 0] [1; 1]]
           [example_side_patch] example_ghost_box example_interior_point 0 [12] 0 1).
  vm_compute. discriminate.
Defined.

(** C8, counterexample: with the odd width 1 the call does not abort; it
    returns the matrix of the width 2. *)
Lemma odd_stencil_width_not_rejected :
  exists mat,
    example_interp true example_interior_point 1 = Returns mat
    /\ example_interp true example_interior_point 2 = Returns mat.
Proof.
  eexists. split; vm_compute; reflexivity.
Qed.



Lemma findOverlapIndices_valid patch_level box n :
  In n (findOverlapIndices patch_level box) -> exists p, patch_level !! n = Some p.
Proof.
  unfold findOverlapIndices. intros Hn. apply List.filter_In in Hn as [_ Hn].
  destruct (patch_level !! n) as [p|]; [eauto|done].
Qed.

Section InterpOpLocation.
Variable NDIM : nat.
Variable interp_fcn : Qc -> list Qc.
Variable getCellIndex : list Qc -> list Qc -> list Qc -> list Qc -> Index -> Index -> Index.
Variable x_lower : list Qc.
Variable x_upper : list Qc.
Variable dx0 : list Qc.
Variable ratio : Index.
Variable patch_level : list SidePatch.
Variable getGhostBox : SidePatch -> Box.
Variable X_arr : list Qc.
Variable X_i_lower : Z.
Variable num_dofs_per_proc : list Z.
Variable mpi_rank : nat.
Variable domain : Box.

Abbreviation cell_of k :=
  (mkBox (X_idx NDIM getCellIndex x_lower x_upper dx0 ratio X_arr domain k)
         (X_idx NDIM getCellIndex x_lower x_upper dx0 ratio X_arr domain k)).
Abbreviation locate debug :=
  (locate_patch NDIM debug getCellIndex x_lower x_upper dx0 ratio patch_level X_arr domain).

(** The search for the patch of a point: the cell of the point, then, once,
    the cell grown by one. *)
Lemma locate_patch_eq debug k :
  locate debug k =
    match findOverlapIndices patch_level (cell_of k) with
    | n :: _ => Returns n
    | [] => match findOverlapIndices patch_level (box_grow (cell_of k) 1) with
            | n :: _ => Returns n
            | [] => if debug then Fatal AssertionFailure else OutOfBounds 0
            end
    end.
Proof.
  unfold locate_patch.
  destruct (findOverlapIndices patch_level (cell_of k)) as [|n l]; simpl; [|done].
  destruct (findOverlapIndices patch_level (box_grow (cell_of k) 1)) as [|n l];
    destruct debug; simpl; done.
Qed.

Lemma locate_patch_valid debug k n :
  locate debug k = Returns n -> exists p, patch_level !! n = Some p.
Proof.
  rewrite locate_patch_eq.
  destruct (findOverlapIndices patch_level (cell_of k)) as [|n1 l1] eqn:E1.
  - destruct (findOverlapIndices patch_level (box_grow (cell_of k) 1)) as [|n2 l2] eqn:E2.
    + destruct debug; discriminate.
    + intros [= <-]. apply (findOverlapIndices_valid patch_level (box_grow (cell_of k) 1)).
      rewrite E2. left. done.
  - intros [= <-]. apply (findOverlapIndices_valid patch_level (cell_of k)).
    rewrite E1. left. done.
Qed.


End InterpOpLocation.



(** ** The interpolation assembler: tensor-product weights *)

Lemma Qc_sum_app l1 l2 : Qc_sum (l1 ++ l2) = (Qc_sum l1 + Qc_sum l2)%Qc.
Proof. induction l1 as [|x l1 IH]; simpl; [ring|]. rewrite IH. ring. Qed.

Lemma Qc_sum_rev l : Qc_sum (rev l) = Qc_sum l.
Proof. induction l as [|x l IH]; simpl; [done|]. rewrite Qc_sum_app, IH. simpl. ring. Qed.






Lemma map_seq_lookup {A} (f : nat -> A) n d :
  (d < n)%nat -> map f (seq 0 n) !! d = Some (f d).
Proof.
  intros H. change (map f (seq 0 n)) with (f <$> seq 0 n).
  rewrite list_lookup_fmap, lookup_seq_lt by done. done.
Qed.


Section InterpOpWeights.
Variable NDIM : nat.
Variable interp_fcn : Qc -> list Qc.
Variable getCellIndex : list Qc -> list Qc -> list Qc -> list Qc -> Index -> Index -> Index.
Variable x_lower : list Qc.
Variable x_upper : list Qc.
Variable dx0 : list Qc.
Variable ratio : Index.
Variable X_arr : list Qc.
Variable domain : Box.
Variable s : Z.
Variable k : nat.

Hypothesis partition_of_unity : forall r, Qc_sum (interp_fcn r) = 1%Qc.
Hypothesis kernel_fits : forall r, (length (interp_fcn r) <= Z.to_nat s)%nat.
Hypothesis s_even : Z.rem s 2 = 0.
Hypothesis cells_in_range : forall d, (d < NDIM)%nat ->
  Int.in_range (X_idx NDIM getCellIndex x_lower x_upper dx0 ratio X_arr domain k !!! d - s)
  /\ Int.in_range (X_idx NDIM getCellIndex x_lower x_upper dx0 ratio X_arr domain k !!! d + s).

Abbreviation box_lower := (stencil_box_lower NDIM getCellIndex x_lower x_upper dx0 ratio X_arr domain s).
Abbreviation box_upper := (stencil_box_upper NDIM getCellIndex x_lower x_upper dx0 ratio X_arr domain s).
Abbreviation weights := (axis_weights NDIM interp_fcn getCellIndex x_lower x_upper dx0 ratio X_arr domain s).

Lemma s_positive : 0 < s.
Proof.
  destruct (Z_lt_dec 0 s) as [H|H]; [done|]. exfalso.
  pose proof (kernel_fits 0%Qc) as Hk. pose proof (partition_of_unity 0%Qc) as Hp.
  replace (Z.to_nat s) with 0%nat in Hk by lia.
  destruct (interp_fcn 0%Qc); [|simpl in Hk; lia]. simpl in Hp. discriminate.
Qed.


(** The stencil box has [s] cells in every direction. *)
Lemma stencil_box_extent axis d :
  (d < NDIM)%nat ->
  exists l u, box_lower k axis !! d = Some l /\ box_upper k axis !! d = Some u
              /\ u - l + 1 = s.
Proof.
  intros Hd. pose proof s_positive as Hpos.
  destruct (cells_in_range d Hd) as [R1 R2].
  unfold stencil_box_lower, stencil_box_upper. unfold Index in *.
  rewrite !map_seq_lookup by done. cbv zeta.
  eexists. eexists. split; [reflexivity|]. split; [reflexivity|].
  match type of R1 with Int.in_range (?a - _) => revert R1 R2; generalize a end.
  intros x R1 R2.
  assert (Hhalf : s = 2 * Z.quot s 2).
  { pose proof (Z.quot_rem' s 2). lia. }
  revert Hhalf. generalize (Z.quot s 2). intros half Hhalf.
  unfold Int.in_range, Int.INT_MIN, Int.INT_MAX in *.
  destruct (d =? axis)%nat; [|destruct (Qc_leb _ _)];
    unfold Int.add, Int.sub;
    repeat match goal with
           | |- context [Int.wrap ?z] =>
               rewrite (Int_wrap_exact z)
                 by (unfold Int.in_range, Int.INT_MIN, Int.INT_MAX; lia)
           end;
    lia.
Qed.

Lemma stencil_box_lengths axis :
  length (box_lower k axis) = NDIM /\ length (box_upper k axis) = NDIM
  /\ length (weights k axis) = NDIM.
Proof.
  unfold stencil_box_lower, stencil_box_upper, axis_weights.
  rewrite !length_map, !length_seq. done.
Qed.

End InterpOpWeights.


(** ** The rows that the interpolation assembler writes *)

(** A loop that appends one result to a list at each step returns the list
    of the results, in the order of the items. *)
Lemma ofold_snoc_trace {A B C} (f : A -> B -> outcome A) (proj : A -> list C)
    (g : B -> outcome C) l a a' :
  (forall a x a1, f a x = Returns a1 -> exists c, g x = Returns c /\ proj a1 = proj a ++ [c]) ->
  ofold f l a = Returns a' ->
  exists cs, proj a' = proj a ++ cs /\ Forall2 (fun x c => g x = Returns c) l cs.
Proof.
  intros Hstep. revert a. induction l as [|x l IH]; intros a; simpl.
  - intros [= <-]. exists []. rewrite app_nil_r. split; [done|constructor].
  - destruct (f a x) as [a1| | |] eqn:E; simpl; try discriminate.
    intros Hrest. destruct (Hstep a x a1 E) as (c & Hc & Hp).
    destruct (IH a1 Hrest) as (cs & Hcs & Hall).
    exists (c :: cs). split.
    + rewrite Hcs, Hp, <- app_assoc. done.
    + constructor; done.
Qed.

(** A loop of fallible [MatSetValues] calls that returns has made all of
    them; [proj] takes the matrix out of the state of the loop, and [I] is
    an invariant of the state. *)
Lemma ofold_entries {S A} (proj : S -> Mat) (I : S -> Prop) (f : S -> A -> outcome S)
    (h : A -> list (Z * list Z * list Qc)) l st st' :
  (forall st x st', In x l -> I st -> f st x = Returns st' ->
     I st' /\ mat_entries (proj st') = assemble (h x) (mat_entries (proj st))) ->
  I st ->
  ofold f l st = Returns st' ->
  mat_entries (proj st') = assemble (flat_map h l) (mat_entries (proj st)).
Proof.
  revert st. induction l as [|x l IH]; intros st Hstep Hinv; simpl.
  - intros [= <-]. done.
  - destruct (f st x) as [s1| | |] eqn:E; simpl; try discriminate.
    intros Hrest. destruct (Hstep st x s1 (or_introl eq_refl) Hinv E) as [Hinv1 Hent].
    rewrite assemble_app, <- Hent.
    apply IH; [|done|done]. intros. apply (Hstep _ x0); [right| |]; done.
Qed.

Lemma ofold_app {A B} (f : A -> B -> outcome A) l1 l2 a :
  ofold f (l1 ++ l2) a = let* a' := ofold f l1 a in ofold f l2 a'.
Proof.
  revert a. induction l1 as [|x l1 IH]; intros a; simpl; [done|].
  destruct (f a x); simpl; [apply IH|done..].
Qed.

(** A loop that overwrites the buffers [w[0]], [w[1]], ... one after the
    other, each from its old content. *)
Lemma ofold_overwrite {C} `{Inhabited C} (g : C -> nat -> outcome C) (h : nat -> C)
    (P : C -> Prop) (w0 : list C) j :
  Forall P w0 -> (forall buf d, P buf -> g buf d = Returns (h d)) ->
  (j <= length w0)%nat ->
  ofold (fun w d => let* wd := g (w !!! d) d in Returns (<[d := wd]> w)) (seq 0 j) w0
  = Returns (map h (seq 0 j) ++ drop j w0).
Proof.
  intros Hall Hg. induction j as [|j IH]; intros Hj.
  - simpl. rewrite drop_0. done.
  - rewrite seq_S, ofold_app, IH by lia. simpl.
    assert (Hlen : length (map h (seq 0 j)) = j) by (rewrite length_map, length_seq; done).
    rewrite lookup_total_app_r by lia. rewrite Hlen, Nat.sub_diag, lookup_total_drop, Nat.add_0_r.
    rewrite Hg by (apply Forall_lookup_total; [done|lia]). simpl.
    rewrite insert_app_r_alt by lia. rewrite Hlen, Nat.sub_diag.
    destruct (lookup_lt_is_Some_2 w0 j) as [x Hx]; [lia|].
    rewrite (drop_S _ _ _ Hx). simpl. rewrite map_app, <- app_assoc. done.
Qed.

(** The number of cells of a box with [s] cells in every direction. *)
Lemma cells_between_count (s : Z) (lo up : Index) :
  0 <= s -> length lo = length up ->
  (forall d l u, lo !! d = Some l -> up !! d = Some u -> u - l + 1 = s) ->
  Z.of_nat (length (cells_between lo up)) = s ^ Z.of_nat (length lo).
Proof.
  intros Hs. revert up. induction lo as [|l lo IH]; intros [|u up] Hlen Hext;
    simpl in Hlen; try lia.
  - done.
  - simpl cells_between. cbn [length].
    assert (Hrest : Z.of_nat (length (cells_between lo up)) = s ^ Z.of_nat (length lo)).
    { apply IH; [lia|]. intros d l' u' H1 H2. apply (Hext (S d)); done. }
    pose proof (Hext 0%nat l u eq_refl eq_refl) as Hl.
    rewrite Nat2Z.inj_succ, Z.pow_succ_r by lia. rewrite <- Hrest.
    generalize (cells_between lo up). intros cells.
    induction cells as [|rest cells IHc]; simpl; [lia|].
    rewrite length_app, length_map. unfold Index in *.
    pose proof (zrange_length l u) as Hz. lia.
Qed.

(** [stencil_box_nvals] without overflow. *)
Lemma stencil_box_nvals_exact NDIM s :
  0 < s -> s ^ Z.of_nat NDIM <= Int.INT_MAX ->
  stencil_box_nvals NDIM s = s ^ Z.of_nat NDIM.
Proof.
  intros Hs Hmax. unfold stencil_box_nvals.
  assert (G : forall n a acc, 0 < acc -> acc * s ^ Z.of_nat n <= Int.INT_MAX ->
            fold_left (fun m (_ : nat) => Int.mul m s) (seq a n) acc = acc * s ^ Z.of_nat n).
  { induction n as [|n IH]; intros a acc Hacc Hb; simpl seq; cbn [fold_left].
    - simpl. lia.
    - rewrite Nat2Z.inj_succ, Z.pow_succ_r in * by lia.
      assert (0 < s ^ Z.of_nat n) by (apply Z.pow_pos_nonneg; lia).
      assert (Hm : Int.mul acc s = acc * s).
      { apply Int_wrap_exact. unfold Int.in_range, Int.INT_MIN, Int.INT_MAX in *. nia. }
      rewrite Hm, IH; [ring|nia|]. rewrite <- Z.mul_assoc. done. }
  rewrite G; [lia|lia|lia].
Qed.


Section InterpOpRows.
Variable NDIM : nat.
Variable debug : bool.
Variable interp_fcn : Qc -> list Qc.
Variable getCellIndex : list Qc -> list Qc -> list Qc -> list Qc -> Index -> Index -> Index.
Variable x_lower : list Qc.
Variable x_upper : list Qc.
Variable dx0 : list Qc.
Variable ratio : Index.
Variable patch_level : list SidePatch.
Variable getGhostBox : SidePatch -> Box.
Variable X_arr : list Qc.
Variable X_i_lower : Z.
Variable num_dofs_per_proc : list Z.
Variable mpi_rank : nat.
Variable domain : Box.
Variable s : Z.

Variable L : nat.

Hypothesis partition_of_unity : forall r, Qc_sum (interp_fcn r) = 1%Qc.
Hypothesis kernel_width : forall r, length (interp_fcn r) = L.
Hypothesis kernel_fits : (L <= Z.to_nat s)%nat.
Hypothesis s_even : Z.rem s 2 = 0.
Hypothesis nvals_small : s ^ Z.of_nat NDIM <= Int.INT_MAX.
Hypothesis rows_nonneg : 0 <= X_i_lower.
Hypothesis rows_small : X_i_lower + m_local_X X_arr <= Int.INT_MAX.
Hypothesis cells_in_range : forall k d,
  (k < Z.to_nat (n_local_points NDIM X_arr))%nat -> (d < NDIM)%nat ->
  Int.in_range (X_idx NDIM getCellIndex x_lower x_upper dx0 ratio X_arr domain k !!! d - s)
  /\ Int.in_range (X_idx NDIM getCellIndex x_lower x_upper dx0 ratio X_arr domain k !!! d + s).

Abbreviation locate :=
  (locate_patch NDIM debug getCellIndex x_lower x_upper dx0 ratio patch_level X_arr domain).
Abbreviation row := (stencil_box_row NDIM X_i_lower).
Abbreviation cols :=
  (stencil_box_cols NDIM getCellIndex x_lower x_upper dx0 ratio X_arr domain s).
Abbreviation vals :=
  (stencil_box_vals NDIM interp_fcn getCellIndex x_lower x_upper dx0 ratio X_arr domain s).
Abbreviation steps :=
  (interp_steps NDIM interp_fcn getCellIndex x_lower x_upper dx0 ratio patch_level X_arr
                X_i_lower domain s).
Abbreviation point_steps :=
  (interp_point_steps NDIM interp_fcn getCellIndex x_lower x_upper dx0 ratio patch_level X_arr
                      X_i_lower domain s).

(** The rows of the local points are exact and distinct. *)
Lemma stencil_box_row_exact k axis :
  (k < Z.to_nat (n_local_points NDIM X_arr))%nat -> (axis < NDIM)%nat ->
  row k axis = X_i_lower + Z.of_nat NDIM * Z.of_nat k + Z.of_nat axis.
Proof.
  intros Hk Ha. unfold stencil_box_row, n_local_points, m_local_X in *.
  assert (Hq : Z.of_nat NDIM * (Z.of_nat (length X_arr) `quot` Z.of_nat NDIM)
               <= Z.of_nat (length X_arr)).
  { rewrite Z.quot_div_nonneg by lia. apply Z.mul_div_le. lia. }
  assert (Hb : Z.of_nat NDIM * Z.of_nat k + Z.of_nat axis < Z.of_nat (length X_arr)) by nia.
  assert (Hm : 0 <= Z.of_nat NDIM * Z.of_nat k) by nia.
  unfold Int.mul, Int.add.
  repeat match goal with
         | |- context [Int.wrap ?z] =>
             rewrite (Int_wrap_exact z)
               by (unfold Int.in_range, Int.INT_MIN, Int.INT_MAX in *; lia)
         end.
  done.
Qed.

Lemma stencil_box_row_inj k axis k' axis' :
  (k < Z.to_nat (n_local_points NDIM X_arr))%nat -> (axis < NDIM)%nat ->
  (k' < Z.to_nat (n_local_points NDIM X_arr))%nat -> (axis' < NDIM)%nat ->
  row k axis = row k' axis' -> k = k' /\ axis = axis'.
Proof.
  intros Hk Ha Hk' Ha'. rewrite !stencil_box_row_exact by done. intros Heq.
  assert (k = k') by nia. subst. split; [done|lia].
Qed.

(** The first loop records, for each point, the patch that the search finds. *)
Lemma interp_count_point_patch st k st1 :
  interp_count_point NDIM debug getCellIndex x_lower x_upper dx0 ratio patch_level
    getGhostBox X_arr num_dofs_per_proc mpi_rank domain s st k = Returns st1 ->
  exists n, locate k = Returns n /\ st1.1 = st.1 ++ [n].
Proof.
  unfold interp_count_point. destruct (locate k) as [n| | |]; simpl; try discriminate.
  destruct (patch_level !! n) as [p|]; [|discriminate].
  destruct (debug && negb (sp_depth p =? 1)%nat); [discriminate|].
  destruct (ofold _ _ _) as [c| | |]; simpl; try discriminate.
  intros [= <-]. exists n. done.
Qed.

Lemma interp_count_patch_num N st st' k :
  ofold (interp_count_point NDIM debug getCellIndex x_lower x_upper dx0 ratio patch_level
           getGhostBox X_arr num_dofs_per_proc mpi_rank domain s) (seq 0 N) st = Returns st' ->
  st.1 = [] -> (k < N)%nat ->
  exists n p, st'.1 !! k = Some n /\ locate k = Returns n /\ patch_level !! n = Some p.
Proof.
  intros Hfold Hst Hk.
  destruct (ofold_snoc_trace _ fst locate _ _ _ interp_count_point_patch Hfold)
    as (ns & Hns & Hall).
  rewrite Hst in Hns. simpl in Hns.
  destruct (Forall2_lookup_l _ _ _ k k Hall) as (n & Hn & Hloc).
  { apply lookup_seq_lt. done. }
  destruct (locate_patch_valid NDIM getCellIndex x_lower x_upper dx0 ratio patch_level
              X_arr domain debug k n Hloc) as [p Hp].
  exists n, p. rewrite Hns. done.
Qed.

Abbreviation weights :=
  (axis_weights NDIM interp_fcn getCellIndex x_lower x_upper dx0 ratio X_arr domain s).
Abbreviation cells k axis :=
  (box_cells (stencil_box NDIM getCellIndex x_lower x_upper dx0 ratio X_arr domain s k axis)).
(** A weight buffer: [s] numbers, zero from position [L] on. *)
Abbreviation buffer_ok :=
  (fun buf : list Qc => length buf = Z.to_nat s
                        /\ drop L buf = replicate (Z.to_nat s - L) 0%Qc).

Lemma kernel_fits_all r : (length (interp_fcn r) <= Z.to_nat s)%nat.
Proof. rewrite kernel_width. done. Qed.

Lemma width_positive : 0 < s.
Proof. apply (s_positive interp_fcn s partition_of_unity kernel_fits_all). Qed.

(** The kernel overwrites the head of a buffer whose tail is zero. *)
Lemma write_weights_ok buf r :
  buffer_ok buf -> write_weights interp_fcn buf r = Returns (kernel_weights interp_fcn s r).
Proof.
  intros [Hlen Htail]. unfold write_weights, kernel_weights. cbv zeta.
  rewrite kernel_width, Hlen, Htail.
  assert ((L <=? Z.to_nat s)%nat = true) as -> by (apply Nat.leb_le; done). done.
Qed.

Lemma kernel_weights_ok r : buffer_ok (kernel_weights interp_fcn s r).
Proof.
  unfold kernel_weights. split.
  - rewrite length_app, length_replicate, kernel_width. lia.
  - rewrite <- (kernel_width r) at 1. rewrite drop_app_length, kernel_width. done.
Qed.

Lemma weights_ok k axis : Forall buffer_ok (weights k axis) /\ length (weights k axis) = NDIM.
Proof.
  unfold axis_weights. split.
  - apply List.Forall_forall. intros b Hb. apply in_map_iff in Hb as (d & <- & _).
    apply kernel_weights_ok.
  - rewrite length_map, length_seq. done.
Qed.

(** Every stencil box of a local point has [stencil_box_nvals] cells. *)
Lemma stencil_box_count k axis :
  (k < Z.to_nat (n_local_points NDIM X_arr))%nat ->
  length (cells k axis) = Z.to_nat (stencil_box_nvals NDIM s).
Proof.
  intros Hk. pose proof width_positive as Hpos.
  rewrite stencil_box_nvals_exact by done.
  destruct (stencil_box_lengths NDIM interp_fcn getCellIndex x_lower x_upper dx0 ratio X_arr
              domain s k axis) as (L1 & L2 & _).
  unfold box_cells, stencil_box. simpl lower. simpl upper.
  apply Nat2Z.inj. rewrite Z2Nat.id by (apply Z.pow_nonneg; lia).
  rewrite (cells_between_count s); [rewrite L1; done|lia|lia|].
  intros d l u Hl Hu.
  assert (Hd : (d < NDIM)%nat) by (apply lookup_lt_Some in Hl; lia).
  destruct (stencil_box_extent NDIM interp_fcn getCellIndex x_lower x_upper dx0 ratio X_arr
              domain s k partition_of_unity kernel_fits_all s_even
              (fun d Hd => cells_in_range k d Hk Hd) axis d Hd) as (l' & u' & Hl' & Hu' & Hext).
  rewrite Hl in Hl'. rewrite Hu in Hu'. injection Hl' as <-. injection Hu' as <-. done.
Qed.

(** One turn of the loop over the components: the state before it holds
    weight buffers with zero tails and a column vector of
    [stencil_box_nvals] entries. *)
Abbreviation state_ok :=
  (fun st : Mat * list (list Qc) * list Z =>
     Forall buffer_ok st.1.2 /\ length st.1.2 = NDIM
     /\ length st.2 = Z.to_nat (stencil_box_nvals NDIM s)).

Lemma interp_value_axis_returns p k st axis :
  (k < Z.to_nat (n_local_points NDIM X_arr))%nat ->
  state_ok st ->
  interp_value_axis NDIM interp_fcn getCellIndex x_lower x_upper dx0 ratio X_arr X_i_lower
    domain s p k st axis
  = Returns (MatSetValues st.1.1 (row k axis) (cols p k axis) (vals k axis),
             weights k axis, cols p k axis).
Proof.
  intros Hk (Hbuf & Hw & Hcols). unfold interp_value_axis.
  rewrite (ofold_overwrite
             (fun buf d => write_weights interp_fcn buf
                             (r_lower NDIM getCellIndex x_lower x_upper dx0 ratio X_arr domain s
                                      k axis d))
             (fun d => kernel_weights interp_fcn s
                         (r_lower NDIM getCellIndex x_lower x_upper dx0 ratio X_arr domain s
                                  k axis d))
             buffer_ok st.1.2 NDIM Hbuf); [|intros buf d; apply write_weights_ok|lia].
  simpl obind. cbv zeta.
  rewrite (drop_ge st.1.2) by lia. rewrite app_nil_r.
  rewrite Hcols, (stencil_box_count k axis Hk), Nat.leb_refl, Nat.sub_diag.
  rewrite (drop_ge st.2) by lia. simpl replicate. rewrite !app_nil_r. done.
Qed.

Lemma interp_value_axis_state p k st axis st' :
  (k < Z.to_nat (n_local_points NDIM X_arr))%nat ->
  state_ok st ->
  interp_value_axis NDIM interp_fcn getCellIndex x_lower x_upper dx0 ratio X_arr X_i_lower
    domain s p k st axis = Returns st' ->
  state_ok st'
  /\ mat_entries st'.1.1
     = assemble [(row k axis, cols p k axis, vals k axis)] (mat_entries st.1.1).
Proof.
  intros Hk Hst. rewrite interp_value_axis_returns by done. intros [= <-]. simpl.
  destruct (weights_ok k axis) as [Hb Hl]. repeat split; try done.
  unfold stencil_box_cols. rewrite length_map. apply stencil_box_count. done.
Qed.

Lemma interp_value_point_entries patch_num mat k mat' :
  (k < Z.to_nat (n_local_points NDIM X_arr))%nat ->
  interp_value_point NDIM debug interp_fcn getCellIndex x_lower x_upper dx0 ratio patch_level
    X_arr X_i_lower domain s patch_num mat k = Returns mat' ->
  mat_entries mat' = assemble (point_steps patch_num k) (mat_entries mat).
Proof.
  intros Hk. unfold interp_value_point, interp_point_steps.
  destruct (patch_num !! k) as [n|]; [|discriminate].
  destruct (patch_level !! n) as [p|]; [|discriminate].
  destruct (debug && negb (sp_depth p =? 1)%nat); [discriminate|].
  destruct (s <? 0); [discriminate|].
  destruct (stencil_box_nvals NDIM s <? 0); [discriminate|].
  cbv zeta. destruct (ofold _ _ _) as [st| | |] eqn:Efold; simpl; try discriminate.
  intros [= <-]. rewrite <- flat_map_singleton.
  apply (ofold_entries (fun st : Mat * list (list Qc) * list Z => st.1.1) state_ok _
           (fun axis => [(row k axis, cols p k axis, vals k axis)])) in Efold.
  - exact Efold.
  - intros st0 axis st1 _ Hst0 Hcall.
    apply (interp_value_axis_state p k st0 axis st1 Hk Hst0 Hcall).
  - simpl. repeat split.
    + apply Forall_replicate. split; [apply length_replicate|apply drop_replicate].
    + apply length_replicate.
    + apply length_replicate.
Qed.

Lemma interp_value_phase_entries patch_num N mat mat' :
  (N <= Z.to_nat (n_local_points NDIM X_arr))%nat ->
  ofold (interp_value_point NDIM debug interp_fcn getCellIndex x_lower x_upper dx0 ratio
           patch_level X_arr X_i_lower domain s patch_num) (seq 0 N) mat = Returns mat' ->
  mat_entries mat' = assemble (steps patch_num (seq 0 N)) (mat_entries mat).
Proof.
  intros HN. apply (ofold_entries id (fun _ => True) _ (point_steps patch_num)); [|done].
  intros m k m' Hk _ Hcall. split; [done|]. apply in_seq in Hk.
  apply interp_value_point_entries; [lia|done].
Qed.

(** Every call of the second loop is for a row of a local point. *)
Lemma interp_steps_in patch_num N st :
  In st (steps patch_num (seq 0 N)) ->
  exists k axis n p, (k < N)%nat /\ (axis < NDIM)%nat
    /\ patch_num !! k = Some n /\ patch_level !! n = Some p
    /\ st = (row k axis, cols p k axis, vals k axis).
Proof.
  unfold interp_steps. rewrite in_flat_map. intros (k & Hk & Hin).
  apply in_seq in Hk. unfold interp_point_steps in Hin.
  destruct (patch_num !! k) as [n|] eqn:En; [|done].
  destruct (patch_level !! n) as [p|] eqn:Ep; [|done].
  apply in_map_iff in Hin as (axis & <- & Ha). apply in_seq in Ha.
  exists k, axis, n, p. repeat split; try done; lia.
Qed.



(** *** The call returns *)

Hypothesis located : forall k,
  (k < Z.to_nat (n_local_points NDIM X_arr))%nat -> exists n, locate k = Returns n.
Hypothesis asserts_hold : debug = true ->
  forall p, In p patch_level ->
    sp_depth p = 1%nat
    /\ forall k axis,
         (k < Z.to_nat (n_local_points NDIM X_arr))%nat -> (axis < NDIM)%nat ->
         box_contains_box (toSideBox (getGhostBox p) axis)
           (stencil_box NDIM getCellIndex x_lower x_upper dx0 ratio X_arr domain s k axis)
         = true.




End InterpOpRows.




(** * Further properties of the assemblers *)

(** ** [is_cf_bdry_idx] *)

(** X1. The boundary-containment helper answers [true] exactly when some box
    of the list contains the index, and then without a read outside the
    list; it never answers [false], and it always stops. *)
Theorem is_cf_bdry_idx_true_iff_contained (idx : Index) (boxes : list Box) :
  (is_cf_bdry_idx idx boxes = Returns true
   <-> exists b, In b boxes /\ box_contains b idx = true)
  /\ is_cf_bdry_idx idx boxes <> Returns false
  /\ is_cf_bdry_idx idx boxes <> OutOfFuel.
Proof.
  rewrite is_cf_bdry_idx_eq. unfold in_any_box.
  destruct (existsb (fun b => box_contains b idx) boxes) eqn:E.
  - apply existsb_exists in E. repeat split; try done.
  - repeat split; try done. intros (b & Hb & Hc).
    assert (existsb (fun b => box_contains b idx) boxes = true)
      by (apply existsb_exists; eauto).
    congruence.
Qed.

(** ** The counters of the stencil assemblers *)

(** X2. In the count loops of the stencil assemblers, a DOF index that
    passes the range test [i_lower <= dof_index && dof_index < i_upper]
    gives a counter position [dof_index - i_lower] that is computed without
    wrap-around and lies inside the vectors of [n_local] counters, whatever
    the counts of the other processes are (also when their sum overflows). *)
Theorem counter_index_in_bounds (counts : list Z) (rank : nat) (dof_index : Z) :
  0 <= n_local counts rank <= Int.INT_MAX ->
  is_local counts rank dof_index = true ->
  Int.sub dof_index (i_lower counts rank) = dof_index - i_lower counts rank
  /\ 0 <= Int.sub dof_index (i_lower counts rank) < n_local counts rank
  /\ forall v : list Z, length v = Z.to_nat (n_local counts rank) ->
       exists x, v !! Z.to_nat (Int.sub dof_index (i_lower counts rank)) = Some x.
Proof.
  intros Hn Hloc. pose proof (owned_row_in_counters counts rank dof_index Hn Hloc) as Hin.
  split; [|split; [done|]].
  - unfold is_local in Hloc. apply andb_true_iff in Hloc as [H1 H2].
    apply Z.leb_le in H1. apply Z.ltb_lt in H2.
    pose proof (Int_wrap_in_range (i_lower counts rank + n_local counts rank)) as Hup.
    assert (Hlo : Int.in_range (i_lower counts rank)).
    { unfold i_lower. apply accumulate_in_range. int_range. }
    unfold i_upper, Int.add in H2.
    destruct (Z_le_dec (i_lower counts rank + n_local counts rank) Int.INT_MAX) as [Hfit|Hover].
    + rewrite Int_wrap_exact in H2 by int_range. apply Int_sub_exact. int_range.
    + exfalso. revert Hin. unfold Int.sub.
      revert H2. unfold Int.wrap, Int.in_range, Int.INT_MIN, Int.INT_MAX in *.
      replace (i_lower counts rank + n_local counts rank + 2147483648)
        with ((i_lower counts rank + n_local counts rank - 2147483648) + 1 * 4294967296) by lia.
      rewrite Z.mod_add by lia. rewrite Z.mod_small by lia. lia.
  - intros v Hv. apply lookup_lt_is_Some_2. lia.
Qed.

Lemma counter_index_witness :
  Int.sub 2147483646 (i_lower [2147483640; 7; 2147483647] 1) = 6
  /\ 0 <= Int.sub 2147483646 (i_lower [2147483640; 7; 2147483647] 1) < 7.
Proof.
  destruct (counter_index_in_bounds [2147483640; 7; 2147483647] 1 2147483646)
    as (H1 & H2 & _).
  - vm_compute. split; discriminate.
  - vm_compute. reflexivity.
  - split; [|exact H2]. rewrite H1. vm_compute. reflexivity.
Defined.

(** ** Rows of an assembled matrix, with masked columns *)

Lemma set_row_kept es row cols vals :
  set_row es row cols vals
  = set_row es row (map fst (kept_entries cols vals)) (map snd (kept_entries cols vals)).
Proof.
  unfold set_row, kept_entries. rewrite zip_fst_snd.
  generalize (zip cols vals). intros cvs. revert es.
  induction cvs as [|[c v] cvs IH]; intros es; simpl; [done|].
  destruct (0 <=? c) eqn:E; simpl.
  - apply IH.
  - rewrite <- IH. unfold set_entry.
    assert ((c <? 0) = true) as -> by (apply Z.ltb_lt; apply Z.leb_gt in E; lia).
    rewrite orb_true_r. done.
Qed.

(** A call without its masked columns. *)
Lemma assemble_kept steps es :
  assemble steps es
  = assemble (map (fun s : Z * list Z * list Qc =>
                     (s.1.1, map fst (kept_entries s.1.2 s.2), map snd (kept_entries s.1.2 s.2)))
                  steps) es.
Proof.
  unfold assemble. revert es. induction steps as [|s steps IH]; intros es; simpl; [done|].
  rewrite <- set_row_kept. apply IH.
Qed.

(** Every entry of an assembled matrix was put in by one of the calls. *)
Lemma assemble_in steps es e :
  In e (assemble steps es) ->
  In e es \/ exists s, In s steps /\ e.1.1 = s.1.1 /\ In e.1.2 s.1.2 /\ 0 <= e.1.2 /\ 0 <= e.1.1.
Proof.
  unfold assemble. revert es. induction steps as [|s steps IH]; intros es; simpl; [auto|].
  intros He. apply IH in He as [He|(s' & Hs' & H)].
  - apply set_row_in in He as [He|(E1 & E2 & E3 & E4)]; [auto|].
    right. exists s. rewrite E1. auto.
  - right. exists s'. auto.
Qed.

(** The row of a call that is the only one for its row: it holds the
    entries of the call with a valid column. *)
Lemma assemble_row_kept steps s :
  In s steps -> 0 <= s.1.1 ->
  NoDup (map fst (kept_entries s.1.2 s.2)) ->
  (forall s', In s' steps -> s'.1.1 = s.1.1 -> s' = s) ->
  row_entries (assemble steps []) s.1.1 = rev (kept_entries s.1.2 s.2).
Proof.
  intros Hs Hrow Hnd Huniq. rewrite assemble_kept.
  set (clean := fun s : Z * list Z * list Qc =>
                  (s.1.1, map fst (kept_entries s.1.2 s.2), map snd (kept_entries s.1.2 s.2))).
  replace (rev (kept_entries s.1.2 s.2)) with (rev (zip (clean s).1.2 (clean s).2))
    by (simpl; rewrite zip_fst_snd; done).
  change s.1.1 with (clean s).1.1.
  apply assemble_row.
  - apply in_map. done.
  - repeat split; simpl; try done.
    + apply List.Forall_forall. intros c Hc. apply in_map_iff in Hc as (cv & <- & Hcv).
      unfold kept_entries in Hcv. apply List.filter_In in Hcv as [_ Hcv].
      apply Z.leb_le in Hcv. done.
    + rewrite !length_map. done.
  - intros s' Hs' Hr. apply in_map_iff in Hs' as (s0 & <- & Hs0).
    simpl in Hr. rewrite (Huniq s0 Hs0 Hr). done.
Qed.

Lemma row_sum_rev (cvs : list (Z * Qc)) es r :
  row_entries es r = rev cvs -> row_sum es r = Qc_sum (map snd cvs).
Proof. intros H. unfold row_sum. rewrite H, map_rev, Qc_sum_rev. done. Qed.

(** ** [constructPatchLevelCCLaplaceOp]: the rows of the matrix *)

Lemma laplace_value_phase_entries NDIM coefs depth counts rank patch_level mat :
  mat_entries (value_phase NDIM coefs depth counts rank patch_level mat)
  = assemble (laplace_steps NDIM coefs depth counts rank patch_level) (mat_entries mat).
Proof.
  rewrite value_phase_visits. unfold laplace_steps.
  apply (mat_entries_fold
           (fun mat v => value_visit NDIM coefs counts rank mat v.1.1 v.1.2 v.2)).
  intros m v. unfold value_visit. destruct (is_local counts rank _); done.
Qed.

(** The call returns when the counter vectors can be made and the depth
    assertion holds. *)
Lemma laplace_returns NDIM debug coefs depth counts rank patch_level :
  0 <= n_local counts rank ->
  (debug = true -> Forall (fun p => cp_depth p = depth) patch_level) ->
  constructPatchLevelCCLaplaceOp NDIM debug coefs depth counts rank patch_level
  = Returns (value_phase NDIM coefs depth counts rank patch_level
               (MatCreateAIJ (n_local counts rank) (n_local counts rank)
                  (buffer_or_null (n_local counts rank)
                     (count_phase NDIM depth counts rank patch_level
                        (replicate (Z.to_nat (n_local counts rank)) 0,
                         replicate (Z.to_nat (n_local counts rank)) 0)).1)
                  (buffer_or_null (n_local counts rank)
                     (count_phase NDIM depth counts rank patch_level
                        (replicate (Z.to_nat (n_local counts rank)) 0,
                         replicate (Z.to_nat (n_local counts rank)) 0)).2))).
Proof.
  intros Hn Hdepth. unfold constructPatchLevelCCLaplaceOp, new_counters.
  assert ((n_local counts rank <? 0) = false) as -> by (apply Z.ltb_ge; lia).
  simpl obind.
  assert (debug && negb (forallb (fun p => Nat.eqb depth (cp_depth p)) patch_level) = false)
    as ->; [|done].
  destruct debug; [|done]. simpl. apply negb_false_iff, forallb_forall.
  intros p Hp. specialize (Hdepth eq_refl). rewrite List.Forall_forall in Hdepth.
  rewrite (Hdepth p Hp). apply Nat.eqb_refl.
Qed.

(** X3. The cell-centred stencil assembler writes only into rows that this
    process owns: every entry of the matrix has a row that passed the range
    test, a non-negative column, and was offered by the stencil of a visited
    location with that row (the centre or one of its [2 * NDIM]
    neighbours). *)
Theorem laplace_entries_lie_in_owned_rows
    (NDIM : nat) (debug : bool) (coefs : CellPatch -> Index -> nat -> Qc) (depth : nat)
    (counts : list Z) (rank : nat) (patch_level : list CellPatch) (mat : Mat) (e : entry) :
  constructPatchLevelCCLaplaceOp NDIM debug coefs depth counts rank patch_level = Returns mat ->
  In e (mat_entries mat) ->
  is_local counts rank e.1.1 = true /\ 0 <= e.1.1 /\ 0 <= e.1.2
  /\ exists p i d, In (p, i, d) (visits depth patch_level)
       /\ e.1.1 = cp_dof p i d /\ In e.1.2 (mat_cols NDIM p i d).
Proof.
  unfold constructPatchLevelCCLaplaceOp.
  destruct (new_counters (n_local counts rank)) as [c0| | |]; simpl; try discriminate.
  destruct (debug && _); [intros H; discriminate H|]. intros [= <-].
  rewrite laplace_value_phase_entries. simpl. intros He.
  apply assemble_in in He as [[]|(s & Hs & E1 & E2 & E3 & E4)].
  unfold laplace_steps in Hs. apply in_flat_map in Hs as ([[p i] d] & Hv & Hs). simpl in Hs.
  destruct (is_local counts rank (cp_dof p i d)) eqn:Hloc; [|done].
  destruct Hs as [<-|[]]. simpl in E1, E2.
  split; [rewrite E1; exact Hloc|]. split; [exact E4|]. split; [exact E3|].
  exists p, i, d. split; [exact Hv|]. split; [exact E1|exact E2].
Qed.

Lemma laplace_entries_witness :
  is_local [4] 0 3 = true /\ 0 <= 3 /\ 0 <= 1
  /\ exists p i d, In (p, i, d) (visits 1 [example_cell_patch])
       /\ 3 = cp_dof p i d /\ In 1 (mat_cols 2 p i d).
Proof.
  eapply (laplace_entries_lie_in_owned_rows 2 true example_coefs 1 [4] 0 [example_cell_patch]
            _ (3, 1, Q2Qc 1)).
  - vm_compute. reflexivity.
  - vm_compute. repeat (first [left; reflexivity | right]).
Defined.

(** X4. Each row of the cell-centred stencil matrix holds the coefficients
    of its stencil, in stencil order, at the DOF indices of the centre and
    the neighbours, without the stencil points whose DOF index is negative
    (masked): a boundary row has as many entries as stencil points with a
    valid neighbour, and its sum is the sum of their coefficients.  (The
    location is the only visited one with its DOF index, and the valid DOF
    indices of its stencil are distinct.) *)
Theorem laplace_row_holds_the_unmasked_stencil
    (NDIM : nat) (debug : bool) (coefs : CellPatch -> Index -> nat -> Qc) (depth : nat)
    (counts : list Z) (rank : nat) (patch_level : list CellPatch)
    (p : CellPatch) (i : Index) (d : nat) :
  0 <= n_local counts rank ->
  (debug = true -> Forall (fun p => cp_depth p = depth) patch_level) ->
  In (p, i, d) (visits depth patch_level) ->
  is_local counts rank (cp_dof p i d) = true ->
  0 <= cp_dof p i d ->
  (forall v, In v (visits depth patch_level) -> visit_row v = cp_dof p i d -> v = (p, i, d)) ->
  NoDup (map fst (kept_entries (mat_cols NDIM p i d) (mat_vals NDIM coefs p i d))) ->
  exists mat,
    constructPatchLevelCCLaplaceOp NDIM debug coefs depth counts rank patch_level = Returns mat
    /\ row_entries (mat_entries mat) (cp_dof p i d)
       = rev (kept_entries (mat_cols NDIM p i d) (mat_vals NDIM coefs p i d))
    /\ length (row_entries (mat_entries mat) (cp_dof p i d))
       = length (List.filter (fun c => 0 <=? c) (mat_cols NDIM p i d))
    /\ row_sum (mat_entries mat) (cp_dof p i d)
       = Qc_sum (map snd (kept_entries (mat_cols NDIM p i d) (mat_vals NDIM coefs p i d))).
Proof.
  intros Hn Hdepth Hv Hloc Hrow Huniq Hnd.
  rewrite (laplace_returns NDIM debug coefs depth counts rank patch_level Hn Hdepth).
  eexists. split; [reflexivity|].
  rewrite laplace_value_phase_entries. simpl mat_entries.
  assert (Hentries :
            row_entries (assemble (laplace_steps NDIM coefs depth counts rank patch_level) [])
                        (cp_dof p i d)
            = rev (kept_entries (mat_cols NDIM p i d) (mat_vals NDIM coefs p i d))).
  { apply (assemble_row_kept _ (cp_dof p i d, mat_cols NDIM p i d, mat_vals NDIM coefs p i d)).
    - unfold laplace_steps. apply in_flat_map. exists (p, i, d). split; [done|].
      simpl. rewrite Hloc. left. done.
    - done.
    - done.
    - intros s Hs Hr. unfold laplace_steps in Hs.
      apply in_flat_map in Hs as (v & Hv' & Hs).
      destruct (is_local counts rank (cp_dof v.1.1 v.1.2 v.2)); [|done].
      destruct Hs as [<-|[]]. simpl in Hr.
      rewrite (Huniq v Hv' Hr). done. }
  split; [exact Hentries|]. split.
  - rewrite Hentries, length_rev. unfold kept_entries.
    assert (Hlen : length (mat_cols NDIM p i d) = length (mat_vals NDIM coefs p i d)).
    { unfold mat_cols, mat_vals, stencil_sz. simpl. rewrite length_map, length_seq.
      unfold neighbor_dofs, stencil. rewrite length_map. simpl drop. rewrite drop_0.
      generalize (replicate NDIM 0). intros z.
      assert (forall k n,
                length (flat_map (fun axis => [ <[axis := -1]> z; <[axis := 1]> z ]) (seq k n))
                = (2 * n)%nat) as H.
      { intros k n. revert k. induction n as [|n IH]; intros k; simpl; [done|].
        rewrite IH. lia. }
      rewrite H. lia. }
    revert Hlen. generalize (mat_cols NDIM p i d) (mat_vals NDIM coefs p i d).
    intros cs. induction cs as [|c cs IH]; intros [|v vs] Hlen; simpl in *; try done.
    destruct (0 <=? c); simpl; rewrite IH by lia; done.
  - apply row_sum_rev. exact Hentries.
Qed.

Lemma laplace_row_witness :
  exists mat,
    constructPatchLevelCCLaplaceOp 2 true example_coefs 1 [4] 0 [example_cell_patch]
    = Returns mat
    /\ row_entries (mat_entries mat) 0 = [(2, Q2Qc 1); (1, Q2Qc 1); (0, Q2Qc (-4))]
    /\ row_sum (mat_entries mat) 0 = Q2Qc (-2).
Proof.
  destruct (laplace_row_holds_the_unmasked_stencil 2 true example_coefs 1 [4] 0
              [example_cell_patch] example_cell_patch [0; 0] 0%nat)
    as (mat & Hcall & Hrow & _ & Hsum).
  - vm_compute. discriminate.
  - intros _. repeat constructor.
  - vm_compute. left. reflexivity.
  - vm_compute. reflexivity.
  - vm_compute. discriminate.
  - intros v Hv Hr. vm_compute in Hv.
    repeat (destruct Hv as [<-|Hv]; [try reflexivity; vm_compute in Hr; discriminate Hr|]).
    destruct Hv.
  - apply NoDup_ListNoDup. vm_compute. repeat constructor; simpl; intuition discriminate.
  - exists mat. split; [exact Hcall|]. split.
    + refine (eq_trans Hrow _). vm_compute. repeat f_equal; apply Qc_is_canon; reflexivity.
    + refine (eq_trans Hsum _). apply Qc_is_canon. vm_compute. reflexivity.
Defined.

(** X5. A process without local rows gets an empty matrix with null
    preallocation buffers: no counter is written and no row is inserted,
    whatever the patches hold. *)
Theorem laplace_without_local_rows
    (NDIM : nat) (debug : bool) (coefs : CellPatch -> Index -> nat -> Qc) (depth : nat)
    (counts : list Z) (rank : nat) (patch_level : list CellPatch) :
  n_local counts rank = 0 ->
  (debug = true -> Forall (fun p => cp_depth p = depth) patch_level) ->
  constructPatchLevelCCLaplaceOp NDIM debug coefs depth counts rank patch_level
  = Returns (mkMat 0 0 None None []).
Proof.
  intros Hn Hdepth.
  rewrite (laplace_returns NDIM debug coefs depth counts rank patch_level) by (done || lia).
  rewrite Hn. unfold buffer_or_null, MatCreateAIJ. simpl Z.eqb. cbv iota.
  assert (Hnone : forall c, is_local counts rank c = false).
  { intros c. unfold is_local, i_upper. rewrite Hn.
    assert (Hlo : Int.in_range (i_lower counts rank)).
    { unfold i_lower. apply accumulate_in_range. int_range. }
    rewrite Int_add_exact by (rewrite Z.add_0_r; done). rewrite Z.add_0_r.
    destruct (i_lower counts rank <=? c) eqn:E1; [|done].
    apply Z.leb_le in E1. simpl. apply Z.ltb_ge. lia. }
  f_equal. rewrite value_phase_visits.
  induction (visits depth patch_level) as [|v vs IH]; simpl; [done|].
  unfold value_visit at 2. rewrite Hnone. exact IH.
Qed.

Lemma laplace_without_local_rows_witness :
  constructPatchLevelCCLaplaceOp 2 true example_coefs 1 [4; 0] 1 [example_cell_patch]
  = Returns (mkMat 0 0 None None []).
Proof.
  apply (laplace_without_local_rows 2 true example_coefs 1 [4; 0] 1 [example_cell_patch]).
  - reflexivity.
  - intros _. repeat constructor.
Defined.

(** ** Budgets and entries of a stencil assembly *)

(** Counters that book every offered column cover the distinct columns of
    the rows. *)
Lemma counters_cover_entries NDIM counts rank vs st es :
  Forall (fun c => 0 <= c) counts ->
  (rank < length counts)%nat ->
  total_of counts + Z.of_nat (stencil_sz NDIM) <= Int.INT_MAX ->
  counters_after NDIM counts rank vs st ->
  entries_after NDIM vs es ->
  (forall r c, In c (columns_offered NDIM vs r) -> c < n_total counts) ->
  forall r, is_local counts rank r = true ->
    let k := r - i_lower counts rank in
    let cols := row_cols es r in
    let d_budget := Z.min (n_local counts rank) (booked_local NDIM counts rank vs r) in
    let o_budget := Z.min (n_total counts - n_local counts rank)
                          (booked_remote NDIM counts rank vs r) in
    st.1 !! Z.to_nat k = Some d_budget
    /\ st.2 !! Z.to_nat k = Some o_budget
    /\ NoDup cols
    /\ Z.of_nat (length (List.filter (is_local counts rank) cols)) <= d_budget
    /\ Z.of_nat (length (List.filter (fun c => negb (is_local counts rank c)) cols))
         <= o_budget.
Proof.
  intros Hnn Hrank Hov (_ & _ & Hst) [Hnd Hin] Hvalid r Hr. cbv zeta.
  destruct (ranges_facts NDIM counts rank Hnn Hrank Hov) as (F1 & F2 & F3 & F4 & F5 & F6).
  apply (local_iff NDIM counts rank Hnn Hrank Hov) in Hr.
  destruct (Hst (r - i_lower counts rank) ltac:(lia)) as [Hdv Hov'].
  replace (i_lower counts rank + (r - i_lower counts rank)) with r in * by lia.
  pose proof (row_cols_nodup es r Hnd) as Hcols.
  assert (Hoff : forall c, In c (row_cols es r) ->
            In c (columns_offered NDIM vs r) /\ 0 <= c /\ c < n_total counts).
  { intros c Hc. apply row_cols_in in Hc as [x Hx]. destruct (Hin r c x Hx) as [H1 H2].
    split; [done|]. split; [done|]. apply (Hvalid r). done. }
  split; [done|]. split; [done|]. split; [done|]. split.
  - apply Z.min_glb.
    + enough (Z.of_nat (length (List.filter (is_local counts rank) (row_cols es r)))
              <= (i_lower counts rank + n_local counts rank) - i_lower counts rank) by lia.
      apply NoDup_interval_length; [|  |lia].
      * apply NoDup_ListNoDup, List.NoDup_filter, NoDup_ListNoDup, Hcols.
      * intros c Hc. apply List.filter_In in Hc as [_ Hc].
        apply (local_iff NDIM counts rank Hnn Hrank Hov) in Hc. done.
    + unfold booked_local. apply inj_le.
      apply filter_incl_length; [done|]. intros c Hc. apply Hoff. done.
  - apply Z.min_glb.
    + enough (Z.of_nat (length (List.filter (fun c => negb (is_local counts rank c))
                                  (row_cols es r)))
              <= i_lower counts rank + (n_total counts - i_upper counts rank)) by lia.
      apply NoDup_two_intervals_length; [| |lia|lia|lia].
      * apply NoDup_ListNoDup, List.NoDup_filter, NoDup_ListNoDup, Hcols.
      * intros c Hc. apply List.filter_In in Hc as [Hc Hnl].
        destruct (Hoff c Hc) as (_ & H0 & Hlt).
        apply negb_true_iff in Hnl.
        assert (~ (i_lower counts rank <= c < i_lower counts rank + n_local counts rank)).
        { intros Hl. apply (local_iff NDIM counts rank Hnn Hrank Hov) in Hl. congruence. }
        lia.
    + unfold booked_remote. apply inj_le.
      apply filter_incl_length; [done|]. intros c Hc. apply Hoff. done.
Qed.

(** ** [constructPatchLevelSCLaplaceOp] *)

Section SCLaplaceBudgets.
Variable NDIM : nat.
Variable coefs : SidePatch -> nat -> Index -> nat -> Qc.
Variable counts : list Z.
Variable rank : nat.
Variable patch_level : list SidePatch.

(** The side-centred loops are the cell-centred loops over the components
    of the side data. *)
Lemma sc_count_visit_as_cell st p axis i :
  sc_count_visit NDIM counts rank st p axis i
  = count_visit NDIM counts rank st (side_component p axis) i 0.
Proof. done. Qed.

Lemma sc_count_phase_visits st :
  sc_count_phase NDIM counts rank patch_level st
  = fold_left (fun st v => count_visit NDIM counts rank st v.1.1 v.1.2 v.2)
              (map sc_as_cell_visit (sc_visits NDIM patch_level)) st.
Proof.
  unfold sc_count_phase, sc_visits. rewrite fold_left_map_list, fold_left_flat_map.
  apply fold_left_ext_in. intros a p _.
  rewrite fold_left_flat_map. apply fold_left_ext_in. intros b axis _.
  rewrite fold_left_map_list. done.
Qed.

Lemma sc_value_phase_visits mat :
  sc_value_phase NDIM coefs counts rank patch_level mat
  = fold_left (fun mat v => sc_value_visit NDIM coefs counts rank mat v.1.1 v.1.2 v.2)
              (sc_visits NDIM patch_level) mat.
Proof.
  unfold sc_value_phase, sc_visits. rewrite fold_left_flat_map.
  apply fold_left_ext_in. intros a p _.
  rewrite fold_left_flat_map. apply fold_left_ext_in. intros b axis _.
  rewrite fold_left_map_list. done.
Qed.

Lemma sc_columns_offered_as_cell vs r :
  sc_columns_offered NDIM vs r = columns_offered NDIM (map sc_as_cell_visit vs) r.
Proof.
  unfold sc_columns_offered, columns_offered.
  induction vs as [|v vs IH]; simpl; [done|]. rewrite IH. done.
Qed.

Lemma sc_value_visits_ok vs acc mat :
  entries_after NDIM (map sc_as_cell_visit acc) (mat_entries mat) ->
  let mat' := fold_left (fun mat v => sc_value_visit NDIM coefs counts rank mat v.1.1 v.1.2 v.2)
                        vs mat in
  entries_after NDIM (map sc_as_cell_visit (acc ++ vs)) (mat_entries mat')
  /\ mat_d_nnz mat' = mat_d_nnz mat /\ mat_o_nnz mat' = mat_o_nnz mat.
Proof.
  revert acc mat. induction vs as [|v vs IH]; intros acc mat Hok; simpl.
  - rewrite app_nil_r. done.
  - replace (acc ++ v :: vs) with ((acc ++ [v]) ++ vs) by (rewrite <- app_assoc; done).
    destruct (IH (acc ++ [v]) (sc_value_visit NDIM coefs counts rank mat v.1.1 v.1.2 v.2))
      as (H1 & H2 & H3).
    + destruct Hok as [Hnd Hin]. rewrite map_app. simpl map.
      unfold sc_value_visit.
      destruct (is_local counts rank (sp_dof v.1.1 v.1.2 v.2 0%nat)); simpl.
      * split; [apply set_row_keys_nodup, Hnd|].
        intros r c x Hx. apply set_row_in in Hx as [Hx|(E1 & E2 & E3 & E4)]; simpl in *.
        -- destruct (Hin r c x Hx). split; [|done].
           unfold columns_offered. rewrite flat_map_app. apply in_or_app. left. done.
        -- split; [|done]. unfold columns_offered. rewrite flat_map_app.
           apply in_or_app. right. simpl. unfold visit_row. simpl.
           rewrite E1, Z.eqb_refl, app_nil_r. done.
      * split; [done|]. intros r c x Hx. destruct (Hin r c x Hx). split; [|done].
        unfold columns_offered. rewrite flat_map_app. apply in_or_app. left. done.
    + split; [done|]. rewrite H2, H3. unfold sc_value_visit.
      destruct (is_local _ _ _); done.
Qed.

Lemma sc_visits_patch v : In v (sc_visits NDIM patch_level) -> In v.1.1 patch_level.
Proof.
  unfold sc_visits. rewrite in_flat_map. intros (p & Hp & Hv).
  apply in_flat_map in Hv as (axis & _ & Hv). apply in_map_iff in Hv as (i & <- & _). done.
Qed.

Lemma sc_value_phase_entries mat :
  mat_entries (sc_value_phase NDIM coefs counts rank patch_level mat)
  = assemble (sc_laplace_steps NDIM coefs counts rank patch_level) (mat_entries mat).
Proof.
  rewrite sc_value_phase_visits. unfold sc_laplace_steps.
  apply (mat_entries_fold
           (fun mat v => sc_value_visit NDIM coefs counts rank mat v.1.1 v.1.2 v.2)).
  intros m v. unfold sc_value_visit. destruct (is_local counts rank _); done.
Qed.
End SCLaplaceBudgets.

(** X6. The side-centred stencil assembler preallocates enough: for every
    owned row the local and the remote budget are the numbers of stencil
    columns booked as local and as remote, clamped to [n_local] and to
    [n_total - n_local], and the row that the value loop assembles holds no
    more distinct local columns than the local budget and no more distinct
    remote columns than the remote budget.  (One boundary-condition object
    per axis and side data of depth 1, as the code asserts; counts
    non-negative and without [int] overflow; DOF indices below the total.) *)
Theorem side_stencil_budgets_cover_inserted_entries
    (NDIM : nat) (debug : bool) (coefs : SidePatch -> nat -> Index -> nat -> Qc)
    (bc_coefs_size : nat) (counts : list Z) (rank : nat) (patch_level : list SidePatch) :
  bc_coefs_size = NDIM ->
  Forall (fun p => sp_depth p = 1%nat) patch_level ->
  Forall (fun c => 0 <= c) counts ->
  (rank < length counts)%nat ->
  total_of counts + Z.of_nat (stencil_sz NDIM) <= Int.INT_MAX ->
  (forall p axis i, In p patch_level -> sp_dof p axis i 0%nat < n_total counts) ->
  exists mat,
    constructPatchLevelSCLaplaceOp NDIM debug coefs bc_coefs_size counts rank patch_level
    = Returns mat
    /\ forall r, is_local counts rank r = true ->
         let k := r - i_lower counts rank in
         let cols := row_cols (mat_entries mat) r in
         let offered := sc_columns_offered NDIM (sc_visits NDIM patch_level) r in
         let d_budget := Z.min (n_local counts rank)
                           (Z.of_nat (length (List.filter (is_local counts rank) offered))) in
         let o_budget := Z.min (n_total counts - n_local counts rank)
                           (Z.of_nat (length (List.filter
                                                (fun c => negb (is_local counts rank c))
                                                offered))) in
         budget (mat_d_nnz mat) k = Some d_budget
         /\ budget (mat_o_nnz mat) k = Some o_budget
         /\ NoDup cols
         /\ (forall c, In c cols -> In c offered /\ 0 <= c)
         /\ Z.of_nat (length (List.filter (is_local counts rank) cols)) <= d_budget
         /\ Z.of_nat (length (List.filter (fun c => negb (is_local counts rank c)) cols))
              <= o_budget.
Proof.
  intros Hbc Hdepth Hnn Hrank Hov Hvalid.
  destruct (ranges_facts NDIM counts rank Hnn Hrank Hov) as (F1 & F2 & F3 & F4 & F5 & F6).
  unfold constructPatchLevelSCLaplaceOp, new_counters.
  rewrite Hbc, Nat.eqb_refl, andb_false_r.
  assert ((n_local counts rank <? 0) = false) as -> by (apply Z.ltb_ge; lia).
  simpl obind.
  assert (forallb (fun p => Nat.eqb (sp_depth p) 1) patch_level = true) as ->.
  { apply forallb_forall. intros p Hp. rewrite List.Forall_forall in Hdepth.
    rewrite (Hdepth p Hp). done. }
  rewrite andb_false_r.
  set (st0 := (replicate (Z.to_nat (n_local counts rank)) 0,
               replicate (Z.to_nat (n_local counts rank)) 0)).
  set (st := sc_count_phase NDIM counts rank patch_level st0).
  set (mat0 := MatCreateAIJ _ _ _ _).
  eexists. split; [reflexivity|].
  set (vs := map sc_as_cell_visit (sc_visits NDIM patch_level)).
  assert (Hst : counters_after NDIM counts rank vs st).
  { unfold st. rewrite sc_count_phase_visits.
    apply (count_visits_ok NDIM counts rank Hnn Hrank Hov _ [] st0).
    unfold st0. split; [|split]; simpl; try (rewrite length_replicate; done).
    intros j Hj. rewrite !lookup_replicate_2 by lia.
    unfold booked_local, booked_remote. simpl. split; f_equal; lia. }
  rewrite sc_value_phase_visits.
  destruct (sc_value_visits_ok NDIM coefs counts rank (sc_visits NDIM patch_level) [] mat0)
    as (Hes & Hd & Ho).
  { split; [constructor|]. intros r c x []. }
  cbv zeta in Hes, Hd, Ho. simpl app in Hes. fold vs in Hes.
  set (mat := fold_left _ _ mat0) in *.
  intros r Hr. cbv zeta.
  assert (Hcolsvalid : forall r c, In c (columns_offered NDIM vs r) -> c < n_total counts).
  { intros r' c Hc. unfold vs in Hc. rewrite <- sc_columns_offered_as_cell in Hc.
    unfold sc_columns_offered in Hc. apply in_flat_map in Hc as (v & Hv & Hc).
    destruct (_ =? r'); [|done].
    pose proof (sc_visits_patch NDIM patch_level v Hv) as Hp.
    unfold sc_mat_cols in Hc. destruct Hc as [<-|Hc]; [apply Hvalid; done|].
    unfold sc_neighbor_dofs in Hc. apply in_map_iff in Hc as (s & <- & _).
    apply Hvalid. done. }
  destruct (counters_cover_entries NDIM counts rank vs st (mat_entries mat)
              Hnn Hrank Hov Hst Hes Hcolsvalid r Hr) as (B1 & B2 & B3 & B4 & B5).
  assert (Hnz : (n_local counts rank =? 0) = false).
  { apply Z.eqb_neq. apply (local_iff NDIM counts rank Hnn Hrank Hov) in Hr. lia. }
  rewrite sc_columns_offered_as_cell. fold vs.
  split; [|split; [|split; [done|split; [|split; done]]]].
  - rewrite Hd. unfold mat0, MatCreateAIJ, buffer_or_null. simpl. rewrite Hnz. done.
  - rewrite Ho. unfold mat0, MatCreateAIJ, buffer_or_null. simpl. rewrite Hnz. done.
  - intros c Hc. apply row_cols_in in Hc as [x Hx]. destruct Hes as [_ Hin].
    apply (Hin r c x Hx).
Qed.

Lemma side_stencil_budgets_witness :
  exists mat,
    constructPatchLevelSCLaplaceOp 2 true example_side_coefs 2 [12] 0 [example_side_patch]
    = Returns mat
    /\ budget (mat_d_nnz mat) 4 = Some 4
    /\ budget (mat_o_nnz mat) 4 = Some 0
    /\ NoDup (row_cols (mat_entries mat) 4)
    /\ Z.of_nat (length (List.filter (is_local [12] 0) (row_cols (mat_entries mat) 4))) <= 4.
Proof.
  destruct (side_stencil_budgets_cover_inserted_entries 2 true example_side_coefs 2 [12] 0
              [example_side_patch]) as (mat & Hcall & H).
  - reflexivity.
  - repeat constructor.
  - repeat constructor. lia.
  - simpl. lia.
  - vm_compute. discriminate.
  - intros p axis i [<-|[]]. simpl. unfold example_side_dof.
    change (n_total [12]) with 12.
    destruct axis as [|[|axis]]; destruct i as [|x [|y [|z i]]]; try lia.
    + destruct ((0 <=? x) && (x <=? 2) && (0 <=? y) && (y <=? 1)) eqn:E; [|lia].
      rewrite !andb_true_iff, !Z.leb_le in E. lia.
    + destruct ((0 <=? x) && (x <=? 1) && (0 <=? y) && (y <=? 2)) eqn:E; [|lia].
      rewrite !andb_true_iff, !Z.leb_le in E. lia.
  - exists mat. split; [exact Hcall|].
    destruct (H 4 eq_refl) as (B1 & B2 & B3 & _ & B5 & _).
    split; [exact B1|]. split; [exact B2|]. split; [exact B3|exact B5].
Defined.

Lemma sc_laplace_returns NDIM debug coefs bc_coefs_size counts rank patch_level :
  0 <= n_local counts rank ->
  (debug = true ->
   bc_coefs_size = NDIM /\ Forall (fun p => sp_depth p = 1%nat) patch_level) ->
  constructPatchLevelSCLaplaceOp NDIM debug coefs bc_coefs_size counts rank patch_level
  = Returns (sc_value_phase NDIM coefs counts rank patch_level
               (MatCreateAIJ (n_local counts rank) (n_local counts rank)
                  (buffer_or_null (n_local counts rank)
                     (sc_count_phase NDIM counts rank patch_level
                        (replicate (Z.to_nat (n_local counts rank)) 0,
                         replicate (Z.to_nat (n_local counts rank)) 0)).1)
                  (buffer_or_null (n_local counts rank)
                     (sc_count_phase NDIM counts rank patch_level
                        (replicate (Z.to_nat (n_local counts rank)) 0,
                         replicate (Z.to_nat (n_local counts rank)) 0)).2))).
Proof.
  intros Hn Hassert. unfold constructPatchLevelSCLaplaceOp, new_counters.
  assert (debug && negb (Nat.eqb bc_coefs_size NDIM) = false) as ->.
  { destruct debug; [|done]. destruct (Hassert eq_refl) as [-> _].
    rewrite Nat.eqb_refl. done. }
  assert ((n_local counts rank <? 0) = false) as -> by (apply Z.ltb_ge; lia).
  simpl obind.
  assert (debug && negb (forallb (fun p => Nat.eqb (sp_depth p) 1) patch_level) = false)
    as ->; [|done].
  destruct debug; [|done]. simpl. apply negb_false_iff, forallb_forall.
  intros p Hp. destruct (Hassert eq_refl) as [_ Hdepth].
  rewrite List.Forall_forall in Hdepth. rewrite (Hdepth p Hp). done.
Qed.

Lemma stencil_neighbours_length NDIM : length (drop 1 (stencil NDIM)) = (2 * NDIM)%nat.
Proof.
  unfold stencil. simpl drop. rewrite drop_0.
  generalize (replicate NDIM 0). intros z.
  assert (forall k n,
            length (flat_map (fun axis => [ <[axis := -1]> z; <[axis := 1]> z ]) (seq k n))
            = (2 * n)%nat) as H.
  { intros k n. revert k. induction n as [|n IH]; intros k; simpl; [done|].
    rewrite IH. lia. }
  apply H.
Qed.

Lemma sc_mat_lengths NDIM coefs p axis i :
  length (sc_mat_cols NDIM p axis i) = length (sc_mat_vals NDIM coefs p axis i).
Proof.
  unfold sc_mat_cols, sc_mat_vals, stencil_sz, sc_neighbor_dofs. cbn [length].
  rewrite !length_map, length_seq, stencil_neighbours_length. lia.
Qed.

Lemma kept_entries_length (cols : list Z) (vals : list Qc) :
  length cols = length vals ->
  length (kept_entries cols vals) = length (List.filter (fun c => 0 <=? c) cols).
Proof.
  unfold kept_entries. revert vals.
  induction cols as [|c cs IH]; intros [|v vs] Hlen; simpl in *; try done.
  destruct (0 <=? c); simpl; rewrite IH by lia; done.
Qed.

(** X7. Each row of the side-centred stencil matrix holds the coefficients
    of its stencil, in stencil order, at the DOF indices of the side and of
    its neighbours of the same axis, without the stencil points whose DOF
    index is negative (masked).  (The side is the only visited one with its
    DOF index, and the valid DOF indices of its stencil are distinct.) *)
Theorem side_stencil_row_holds_the_unmasked_stencil
    (NDIM : nat) (debug : bool) (coefs : SidePatch -> nat -> Index -> nat -> Qc)
    (bc_coefs_size : nat) (counts : list Z) (rank : nat) (patch_level : list SidePatch)
    (p : SidePatch) (axis : nat) (i : Index) :
  0 <= n_local counts rank ->
  (debug = true ->
   bc_coefs_size = NDIM /\ Forall (fun p => sp_depth p = 1%nat) patch_level) ->
  In (p, axis, i) (sc_visits NDIM patch_level) ->
  is_local counts rank (sp_dof p axis i 0%nat) = true ->
  0 <= sp_dof p axis i 0%nat ->
  (forall v, In v (sc_visits NDIM patch_level) ->
     sp_dof v.1.1 v.1.2 v.2 0%nat = sp_dof p axis i 0%nat -> v = (p, axis, i)) ->
  NoDup (map fst (kept_entries (sc_mat_cols NDIM p axis i) (sc_mat_vals NDIM coefs p axis i))) ->
  exists mat,
    constructPatchLevelSCLaplaceOp NDIM debug coefs bc_coefs_size counts rank patch_level
    = Returns mat
    /\ row_entries (mat_entries mat) (sp_dof p axis i 0%nat)
       = rev (kept_entries (sc_mat_cols NDIM p axis i) (sc_mat_vals NDIM coefs p axis i))
    /\ length (row_entries (mat_entries mat) (sp_dof p axis i 0%nat))
       = length (List.filter (fun c => 0 <=? c) (sc_mat_cols NDIM p axis i))
    /\ row_sum (mat_entries mat) (sp_dof p axis i 0%nat)
       = Qc_sum (map snd (kept_entries (sc_mat_cols NDIM p axis i)
                                       (sc_mat_vals NDIM coefs p axis i))).
Proof.
  intros Hn Hassert Hv Hloc Hrow Huniq Hnd.
  rewrite (sc_laplace_returns NDIM debug coefs bc_coefs_size counts rank patch_level Hn Hassert).
  eexists. split; [reflexivity|].
  rewrite sc_value_phase_entries. simpl mat_entries.
  assert (Hentries :
            row_entries (assemble (sc_laplace_steps NDIM coefs counts rank patch_level) [])
                        (sp_dof p axis i 0%nat)
            = rev (kept_entries (sc_mat_cols NDIM p axis i)
                                (sc_mat_vals NDIM coefs p axis i))).
  { apply (assemble_row_kept _ (sp_dof p axis i 0%nat, sc_mat_cols NDIM p axis i,
                                sc_mat_vals NDIM coefs p axis i)).
    - unfold sc_laplace_steps. apply in_flat_map. exists (p, axis, i). split; [done|].
      simpl. rewrite Hloc. left. done.
    - done.
    - done.
    - intros s Hs Hr. unfold sc_laplace_steps in Hs.
      apply in_flat_map in Hs as (v & Hv' & Hs).
      destruct (is_local counts rank (sp_dof v.1.1 v.1.2 v.2 0%nat)); [|done].
      destruct Hs as [<-|[]]. simpl in Hr.
      rewrite (Huniq v Hv' Hr). done. }
  split; [exact Hentries|]. split.
  - rewrite Hentries, length_rev. apply kept_entries_length, sc_mat_lengths.
  - apply row_sum_rev. exact Hentries.
Qed.

Lemma side_stencil_row_witness :
  exists mat,
    constructPatchLevelSCLaplaceOp 2 true example_side_coefs 2 [12] 0 [example_side_patch]
    = Returns mat
    /\ row_entries (mat_entries mat) 4 = [(1, Q2Qc 1); (5, Q2Qc 1); (3, Q2Qc 1); (4, Q2Qc (-4))]
    /\ row_sum (mat_entries mat) 4 = Q2Qc (-1).
Proof.
  destruct (side_stencil_row_holds_the_unmasked_stencil 2 true example_side_coefs 2 [12] 0
              [example_side_patch] example_side_patch 0%nat [1; 1])
    as (mat & Hcall & Hrow & _ & Hsum).
  - vm_compute. discriminate.
  - intros _. split; [reflexivity|repeat constructor].
  - vm_compute. do 4 right. left. reflexivity.
  - vm_compute. reflexivity.
  - vm_compute. discriminate.
  - intros v Hv Hr. vm_compute in Hv.
    repeat (destruct Hv as [<-|Hv]; [try reflexivity; vm_compute in Hr; discriminate Hr|]).
    destruct Hv.
  - apply NoDup_ListNoDup. vm_compute. repeat constructor; simpl; intuition discriminate.
  - exists mat. split; [exact Hcall|]. split.
    + refine (eq_trans Hrow _). vm_compute. repeat f_equal; apply Qc_is_canon; reflexivity.
    + refine (eq_trans Hsum _). apply Qc_is_canon. vm_compute. reflexivity.
Defined.

(** ** The preallocation of the volumetric prolongation *)

(** A loop that can fail returns, and keeps an invariant that follows the
    items treated so far. *)
Lemma ofold_trace {A B T} (Inv : list T -> A -> Prop) (f : A -> B -> outcome A)
    (h : B -> list T) l acc a :
  (forall acc a x, In x l -> Inv acc a -> exists a', f a x = Returns a' /\ Inv (acc ++ h x) a') ->
  Inv acc a ->
  exists a', ofold f l a = Returns a' /\ Inv (acc ++ flat_map h l) a'.
Proof.
  revert acc a. induction l as [|x l IH]; intros acc a Hstep Ha; simpl.
  - rewrite app_nil_r. eauto.
  - destruct (Hstep acc a x (or_introl eq_refl) Ha) as (a1 & E & H1). rewrite E. simpl.
    rewrite app_assoc. apply IH; [|done]. intros. apply Hstep; [right|]; done.
Qed.

Lemma booked_snoc sel acc rc j :
  booked sel (acc ++ [rc]) j
  = if (rc.1 =? j) && sel rc.2 then 1 else booked sel acc j.
Proof.
  unfold booked. rewrite existsb_app. simpl. rewrite orb_false_r.
  destruct (existsb _ acc); destruct ((rc.1 =? j) && sel rc.2); done.
Qed.

Section CellProlongationBudgets.
Variable debug : bool.
Variable coarsen : Index -> Index -> Index.
Variable mapIndexToInteger : Index -> Index -> Index -> nat -> Z -> Z.
Variable ao : Z -> Z.
Variable ao_offset : Z.
Variable fine_counts : list Z.
Variable coarse_counts : list Z.
Variable rank : nat.
Variable coarse_ratio : Index.
Variable fine_ratio : Index.
Variable level : list CellPatch.
Variable dom : Box.

Hypothesis counts_nonneg : Forall (fun c => 0 <= c) fine_counts.
Hypothesis rank_valid : (rank < length fine_counts)%nat.
Hypothesis no_overflow : total_of fine_counts <= Int.INT_MAX.
Hypothesis owned : forall p i d, cell_location level p i d ->
  is_local fine_counts rank (cp_dof p i d) = true.

Abbreviation m := (n_local fine_counts rank).
Abbreviation on := (on_proc_coarse coarse_counts rank).
Abbreviation column :=
  (cell_column coarsen mapIndexToInteger ao ao_offset coarse_ratio fine_ratio dom).

(** The (local row, column) pairs of the count loop, in order. *)
Abbreviation pairs_of := (fun (p : CellPatch) (i : Index) =>
  map (fun d => (cp_dof p i d - i_lower fine_counts rank, column i d)) (seq 0 (cp_depth p))).

Abbreviation counters_hold := (fun (acc : list (Z * Z)) (st : list Z * list Z) =>
  length st.1 = Z.to_nat m /\ length st.2 = Z.to_nat m
  /\ forall j, 0 <= j < m ->
       st.1 !! Z.to_nat j = Some (booked on acc j)
       /\ st.2 !! Z.to_nat j = Some (booked (fun c => negb (on c)) acc j)).

Lemma owned_local_row p i d :
  cell_location level p i d ->
  Int.sub (cp_dof p i d) (i_lower fine_counts rank) = cp_dof p i d - i_lower fine_counts rank
  /\ 0 <= cp_dof p i d - i_lower fine_counts rank < m.
Proof.
  intros Hloc.
  destruct (partition_exact fine_counts rank counts_nonneg no_overflow rank_valid)
    as (E1 & E2 & E3 & E4 & E5 & E6 & E7).
  pose proof (total_of_take_succ fine_counts rank rank_valid) as Hs.
  pose proof (owned p i d Hloc) as Hown.
  unfold is_local in Hown. apply andb_true_iff in Hown as [Hl Hu].
  apply Z.leb_le in Hl. apply Z.ltb_lt in Hu.
  split.
  - apply Int_sub_exact. rewrite E3 in Hu. rewrite E4 in E7. rewrite E3 in E7.
    rewrite E1 in *. int_range.
  - rewrite E3 in Hu. rewrite E1, E2 in *. lia.
Qed.

Lemma cell_count_step acc st k c :
  0 <= k < m -> counters_hold acc st ->
  exists st',
    (if on c
     then let* d := checked_write st.1 k 1 in Returns (d, st.2)
     else let* o := checked_write st.2 k 1 in Returns (st.1, o)) = Returns st'
    /\ counters_hold (acc ++ [(k, c)]) st'.
Proof.
  intros Hk (L1 & L2 & H).
  destruct (on c) eqn:Ec.
  - rewrite checked_write_returns by lia. simpl. eexists. split; [done|].
    split; [|split]; simpl; [rewrite length_insert; done|done|].
    intros j Hj. rewrite !booked_snoc. simpl. rewrite Ec. simpl.
    rewrite andb_true_r, andb_false_r. destruct (H j Hj) as [H1 H2]. split; [|done].
    destruct (Z.eqb_spec k j) as [->|Hne].
    + apply list_lookup_insert_eq. lia.
    + rewrite list_lookup_insert_ne by lia. done.
  - rewrite checked_write_returns by lia. simpl. eexists. split; [done|].
    split; [|split]; simpl; [done|rewrite length_insert; done|].
    intros j Hj. rewrite !booked_snoc. simpl. rewrite Ec. simpl.
    rewrite andb_true_r, andb_false_r. destruct (H j Hj) as [H1 H2]. split; [done|].
    destruct (Z.eqb_spec k j) as [->|Hne].
    + apply list_lookup_insert_eq. lia.
    + rewrite list_lookup_insert_ne by lia. done.
Qed.

Lemma cell_count_phase_counters :
  exists st,
    cell_count_phase debug coarsen mapIndexToInteger ao ao_offset fine_counts coarse_counts rank
      coarse_ratio fine_ratio level dom
      (replicate (Z.to_nat m) 0, replicate (Z.to_nat m) 0) = Returns st
    /\ counters_hold
         (flat_map (fun p => flat_map (pairs_of p) (box_cells (toCellBox (cp_box p)))) level) st.
Proof.
  unfold cell_count_phase.
  apply (ofold_trace counters_hold _
           (fun p => flat_map (pairs_of p) (box_cells (toCellBox (cp_box p)))) level []).
  2:{ split; [|split]; simpl; [apply length_replicate..|].
      intros j Hj. unfold booked. simpl. rewrite !lookup_replicate_2 by lia. done. }
  intros acc st p Hp Hst.
  apply (ofold_trace counters_hold _ (pairs_of p)); [|done].
  clear acc st Hst. intros acc st i Hi Hst. unfold cell_count_cell.
  assert (forallb (is_local fine_counts rank)
            (map (fun d => cp_dof p i d) (seq 0 (cp_depth p))) = true) as ->.
  { apply forallb_forall. intros r Hr. apply in_map_iff in Hr as (d & <- & Hd).
    apply in_seq in Hd. apply owned. repeat split; [done|done|lia]. }
  rewrite andb_false_r.
  unfold cell_samrai_petsc_map. rewrite !map_map.
  assert (Hzip : forall (f : nat -> Z) (g : nat -> Z) l,
            zip (map f l) (map g l) = map (fun d => (f d, g d)) l).
  { intros f g l. induction l as [|x l IH]; simpl; [done|]. rewrite IH. done. }
  rewrite Hzip.
  assert (Hsame : map (fun d => (Int.sub (cp_dof p i d) (i_lower fine_counts rank),
                                 ao (mapIndexToInteger
                                       (coarsen i (fine_coarse_ratio coarse_ratio fine_ratio))
                                       (lower dom) (cell_coarse_num_cells dom) d ao_offset)))
                      (seq 0 (cp_depth p))
                  = pairs_of p i).
  { apply map_ext_in. intros d Hd. apply in_seq in Hd.
    destruct (owned_local_row p i d) as [-> _]; [repeat split; [done|done|lia]|]. done. }
  rewrite Hsame.
  assert (Hflat : forall l : list (Z * Z), flat_map (fun rc => [rc]) l = l).
  { intros l. rewrite (flat_map_singleton (fun rc => rc)). apply map_id. }
  match goal with
  | |- exists a', ofold ?f ?l ?a = _ /\ _ =>
      destruct (ofold_trace counters_hold f (fun rc => [rc]) l acc a) as (st' & E & H');
        [|done|rewrite Hflat in H'; eauto]
  end.
  clear acc st Hst. intros acc st [k c] Hkc Hst.
  apply in_map_iff in Hkc as (d & [= <- <-] & Hd). apply in_seq in Hd.
  apply cell_count_step; [|done].
  apply owned_local_row. repeat split; [done|done|lia].
Qed.
End CellProlongationBudgets.

Lemma fold_left_keeps {A B C} (proj : A -> C) (f : A -> B -> A) l a :
  (forall a x, proj (f a x) = proj a) -> proj (fold_left f l a) = proj a.
Proof.
  intros H. revert a. induction l as [|x l IH]; intros a; simpl; [done|].
  rewrite IH. apply H.
Qed.

Lemma cell_value_phase_budgets coarsen mapIndexToInteger ao ao_offset coarse_ratio fine_ratio
    level dom mat :
  let mat' := cell_value_phase coarsen mapIndexToInteger ao ao_offset coarse_ratio fine_ratio
                level dom mat in
  mat_d_nnz mat' = mat_d_nnz mat /\ mat_o_nnz mat' = mat_o_nnz mat.
Proof.
  unfold cell_value_phase, cell_value_cell. split.
  - apply (fold_left_keeps mat_d_nnz). intros m1 p.
    apply (fold_left_keeps mat_d_nnz). intros m2 i.
    apply (fold_left_keeps mat_d_nnz). done.
  - apply (fold_left_keeps mat_o_nnz). intros m1 p.
    apply (fold_left_keeps mat_o_nnz). intros m2 i.
    apply (fold_left_keeps mat_o_nnz). done.
Qed.

(** X8. In the volumetric prolongation of cell-centred data, when every
    fine DOF of the level is owned by this process and the fine DOF
    numbering is injective, the call returns and the preallocation budgets
    of the row of a fine DOF follow the ownership of its single column: the
    pair (d_nnz, o_nnz) at the local row is (1, 0) when the column lies in
    the coarse range of this process, and (0, 1) otherwise. *)
Theorem cell_prolongation_budgets_follow_column_ownership
    (debug : bool) (coarsen : Index -> Index -> Index)
    (mapIndexToInteger : Index -> Index -> Index -> nat -> Z -> Z)
    (ao : Z -> Z) (ao_offset : Z) (fine_counts coarse_counts : list Z) (rank : nat)
    (dom : Box) (coarse_ratio fine_ratio : Index) (level : list CellPatch) :
  Forall (fun c => 0 <= c) fine_counts ->
  (rank < length fine_counts)%nat ->
  total_of fine_counts <= Int.INT_MAX ->
  (forall p i d, cell_location level p i d ->
     is_local fine_counts rank (cp_dof p i d) = true) ->
  (forall p1 i1 d1 p2 i2 d2,
     cell_location level p1 i1 d1 -> cell_location level p2 i2 d2 ->
     cp_dof p1 i1 d1 = cp_dof p2 i2 d2 -> i1 = i2 /\ d1 = d2) ->
  exists mat,
    constructProlongationOp_cell debug coarsen mapIndexToInteger ao ao_offset
      fine_counts coarse_counts rank [dom] coarse_ratio fine_ratio level = Returns mat
    /\ forall p i d, cell_location level p i d ->
         let on_proc :=
           on_proc_coarse coarse_counts rank
             (cell_column coarsen mapIndexToInteger ao ao_offset coarse_ratio fine_ratio dom
                          i d) in
         budget (mat_d_nnz mat) (cp_dof p i d - i_lower fine_counts rank)
         = Some (if on_proc then 1 else 0)
         /\ budget (mat_o_nnz mat) (cp_dof p i d - i_lower fine_counts rank)
            = Some (if on_proc then 0 else 1).
Proof.
  intros Hnn Hrank Hmax Hown Hinj.
  unfold constructProlongationOp_cell. simpl the_domain_box. simpl obind.
  unfold new_counters.
  destruct (partition_exact fine_counts rank Hnn Hmax Hrank) as (E1 & E2 & E3 & E4 & E5 & E6 & E7).
  assert ((n_local fine_counts rank <? 0) = false) as -> by (apply Z.ltb_ge; lia).
  simpl obind.
  destruct (cell_count_phase_counters debug coarsen mapIndexToInteger ao ao_offset fine_counts
              coarse_counts rank coarse_ratio fine_ratio level dom Hnn Hrank Hmax Hown)
    as (st & Hst & L1 & L2 & Hbooked).
  rewrite Hst. simpl obind. eexists. split; [reflexivity|].
  intros p i d Hloc. cbv zeta.
  destruct (cell_value_phase_budgets coarsen mapIndexToInteger ao ao_offset coarse_ratio
              fine_ratio level dom
              (MatCreateAIJ (n_local fine_counts rank) (n_local coarse_counts rank)
                 (buffer_or_null (n_local fine_counts rank) st.1)
                 (buffer_or_null (n_local fine_counts rank) st.2))) as [-> ->].
  destruct (owned_local_row fine_counts rank level Hnn Hrank Hmax Hown p i d Hloc) as [_ Hrow].
  simpl. unfold buffer_or_null.
  assert ((n_local fine_counts rank =? 0) = false) as -> by (apply Z.eqb_neq; lia).
  simpl. destruct (Hbooked _ Hrow) as [-> ->].
  set (trace := flat_map _ level).
  assert (Htrace : forall sel,
            existsb (fun rc : Z * Z =>
                       (rc.1 =? cp_dof p i d - i_lower fine_counts rank) && sel rc.2) trace
            = sel (cell_column coarsen mapIndexToInteger ao ao_offset coarse_ratio fine_ratio
                               dom i d)).
  { intros sel. apply eq_true_iff_eq. rewrite existsb_exists. split.
    - intros ([k c] & Hin & Hkc). simpl in Hkc.
      apply andb_true_iff in Hkc as [Hk Hc]. apply Z.eqb_eq in Hk.
      unfold trace in Hin. apply in_flat_map in Hin as (p' & Hp' & Hin).
      apply in_flat_map in Hin as (i' & Hi' & Hin).
      apply in_map_iff in Hin as (d' & [= <- <-] & Hd'). apply in_seq in Hd'.
      assert (Hloc' : cell_location level p' i' d') by (repeat split; [done|done|lia]).
      destruct (Hinj p' i' d' p i d Hloc' Hloc) as [-> ->]; [lia|done].
    - intros Hsel. destruct Hloc as (Hp & Hi & Hd).
      exists (cp_dof p i d - i_lower fine_counts rank,
              cell_column coarsen mapIndexToInteger ao ao_offset coarse_ratio fine_ratio dom
                          i d).
      split.
      + unfold trace. apply in_flat_map. exists p. split; [done|].
        apply in_flat_map. exists i. split; [done|]. apply in_map_iff. exists d.
        split; [done|]. apply in_seq. lia.
      + simpl. rewrite Z.eqb_refl. done. }
  unfold booked. rewrite (Htrace (on_proc_coarse coarse_counts rank)).
  rewrite (Htrace (fun c => negb (on_proc_coarse coarse_counts rank c))).
  destruct (on_proc_coarse _ _ _); done.
Qed.

Lemma cell_prolongation_budgets_witness :
  exists mat,
    constructProlongationOp_cell true IndexUtilities_coarsen IndexUtilities_mapIndexToInteger
      (fun j => j) 0 [8] [1; 1] 0 [example_coarse_domain] [1; 1] [2; 2] [example_fine_patch]
    = Returns mat
    /\ budget (mat_d_nnz mat) (cp_dof example_fine_patch [0; 0] 0 - 0) = Some 1
    /\ budget (mat_o_nnz mat) (cp_dof example_fine_patch [0; 0] 0 - 0) = Some 0
    /\ budget (mat_d_nnz mat) (cp_dof example_fine_patch [3; 1] 0 - 0) = Some 0
    /\ budget (mat_o_nnz mat) (cp_dof example_fine_patch [3; 1] 0 - 0) = Some 1.
Proof.
  destruct (cell_prolongation_budgets_follow_column_ownership true IndexUtilities_coarsen
              IndexUtilities_mapIndexToInteger (fun j => j) 0 [8] [1; 1] 0
              example_coarse_domain [1; 1] [2; 2] [example_fine_patch]) as (mat & E & H).
  - repeat constructor. lia.
  - simpl. lia.
  - vm_compute. discriminate.
  - intros p i d (Hp & Hi & Hd). enum_in Hp. enum_in Hi; reflexivity.
  - intros p1 i1 d1 p2 i2 d2 (Hp1 & Hi1 & Hd1) (Hp2 & Hi2 & Hd2).
    enum_in Hp1. enum_in Hp2. simpl in Hd1, Hd2.
    assert (d1 = d2) as -> by lia.
    enum_in Hi1; enum_in Hi2; simpl; intros E; first [discriminate E | split; reflexivity].
  - exists mat. split; [exact E|].
    destruct (H example_fine_patch [0; 0] 0%nat) as [H1 H2].
    { repeat split; [left; reflexivity|vm_compute; tauto|simpl; lia]. }
    destruct (H example_fine_patch [3; 1] 0%nat) as [H3 H4].
    { repeat split; [left; reflexivity|vm_compute; tauto|simpl; lia]. }
    repeat split; [exact H1|exact H2|exact H3|exact H4].
Defined.

(** ** The preallocation of the side-centred prolongation *)

Lemma fold_left_trace {A B T} (Inv : list T -> A -> Prop) (f : A -> B -> A)
    (h : B -> list T) l acc a :
  (forall acc a x, In x l -> Inv acc a -> Inv (acc ++ h x) (f a x)) ->
  Inv acc a ->
  Inv (acc ++ flat_map h l) (fold_left f l a).
Proof.
  revert acc a. induction l as [|x l IH]; intros acc a Hstep Ha; simpl.
  - rewrite app_nil_r. done.
  - rewrite app_assoc. apply IH; [|apply Hstep; [left|]; done].
    intros. apply Hstep; [right|]; done.
Qed.

(** The counters of a row after [n] treatments with the same two columns. *)
Lemma side_count_row_repeated on r cL cU steps :
  (forall s, In s steps -> s.1.1 = r -> s.1.2 = [cL; cU]) ->
  let n := Z.of_nat (length (List.filter (fun s : Z * list Z * list Qc => s.1.1 =? r) steps)) in
  n <= Int.INT_MAX ->
  fold_left (side_count_row on r) steps (0, 0)
  = if n =? 0 then (0, 0)
    else (if on cL then (if on cU then 2 else 1) else (if on cU then n else 0),
          if on cL then (if on cU then 0 else n) else (if on cU then 1 else 2)).
Proof.
  induction steps as [|s steps IH] using rev_ind; intros Hcols n Hn; [done|].
  subst n. rewrite fold_left_app. rewrite List.filter_app, length_app in Hn |- *. simpl in *.
  rewrite IH; [|intros s' Hs'; apply Hcols; apply in_app_iff; auto|lia].
  unfold side_count_row.
  destruct (Z.eqb_spec s.1.1 r) as [Er|Er].
  - rewrite (Hcols s) by (try apply in_app_iff; simpl; auto).
    simpl length in *.
    set (n := length (List.filter _ steps)) in *.
    assert ((Z.of_nat (n + 1) =? 0) = false) as -> by (apply Z.eqb_neq; lia).
    destruct (Z.eqb_spec (Z.of_nat n) 0) as [E0|E0];
      destruct (on cL), (on cU); simpl; rewrite ?E0;
      try reflexivity; f_equal; rewrite Int_add_exact by int_range; lia.
  - destruct s.1.2 as [|? [|? [|? ?]]]; simpl; rewrite Nat.add_0_r; done.
Qed.

Section SideProlongationBudgets.
Variable NDIM : nat.
Variable coarsen : Index -> Index -> Index.
Variable refine : Index -> Index -> Index.
Variable mapIndexToInteger : Index -> Index -> Index -> nat -> Z -> Z.
Variable ao : Z -> Z.
Variable ao_offset : Z.
Variable fine_counts : list Z.
Variable coarse_counts : list Z.
Variable rank : nat.
Variable coarse_ratio : Index.
Variable fine_ratio : Index.
Variable level : list SidePatch.
Variable dom : Box.

Hypothesis counts_nonneg : Forall (fun c => 0 <= c) fine_counts.
Hypothesis rank_valid : (rank < length fine_counts)%nat.
Hypothesis no_overflow : total_of fine_counts <= Int.INT_MAX.

Abbreviation m := (n_local fine_counts rank).
Abbreviation lo := (i_lower fine_counts rank).
Abbreviation on := (on_proc_coarse coarse_counts rank).

Abbreviation counters_replay := (fun (acc : list (Z * list Z * list Qc)) (st : list Z * list Z) =>
  length st.1 = Z.to_nat m /\ length st.2 = Z.to_nat m
  /\ forall r, 0 <= r - lo < m ->
       st.1 !! Z.to_nat (r - lo) = Some (fold_left (side_count_row on r) acc (0, 0)).1
       /\ st.2 !! Z.to_nat (r - lo) = Some (fold_left (side_count_row on r) acc (0, 0)).2).

Lemma local_row_exact dof :
  is_local fine_counts rank dof = true ->
  Int.sub dof lo = dof - lo /\ 0 <= dof - lo < m.
Proof.
  intros Hown.
  destruct (partition_exact fine_counts rank counts_nonneg no_overflow rank_valid)
    as (E1 & E2 & E3 & E4 & E5 & E6 & E7).
  pose proof (total_of_take_succ fine_counts rank rank_valid) as Hs.
  unfold is_local in Hown. apply andb_true_iff in Hown as [Hl Hu].
  apply Z.leb_le in Hl. apply Z.ltb_lt in Hu.
  split.
  - apply Int_sub_exact. rewrite E3 in Hu. rewrite E4 in E7. rewrite E3 in E7.
    rewrite E1 in *. int_range.
  - rewrite E3 in Hu. rewrite E1, E2 in *. lia.
Qed.

Lemma side_count_component_replay p axis i d acc st :
  is_local fine_counts rank (sp_dof p axis i d) = true ->
  counters_replay acc st ->
  counters_replay
    (acc ++ [(sp_dof p axis i d,
              [col_lower NDIM coarsen mapIndexToInteger ao ao_offset coarse_ratio fine_ratio dom
                         (sp_depth p) axis i d;
               col_upper NDIM coarsen mapIndexToInteger ao ao_offset coarse_ratio fine_ratio dom
                         (sp_depth p) axis i d],
              col_val coarsen refine coarse_ratio fine_ratio axis i)])
    (side_count_component NDIM coarsen mapIndexToInteger ao ao_offset fine_counts coarse_counts
       rank coarse_ratio fine_ratio dom p axis i st d).
Proof.
  intros Hown (L1 & L2 & H).
  destruct (local_row_exact _ Hown) as [Hsub Hrow].
  unfold side_count_component. rewrite Hsub.
  set (cL := col_lower _ _ _ _ _ _ _ _ _ _ _ _).
  set (cU := col_upper _ _ _ _ _ _ _ _ _ _ _ _).
  set (k := Z.to_nat (sp_dof p axis i d - lo)).
  split; [|split].
  - destruct (on cL), (on cU); simpl; rewrite ?length_alter, ?length_insert; done.
  - destruct (on cL), (on cU); simpl; rewrite ?length_alter, ?length_insert; done.
  - intros r Hr. rewrite fold_left_app. simpl fold_left.
    destruct (H r Hr) as [H1 H2].
    set (v := fold_left (side_count_row on r) acc (0, 0)) in *.
    unfold side_count_row. simpl.
    destruct (Z.eqb_spec (sp_dof p axis i d) r) as [<-|Hne].
    + fold k in H1, H2 |- *.
      destruct (on cL), (on cU); simpl;
        rewrite ?list_lookup_alter_eq, ?list_lookup_insert_eq by lia;
        rewrite ?H1, ?H2; done.
    + assert (Hk : k <> Z.to_nat (r - lo)) by (unfold k; lia).
      destruct (on cL), (on cU); simpl;
        rewrite ?list_lookup_alter_ne, ?list_lookup_insert_ne by done; done.
Qed.

Lemma side_count_phase_replay :
  counters_replay
    (side_steps NDIM coarsen refine mapIndexToInteger ao ao_offset fine_counts rank
                coarse_ratio fine_ratio level dom)
    (side_count_phase NDIM coarsen mapIndexToInteger ao ao_offset fine_counts coarse_counts
                      rank coarse_ratio fine_ratio level dom
                      (replicate (Z.to_nat m) 0, replicate (Z.to_nat m) 0)).
Proof.
  unfold side_count_phase, side_steps.
  apply (fold_left_trace counters_replay _ _ level []).
  2:{ split; [|split]; simpl; [apply length_replicate..|].
      intros r Hr. rewrite !lookup_replicate_2 by lia. done. }
  intros acc st p _ Hst.
  apply (fold_left_trace counters_replay); [|done].
  clear acc st Hst. intros acc st axis _ Hst.
  apply (fold_left_trace counters_replay); [|done].
  clear acc st Hst. intros acc st i _ Hst.
  destruct (on_proc_fine_loc fine_counts rank p axis i) eqn:Hon; [|rewrite app_nil_r; done].
  rewrite <- flat_map_singleton.
  apply (fold_left_trace counters_replay); [|done].
  clear acc st Hst. intros acc st d Hd Hst.
  apply side_count_component_replay; [|done].
  unfold on_proc_fine_loc in Hon. rewrite forallb_forall in Hon. apply Hon. done.
Qed.

Lemma side_value_phase_budgets mat :
  let mat' := side_value_phase NDIM coarsen refine mapIndexToInteger ao ao_offset fine_counts
                rank coarse_ratio fine_ratio level dom mat in
  mat_d_nnz mat' = mat_d_nnz mat /\ mat_o_nnz mat' = mat_o_nnz mat.
Proof.
  unfold side_value_phase. split.
  - apply (fold_left_keeps mat_d_nnz). intros m1 p.
    apply (fold_left_keeps mat_d_nnz). intros m2 axis.
    apply (fold_left_keeps mat_d_nnz). intros m3 i.
    destruct (on_proc_fine_loc _ _ _ _ _); [|done].
    apply (fold_left_keeps mat_d_nnz). done.
  - apply (fold_left_keeps mat_o_nnz). intros m1 p.
    apply (fold_left_keeps mat_o_nnz). intros m2 axis.
    apply (fold_left_keeps mat_o_nnz). intros m3 i.
    destruct (on_proc_fine_loc _ _ _ _ _); [|done].
    apply (fold_left_keeps mat_o_nnz). done.
Qed.
End SideProlongationBudgets.

(** X9. In the prolongation of side-centred data, the call returns, and
    the preallocation budgets of the row of an owned fine side DOF are
    determined by the ownership of its two bracketing coarse columns and by
    the number [n >= 1] of times the loops visit that DOF (a side shared by
    two patches is visited twice): (2, 0) when both columns lie in the coarse
    range of this process, (0, 2) when neither does, (1, n) when only the
    lower one does and (n, 1) when only the upper one does.  So the budgets
    are never less than the numbers of on-process and off-process columns of
    the row, and they are exactly these numbers for a DOF that is visited
    once.  (Every visit of the DOF computes the same two columns, and [n]
    is representable as an [int].) *)
Theorem side_prolongation_budgets_by_column_ownership
    (NDIM : nat) (debug : bool) (coarsen refine : Index -> Index -> Index)
    (mapIndexToInteger : Index -> Index -> Index -> nat -> Z -> Z)
    (ao : Z -> Z) (ao_offset : Z) (fine_counts coarse_counts : list Z) (rank : nat)
    (cdom fdom : Box) (coarse_ratio fine_ratio : Index) (level : list SidePatch)
    (p : SidePatch) (axis : nat) (i : Index) (d : nat) :
  let col_L := col_lower NDIM coarsen mapIndexToInteger ao ao_offset coarse_ratio fine_ratio
                         cdom (sp_depth p) axis i d in
  let col_U := col_upper NDIM coarsen mapIndexToInteger ao ao_offset coarse_ratio fine_ratio
                         cdom (sp_depth p) axis i d in
  let on_L := on_proc_coarse coarse_counts rank col_L in
  let on_U := on_proc_coarse coarse_counts rank col_U in
  let steps := side_steps NDIM coarsen refine mapIndexToInteger ao ao_offset fine_counts rank
                          coarse_ratio fine_ratio level cdom in
  let n := Z.of_nat (length (List.filter (fun s : Z * list Z * list Qc =>
                                            s.1.1 =? sp_dof p axis i d) steps)) in
  let local_row := sp_dof p axis i d - i_lower fine_counts rank in
  Forall (fun c => 0 <= c) fine_counts ->
  (rank < length fine_counts)%nat ->
  total_of fine_counts <= Int.INT_MAX ->
  side_location NDIM fine_counts rank level p axis i d ->
  (forall s, In s steps -> s.1.1 = sp_dof p axis i d -> s.1.2 = [col_L; col_U]) ->
  n <= Int.INT_MAX ->
  exists mat,
    constructProlongationOp_side NDIM debug coarsen refine mapIndexToInteger ao ao_offset
      fine_counts coarse_counts rank [cdom] [fdom] coarse_ratio fine_ratio level = Returns mat
    /\ 1 <= n
    /\ budget (mat_d_nnz mat) local_row
       = Some (if on_L then (if on_U then 2 else 1) else (if on_U then n else 0))
    /\ budget (mat_o_nnz mat) local_row
       = Some (if on_L then (if on_U then 0 else n) else (if on_U then 1 else 2))
    /\ (forall dn, budget (mat_d_nnz mat) local_row = Some dn ->
          (if on_L then 1 else 0) + (if on_U then 1 else 0) <= dn)
    /\ (forall dn, budget (mat_o_nnz mat) local_row = Some dn ->
          (if on_L then 0 else 1) + (if on_U then 0 else 1) <= dn).
Proof.
  intros col_L col_U on_L on_U steps n local_row Hnn Hrank Hmax Hloc Hcols Hn.
  unfold constructProlongationOp_side. simpl the_domain_box. simpl obind.
  unfold new_counters.
  destruct (partition_exact fine_counts rank Hnn Hmax Hrank) as (E1 & E2 & E3 & E4 & E5 & E6 & E7).
  assert ((n_local fine_counts rank <? 0) = false) as -> by (apply Z.ltb_ge; lia).
  simpl obind. cbv zeta. eexists. split; [reflexivity|].
  assert (Hstep : In (sp_dof p axis i d, [col_L; col_U],
                      col_val coarsen refine coarse_ratio fine_ratio axis i) steps).
  { apply side_steps_in. exists p, axis, i, d. done. }
  assert (H1n : 1 <= n).
  { unfold n.
    destruct (List.filter _ steps) as [|s l] eqn:Ef; [|simpl; lia].
    exfalso. eapply in_nil. rewrite <- Ef. apply filter_In. split; [exact Hstep|].
    simpl. apply Z.eqb_refl. }
  split; [done|].
  destruct (side_value_phase_budgets NDIM coarsen refine mapIndexToInteger ao ao_offset
              fine_counts rank coarse_ratio fine_ratio level cdom
              (MatCreateAIJ (n_local fine_counts rank) (n_local coarse_counts rank)
                 (buffer_or_null (n_local fine_counts rank)
                    (side_count_phase NDIM coarsen mapIndexToInteger ao ao_offset fine_counts
                       coarse_counts rank coarse_ratio fine_ratio level cdom
                       (replicate (Z.to_nat (n_local fine_counts rank)) 0,
                        replicate (Z.to_nat (n_local fine_counts rank)) 0)).1)
                 (buffer_or_null (n_local fine_counts rank)
                    (side_count_phase NDIM coarsen mapIndexToInteger ao ao_offset fine_counts
                       coarse_counts rank coarse_ratio fine_ratio level cdom
                       (replicate (Z.to_nat (n_local fine_counts rank)) 0,
                        replicate (Z.to_nat (n_local fine_counts rank)) 0)).2))) as [-> ->].
  destruct (side_count_phase_replay NDIM coarsen refine mapIndexToInteger ao ao_offset
              fine_counts coarse_counts rank coarse_ratio fine_ratio level cdom Hnn Hrank Hmax)
    as (L1 & L2 & Hreplay).
  assert (Hown : is_local fine_counts rank (sp_dof p axis i d) = true).
  { destruct Hloc as (_ & _ & _ & Hon & Hd). unfold on_proc_fine_loc in Hon.
    rewrite forallb_forall in Hon. apply Hon. apply in_seq. lia. }
  destruct (local_row_exact fine_counts rank Hnn Hrank Hmax _ Hown) as [_ Hrow].
  simpl. unfold buffer_or_null.
  assert ((n_local fine_counts rank =? 0) = false) as -> by (apply Z.eqb_neq; lia).
  simpl. unfold local_row. destruct (Hreplay _ Hrow) as [-> ->].
  fold steps.
  rewrite (side_count_row_repeated (on_proc_coarse coarse_counts rank) (sp_dof p axis i d)
             col_L col_U steps Hcols Hn).
  fold n. assert ((n =? 0) = false) as -> by (apply Z.eqb_neq; lia).
  fold on_L on_U. simpl.
  split; [done|]. split; [done|].
  split; intros dn [= <-]; destruct on_L, on_U; lia.
Qed.

Lemma side_prolongation_budgets_witness :
  exists mat,
    constructProlongationOp_side 2 true IndexUtilities_coarsen IndexUtilities_refine
      IndexUtilities_mapIndexToInteger (fun j => j) 0 [12] [1; 3] 0
      [example_unit_domain] [mkBox [0; 0] [1; 1]] [1; 1] [2; 2]
      [example_left_patch; example_right_patch]
    = Returns mat
    /\ budget (mat_d_nnz mat) 1 = Some 1
    /\ budget (mat_o_nnz mat) 1 = Some 2.
Proof.
  destruct (side_prolongation_budgets_by_column_ownership 2 true IndexUtilities_coarsen
              IndexUtilities_refine IndexUtilities_mapIndexToInteger (fun j => j) 0 [12] [1; 3]
              0 example_unit_domain (mkBox [0; 0] [1; 1]) [1; 1] [2; 2]
              [example_left_patch; example_right_patch] example_left_patch 0 [1; 0] 0)
    as (mat & Hmat & _ & Hd & Ho & _).
  - repeat constructor. lia.
  - simpl. lia.
  - vm_compute. discriminate.
  - repeat split; simpl; auto with arith.
  - intros s Hs Hrow. vm_compute in Hs.
    repeat (destruct Hs as [<-|Hs]; [first [reflexivity | vm_compute in Hrow; discriminate Hrow]|]).
    destruct Hs.
  - vm_compute. discriminate.
  - exists mat. split; [exact Hmat|]. split; [exact Hd|exact Ho].
Defined.

(** ** The restriction scaling of a prolongation *)

Lemma set_entries_in_val (cvs : list (Z * Qc)) es row e :
  In e (fold_left (fun es cv => set_entry es row cv.1 cv.2) cvs es) ->
  In e es \/ (e.1.1 = row /\ In (e.1.2, e.2) cvs).
Proof.
  revert es. induction cvs as [|cv cvs IH]; intros es Hin; simpl in *; [auto|].
  apply IH in Hin as [Hin|[H1 H2]]; [|auto].
  apply set_entry_in in Hin as [Hin|(-> & Hr & Hc)]; [auto|].
  right. simpl. split; [done|]. left. destruct cv; done.
Qed.

(** Every entry of an assembled matrix holds a value of one of the calls. *)
Lemma assemble_in_val steps es e :
  In e (assemble steps es) ->
  In e es \/ exists s, In s steps /\ e.1.1 = s.1.1 /\ In (e.1.2, e.2) (zip s.1.2 s.2).
Proof.
  unfold assemble. revert es. induction steps as [|s steps IH]; intros es; simpl; [auto|].
  intros He. apply IH in He as [He|(s' & Hs' & H)].
  - apply set_entries_in_val in He as [He|[E1 E2]]; [auto|].
    right. exists s. auto.
  - right. exists s'. auto.
Qed.

Lemma Z2Qc_succ n : (1 + Z2Qc n)%Qc = Z2Qc (1 + n).
Proof.
  unfold Z2Qc, Qcplus. apply Q2Qc_eq_iff. cbn [this Q2Qc].
  rewrite !Qred_correct. rewrite inject_Z_plus. reflexivity.
Qed.

Lemma Z2Qc_positive n : 1 <= n -> Z2Qc n <> 0%Qc.
Proof.
  intros Hn E. apply (f_equal this) in E. unfold Z2Qc in E. cbn [this Q2Qc] in E.
  assert (Hq : Qred (inject_Z n) == 0) by (rewrite E; reflexivity).
  rewrite Qred_correct in Hq. unfold Qeq, inject_Z in Hq. simpl in Hq. lia.
Qed.

(** The 1-norm of a column of a matrix of ones is its number of entries. *)
Lemma column_norm_of_ones P k :
  (forall e, In e P -> e.2 = 1%Qc) ->
  column_norm P k
  = Z2Qc (Z.of_nat (length (List.filter (fun e : entry => e.1.2 =? k) P))).
Proof.
  intros Hones. unfold column_norm.
  induction P as [|e P' IH]; simpl; [apply Qc_is_canon; reflexivity|].
  assert (IH' := IH (fun e' He' => Hones e' (or_intror He'))).
  destruct (e.1.2 =? k); [|done].
  simpl. rewrite IH', (Hones e) by (left; done).
  replace (Z.of_nat (S (length (List.filter (fun e0 : entry => e0.1.2 =? k) P'))))
    with (1 + Z.of_nat (length (List.filter (fun e0 : entry => e0.1.2 =? k) P'))) by lia.
  rewrite <- Z2Qc_succ. f_equal.
Qed.

(** X10. The restriction scaling of the volumetric prolongation of
    cell-centred data: every entry of the prolongation matrix is 1, so the
    scaling of an owned coarse column is the reciprocal of the number of
    fine DOFs prolongated from it (of entries stored in that column), and 0
    for a column that no fine DOF is prolongated from.  ([equalEps] holds of
    0 and 0 and of no positive integer and 0.) *)
Theorem restriction_scaling_of_cell_prolongation
    (debug : bool) (coarsen : Index -> Index -> Index)
    (mapIndexToInteger : Index -> Index -> Index -> nat -> Z -> Z)
    (ao : Z -> Z) (ao_offset : Z) (fine_counts coarse_counts : list Z) (rank : nat)
    (domain_boxes : list Box) (coarse_ratio fine_ratio : Index) (level : list CellPatch)
    (equalEps : Qc -> Qc -> bool) (mat : Mat) (N ilower iupper k : Z) :
  constructProlongationOp_cell debug coarsen mapIndexToInteger ao ao_offset
    fine_counts coarse_counts rank domain_boxes coarse_ratio fine_ratio level = Returns mat ->
  equalEps 0%Qc 0%Qc = true ->
  (forall n, 1 <= n -> equalEps (Z2Qc n) 0%Qc = false) ->
  0 <= ilower -> iupper <= N -> N <= Int.INT_MAX ->
  ilower <= k < iupper ->
  let fine_dofs := Z.of_nat (length (List.filter (fun e : entry => e.1.2 =? k)
                                                 (mat_entries mat))) in
  (forall e, In e (mat_entries mat) -> e.2 = 1%Qc)
  /\ column_norm (mat_entries mat) k = Z2Qc fine_dofs
  /\ In (k, Some (Some (if fine_dofs =? 0 then 0%Qc else (1 / Z2Qc fine_dofs)%Qc)))
        (constructRestrictionScalingOp equalEps (mat_entries mat) N ilower iupper).
Proof.
  intros Hcall H0 Hpos Hlo Hup Hmax Hk fine_dofs.
  assert (Hones : forall e, In e (mat_entries mat) -> e.2 = 1%Qc).
  { unfold constructProlongationOp_cell in Hcall.
    destruct (the_domain_box debug domain_boxes) as [dom| | |]; simpl in Hcall; try discriminate.
    destruct (new_counters _) as [c0| | |]; simpl in Hcall; try discriminate.
    destruct (cell_count_phase _ _ _ _ _ _ _ _ _ _ _ _ _) as [st| | |];
      simpl in Hcall; try discriminate.
    injection Hcall as <-. rewrite cell_value_phase_entries. simpl mat_entries.
    intros e He. apply assemble_in_val in He as [[]|(s & Hs & _ & Hv)].
    apply cell_steps_in in Hs as (p & i & d & _ & ->). simpl in Hv.
    destruct Hv as [[= _ <-]|[]]. done. }
  assert (Hnorm : column_norm (mat_entries mat) k = Z2Qc fine_dofs).
  { apply column_norm_of_ones. done. }
  split; [done|]. split; [done|].
  unfold constructRestrictionScalingOp.
  rewrite Int_sub_exact by int_range.
  assert ((iupper - ilower =? 0) = false) as -> by (apply Z.eqb_neq; lia).
  apply in_map_iff. exists k. split; [|apply zrange_in; lia].
  f_equal. unfold column_sum_inv, MatGetColumnNorms. rewrite !list_lookup_fmap.
  replace (Z.to_nat k) with (Z.to_nat (k - 0)) by lia.
  rewrite zrange_lookup by lia. simpl. f_equal.
  rewrite Hnorm. unfold invert_norm, double_div.
  destruct (Z.eqb_spec fine_dofs 0) as [->|Hne].
  - change (Z2Qc 0) with 0%Qc. rewrite H0. done.
  - rewrite Hpos by (unfold fine_dofs in *; lia). simpl.
    unfold Qc_eq_bool. destruct (Qcanon.Qc_eq_dec (Z2Qc fine_dofs) 0%Qc) as [E|_]; [|done].
    exfalso. revert E. apply Z2Qc_positive. unfold fine_dofs in *. lia.
Qed.

Lemma restriction_scaling_of_cell_prolongation_witness :
  exists mat,
    constructProlongationOp_cell true IndexUtilities_coarsen IndexUtilities_mapIndexToInteger
      (fun j => j) 0 [8] [2] 0 [example_coarse_domain] [1; 1] [2; 2] [example_fine_patch]
    = Returns mat
    /\ In (1, Some (Some (Q2Qc (1 # 4))))
          (constructRestrictionScalingOp example_equalEps (mat_entries mat) 2 0 2).
Proof.
  assert (E : exists mat,
            constructProlongationOp_cell true IndexUtilities_coarsen
              IndexUtilities_mapIndexToInteger (fun j => j) 0 [8] [2] 0
              [example_coarse_domain] [1; 1] [2; 2] [example_fine_patch] = Returns mat
            /\ Z.of_nat (length (List.filter (fun e : entry => e.1.2 =? 1) (mat_entries mat)))
               = 4).
  { eexists. split; vm_compute; reflexivity. }
  destruct E as (mat & E & Hcount). exists mat. split; [exact E|].
  destruct (restriction_scaling_of_cell_prolongation true IndexUtilities_coarsen
              IndexUtilities_mapIndexToInteger (fun j => j) 0 [8] [2] 0
              [example_coarse_domain] [1; 1] [2; 2] [example_fine_patch]
              example_equalEps mat 2 0 2 1 E) as (_ & _ & H).
  - reflexivity.
  - intros n Hn. unfold example_equalEps.
    destruct (Qclt_le_dec _ _) as [Hlt|_]; [|done].
    exfalso. unfold Qclt in Hlt. unfold Z2Qc in Hlt.
    replace (Q2Qc (inject_Z n) - 0)%Qc with (Q2Qc (inject_Z n)) in Hlt by ring.
    assert (Habs : Qcabs (Q2Qc (inject_Z n)) = Q2Qc (inject_Z n)).
    { apply Qcabs_pos. unfold Qcle. cbn [this Q2Qc]. rewrite !Qred_correct.
      unfold Qle, inject_Z. simpl. lia. }
    rewrite Habs in Hlt. cbn [this Q2Qc] in Hlt. rewrite !Qred_correct in Hlt.
    unfold Qlt, inject_Z in Hlt. simpl in Hlt. lia.
  - lia.
  - lia.
  - vm_compute. discriminate.
  - lia.
  - rewrite Hcount in H. simpl in H.
    replace (Q2Qc (1 # 4)) with (1 / Z2Qc 4)%Qc; [exact H|].
    apply Qc_is_canon. vm_compute. reflexivity.
Defined.

Lemma Qc_sum_nonneg l : Forall (fun x => (0 <= x)%Qc) l -> (0 <= Qc_sum l)%Qc.
Proof.
  induction 1 as [|x l Hx _ IH]; simpl.
  - apply Qcle_refl.
  - replace 0%Qc with (0 + 0)%Qc by ring. apply Qcplus_le_compat; done.
Qed.

Lemma column_norm_nonneg P k : (0 <= column_norm P k)%Qc.
Proof.
  unfold column_norm. apply Qc_sum_nonneg. apply List.Forall_forall.
  intros x Hx. apply in_map_iff in Hx as (e & <- & _). apply Qcabs_nonneg.
Qed.

Lemma invert_norm_nonneg equalEps sum v :
  (0 <= sum)%Qc -> invert_norm equalEps sum = Some v -> (0 <= v)%Qc.
Proof.
  intros Hs. unfold invert_norm, double_div.
  destruct (negb (equalEps sum 0%Qc)).
  - destruct (Qc_eq_bool sum 0); [discriminate|]. intros [= <-].
    unfold Qcdiv. rewrite Qcmult_1_l. unfold Qcle in *. unfold Qcinv.
    change (this (Q2Qc (/ sum))) with (Qred (/ sum)).
    change (this 0%Qc) with 0%Q in *.
    rewrite (Qred_correct (/ sum)). apply Qinv_le_0_compat. done.
  - intros [= <-]. apply Qcle_refl.
Qed.

(** X11. The restriction scaling sets one value for each index of the
    owned range, in increasing order of the index and nothing else, and
    none of the values is negative, whatever the matrix holds and whatever
    [equalEps] answers. *)
Theorem restriction_scaling_fills_owned_range_without_negative_values
    (equalEps : Qc -> Qc -> bool) (P : list entry) (N ilower iupper : Z) :
  0 <= ilower -> ilower <= iupper -> iupper <= Int.INT_MAX ->
  let L := constructRestrictionScalingOp equalEps P N ilower iupper in
  map fst L = zrange ilower (iupper - 1)
  /\ length L = Z.to_nat (iupper - ilower)
  /\ (forall k x, In (k, x) L -> ilower <= k < iupper)
  /\ (forall k v, In (k, Some (Some v)) L -> (0 <= v)%Qc)
  /\ (forall k x, In (k, x) L -> k < N ->
        x = Some (invert_norm equalEps (column_norm P k))).
Proof.
  intros Hlo Hle Hmax L.
  assert (HL : L = map (fun k => (k, column_sum_inv equalEps P N !! Z.to_nat k))
                       (zrange ilower (iupper - 1))).
  { unfold L, constructRestrictionScalingOp. rewrite Int_sub_exact by int_range.
    destruct (Z.eqb_spec (iupper - ilower) 0) as [E|_]; [|done].
    unfold zrange. replace (Z.to_nat (iupper - 1 - ilower + 1)) with 0%nat by lia. done. }
  assert (Hinv : forall k, 0 <= k < N ->
            column_sum_inv equalEps P N !! Z.to_nat k
            = Some (invert_norm equalEps (column_norm P k))).
  { intros k Hk. unfold column_sum_inv, MatGetColumnNorms. rewrite !list_lookup_fmap.
    replace (Z.to_nat k) with (Z.to_nat (k - 0)) by lia.
    rewrite zrange_lookup by lia. done. }
  assert (Hin : forall k x, In (k, x) L ->
            ilower <= k < iupper /\ x = column_sum_inv equalEps P N !! Z.to_nat k).
  { intros k x Hk. rewrite HL in Hk. apply in_map_iff in Hk as (k' & [= <- <-] & Hk').
    apply zrange_in in Hk'. split; [lia|done]. }
  split; [|split; [|split; [|split]]].
  - rewrite HL, map_map. simpl. apply map_id.
  - rewrite HL, length_map. unfold zrange. rewrite length_map, length_seq. lia.
  - intros k x Hk. apply Hin in Hk. tauto.
  - intros k v Hk. apply Hin in Hk as [Hr Hx].
    symmetry in Hx. apply list_lookup_fmap_Some in Hx as (s & Hv & Hs).
    symmetry in Hv. apply invert_norm_nonneg in Hv; [done|].
    unfold MatGetColumnNorms in Hs.
    apply list_lookup_fmap_Some in Hs as (j & -> & _).
    apply column_norm_nonneg.
  - intros k x Hk HN. apply Hin in Hk as [Hr ->]. apply Hinv. lia.
Qed.

Lemma restriction_scaling_fills_owned_range_witness :
  let L := constructRestrictionScalingOp example_equalEps example_prolongation 3 1 3 in
  map fst L = zrange 1 (3 - 1)
  /\ length L = Z.to_nat (3 - 1)
  /\ (forall k x, In (k, x) L -> 1 <= k < 3)
  /\ (forall k v, In (k, Some (Some v)) L -> (0 <= v)%Qc)
  /\ (forall k x, In (k, x) L -> k < 3 ->
        x = Some (invert_norm example_equalEps (column_norm example_prolongation k))).
Proof.
  apply (restriction_scaling_fills_owned_range_without_negative_values
           example_equalEps example_prolongation 3 1 3).
  - lia.
  - lia.
  - vm_compute. discriminate.
Defined.

(** ** The subdomains of the additive Schwarz method *)

Lemma ofold_all_return {A B} (f : A -> B -> outcome A) (g : A -> B -> A) l a :
  (forall a x, In x l -> f a x = Returns (g a x)) ->
  ofold f l a = Returns (fold_left g l a).
Proof.
  revert a. induction l as [|x l IH]; intros a H; simpl; [done|].
  rewrite H by (left; done). simpl. apply IH. intros. apply H. right. done.
Qed.

(** A loop whose steps return or read outside an array reads outside an
    array when one of its items always does. *)
Lemma ofold_out_of_bounds {A B} (f : A -> B -> outcome A) l a x0 :
  (forall a x, In x l -> (exists a', f a x = Returns a') \/ exists n, f a x = OutOfBounds n) ->
  In x0 l -> (forall a, exists n, f a x0 = OutOfBounds n) ->
  exists n, ofold f l a = OutOfBounds n.
Proof.
  intros H Hin H0. revert a. induction l as [|x l IH]; intros a; simpl; [done|].
  destruct (H a x (or_introl eq_refl)) as [[a1 E]|[n E]]; rewrite E; simpl; [|eauto].
  destruct Hin as [->|Hin].
  - destruct (H0 a) as [n E']. congruence.
  - apply IH; [|done]. intros. apply H. right. done.
Qed.

Section SideLocalDofsFacts.
Variable NDIM : nat.
Variable getPatchGeometry : SidePatch -> PatchGeometry.
Variable level_num : Z.
Variable getBoundaries : SidePatch -> list BoundaryBox.

Abbreviation outside := (side_outside_cf_boxes level_num getBoundaries).
Abbreviation kept := (side_kept getPatchGeometry level_num getBoundaries).

Lemma side_is_local_cases p axis i :
  side_is_local getPatchGeometry level_num getBoundaries p axis i
  = if outside p axis i
    then OutOfBounds (Z.of_nat (length (upper_side_cf_bdry_box level_num getBoundaries p axis)))
    else Returns (kept p axis i).
Proof.
  unfold side_is_local, side_outside_cf_boxes, side_kept, side_tested_at_cf_bdry,
    side_at_upper_bdry.
  destruct (_ && patch_touches_cf_bdry _ _ _ && touches_cf_bdry _ _ _ _ _); simpl.
  - rewrite is_cf_bdry_idx_eq. destruct (in_any_box _ _); simpl; [|done].
    rewrite !orb_true_r. done.
  - rewrite !orb_false_r. done.
Qed.

Lemma side_local_dofs_axis_returns p axis cells dofs :
  (forall i, In i cells -> outside p axis i = false) ->
  ofold (fun dofs i =>
           let* keep := side_is_local getPatchGeometry level_num getBoundaries p axis i in
           Returns (if keep then dofs ++ [sp_dof p axis i 0%nat] else dofs)) cells dofs
  = Returns (dofs ++ map (fun i => sp_dof p axis i 0%nat) (List.filter (kept p axis) cells)).
Proof.
  revert dofs. induction cells as [|i cells IH]; intros dofs H; simpl.
  - rewrite app_nil_r. done.
  - rewrite side_is_local_cases, (H i) by (left; done). simpl.
    rewrite IH by (intros; apply H; right; done).
    destruct (kept p axis i); simpl; [rewrite <- app_assoc|]; done.
Qed.
End SideLocalDofsFacts.

(** The loop returns the DOFs of the sides that it keeps when no side lies
    outside the boxes that it is tested against. *)
Lemma side_local_dofs_collected NDIM getPatchGeometry level_num getBoundaries p box_local :
  (forall axis i, (axis < NDIM)%nat -> In i (box_cells (toSideBox box_local axis)) ->
     side_outside_cf_boxes level_num getBoundaries p axis i = false) ->
  side_local_dofs NDIM getPatchGeometry level_num getBoundaries p box_local
  = Returns (flat_map (fun axis =>
               map (fun i => sp_dof p axis i 0%nat)
                   (List.filter (side_kept getPatchGeometry level_num getBoundaries p axis)
                                (box_cells (toSideBox box_local axis))))
             (seq 0 NDIM)).
Proof.
  intros Hnone. unfold side_local_dofs.
  enough (forall axes dofs, (forall a, In a axes -> (a < NDIM)%nat) ->
            ofold (fun dofs axis =>
                     ofold (fun dofs i =>
                              let* keep := side_is_local getPatchGeometry level_num
                                             getBoundaries p axis i in
                              Returns (if keep then dofs ++ [sp_dof p axis i 0%nat] else dofs))
                           (box_cells (toSideBox box_local axis)) dofs) axes dofs
            = Returns (dofs ++ flat_map (fun axis =>
                         map (fun i => sp_dof p axis i 0%nat)
                             (List.filter
                                (side_kept getPatchGeometry level_num getBoundaries p axis)
                                (box_cells (toSideBox box_local axis)))) axes)) as H.
  { apply (H (seq 0 NDIM) []). intros a Ha. apply in_seq in Ha. lia. }
  induction axes as [|axis axes IH]; intros dofs Hax; simpl.
  - rewrite app_nil_r. done.
  - rewrite side_local_dofs_axis_returns.
    2:{ intros i Hi. apply Hnone; [apply Hax; left; done|done]. }
    simpl. rewrite IH by (intros; apply Hax; right; done).
    rewrite app_assoc. done.
Qed.

(** X12. The local DOFs of a sub-box in the side-centred subdomain
    partitioner.  The loop returns exactly when no side of the sub-box is
    tested against the coarse-fine boundary boxes without lying in one of
    them (for such a side [is_cf_bdry_idx] reads past the end of the box
    vector).  When it returns, it has collected, axis by axis and in the
    order of the box iterator, the DOFs of the sides that are below the
    upper layer of sides of the patch, or on an upper regular physical
    boundary, or were tested: a side that is tested is never left out.  On
    level 0 no side is tested and the loop always returns. *)
Theorem side_local_dofs_characterised
    (NDIM : nat) (getPatchGeometry : SidePatch -> PatchGeometry) (level_num : Z)
    (getBoundaries : SidePatch -> list BoundaryBox) (p : SidePatch) (box_local : Box) :
  let collected :=
    flat_map (fun axis =>
                map (fun i => sp_dof p axis i 0%nat)
                    (List.filter (side_kept getPatchGeometry level_num getBoundaries p axis)
                                 (box_cells (toSideBox box_local axis))))
             (seq 0 NDIM) in
  let none_outside :=
    forall axis i, (axis < NDIM)%nat -> In i (box_cells (toSideBox box_local axis)) ->
      side_outside_cf_boxes level_num getBoundaries p axis i = false in
  (none_outside ->
   side_local_dofs NDIM getPatchGeometry level_num getBoundaries p box_local = Returns collected)
  /\ (~ none_outside ->
      exists n, side_local_dofs NDIM getPatchGeometry level_num getBoundaries p box_local
                = OutOfBounds n)
  /\ (level_num = 0 -> none_outside).
Proof.
  intros collected none_outside. split; [|split].
  - intros Hnone. apply side_local_dofs_collected. exact Hnone.
  - intros Hsome.
    assert (Hex : exists axis i, (axis < NDIM)%nat
                    /\ In i (box_cells (toSideBox box_local axis))
                    /\ side_outside_cf_boxes level_num getBoundaries p axis i = true).
    { destruct (existsb (fun axis =>
                  existsb (side_outside_cf_boxes level_num getBoundaries p axis)
                          (box_cells (toSideBox box_local axis))) (seq 0 NDIM)) eqn:E.
      - apply existsb_exists in E as (axis & Ha & E).
        apply existsb_exists in E as (i & Hi & E). apply in_seq in Ha.
        exists axis, i. repeat split; [lia|done|done].
      - exfalso. apply Hsome. intros axis i Ha Hi.
        destruct (side_outside_cf_boxes level_num getBoundaries p axis i) eqn:Eo; [|done].
        assert (existsb (fun axis =>
                  existsb (side_outside_cf_boxes level_num getBoundaries p axis)
                          (box_cells (toSideBox box_local axis))) (seq 0 NDIM) = true) as E'.
        { apply existsb_exists. exists axis. split; [apply in_seq; lia|].
          apply existsb_exists. exists i. done. }
        congruence. }
    destruct Hex as (axis & i & Ha & Hi & Hout).
    assert (Hstep : forall a dofs (x : Index),
              (exists a', (let* keep := side_is_local getPatchGeometry level_num getBoundaries
                                          p a x in
                           Returns (if keep then dofs ++ [sp_dof p a x 0%nat] else dofs))
                          = Returns a')
              \/ exists n, (let* keep := side_is_local getPatchGeometry level_num getBoundaries
                                           p a x in
                            Returns (if keep then dofs ++ [sp_dof p a x 0%nat] else dofs))
                           = OutOfBounds n).
    { intros a dofs x. rewrite side_is_local_cases.
      destruct (side_outside_cf_boxes level_num getBoundaries p a x); simpl;
        [right|left]; eexists; reflexivity. }
    unfold side_local_dofs.
    apply (ofold_out_of_bounds _ _ _ axis).
    + intros dofs a _.
      destruct (existsb (side_outside_cf_boxes level_num getBoundaries p a)
                        (box_cells (toSideBox box_local a))) eqn:E.
      * right. apply existsb_exists in E as (x & Hx & E).
        apply (ofold_out_of_bounds _ _ _ x); [intros; apply Hstep|done|].
        intros dofs'. rewrite side_is_local_cases, E. simpl. eauto.
      * left. rewrite side_local_dofs_axis_returns; [eauto|].
        intros x Hx.
        destruct (side_outside_cf_boxes level_num getBoundaries p a x) eqn:Eo; [|done].
        assert (existsb (side_outside_cf_boxes level_num getBoundaries p a)
                        (box_cells (toSideBox box_local a)) = true) as E'
          by (apply existsb_exists; eauto).
        congruence.
    + apply in_seq. lia.
    + intros dofs. apply (ofold_out_of_bounds _ _ _ i); [intros; apply Hstep|done|].
      intros dofs'. rewrite side_is_local_cases, Hout. simpl. eauto.
  - intros -> axis i _ _. unfold side_outside_cf_boxes, side_tested_at_cf_bdry,
      patch_touches_cf_bdry, cf_codim1_boxes. simpl.
    rewrite andb_false_r. done.
Qed.

Lemma side_local_dofs_witness :
  side_local_dofs 2 example_geometry 0 example_cf_boundary example_side_patch
                  (mkBox [0; 0] [1; 1])
  = Returns [0; 1; 2; 3; 4; 5; 6; 7; 8; 9; 10; 11]
  /\ exists n, side_local_dofs 2 example_geometry 1 example_cf_boundary example_side_patch
                               (mkBox [0; 0] [1; 1]) = OutOfBounds n.
Proof.
  split.
  - destruct (side_local_dofs_characterised 2 example_geometry 0 example_cf_boundary
                example_side_patch (mkBox [0; 0] [1; 1])) as (H & _ & H0).
    rewrite (H (H0 eq_refl)). vm_compute. reflexivity.
  - destruct (side_local_dofs_characterised 2 example_geometry 1 example_cf_boundary
                example_side_patch (mkBox [0; 0] [1; 1])) as (_ & H & _).
    apply H. intros Hnone. specialize (Hnone 0%nat [2; 1]).
    assert (E : side_outside_cf_boxes 1 example_cf_boundary example_side_patch 0 [2; 1] = true)
      by (vm_compute; reflexivity).
    rewrite Hnone in E; [discriminate E|lia|vm_compute; tauto].
Defined.

(** *** [std::sort] and [std::unique] *)

Lemma insert_sorted_perm x l : Permutation (insert_sorted x l) (x :: l).
Proof.
  induction l as [|y l IH]; simpl; [done|].
  destruct (x <=? y); [done|]. rewrite IH. apply perm_swap.
Qed.

Lemma sort_perm l : Permutation (sort l) l.
Proof.
  induction l as [|x l IH]; simpl; [done|]. rewrite insert_sorted_perm, IH. done.
Qed.

Lemma ascending_cons strict x l :
  ascending strict (x :: l) = true <->
  (forall y, head l = Some y -> if strict then x < y else x <= y) /\ ascending strict l = true.
Proof.
  destruct l as [|y l]; simpl.
  - split; [intros _; split; [discriminate|done]|done].
  - rewrite andb_true_iff. split.
    + intros [H1 H2]. split; [|done]. intros ? [= <-].
      destruct strict; [apply Z.ltb_lt|apply Z.leb_le]; done.
    + intros [H1 H2]. split; [|done]. specialize (H1 y eq_refl).
      destruct strict; [apply Z.ltb_lt|apply Z.leb_le]; done.
Qed.

Lemma insert_sorted_head x l y :
  head (insert_sorted x l) = Some y -> y = x \/ head l = Some y.
Proof.
  destruct l as [|z l]; simpl; [intros [= <-]; auto|].
  destruct (x <=? z); simpl; intros [= <-]; auto.
Qed.

Lemma insert_sorted_ascending x l :
  ascending false l = true -> ascending false (insert_sorted x l) = true.
Proof.
  induction l as [|y l IH]; intros H; [done|].
  cbn [insert_sorted]. destruct (Z.leb_spec x y) as [Hle|Hgt].
  - apply ascending_cons. split; [|done]. intros ? [= <-]. done.
  - apply ascending_cons in H as [H1 H2]. apply ascending_cons. split; [|auto].
    intros z Hz. apply insert_sorted_head in Hz as [->|Hz]; [lia|]. apply H1. done.
Qed.

Lemma sort_ascending l : ascending false (sort l) = true.
Proof.
  induction l as [|x l IH]; [done|]. simpl. apply insert_sorted_ascending. done.
Qed.

Lemma unique_cons_cons x y l :
  unique (x :: y :: l) = if x =? y then unique (y :: l) else x :: unique (y :: l).
Proof. done. Qed.

Lemma unique_head l : head (unique l) = head l.
Proof.
  induction l as [|x l IH]; [done|]. destruct l as [|y l]; [done|].
  rewrite unique_cons_cons. destruct (Z.eqb_spec x y) as [->|Hne]; [|done].
  rewrite IH. done.
Qed.

Lemma unique_in x l : In x (unique l) <-> In x l.
Proof.
  induction l as [|y l IH]; [done|]. destruct l as [|z l]; [done|].
  rewrite unique_cons_cons. destruct (Z.eqb_spec y z) as [->|Hne].
  - rewrite IH. simpl. tauto.
  - change (In x (y :: unique (z :: l))) with (y = x \/ In x (unique (z :: l))).
    rewrite IH. simpl. tauto.
Qed.

Lemma unique_ascending l : ascending false l = true -> ascending true (unique l) = true.
Proof.
  induction l as [|x l IH]; [done|]. destruct l as [|y l]; [done|].
  intros H. apply ascending_cons in H as [H1 H2]. specialize (H1 y eq_refl). simpl in H1.
  rewrite unique_cons_cons. destruct (Z.eqb_spec x y) as [->|Hne]; [auto|].
  apply ascending_cons. split; [|auto].
  intros z Hz. rewrite unique_head in Hz. injection Hz as <-. lia.
Qed.

(** *** Subdomains with an overlap *)

(** A loop that has returned kept an invariant that follows the items
    treated. *)
Lemma ofold_trace_returned {A B T} (Inv : list T -> A -> Prop) (f : A -> B -> outcome A)
    (h : B -> list T) l acc a a' :
  (forall acc a x a', In x l -> Inv acc a -> f a x = Returns a' -> Inv (acc ++ h x) a') ->
  Inv acc a -> ofold f l a = Returns a' ->
  Inv (acc ++ flat_map h l) a'.
Proof.
  revert acc a. induction l as [|x l IH]; intros acc a Hstep Ha; simpl.
  - intros [= <-]. rewrite app_nil_r. done.
  - destruct (f a x) as [a1| | |] eqn:E; simpl; try discriminate.
    intros Hrest. rewrite app_assoc. eapply IH; [|eapply Hstep; [left| |]; done|done].
    intros. eapply Hstep; [right| |]; done.
Qed.

Section WithOverlap.
Variable partitionPatchBox : Box -> Index -> Index -> list Box * list Box.
Variable box_size : Index.
Variable overlap_size : Index.
Variable N : nat.
Variable heap0 : list ISObject.

Hypothesis overlap : there_is_overlap overlap_size = true.

(** The vectors have their final size, and [r] sub-boxes are still to come. *)
Abbreviation room := (fun (r : nat) (st : asm_state) =>
  (subdomain_counter st + r = N)%nat
  /\ length (is_overlap st) = N /\ length (is_nonoverlap st) = N).

(** The sets of the sub-boxes treated so far: for each one, two objects made
    by this call, each referenced once, with the given contents. *)
Abbreviation filled := (fun (acc : list (list Z * list Z)) (st : asm_state) =>
  subdomain_counter st = length acc
  /\ (length heap0 <= length (asm_heap st))%nat
  /\ forall k e, acc !! k = Some e ->
       exists h1 h2,
         is_nonoverlap st !! k = Some (Some h1) /\ is_overlap st !! k = Some (Some h2)
         /\ h1 <> h2 /\ (length heap0 <= h1)%nat /\ (length heap0 <= h2)%nat
         /\ asm_heap st !! h1 = Some (mkIS e.1 1) /\ asm_heap st !! h2 = Some (mkIS e.2 1)).

Lemma make_subdomain_sets_room st r dofs dov :
  room (S r) st ->
  exists st', make_subdomain_sets overlap_size st dofs (Returns dov) = Returns st'
              /\ room r st'.
Proof.
  intros (Hc & L1 & L2).
  unfold make_subdomain_sets. rewrite overlap.
  assert ((length (is_nonoverlap st) <=? subdomain_counter st)%nat = false) as ->
    by (apply Nat.leb_gt; lia).
  assert ((length (is_overlap st) <=? subdomain_counter st)%nat = false) as ->
    by (apply Nat.leb_gt; lia).
  simpl. eexists. split; [reflexivity|]. simpl.
  rewrite !length_insert. repeat split; [lia|done|done].
Qed.

Lemma make_subdomain_sets_overlap_read st dofs ovl st' :
  make_subdomain_sets overlap_size st dofs ovl = Returns st' ->
  exists dov, ovl = Returns dov.
Proof.
  unfold make_subdomain_sets. rewrite overlap.
  destruct (length (is_nonoverlap st) <=? subdomain_counter st)%nat; [discriminate|].
  simpl. destruct ovl as [dov| | |]; simpl; try discriminate. eauto.
Qed.

Lemma make_subdomain_sets_filled acc st dofs dov st' :
  make_subdomain_sets overlap_size st dofs (Returns dov) = Returns st' ->
  filled acc st ->
  filled (acc ++ [(sort dofs, unique (sort dov))]) st'.
Proof.
  unfold make_subdomain_sets. rewrite overlap.
  destruct (Nat.leb_spec (length (is_nonoverlap st)) (subdomain_counter st)) as [|L2];
    [discriminate|].
  simpl.
  destruct (Nat.leb_spec (length (is_overlap st)) (subdomain_counter st)) as [|L1];
    [discriminate|].
  intros [= <-] (Hc & Hh & Hfilled). simpl.
  split; [rewrite length_app; simpl; lia|].
  split; [rewrite !length_app; simpl; lia|].
  intros k e Hk.
  destruct (Nat.lt_ge_cases k (length acc)) as [Hlt|Hge].
  - rewrite lookup_app_l in Hk by done.
    destruct (Hfilled k e Hk) as (h1 & h2 & H1 & H2 & Hne & G1 & G2 & O1 & O2).
    exists h1, h2. rewrite !list_lookup_insert_ne by lia.
    pose proof (lookup_lt_Some _ _ _ O1). pose proof (lookup_lt_Some _ _ _ O2).
    rewrite !lookup_app_l by (rewrite ?length_app; simpl; lia). done.
  - rewrite lookup_app_r in Hk by done.
    destruct (k - length acc)%nat as [|n] eqn:En; [|destruct n; discriminate].
    injection Hk as <-. assert (k = subdomain_counter st) as -> by lia.
    exists (length (asm_heap st)), (length (asm_heap st ++ [mkIS (sort dofs) 1])).
    rewrite (list_lookup_insert_eq (is_nonoverlap st)) by lia.
    rewrite (list_lookup_insert_eq (is_overlap st)) by lia.
    split; [done|]. split; [done|]. rewrite length_app. simpl.
    split; [lia|]. split; [lia|]. split; [lia|]. split.
    + rewrite lookup_app_l by (rewrite length_app; simpl; lia).
      rewrite lookup_app_r by lia. rewrite Nat.sub_diag. done.
    + rewrite lookup_app_r by (rewrite length_app; simpl; lia).
      rewrite length_app. simpl.
      replace (length (asm_heap st) + 1 - (length (asm_heap st) + 1))%nat with 0%nat by lia.
      done.
Qed.

Hypothesis parallel_boxes : forall b,
  length (overlap_boxes partitionPatchBox box_size overlap_size b)
  = length (nonoverlap_boxes partitionPatchBox box_size overlap_size b).

Abbreviation contents := (fun (p : CellPatch) (i : nat) =>
  (sort (cell_box_local_dofs partitionPatchBox box_size overlap_size p i),
   unique (sort (cell_box_overlap_dofs partitionPatchBox box_size overlap_size p i)))).

Lemma cell_patch_subdomains_room debug ghost p st r :
  (debug = true -> IntVector_max overlap_size <= ghost p) ->
  room (length (overlap_boxes partitionPatchBox box_size overlap_size (cp_box p)) + r)%nat st ->
  exists st', cell_patch_subdomains debug partitionPatchBox box_size overlap_size ghost st p
              = Returns st'
              /\ room r st'.
Proof.
  intros Hg Hst. unfold cell_patch_subdomains.
  assert (debug && negb (ghost p >=? IntVector_max overlap_size) = false) as ->.
  { destruct debug; [|done]. simpl. apply negb_false_iff.
    rewrite Z.geb_leb. apply Z.leb_le. auto. }
  apply (ofold_measure (fun r st => room r st) _ (fun _ => 1%nat)).
  - intros a i r' Hi Ha. apply in_seq in Hi. unfold cell_subdomain.
    destruct (box_at_returns (nonoverlap_boxes partitionPatchBox box_size overlap_size (cp_box p)) i)
      as (b & -> & _); [rewrite <- parallel_boxes; lia|].
    destruct (box_at_returns (overlap_boxes partitionPatchBox box_size overlap_size (cp_box p)) i)
      as (b' & -> & _); [lia|].
    simpl. apply make_subdomain_sets_room. done.
  - rewrite count_ones, length_seq. done.
Qed.

Lemma cell_patch_subdomains_filled debug ghost p acc st st' :
  cell_patch_subdomains debug partitionPatchBox box_size overlap_size ghost st p = Returns st' ->
  filled acc st ->
  filled (acc ++ map (contents p)
                     (seq 0 (length (overlap_boxes partitionPatchBox box_size overlap_size
                                                   (cp_box p))))) st'.
Proof.
  unfold cell_patch_subdomains. destruct (debug && _); [discriminate|].
  intros Hfold Hst. rewrite <- flat_map_singleton.
  refine (ofold_trace_returned filled _ (fun i => [contents p i]) _ acc st st' _ Hst Hfold).
  clear acc st st' Hst Hfold. intros acc st i st' _ Hst Hstep.
  unfold cell_subdomain, box_at in Hstep.
  unfold cell_box_local_dofs, cell_box_overlap_dofs.
  destruct (nonoverlap_boxes partitionPatchBox box_size overlap_size (cp_box p) !! i)
    as [bl|]; simpl in Hstep; [|discriminate].
  destruct (make_subdomain_sets_overlap_read _ _ _ _ Hstep) as [dov Hov].
  destruct (overlap_boxes partitionPatchBox box_size overlap_size (cp_box p) !! i)
    as [bo|]; simpl in *; [|discriminate].
  injection Hov as <-.
  eapply make_subdomain_sets_filled; [exact Hstep|exact Hst].
Qed.
End WithOverlap.

Lemma cell_subdomains_contents {T} partitionPatchBox box_size overlap_size
    (g : CellPatch -> nat -> T) level :
  flat_map (fun p => map (g p)
                         (seq 0 (length (overlap_boxes partitionPatchBox box_size overlap_size
                                                       (cp_box p))))) level
  = map (fun pi => g pi.1 pi.2) (cell_subdomains partitionPatchBox box_size overlap_size level).
Proof.
  unfold cell_subdomains. induction level as [|p level IH]; simpl; [done|].
  rewrite map_app, map_map, IH. done.
Qed.

Lemma cell_subdomains_count partitionPatchBox box_size overlap_size level :
  length (cell_subdomains partitionPatchBox box_size overlap_size level)
  = cell_subdomain_count partitionPatchBox box_size overlap_size level.
Proof.
  unfold cell_subdomain_count. rewrite fold_left_count. simpl.
  unfold cell_subdomains. induction level as [|p level IH]; simpl; [done|].
  rewrite length_app, length_map, length_seq, IH. done.
Qed.

(** X13. With an overlap, the cell-centred subdomain partitioner returns
    and gives every sub-box two separate index-set objects made by the call,
    each referenced once.  The non-overlapping set holds all the DOF indices
    of the non-overlapping box (masked negative ones and repetitions
    included) in increasing order; the overlapping set holds the non-negative
    DOF indices of the overlapping box, each once, in strictly increasing
    order.  (The sub-box lists of [partitionPatchBox] are parallel; the ghost
    width is at least the overlap in a build that asserts it.) *)
Theorem overlapping_cell_subdomains_are_separate_sorted_sets
    (debug : bool) (partitionPatchBox : Box -> Index -> Index -> list Box * list Box)
    (box_size overlap_size : Index) (level : list CellPatch) (ghost : CellPatch -> Z)
    (heap : list ISObject) :
  there_is_overlap overlap_size = true ->
  (forall b, length (overlap_boxes partitionPatchBox box_size overlap_size b)
             = length (nonoverlap_boxes partitionPatchBox box_size overlap_size b)) ->
  (debug = true -> forall p, In p level -> IntVector_max overlap_size <= ghost p) ->
  exists st,
    constructPatchLevelASMSubdomains_cell debug partitionPatchBox box_size overlap_size
      level ghost heap = Returns st
    /\ length (is_overlap st) = length (cell_subdomains partitionPatchBox box_size overlap_size level)
    /\ length (is_nonoverlap st)
       = length (cell_subdomains partitionPatchBox box_size overlap_size level)
    /\ forall k p i,
         cell_subdomains partitionPatchBox box_size overlap_size level !! k = Some (p, i) ->
         exists box_local box_overlap h1 h2 o1 o2,
           nonoverlap_boxes partitionPatchBox box_size overlap_size (cp_box p) !! i
           = Some box_local
           /\ overlap_boxes partitionPatchBox box_size overlap_size (cp_box p) !! i
              = Some box_overlap
           /\ is_nonoverlap st !! k = Some (Some h1) /\ is_overlap st !! k = Some (Some h2)
           /\ h1 <> h2 /\ (length heap <= h1)%nat /\ (length heap <= h2)%nat
           /\ asm_heap st !! h1 = Some o1 /\ asm_heap st !! h2 = Some o2
           /\ is_refct o1 = 1%nat /\ is_refct o2 = 1%nat
           /\ Permutation (is_indices o1) (cell_box_dofs p box_local)
           /\ ascending false (is_indices o1) = true
           /\ ascending true (is_indices o2) = true
           /\ forall x, In x (is_indices o2) <-> 0 <= x /\ In x (cell_box_dofs p box_overlap).
Proof.
  intros Hovl Hpar Hghost.
  rewrite cell_subdomains_count.
  unfold constructPatchLevelASMSubdomains_cell.
  set (N := cell_subdomain_count _ _ _ _).
  destruct (ofold_measure
              (fun r st => (subdomain_counter st + r = N)%nat
                           /\ length (is_overlap st) = N /\ length (is_nonoverlap st) = N)
              (cell_patch_subdomains debug partitionPatchBox box_size overlap_size ghost)
              (fun p => length (overlap_boxes partitionPatchBox box_size overlap_size (cp_box p)))
              level) with (r := 0%nat) (a := mkAsm heap (replicate N None) (replicate N None) 0)
    as (st & Hst & Hc & L1 & L2).
  { intros a p r Hp Ha. apply cell_patch_subdomains_room; auto. }
  { simpl. rewrite !length_replicate. split; [|done].
    unfold N, cell_subdomain_count. rewrite fold_left_count. lia. }
  exists st. split; [done|]. split; [done|]. split; [done|].
  pose proof (ofold_trace_returned
                (fun (acc : list (list Z * list Z)) (st : asm_state) =>
                   subdomain_counter st = length acc
                   /\ (length heap <= length (asm_heap st))%nat
                   /\ forall k e, acc !! k = Some e ->
                        exists h1 h2,
                          is_nonoverlap st !! k = Some (Some h1)
                          /\ is_overlap st !! k = Some (Some h2)
                          /\ h1 <> h2 /\ (length heap <= h1)%nat /\ (length heap <= h2)%nat
                          /\ asm_heap st !! h1 = Some (mkIS e.1 1)
                          /\ asm_heap st !! h2 = Some (mkIS e.2 1))
                (cell_patch_subdomains debug partitionPatchBox box_size overlap_size ghost)
                (fun p => map (fun i =>
                                 (sort (cell_box_local_dofs partitionPatchBox box_size
                                                            overlap_size p i),
                                  unique (sort (cell_box_overlap_dofs partitionPatchBox box_size
                                                                      overlap_size p i))))
                              (seq 0 (length (overlap_boxes partitionPatchBox box_size
                                                            overlap_size (cp_box p)))))
                level [] (mkAsm heap (replicate N None) (replicate N None) 0) st) as Htrace.
  simpl in Htrace. rewrite cell_subdomains_contents in Htrace.
  destruct Htrace as (_ & _ & Hfilled).
  { intros acc a p a' _ Ha Hstep.
    eapply cell_patch_subdomains_filled; [exact Hovl|exact Hstep|exact Ha]. }
  { simpl. split; [done|]. split; [lia|]. intros k e Hk. done. }
  { exact Hst. }
  intros k p i Hk.
  assert (Hi : (i < length (overlap_boxes partitionPatchBox box_size overlap_size (cp_box p)))%nat).
  { apply list_elem_of_lookup_2, list_elem_of_In in Hk. unfold cell_subdomains in Hk.
    apply in_flat_map in Hk as (p' & _ & Hk). apply in_map_iff in Hk as (i' & [= <- <-] & Hi').
    apply in_seq in Hi'. lia. }
  destruct (lookup_lt_is_Some_2 _ _ Hi) as [bo Hbo].
  destruct (lookup_lt_is_Some_2
              (nonoverlap_boxes partitionPatchBox box_size overlap_size (cp_box p)) i)
    as [bl Hbl]; [rewrite <- Hpar; done|].
  destruct (Hfilled k (sort (cell_box_local_dofs partitionPatchBox box_size overlap_size p i),
                       unique (sort (cell_box_overlap_dofs partitionPatchBox box_size
                                                           overlap_size p i))))
    as (h1 & h2 & H1 & H2 & Hne & G1 & G2 & O1 & O2).
  { rewrite list_lookup_fmap, Hk. done. }
  unfold cell_box_local_dofs, cell_box_overlap_dofs in O1, O2. rewrite ?Hbl, ?Hbo in O1, O2.
  simpl in O1, O2.
  exists bl, bo, h1, h2, (mkIS (sort (cell_box_dofs p bl)) 1),
    (mkIS (unique (sort (List.filter (fun dof_idx => dof_idx >=? 0) (cell_box_dofs p bo)))) 1).
  repeat (split; [done|]). simpl.
  split; [apply sort_perm|]. split; [apply sort_ascending|].
  split; [apply unique_ascending, sort_ascending|].
  intros x. rewrite unique_in.
  split.
  - intros Hx. apply (Permutation_in _ (sort_perm _)) in Hx.
    apply List.filter_In in Hx as [Hx Hpos]. split; [|done].
    rewrite Z.geb_leb in Hpos. apply Z.leb_le. done.
  - intros [Hpos Hx]. apply (Permutation_in _ (Permutation_sym (sort_perm _))).
    apply List.filter_In. split; [done|]. rewrite Z.geb_leb. apply Z.leb_le. done.
Qed.

Lemma overlapping_cell_subdomains_witness :
  exists st,
    constructPatchLevelASMSubdomains_cell true example_partition [2; 2] [1; 1]
      [example_fine_patch] (fun _ => 1) [] = Returns st
    /\ is_nonoverlap st = [Some 0%nat; Some 2%nat]
    /\ is_overlap st = [Some 1%nat; Some 3%nat]
    /\ length (is_overlap st) = length (cell_subdomains example_partition [2; 2] [1; 1]
                                                        [example_fine_patch]).
Proof.
  destruct (overlapping_cell_subdomains_are_separate_sorted_sets true example_partition
              [2; 2] [1; 1] [example_fine_patch] (fun _ => 1) [])
    as (st & Hst & L1 & _).
  - reflexivity.
  - intros b. unfold overlap_boxes, nonoverlap_boxes, example_partition.
    destruct (lower b) as [|x0 [|y0 [|? ?]]]; try reflexivity.
    destruct (upper b) as [|x1 [|y1 [|? ?]]]; reflexivity.
  - intros _ p _. vm_compute. discriminate.
  - exists st. vm_compute in Hst. injection Hst as <-.
    split; [vm_compute; reflexivity|]. split; [reflexivity|]. split; [reflexivity|].
    reflexivity.
Defined.

(** ** Fine DOFs that the process does not own *)

(** A loop whose steps return or fail in a given way either returns or
    fails in that way; it fails when one of its items always does. *)
Lemma ofold_bad {A B} (P : A -> Prop) (bad : outcome A -> Prop) (f : A -> B -> outcome A) l a :
  (forall o k, bad o -> bad (obind o k)) ->
  (forall a x, In x l -> P a -> (exists a', f a x = Returns a' /\ P a') \/ bad (f a x)) ->
  P a ->
  (exists a', ofold f l a = Returns a' /\ P a') \/ bad (ofold f l a).
Proof.
  intros Hbad. revert a. induction l as [|x l IH]; intros a H Ha; simpl; [eauto|].
  destruct (H a x (or_introl eq_refl) Ha) as [(a1 & E & H1)|Hb].
  - rewrite E. simpl. apply IH; [|done]. intros. apply H; [right|]; done.
  - right. apply Hbad. done.
Qed.

Lemma ofold_bad_item {A B} (P : A -> Prop) (bad : outcome A -> Prop) (f : A -> B -> outcome A)
    l a x0 :
  (forall o k, bad o -> bad (obind o k)) ->
  (forall a x, In x l -> P a -> (exists a', f a x = Returns a' /\ P a') \/ bad (f a x)) ->
  In x0 l -> (forall a, P a -> bad (f a x0)) ->
  P a ->
  bad (ofold f l a).
Proof.
  intros Hbad. revert a. induction l as [|x l IH]; intros a H Hin H0 Ha; simpl; [done|].
  destruct Hin as [->|Hin].
  - apply Hbad. auto.
  - destruct (H a x (or_introl eq_refl) Ha) as [(a1 & E & H1)|Hb].
    + rewrite E. simpl. apply IH; [|done|done|done]. intros. apply H; [right|]; done.
    + apply Hbad. done.
Qed.

Lemma Int_wrap_below z :
  Int.INT_MIN - 4294967296 <= z < Int.INT_MIN -> Int.wrap z = z + 4294967296.
Proof.
  unfold Int.wrap, Int.INT_MIN. intros H.
  replace (z + 2147483648) with (z + 4294967296 + 2147483648 + (-1) * 4294967296) by lia.
  rewrite Z.mod_add by lia. rewrite Z.mod_small; lia.
Qed.

(** The local row of a DOF index outside the owned range is no position
    of the counter vectors. *)
Lemma unowned_row_outside_counters counts rank dof :
  Forall (fun c => 0 <= c) counts -> (rank < length counts)%nat ->
  total_of counts <= Int.INT_MAX ->
  Int.in_range dof -> is_local counts rank dof = false ->
  ~ 0 <= Int.sub dof (i_lower counts rank) < n_local counts rank.
Proof.
  intros Hnn Hrank Hmax Hdof Hloc.
  destruct (partition_exact counts rank Hnn Hmax Hrank) as (E1 & E2 & E3 & E4 & E5 & E6 & E7).
  pose proof (total_of_take_succ counts rank Hrank) as Hs.
  unfold is_local in Hloc. rewrite E3 in Hloc. rewrite E3, E4 in E7.
  unfold Int.in_range, Int.INT_MIN, Int.INT_MAX in *.
  assert (Hm : i_lower counts rank + n_local counts rank = total_of (take (S rank) counts)).
  { rewrite E1, E2. lia. }
  unfold Int.sub.
  destruct (Z_lt_dec (dof - i_lower counts rank) (-2147483648)) as [Hlow|Hhigh].
  - rewrite Int_wrap_below by (unfold Int.INT_MIN; lia). lia.
  - rewrite Int_wrap_exact by (unfold Int.in_range, Int.INT_MIN, Int.INT_MAX; lia).
    apply andb_false_iff in Hloc as [Hloc|Hloc];
      [apply Z.leb_gt in Hloc|apply Z.ltb_ge in Hloc]; lia.
Qed.

Section UnownedFineDof.
Variable coarsen : Index -> Index -> Index.
Variable mapIndexToInteger : Index -> Index -> Index -> nat -> Z -> Z.
Variable ao : Z -> Z.
Variable ao_offset : Z.
Variable fine_counts : list Z.
Variable coarse_counts : list Z.
Variable rank : nat.
Variable coarse_ratio : Index.
Variable fine_ratio : Index.
Variable dom : Box.

Abbreviation m := (n_local fine_counts rank).
Abbreviation sized := (fun st : list Z * list Z =>
  length st.1 = Z.to_nat m /\ length st.2 = Z.to_nat m).
Abbreviation asserts := (fun o : outcome (list Z * list Z) => o = Fatal AssertionFailure).
Abbreviation overruns := (fun o : outcome (list Z * list Z) => exists k, o = OutOfBounds k).

Lemma asserts_propagates (o : outcome (list Z * list Z)) k : asserts o -> asserts (obind o k).
Proof. intros ->. done. Qed.

Lemma overruns_propagates (o : outcome (list Z * list Z)) k : overruns o -> overruns (obind o k).
Proof. intros [n ->]. simpl. eauto. Qed.

Lemma cell_count_write st k c :
  sized st ->
  (0 <= k < m ->
   exists st',
     (if on_proc_coarse coarse_counts rank c
      then let* d := checked_write st.1 k 1 in Returns (d, st.2)
      else let* o := checked_write st.2 k 1 in Returns (st.1, o)) = Returns st' /\ sized st')
  /\ (~ 0 <= k < m ->
      (if on_proc_coarse coarse_counts rank c
       then let* d := checked_write st.1 k 1 in Returns (d, st.2)
       else let* o := checked_write st.2 k 1 in Returns (st.1, o)) = OutOfBounds k).
Proof.
  intros [L1 L2]. split.
  - intros Hk. destruct (on_proc_coarse coarse_counts rank c);
      rewrite checked_write_returns by lia; simpl; eexists; (split; [reflexivity|]);
      simpl; rewrite ?length_insert; done.
  - intros Hk. unfold checked_write.
    destruct (on_proc_coarse coarse_counts rank c).
    + assert ((0 <=? k) && (k <? Z.of_nat (length st.1)) = false) as ->; [|done].
      apply andb_false_iff.
      destruct (Z_lt_dec k 0); [left; apply Z.leb_gt|right; apply Z.ltb_ge]; lia.
    + assert ((0 <=? k) && (k <? Z.of_nat (length st.2)) = false) as ->; [|done].
      apply andb_false_iff.
      destruct (Z_lt_dec k 0); [left; apply Z.leb_gt|right; apply Z.ltb_ge]; lia.
Qed.

Lemma cell_count_cell_unchecked st p i :
  sized st ->
  (exists st', cell_count_cell false coarsen mapIndexToInteger ao ao_offset fine_counts
                 coarse_counts rank coarse_ratio fine_ratio dom st p i = Returns st'
               /\ sized st')
  \/ overruns (cell_count_cell false coarsen mapIndexToInteger ao ao_offset fine_counts
                 coarse_counts rank coarse_ratio fine_ratio dom st p i).
Proof.
  intros Hst. unfold cell_count_cell. simpl.
  apply (ofold_bad sized overruns); [apply overruns_propagates| |done].
  clear st Hst. intros st [k c] _ Hst. simpl.
  destruct (cell_count_write st k c Hst) as [Hin Hout].
  destruct (Z_le_dec 0 k) as [H0|H0]; [destruct (Z_lt_dec k m) as [H1|H1]|].
  - left. apply Hin. lia.
  - right. exists k. apply Hout. lia.
  - right. exists k. apply Hout. lia.
Qed.
Hypothesis counts_nonneg : Forall (fun c => 0 <= c) fine_counts.
Hypothesis rank_valid : (rank < length fine_counts)%nat.
Hypothesis no_overflow : total_of fine_counts <= Int.INT_MAX.

Lemma cell_count_cell_checked st p i :
  sized st ->
  (exists st', cell_count_cell true coarsen mapIndexToInteger ao ao_offset fine_counts
                 coarse_counts rank coarse_ratio fine_ratio dom st p i = Returns st'
               /\ sized st')
  \/ asserts (cell_count_cell true coarsen mapIndexToInteger ao ao_offset fine_counts
                coarse_counts rank coarse_ratio fine_ratio dom st p i).
Proof.
  intros Hst. unfold cell_count_cell.
  destruct (forallb (is_local fine_counts rank)
              (map (fun d => cp_dof p i d) (seq 0 (cp_depth p)))) eqn:Eall; simpl; [|auto].
  left. apply ofold_returns; [done|].
  clear st Hst. intros st [k c] Hkc Hst.
  apply list_elem_of_In, elem_of_zip_l in Hkc.
  apply list_elem_of_In, in_map_iff in Hkc as (r & <- & Hr).
  rewrite forallb_forall in Eall. specialize (Eall r Hr).
  destruct (partition_exact fine_counts rank counts_nonneg no_overflow rank_valid)
    as (E1 & E2 & E3 & E4 & E5 & E6 & E7).
  pose proof (total_of_take_succ fine_counts rank rank_valid) as Hs.
  apply (cell_count_write st _ c Hst).
  apply owned_row_in_counters; [|done].
  rewrite E3, E4 in E7. rewrite E1, E2 in *. lia.
Qed.

End UnownedFineDof.

(** X14. The volumetric prolongation of cell-centred data needs every
    fine DOF of the local patches to be owned by this process (the
    side-centred variant skips the sides that are not).  When the DOF index
    of some cell and component of the level lies outside the owned range,
    the call does not return: a build that checks assertions fails the
    assertion, and a build that does not writes a preallocation counter
    outside the vectors [d_nnz] and [o_nnz]. *)
Theorem cell_prolongation_needs_owned_fine_dofs
    (coarsen : Index -> Index -> Index)
    (mapIndexToInteger : Index -> Index -> Index -> nat -> Z -> Z)
    (ao : Z -> Z) (ao_offset : Z) (fine_counts coarse_counts : list Z) (rank : nat)
    (dom : Box) (coarse_ratio fine_ratio : Index) (level : list CellPatch)
    (p : CellPatch) (i : Index) (d : nat) :
  Forall (fun c => 0 <= c) fine_counts ->
  (rank < length fine_counts)%nat ->
  total_of fine_counts <= Int.INT_MAX ->
  cell_location level p i d ->
  Int.in_range (cp_dof p i d) ->
  is_local fine_counts rank (cp_dof p i d) = false ->
  constructProlongationOp_cell true coarsen mapIndexToInteger ao ao_offset
    fine_counts coarse_counts rank [dom] coarse_ratio fine_ratio level = Fatal AssertionFailure
  /\ exists k,
       constructProlongationOp_cell false coarsen mapIndexToInteger ao ao_offset
         fine_counts coarse_counts rank [dom] coarse_ratio fine_ratio level = OutOfBounds k.
Proof.
  intros Hnn Hrank Hmax (Hp & Hi & Hd) Hrange Hloc.
  destruct (partition_exact fine_counts rank Hnn Hmax Hrank) as (E1 & E2 & E3 & E4 & E5 & E6 & E7).
  assert (Hsized : length (replicate (Z.to_nat (n_local fine_counts rank)) 0, 
                           replicate (Z.to_nat (n_local fine_counts rank)) 0).1
                   = Z.to_nat (n_local fine_counts rank)
                   /\ length (replicate (Z.to_nat (n_local fine_counts rank)) 0,
                              replicate (Z.to_nat (n_local fine_counts rank)) 0).2
                      = Z.to_nat (n_local fine_counts rank)).
  { simpl. rewrite length_replicate. done. }
  unfold constructProlongationOp_cell. simpl the_domain_box. simpl obind.
  unfold new_counters.
  assert ((n_local fine_counts rank <? 0) = false) as -> by (apply Z.ltb_ge; lia).
  simpl obind. split.
  - enough (cell_count_phase true coarsen mapIndexToInteger ao ao_offset fine_counts
              coarse_counts rank coarse_ratio fine_ratio level dom
              (replicate (Z.to_nat (n_local fine_counts rank)) 0,
               replicate (Z.to_nat (n_local fine_counts rank)) 0) = Fatal AssertionFailure)
      as -> by done.
    unfold cell_count_phase.
    apply (ofold_bad_item
             (fun st => length st.1 = Z.to_nat (n_local fine_counts rank)
                        /\ length st.2 = Z.to_nat (n_local fine_counts rank))
             (fun o => o = Fatal AssertionFailure) _ _ _ p);
      [apply asserts_propagates| |done| |done].
    + intros st p' _ Hst.
      apply (ofold_bad _ (fun o => o = Fatal AssertionFailure));
        [apply asserts_propagates| |done].
      intros st' i' _ Hst'. apply cell_count_cell_checked; done.
    + intros st Hst.
      apply (ofold_bad_item
               (fun st => length st.1 = Z.to_nat (n_local fine_counts rank)
                          /\ length st.2 = Z.to_nat (n_local fine_counts rank))
               (fun o => o = Fatal AssertionFailure) _ _ _ i);
        [apply asserts_propagates| |done| |done].
      * intros st' i' _ Hst'. apply cell_count_cell_checked; done.
      * intros st' _. unfold cell_count_cell.
        assert (forallb (is_local fine_counts rank)
                  (map (fun d => cp_dof p i d) (seq 0 (cp_depth p))) = false) as ->; [|done].
        apply not_true_is_false. rewrite forallb_forall. intros Hall.
        rewrite (Hall (cp_dof p i d)) in Hloc; [discriminate|].
        apply in_map_iff. exists d. split; [done|]. apply in_seq. lia.
  - enough (exists k, cell_count_phase false coarsen mapIndexToInteger ao ao_offset fine_counts
              coarse_counts rank coarse_ratio fine_ratio level dom
              (replicate (Z.to_nat (n_local fine_counts rank)) 0,
               replicate (Z.to_nat (n_local fine_counts rank)) 0) = OutOfBounds k)
      as [k ->] by (simpl; eauto).
    unfold cell_count_phase.
    apply (ofold_bad_item
             (fun st => length st.1 = Z.to_nat (n_local fine_counts rank)
                        /\ length st.2 = Z.to_nat (n_local fine_counts rank))
             (fun o => exists k, o = OutOfBounds k) _ _ _ p);
      [apply overruns_propagates| |done| |done].
    + intros st p' _ Hst.
      apply (ofold_bad _ (fun o => exists k, o = OutOfBounds k));
        [apply overruns_propagates| |done].
      intros st' i' _ Hst'. apply cell_count_cell_unchecked; done.
    + intros st Hst.
      apply (ofold_bad_item
               (fun st => length st.1 = Z.to_nat (n_local fine_counts rank)
                          /\ length st.2 = Z.to_nat (n_local fine_counts rank))
               (fun o => exists k, o = OutOfBounds k) _ _ _ i);
        [apply overruns_propagates| |done| |done].
      * intros st' i' _ Hst'. apply cell_count_cell_unchecked; done.
      * intros st' Hst'. unfold cell_count_cell. simpl.
        apply (ofold_bad_item
                 (fun st => length st.1 = Z.to_nat (n_local fine_counts rank)
                            /\ length st.2 = Z.to_nat (n_local fine_counts rank))
                 (fun o => exists k, o = OutOfBounds k) _ _ _
                 (Int.sub (cp_dof p i d) (i_lower fine_counts rank),
                  cell_column coarsen mapIndexToInteger ao ao_offset coarse_ratio fine_ratio
                              dom i d));
          [apply overruns_propagates| | | |done].
        -- intros st'' [k c] _ Hst''. simpl.
           destruct (cell_count_write fine_counts coarse_counts rank st'' k c Hst'')
             as [Hin Hout].
           destruct (Z_le_dec 0 k) as [H0|H0];
             [destruct (Z_lt_dec k (n_local fine_counts rank)) as [H1|H1]|].
           ++ left. apply Hin. lia.
           ++ right. exists k. apply Hout. lia.
           ++ right. exists k. apply Hout. lia.
        -- unfold cell_samrai_petsc_map. rewrite !map_map.
           assert (Hzip : forall (f g : nat -> Z) l,
                     zip (map f l) (map g l) = map (fun d => (f d, g d)) l).
           { intros f g l. induction l as [|x l IH]; simpl; [done|]. rewrite IH. done. }
           rewrite Hzip. apply in_map_iff. exists d. split; [done|]. apply in_seq. lia.
        -- intros st'' Hst''. simpl. eexists.
           apply (cell_count_write fine_counts coarse_counts rank st'' _ _ Hst'').
           apply unowned_row_outside_counters; done.
Qed.

Lemma cell_prolongation_needs_owned_fine_dofs_witness :
  constructProlongationOp_cell true IndexUtilities_coarsen IndexUtilities_mapIndexToInteger
    (fun j => j) 0 [4; 4] [2] 0 [example_coarse_domain] [1; 1] [2; 2] [example_fine_patch]
  = Fatal AssertionFailure
  /\ exists k,
       constructProlongationOp_cell false IndexUtilities_coarsen
         IndexUtilities_mapIndexToInteger (fun j => j) 0 [4; 4] [2] 0 [example_coarse_domain]
         [1; 1] [2; 2] [example_fine_patch] = OutOfBounds k.
Proof.
  apply (cell_prolongation_needs_owned_fine_dofs IndexUtilities_coarsen
           IndexUtilities_mapIndexToInteger (fun j => j) 0 [4; 4] [2] 0 example_coarse_domain
           [1; 1] [2; 2] [example_fine_patch] example_fine_patch [3; 1] 0).
  - repeat constructor; lia.
  - simpl. lia.
  - vm_compute. discriminate.
  - repeat split; [left; reflexivity|vm_compute; tauto|simpl; lia].
  - unfold Int.in_range. split; apply Z.leb_le; vm_compute; reflexivity.
  - vm_compute. reflexivity.
Defined.

(** ** The preallocation of the interpolation assembler *)

Lemma assemble_keys_nodup steps es :
  NoDup (map fst es) -> NoDup (map fst (assemble steps es)).
Proof.
  unfold assemble. revert es. induction steps as [|s steps IH]; intros es H; simpl; [done|].
  apply IH. apply set_row_keys_nodup. done.
Qed.

(** The counting argument of the preallocation: distinct valid columns that
    are among those offered fit the two budgets. *)
Lemma budgets_cover_columns counts rank (stored offered : list Z) :
  Forall (fun c => 0 <= c) counts -> (rank < length counts)%nat ->
  total_of counts <= Int.INT_MAX ->
  NoDup stored ->
  (forall c, In c stored -> In c offered /\ 0 <= c < n_total counts) ->
  Z.of_nat (length (List.filter (is_local counts rank) stored))
    <= Z.min (n_local counts rank)
             (Z.of_nat (length (List.filter (is_local counts rank) offered)))
  /\ Z.of_nat (length (List.filter (fun c => negb (is_local counts rank c)) stored))
     <= Z.min (n_total counts - n_local counts rank)
              (Z.of_nat (length (List.filter (fun c => negb (is_local counts rank c))
                                             offered))).
Proof.
  intros Hnn Hrank Hmax Hnd Hin.
  destruct (partition_exact counts rank Hnn Hmax Hrank) as (E1 & E2 & E3 & E4 & E5 & E6 & E7).
  pose proof (total_of_take_succ counts rank Hrank) as Hs.
  assert (Hup : i_upper counts rank = i_lower counts rank + n_local counts rank).
  { rewrite E1, E2, E3. done. }
  assert (Hloc : forall c, is_local counts rank c = true
                           <-> i_lower counts rank <= c < i_upper counts rank).
  { intros c. unfold is_local. rewrite andb_true_iff, Z.leb_le, Z.ltb_lt. done. }
  split; apply Z.min_glb.
  - replace (n_local counts rank) with (i_upper counts rank - i_lower counts rank) by lia.
    apply NoDup_interval_length; [| |lia].
    + apply NoDup_ListNoDup, List.NoDup_filter, NoDup_ListNoDup, Hnd.
    + intros c Hc. apply List.filter_In in Hc as [_ Hc]. apply Hloc. done.
  - apply inj_le. apply filter_incl_length; [done|]. intros c Hc. apply Hin. done.
  - replace (n_total counts - n_local counts rank)
      with (i_lower counts rank + (n_total counts - i_upper counts rank)) by lia.
    apply NoDup_two_intervals_length; [| |lia|lia|lia].
    + apply NoDup_ListNoDup, List.NoDup_filter, NoDup_ListNoDup, Hnd.
    + intros c Hc. apply List.filter_In in Hc as [Hc Hnl].
      destruct (Hin c Hc) as [_ Hr]. apply negb_true_iff in Hnl.
      assert (~ (i_lower counts rank <= c < i_upper counts rank)).
      { intros Hl. apply Hloc in Hl. congruence. }
      lia.
  - apply inj_le. apply filter_incl_length; [done|]. intros c Hc. apply Hin. done.
Qed.

(** The loop over the stencil box of one row: the two counters of the row
    grow by the numbers of local and of remote DOF indices, and are then
    clamped; the other counters stay. *)
Lemma interp_count_fold counts rank (li : Z) cols (st : list Z * list Z) x y :
  st.1 !! Z.to_nat li = Some x -> st.2 !! Z.to_nat li = Some y ->
  0 <= x -> 0 <= y ->
  x + Z.of_nat (length cols) <= Int.INT_MAX ->
  y + Z.of_nat (length cols) <= Int.INT_MAX ->
  let st' := fold_left (fun st dof_index =>
               if (dof_index >=? i_lower counts rank) && (dof_index <? i_upper counts rank)
               then (incr st.1 li, st.2)
               else (st.1, incr st.2 li)) cols st in
  st'.1 !! Z.to_nat li
    = Some (x + Z.of_nat (length (List.filter (is_local counts rank) cols)))
  /\ st'.2 !! Z.to_nat li
     = Some (y + Z.of_nat (length (List.filter (fun c => negb (is_local counts rank c)) cols)))
  /\ length st'.1 = length st.1 /\ length st'.2 = length st.2
  /\ forall j, j <> Z.to_nat li -> st'.1 !! j = st.1 !! j /\ st'.2 !! j = st.2 !! j.
Proof.
  revert st x y. induction cols as [|c cols IH]; intros st x y Hx Hy H0x H0y Hmx Hmy; simpl.
  - rewrite !Z.add_0_r. done.
  - simpl length in Hmx, Hmy.
    assert (Htest : (c >=? i_lower counts rank) && (c <? i_upper counts rank)
                    = is_local counts rank c).
    { unfold is_local. rewrite Z.geb_leb. done. }
    rewrite Htest.
    pose proof (filter_length (is_local counts rank) cols) as Hf1.
    pose proof (filter_length (fun c => negb (is_local counts rank c)) cols) as Hf2.
    destruct (is_local counts rank c) eqn:Ec; simpl.
    + destruct (IH (incr st.1 li, st.2) (x + 1) y) as (H1 & H2 & L1 & L2 & Hother);
        simpl; try lia.
      { unfold incr. rewrite list_lookup_alter_eq, Hx. simpl.
        rewrite Int_add_exact by int_range. done. }
      { done. }
      unfold incr in *. simpl in *. rewrite ?length_alter in *.
      rewrite H1, H2, L1, L2.
      split; [f_equal; lia|]. split; [done|]. split; [done|]. split; [done|].
      intros j Hj. destruct (Hother j Hj) as [-> ->].
      rewrite list_lookup_alter_ne by lia. done.
    + destruct (IH (st.1, incr st.2 li) x (y + 1)) as (H1 & H2 & L1 & L2 & Hother);
        simpl; try lia.
      { done. }
      { unfold incr. rewrite list_lookup_alter_eq, Hy. simpl.
        rewrite Int_add_exact by int_range. done. }
      unfold incr in *. simpl in *. rewrite ?length_alter in *.
      rewrite H1, H2, L1, L2.
      split; [done|]. split; [f_equal; lia|]. split; [done|]. split; [done|].
      intros j Hj. destruct (Hother j Hj) as [-> ->].
      rewrite list_lookup_alter_ne by lia. done.
Qed.

Lemma interp_count_row_effect counts rank (li : Z) cols (st : list Z * list Z) :
  Forall (fun c => 0 <= c) counts -> (rank < length counts)%nat ->
  total_of counts <= Int.INT_MAX ->
  st.1 !! Z.to_nat li = Some 0 -> st.2 !! Z.to_nat li = Some 0 ->
  Z.of_nat (length cols) <= Int.INT_MAX ->
  let st' := interp_count_row counts rank st li cols in
  st'.1 !! Z.to_nat li
    = Some (Z.min (n_local counts rank)
                  (Z.of_nat (length (List.filter (is_local counts rank) cols))))
  /\ st'.2 !! Z.to_nat li
     = Some (Z.min (n_total counts - n_local counts rank)
                   (Z.of_nat (length (List.filter (fun c => negb (is_local counts rank c))
                                                  cols))))
  /\ length st'.1 = length st.1 /\ length st'.2 = length st.2
  /\ forall j, j <> Z.to_nat li -> st'.1 !! j = st.1 !! j /\ st'.2 !! j = st.2 !! j.
Proof.
  intros Hnn Hrank Hmax Hx Hy Hlen. cbv zeta. unfold interp_count_row.
  destruct (partition_exact counts rank Hnn Hmax Hrank) as (E1 & E2 & E3 & E4 & E5 & E6 & E7).
  pose proof (total_of_take_succ counts rank Hrank) as Hs.
  destruct (interp_count_fold counts rank li cols st 0 0 Hx Hy) as (H1 & H2 & L1 & L2 & Ho);
    try lia.
  cbv zeta in *. simpl in *.
  set (st' := fold_left _ cols st) in *.
  unfold clamp. rewrite !list_lookup_alter_eq, H1, H2, !length_alter. simpl.
  rewrite Int_sub_exact by (rewrite E3, E4 in E7; rewrite E2, E4 in *; int_range).
  split; [done|]. split; [done|]. split; [done|]. split; [done|].
  intros j Hj. rewrite !list_lookup_alter_ne by lia. apply Ho. done.
Qed.

Section InterpCounters.
Variable NDIM : nat.
Variable debug : bool.
Variable getCellIndex : list Qc -> list Qc -> list Qc -> list Qc -> Index -> Index -> Index.
Variable x_lower : list Qc.
Variable x_upper : list Qc.
Variable dx0 : list Qc.
Variable ratio : Index.
Variable patch_level : list SidePatch.
Variable getGhostBox : SidePatch -> Box.
Variable X_arr : list Qc.
Variable counts : list Z.
Variable rank : nat.
Variable domain : Box.
Variable s : Z.

Abbreviation n_points := (Z.to_nat (n_local_points NDIM X_arr)).
Abbreviation locate :=
  (locate_patch NDIM debug getCellIndex x_lower x_upper dx0 ratio patch_level X_arr domain).
Abbreviation cols :=
  (stencil_box_cols NDIM getCellIndex x_lower x_upper dx0 ratio X_arr domain s).
Abbreviation count_point :=
  (interp_count_point NDIM debug getCellIndex x_lower x_upper dx0 ratio patch_level
     getGhostBox X_arr counts rank domain s).
Abbreviation count_axis :=
  (interp_count_axis NDIM debug getCellIndex x_lower x_upper dx0 ratio getGhostBox X_arr
     counts rank domain s).

(** The rows that the first loop has finished when it is at the component
    [A] of the point [N]. *)
Abbreviation finished := (fun (N A k axis : nat) =>
  (k <? N)%nat || ((k =? N)%nat && (axis <? A)%nat)).

Abbreviation d_budget := (fun (p : SidePatch) (k axis : nat) =>
  Z.min (n_local counts rank)
        (Z.of_nat (length (List.filter (is_local counts rank) (cols p k axis))))).
Abbreviation o_budget := (fun (p : SidePatch) (k axis : nat) =>
  Z.min (n_total counts - n_local counts rank)
        (Z.of_nat (length (List.filter (fun c => negb (is_local counts rank c))
                                       (cols p k axis))))).

Abbreviation counted := (fun (N A : nat) (c : list Z * list Z) =>
  length c.1 = length X_arr /\ length c.2 = length X_arr
  /\ forall k axis n p,
       (k < n_points)%nat -> (axis < NDIM)%nat ->
       locate k = Returns n -> patch_level !! n = Some p ->
       c.1 !! (NDIM * k + axis)%nat
         = Some (if finished N A k axis then d_budget p k axis else 0)
       /\ c.2 !! (NDIM * k + axis)%nat
          = Some (if finished N A k axis then o_budget p k axis else 0)).

Lemma interp_local_idx k axis :
  m_local_X X_arr <= Int.INT_MAX ->
  (k < n_points)%nat -> (axis < NDIM)%nat ->
  Int.add (Int.mul (Z.of_nat NDIM) (Z.of_nat k)) (Z.of_nat axis)
  = Z.of_nat (NDIM * k + axis)
  /\ (NDIM * k + axis < length X_arr)%nat.
Proof.
  intros Hm Hk Ha. unfold n_local_points, m_local_X in *.
  assert (Hq : Z.of_nat NDIM * (Z.of_nat (length X_arr) `quot` Z.of_nat NDIM)
               <= Z.of_nat (length X_arr)).
  { rewrite Z.quot_div_nonneg by lia. apply Z.mul_div_le. lia. }
  assert (Hb : Z.of_nat NDIM * Z.of_nat k + Z.of_nat axis < Z.of_nat (length X_arr)) by nia.
  assert (H0 : 0 <= Z.of_nat NDIM * Z.of_nat k) by nia.
  split; [|nia].
  unfold Int.add, Int.mul.
  rewrite (Int_wrap_exact (Z.of_nat NDIM * Z.of_nat k)) by int_range.
  rewrite Int_wrap_exact by int_range. lia.
Qed.

Hypothesis counts_nonneg : Forall (fun c => 0 <= c) counts.
Hypothesis rank_valid : (rank < length counts)%nat.
Hypothesis no_overflow : total_of counts <= Int.INT_MAX.
Hypothesis m_small : m_local_X X_arr <= Int.INT_MAX.
Hypothesis cols_small : forall p k axis,
  (k < n_points)%nat -> Z.of_nat (length (cols p k axis)) <= Int.INT_MAX.

Lemma interp_count_axis_counted N A n p c c' :
  (N < n_points)%nat -> (A < NDIM)%nat ->
  locate N = Returns n -> patch_level !! n = Some p ->
  count_axis p N c A = Returns c' ->
  counted N A c -> counted N (S A) c'.
Proof.
  intros HN HA Hn Hp Hstep (L1 & L2 & Hc).
  unfold interp_count_axis in Hstep.
  destruct (negb (s `rem` 2 =? 0)); [discriminate|].
  destruct (debug && _); [discriminate|].
  injection Hstep as <-.
  destruct (interp_local_idx N A m_small HN HA) as [Hidx Hlt]. rewrite Hidx.
  destruct (Hc N A n p HN HA Hn Hp) as [Hd Ho].
  assert (finished N A N A = false) as Hfin.
  { destruct (Nat.ltb_spec N N), (Nat.eqb_spec N N), (Nat.ltb_spec A A);
      simpl; try done; lia. }
  rewrite Hfin in Hd, Ho.
  destruct (interp_count_row_effect counts rank (Z.of_nat (NDIM * N + A)) (cols p N A) c
              counts_nonneg rank_valid no_overflow) as (H1 & H2 & L1' & L2' & Hother).
  { rewrite Nat2Z.id. done. }
  { rewrite Nat2Z.id. done. }
  { apply cols_small. done. }
  rewrite Nat2Z.id in H1, H2, Hother.
  split; [rewrite L1'; done|]. split; [rewrite L2'; done|].
  intros k axis n' p' Hk Ha Hn' Hp'.
  destruct (decide (k = N /\ axis = A)) as [[-> ->]|Hne].
  - rewrite Hn in Hn'. injection Hn' as <-. rewrite Hp in Hp'. injection Hp' as <-.
    rewrite H1, H2.
    assert (finished N (S A) N A = true) as ->; [|done].
    destruct (Nat.ltb_spec N N), (Nat.eqb_spec N N), (Nat.ltb_spec A (S A));
      simpl; try done; lia.
  - assert (Hpos : (NDIM * k + axis)%nat <> (NDIM * N + A)%nat).
    { intros E. apply Hne. assert (k = N) by nia. subst. split; [done|lia]. }
    destruct (Hother (NDIM * k + axis)%nat Hpos) as [-> ->].
    assert (finished N (S A) k axis = finished N A k axis) as ->; [|apply (Hc k axis n'); done].
    destruct (Nat.ltb_spec k N), (Nat.eqb_spec k N), (Nat.ltb_spec axis (S A)),
      (Nat.ltb_spec axis A); simpl; try done; lia.
Qed.

Lemma interp_count_axes_counted N n p A c c' :
  (N < n_points)%nat -> (A <= NDIM)%nat ->
  locate N = Returns n -> patch_level !! n = Some p ->
  ofold (count_axis p N) (seq 0 A) c = Returns c' ->
  counted N 0%nat c -> counted N A c'.
Proof.
  intros HN HA Hn Hp. revert c'. induction A as [|A IH]; intros c' Hfold Hc.
  - injection Hfold as <-. done.
  - rewrite seq_S, ofold_app in Hfold. simpl in Hfold.
    destruct (ofold (count_axis p N) (seq 0 A) c) as [c1| | |] eqn:E1;
      simpl in Hfold; try discriminate.
    destruct (count_axis p N c1 A) as [c2| | |] eqn:E2; simpl in Hfold; try discriminate.
    injection Hfold as <-.
    eapply interp_count_axis_counted; [done|lia|done|done|exact E2|].
    apply IH; [lia|done|done].
Qed.

Lemma interp_count_point_counted N st st' :
  (N < n_points)%nat ->
  count_point st N = Returns st' ->
  counted N 0%nat st.2 -> counted (S N) 0%nat st'.2.
Proof.
  intros HN Hstep Hc. unfold interp_count_point in Hstep.
  destruct (locate N) as [n| | |] eqn:Hn; simpl in Hstep; try discriminate.
  destruct (patch_level !! n) as [p|] eqn:Hp; [|discriminate].
  destruct (debug && negb (sp_depth p =? 1)%nat); [discriminate|].
  destruct (ofold _ (seq 0 NDIM) st.2) as [c| | |] eqn:Hfold; simpl in Hstep; try discriminate.
  injection Hstep as <-. simpl.
  destruct (interp_count_axes_counted N n p NDIM st.2 c HN (Nat.le_refl _) Hn Hp Hfold Hc)
    as (L1 & L2 & H).
  split; [done|]. split; [done|].
  intros k axis n' p' Hk Ha Hn' Hp'.
  assert (finished (S N) 0%nat k axis = finished N NDIM k axis) as ->; [|apply (H k axis n'); done].
  destruct (Nat.ltb_spec k (S N)), (Nat.ltb_spec k N), (Nat.eqb_spec k N),
    (Nat.eqb_spec k (S N)), (Nat.ltb_spec axis NDIM), (Nat.ltb_spec axis 0);
    simpl; try done; lia.
Qed.

Lemma interp_count_points_counted N st st' :
  (N <= n_points)%nat ->
  ofold count_point (seq 0 N) st = Returns st' ->
  counted 0%nat 0%nat st.2 -> counted N 0%nat st'.2.
Proof.
  intros HN. revert st'. induction N as [|N IH]; intros st' Hfold Hc.
  - injection Hfold as <-. done.
  - rewrite seq_S, ofold_app in Hfold. simpl in Hfold.
    destruct (ofold count_point (seq 0 N) st) as [st1| | |] eqn:E1;
      simpl in Hfold; try discriminate.
    destruct (count_point st1 N) as [st2| | |] eqn:E2; simpl in Hfold; try discriminate.
    injection Hfold as <-.
    eapply interp_count_point_counted; [lia|exact E2|].
    apply IH; [lia|done|done].
Qed.
End InterpCounters.

(** A loop that has returned kept what its steps keep. *)
Lemma ofold_keeps {A B C} (proj : A -> C) (f : A -> B -> outcome A) l a a' :
  (forall a x a', f a x = Returns a' -> proj a' = proj a) ->
  ofold f l a = Returns a' -> proj a' = proj a.
Proof.
  intros H. revert a. induction l as [|x l IH]; intros a; simpl.
  - intros [= <-]. done.
  - destruct (f a x) as [a1| | |] eqn:E; simpl; try discriminate.
    intros Hrest. rewrite (IH _ Hrest). eapply H. done.
Qed.

Lemma interp_value_point_budgets NDIM debug interp_fcn getCellIndex x_lower x_upper dx0 ratio
    patch_level X_arr X_i_lower domain s patch_num mat k mat' :
  interp_value_point NDIM debug interp_fcn getCellIndex x_lower x_upper dx0 ratio patch_level
    X_arr X_i_lower domain s patch_num mat k = Returns mat' ->
  (mat_d_nnz mat', mat_o_nnz mat') = (mat_d_nnz mat, mat_o_nnz mat).
Proof.
  unfold interp_value_point.
  destruct (patch_num !! k) as [n|]; [|discriminate].
  destruct (patch_level !! n) as [p|]; [|discriminate].
  destruct (debug && negb (sp_depth p =? 1)%nat); [discriminate|].
  destruct (s <? 0); [discriminate|].
  destruct (stencil_box_nvals NDIM s <? 0); [discriminate|].
  cbv zeta. destruct (ofold _ _ _) as [st| | |] eqn:Efold; simpl; try discriminate.
  intros [= <-].
  apply (ofold_keeps (fun st : Mat * list (list Qc) * list Z =>
                        (mat_d_nnz st.1.1, mat_o_nnz st.1.1))) in Efold; [done|].
  intros st0 axis st1. unfold interp_value_axis.
  match goal with |- obind ?o _ = _ -> _ => destruct o as [w| | |] end;
    simpl; try discriminate.
  destruct (length (box_cells _) <=? length st0.2)%nat; [|discriminate]. intros [= <-]. done.
Qed.

Section InterpCall.
Variable NDIM : nat.
Variable debug : bool.
Variable interp_fcn : Qc -> list Qc.
Variable getCellIndex : list Qc -> list Qc -> list Qc -> list Qc -> Index -> Index -> Index.
Variable x_lower : list Qc.
Variable x_upper : list Qc.
Variable dx0 : list Qc.
Variable ratio : Index.
Variable domain_boxes : list Box.
Variable patch_level : list SidePatch.
Variable getGhostBox : SidePatch -> Box.
Variable X_arr : list Qc.
Variable X_i_lower : Z.
Variable counts : list Z.
Variable rank : nat.
Variable interp_stencil : Z.
Variable L : nat.

Abbreviation s := (round_up_to_even interp_stencil).
Abbreviation n_points := (Z.to_nat (n_local_points NDIM X_arr)).

Hypothesis partition_of_unity : forall r, Qc_sum (interp_fcn r) = 1%Qc.
Hypothesis kernel_width : forall r, length (interp_fcn r) = L.
Hypothesis kernel_fits : (L <= Z.to_nat s)%nat.
Hypothesis nvals_small : s ^ Z.of_nat NDIM <= Int.INT_MAX.
Hypothesis cells_in_range : forall domain k d,
  the_domain_box debug domain_boxes = Returns domain ->
  (k < n_points)%nat -> (d < NDIM)%nat ->
  Int.in_range (X_idx NDIM getCellIndex x_lower x_upper dx0 ratio X_arr domain k !!! d - s)
  /\ Int.in_range (X_idx NDIM getCellIndex x_lower x_upper dx0 ratio X_arr domain k !!! d + s).

(** The parts of a call that has returned: the domain box, the state after
    the first loop, the budgets of the matrix and its entries. *)
Lemma interp_call_returned mat :
  constructPatchLevelSCInterpOp NDIM debug interp_fcn getCellIndex x_lower x_upper dx0 ratio
    domain_boxes patch_level getGhostBox X_arr X_i_lower counts rank interp_stencil
  = Returns mat ->
  exists domain st,
    the_domain_box debug domain_boxes = Returns domain
    /\ ofold (interp_count_point NDIM debug getCellIndex x_lower x_upper dx0 ratio patch_level
                getGhostBox X_arr counts rank domain s)
             (seq 0 n_points)
             ([], (replicate (length X_arr) 0, replicate (length X_arr) 0)) = Returns st
    /\ mat_entries mat
       = assemble (interp_steps NDIM interp_fcn getCellIndex x_lower x_upper dx0 ratio
                                patch_level X_arr X_i_lower domain s st.1 (seq 0 n_points)) []
    /\ mat_d_nnz mat = buffer_or_null (m_local_X X_arr) st.2.1
    /\ mat_o_nnz mat = buffer_or_null (m_local_X X_arr) st.2.2
    /\ forall k, (k < n_points)%nat ->
         exists n p, st.1 !! k = Some n
           /\ locate_patch NDIM debug getCellIndex x_lower x_upper dx0 ratio patch_level X_arr
                domain k = Returns n
           /\ patch_level !! n = Some p.
Proof.
  intros Hcall.
  unfold constructPatchLevelSCInterpOp in Hcall. cbv zeta in Hcall.
  pose proof (round_up_to_even_even interp_stencil) as Heven.
  destruct (the_domain_box debug domain_boxes) as [domain| | |] eqn:Edom;
    simpl in Hcall; try discriminate.
  unfold new_counters, m_local_X in Hcall.
  assert ((Z.of_nat (length X_arr) <? 0) = false) as E0 by (apply Z.ltb_ge; lia).
  rewrite E0 in Hcall. simpl in Hcall. rewrite Nat2Z.id in Hcall.
  destruct (ofold (interp_count_point _ _ _ _ _ _ _ _ _ _ _ _ _ _) _ _)
    as [st| | |] eqn:Ecount; simpl in Hcall; try discriminate.
  exists domain, st. split; [done|]. split; [done|].
  assert (Hcells : forall j d, (j < n_points)%nat -> (d < NDIM)%nat ->
            Int.in_range (X_idx NDIM getCellIndex x_lower x_upper dx0 ratio X_arr domain j
                          !!! d - s)
            /\ Int.in_range (X_idx NDIM getCellIndex x_lower x_upper dx0 ratio X_arr domain j
                             !!! d + s)).
  { intros j d Hj Hd. apply cells_in_range; done. }
  split; [|split; [|split]].
  - eapply interp_value_phase_entries in Hcall; [|done..]. exact Hcall.
  - apply (ofold_keeps mat_d_nnz) in Hcall; [exact Hcall|].
    intros m k m' Hstep. apply interp_value_point_budgets in Hstep. congruence.
  - apply (ofold_keeps mat_o_nnz) in Hcall; [exact Hcall|].
    intros m k m' Hstep. apply interp_value_point_budgets in Hstep. congruence.
  - intros k Hk. eapply interp_count_patch_num; [exact Ecount|done|done].
Qed.
End InterpCall.

(** X15. Every entry of the matrix returned by the interpolation
    assembler belongs to a local point: its row is the row
    [i_lower + NDIM k + axis] of a component [axis] of a local point [k], in
    the ownership range of the point vector, and its column is a
    non-negative DOF index that the patch in which the point was located
    holds over the stencil box of that component.  (The kernel is a
    partition of unity that writes the same number of weights, no more than
    the stencil width, for every offset; the number of stencil cells, the
    row numbers and the cell indices do not overflow [int].) *)
Theorem interpolation_entries_lie_in_point_rows
    (NDIM : nat) (debug : bool) (interp_fcn : Qc -> list Qc)
    (getCellIndex : list Qc -> list Qc -> list Qc -> list Qc -> Index -> Index -> Index)
    (x_lower x_upper dx0 : list Qc) (ratio : Index) (domain_boxes : list Box)
    (patch_level : list SidePatch) (getGhostBox : SidePatch -> Box)
    (X_arr : list Qc) (X_i_lower : Z) (num_dofs_per_proc : list Z) (mpi_rank : nat)
    (interp_stencil : Z) (L : nat) (mat : Mat) (e : entry) :
  (forall r, Qc_sum (interp_fcn r) = 1%Qc) ->
  (forall r, length (interp_fcn r) = L) ->
  (L <= Z.to_nat (round_up_to_even interp_stencil))%nat ->
  round_up_to_even interp_stencil ^ Z.of_nat NDIM <= Int.INT_MAX ->
  0 <= X_i_lower ->
  X_i_lower + m_local_X X_arr <= Int.INT_MAX ->
  (forall domain j d,
     the_domain_box debug domain_boxes = Returns domain ->
     (j < Z.to_nat (n_local_points NDIM X_arr))%nat -> (d < NDIM)%nat ->
     Int.in_range (X_idx NDIM getCellIndex x_lower x_upper dx0 ratio X_arr domain j !!! d
                   - round_up_to_even interp_stencil)
     /\ Int.in_range (X_idx NDIM getCellIndex x_lower x_upper dx0 ratio X_arr domain j !!! d
                      + round_up_to_even interp_stencil)) ->
  constructPatchLevelSCInterpOp NDIM debug interp_fcn getCellIndex x_lower x_upper dx0 ratio
    domain_boxes patch_level getGhostBox X_arr X_i_lower num_dofs_per_proc mpi_rank
    interp_stencil = Returns mat ->
  In e (mat_entries mat) ->
  exists domain k axis n p,
    the_domain_box debug domain_boxes = Returns domain
    /\ (k < Z.to_nat (n_local_points NDIM X_arr))%nat /\ (axis < NDIM)%nat
    /\ locate_patch NDIM debug getCellIndex x_lower x_upper dx0 ratio patch_level X_arr
         domain k = Returns n
    /\ patch_level !! n = Some p
    /\ e.1.1 = X_i_lower + Z.of_nat NDIM * Z.of_nat k + Z.of_nat axis
    /\ X_i_lower <= e.1.1 < X_i_lower + m_local_X X_arr
    /\ In e.1.2 (stencil_box_cols NDIM getCellIndex x_lower x_upper dx0 ratio X_arr domain
                   (round_up_to_even interp_stencil) p k axis)
    /\ 0 <= e.1.2.
Proof.
  intros Hunity Hwidth Hfits Hnvals Hlow Hup Hrange Hcall He.
  destruct (interp_call_returned NDIM debug interp_fcn getCellIndex x_lower x_upper dx0 ratio
              domain_boxes patch_level getGhostBox X_arr X_i_lower num_dofs_per_proc mpi_rank
              interp_stencil L Hunity Hwidth Hfits Hnvals Hrange mat Hcall)
    as (domain & st & Edom & Ecount & Hentries & _ & _ & Hpatch).
  rewrite Hentries in He. apply assemble_in in He as [[]|(s0 & Hs0 & Hrow & Hcol & H0c & H0r)].
  eapply interp_steps_in in Hs0 as (k & axis & n & p & Hk & Ha & Hpn & Hp & ->); [|exact Hfits].
  destruct (Hpatch k Hk) as (n' & p' & Hpn' & Hloc & Hp').
  rewrite Hpn in Hpn'. injection Hpn' as <-.
  simpl in Hrow, Hcol.
  rewrite (stencil_box_row_exact NDIM X_arr X_i_lower (round_up_to_even interp_stencil) L
             Hfits Hnvals Hlow Hup k axis Hk Ha) in Hrow.
  assert (Hm : m_local_X X_arr <= Int.INT_MAX) by (unfold m_local_X in *; lia).
  destruct (interp_local_idx NDIM X_arr k axis Hm Hk Ha) as [_ Hlt].
  exists domain, k, axis, n, p. repeat (split; [done|]).
  split; [unfold m_local_X; lia|]. done.
Qed.

Lemma interpolation_entries_witness :
  exists mat,
    example_interp true example_interior_point 2 = Returns mat
    /\ In (1, 6, Q2Qc (21 # 100)) (mat_entries mat)
    /\ exists k axis,
         (k < 1)%nat /\ (axis < 2)%nat /\ 1 = 0 + 2 * Z.of_nat k + Z.of_nat axis.
Proof.
  assert (E : exists mat, example_interp true example_interior_point 2 = Returns mat
                          /\ In (1, 6, Q2Qc (21 # 100)) (mat_entries mat)).
  { eexists. split; [vm_compute; reflexivity|].
    vm_compute. repeat (first [left; reflexivity | right]). }
  destruct E as (mat & E & Hin). exists mat. split; [exact E|]. split; [exact Hin|].
  destruct (interpolation_entries_lie_in_point_rows
              2 true example_kernel IndexUtilities_getCellIndex
              example_x_lower example_x_upper example_dx0 [1; 1] [mkBox [0; 0] [1; 1]]
              [example_side_patch] example_ghost_box example_interior_point 0 [12] 0%nat 2
              2%nat mat (1, 6, Q2Qc (21 # 100)))
    as (domain & k & axis & n & p & _ & Hk & Ha & _ & _ & Hrow & _).
  - intros r. unfold example_kernel, Qc_sum. simpl. ring.
  - intros r. reflexivity.
  - vm_compute. lia.
  - vm_compute. discriminate.
  - lia.
  - vm_compute. discriminate.
  - intros domain j d [= <-] Hj Hd.
    assert (j = 0)%nat as -> by (vm_compute in Hj; lia).
    assert (d = 0 \/ d = 1)%nat as [-> | ->] by lia;
      unfold Int.in_range; repeat split; apply Z.leb_le; vm_compute; reflexivity.
  - exact E.
  - exact Hin.
  - exists k, axis. vm_compute in Hk. simpl in Hrow. split; [lia|]. split; [lia|]. lia.
Defined.

(** X16. The preallocation of the interpolation assembler.  For every
    component [axis] of a local point [k], the budgets of the row are the
    numbers of DOF indices over the stencil box that lie inside and outside
    the DOF range of this process (masked, negative indices are counted as
    outside), clamped to the numbers of local and remote columns.  The
    columns stored in the row are distinct, non-negative and among those of
    the stencil box, and the numbers of stored local and remote columns do
    not exceed the two budgets.  (The preconditions of the kernel and of the
    index arithmetic as for the row sums; the DOF counts are not negative
    and their total is an [int]; every DOF index is below the total.) *)
Theorem interpolation_budgets_cover_stored_columns
    (NDIM : nat) (debug : bool) (interp_fcn : Qc -> list Qc)
    (getCellIndex : list Qc -> list Qc -> list Qc -> list Qc -> Index -> Index -> Index)
    (x_lower x_upper dx0 : list Qc) (ratio : Index) (domain_boxes : list Box)
    (patch_level : list SidePatch) (getGhostBox : SidePatch -> Box)
    (X_arr : list Qc) (X_i_lower : Z) (num_dofs_per_proc : list Z) (mpi_rank : nat)
    (interp_stencil : Z) (L : nat) (mat : Mat) (k axis : nat) :
  (forall r, Qc_sum (interp_fcn r) = 1%Qc) ->
  (forall r, length (interp_fcn r) = L) ->
  (L <= Z.to_nat (round_up_to_even interp_stencil))%nat ->
  round_up_to_even interp_stencil ^ Z.of_nat NDIM <= Int.INT_MAX ->
  0 <= X_i_lower ->
  X_i_lower + m_local_X X_arr <= Int.INT_MAX ->
  (forall domain j d,
     the_domain_box debug domain_boxes = Returns domain ->
     (j < Z.to_nat (n_local_points NDIM X_arr))%nat -> (d < NDIM)%nat ->
     Int.in_range (X_idx NDIM getCellIndex x_lower x_upper dx0 ratio X_arr domain j !!! d
                   - round_up_to_even interp_stencil)
     /\ Int.in_range (X_idx NDIM getCellIndex x_lower x_upper dx0 ratio X_arr domain j !!! d
                      + round_up_to_even interp_stencil)) ->
  Forall (fun c => 0 <= c) num_dofs_per_proc ->
  (mpi_rank < length num_dofs_per_proc)%nat ->
  total_of num_dofs_per_proc <= Int.INT_MAX ->
  (forall p a i, In p patch_level -> sp_dof p a i 0%nat < n_total num_dofs_per_proc) ->
  constructPatchLevelSCInterpOp NDIM debug interp_fcn getCellIndex x_lower x_upper dx0 ratio
    domain_boxes patch_level getGhostBox X_arr X_i_lower num_dofs_per_proc mpi_rank
    interp_stencil = Returns mat ->
  (k < Z.to_nat (n_local_points NDIM X_arr))%nat ->
  (axis < NDIM)%nat ->
  exists domain n p,
    the_domain_box debug domain_boxes = Returns domain
    /\ locate_patch NDIM debug getCellIndex x_lower x_upper dx0 ratio patch_level X_arr
         domain k = Returns n
    /\ patch_level !! n = Some p
    /\ let box_cols := stencil_box_cols NDIM getCellIndex x_lower x_upper dx0 ratio X_arr
                         domain (round_up_to_even interp_stencil) p k axis in
       let stored := row_cols (mat_entries mat)
                              (X_i_lower + Z.of_nat NDIM * Z.of_nat k + Z.of_nat axis) in
       let local := is_local num_dofs_per_proc mpi_rank in
       let d_budget := Z.min (n_local num_dofs_per_proc mpi_rank)
                             (Z.of_nat (length (List.filter local box_cols))) in
       let o_budget := Z.min (n_total num_dofs_per_proc - n_local num_dofs_per_proc mpi_rank)
                             (Z.of_nat (length (List.filter (fun c => negb (local c))
                                                            box_cols))) in
       budget (mat_d_nnz mat) (Z.of_nat (NDIM * k + axis)) = Some d_budget
       /\ budget (mat_o_nnz mat) (Z.of_nat (NDIM * k + axis)) = Some o_budget
       /\ NoDup stored
       /\ (forall c, In c stored -> In c box_cols /\ 0 <= c)
       /\ Z.of_nat (length (List.filter local stored)) <= d_budget
       /\ Z.of_nat (length (List.filter (fun c => negb (local c)) stored)) <= o_budget.
Proof.
  intros Hunity Hwidth Hfits Hnvals Hlow Hup Hrange Hnn Hrank Hmax Hvalid Hcall Hk Ha.
  destruct (interp_call_returned NDIM debug interp_fcn getCellIndex x_lower x_upper dx0 ratio
              domain_boxes patch_level getGhostBox X_arr X_i_lower num_dofs_per_proc mpi_rank
              interp_stencil L Hunity Hwidth Hfits Hnvals Hrange mat Hcall)
    as (domain & st & Edom & Ecount & Hentries & Hd & Ho & Hpatch).
  set (s := round_up_to_even interp_stencil) in *.
  pose proof (round_up_to_even_even interp_stencil) as Heven. fold s in Heven.
  destruct (Hpatch k Hk) as (n & p & Hpn & Hloc & Hp).
  exists domain, n, p. repeat (split; [done|]). cbv zeta.
  assert (Hm : m_local_X X_arr <= Int.INT_MAX) by (unfold m_local_X in *; lia).
  assert (Hfits_all : forall r, (length (interp_fcn r) <= Z.to_nat s)%nat).
  { intros r. rewrite Hwidth. done. }
  assert (Hcells : forall j d, (j < Z.to_nat (n_local_points NDIM X_arr))%nat -> (d < NDIM)%nat ->
            Int.in_range (X_idx NDIM getCellIndex x_lower x_upper dx0 ratio X_arr domain j
                          !!! d - s)
            /\ Int.in_range (X_idx NDIM getCellIndex x_lower x_upper dx0 ratio X_arr domain j
                             !!! d + s)).
  { intros j d Hj Hd'. apply Hrange; done. }
  assert (Hcols_small : forall p' k' axis',
            (k' < Z.to_nat (n_local_points NDIM X_arr))%nat ->
            Z.of_nat (length (stencil_box_cols NDIM getCellIndex x_lower x_upper dx0 ratio
                                X_arr domain s p' k' axis')) <= Int.INT_MAX).
  { intros p' k' axis' Hk'. unfold stencil_box_cols. rewrite length_map.
    rewrite (stencil_box_count NDIM interp_fcn getCellIndex x_lower x_upper dx0 ratio X_arr
               domain s L Hunity Hwidth Hfits Heven Hnvals Hcells k' axis' Hk').
    pose proof (s_positive interp_fcn s Hunity Hfits_all) as Hpos.
    rewrite stencil_box_nvals_exact by done.
    rewrite Z2Nat.id by (apply Z.pow_nonneg; lia). done. }
  destruct (interp_count_points_counted NDIM debug getCellIndex x_lower x_upper dx0 ratio
              patch_level getGhostBox X_arr num_dofs_per_proc mpi_rank domain s
              Hnn Hrank Hmax Hm Hcols_small _ _ st (Nat.le_refl _) Ecount)
    as (L1 & L2 & Hcounted).
  { simpl. rewrite !length_replicate. split; [done|]. split; [done|].
    intros k' axis' n' p' Hk' Ha' _ _.
    destruct (interp_local_idx NDIM X_arr k' axis' Hm Hk' Ha') as [_ Hlt].
    rewrite !lookup_replicate_2 by done.
    destruct (Nat.ltb_spec k' 0), (Nat.eqb_spec k' 0), (Nat.ltb_spec axis' 0);
      simpl; try done; lia. }
  destruct (Hcounted k axis n p Hk Ha Hloc Hp) as [Hdk Hok].
  assert (((k <? Z.to_nat (n_local_points NDIM X_arr))%nat
           || (k =? Z.to_nat (n_local_points NDIM X_arr))%nat && (axis <? 0)%nat) = true)
    as Hfin.
  { destruct (Nat.ltb_spec k (Z.to_nat (n_local_points NDIM X_arr))); [done|lia]. }
  rewrite Hfin in Hdk, Hok.
  destruct (interp_local_idx NDIM X_arr k axis Hm Hk Ha) as [_ Hlt].
  assert (Hbuf : forall v, buffer_or_null (m_local_X X_arr) v = Some v).
  { intros v. unfold buffer_or_null, m_local_X.
    assert ((Z.of_nat (length X_arr) =? 0) = false) as -> by (apply Z.eqb_neq; lia). done. }
  rewrite Hd, Ho, !Hbuf. simpl. rewrite Nat2Z.id.
  split; [done|]. split; [done|].
  assert (Hnd : NoDup (row_cols (mat_entries mat)
                         (X_i_lower + Z.of_nat NDIM * Z.of_nat k + Z.of_nat axis))).
  { apply row_cols_nodup. rewrite Hentries. apply assemble_keys_nodup. constructor. }
  assert (Hin : forall c,
            In c (row_cols (mat_entries mat)
                    (X_i_lower + Z.of_nat NDIM * Z.of_nat k + Z.of_nat axis)) ->
            In c (stencil_box_cols NDIM getCellIndex x_lower x_upper dx0 ratio X_arr domain s
                    p k axis) /\ 0 <= c).
  { intros c Hc. apply row_cols_in in Hc as [v Hv]. rewrite Hentries in Hv.
    apply assemble_in in Hv as [[]|(s0 & Hs0 & Hrow & Hcol & H0c & H0r)].
    eapply interp_steps_in in Hs0 as (k' & axis' & n' & p' & Hk' & Ha' & Hpn' & Hp' & ->);
      [|exact Hfits].
    simpl in Hrow, Hcol.
    rewrite <- (stencil_box_row_exact NDIM X_arr X_i_lower s L Hfits Hnvals Hlow Hup k axis
                  Hk Ha) in Hrow.
    destruct (stencil_box_row_inj NDIM X_arr X_i_lower s L Hfits Hnvals Hlow Hup
                k axis k' axis' Hk Ha Hk' Ha' Hrow) as [<- <-].
    rewrite Hpn in Hpn'. injection Hpn' as <-. rewrite Hp in Hp'. injection Hp' as <-.
    done. }
  split; [done|]. split; [done|].
  apply budgets_cover_columns; [done|done|done|done|].
  intros c Hc. destruct (Hin c Hc) as [Hbox H0]. split; [done|]. split; [done|].
  unfold stencil_box_cols in Hbox. apply in_map_iff in Hbox as (b & <- & _).
  apply Hvalid. apply list_elem_of_In. apply (list_elem_of_lookup_2 _ n). done.
Qed.

Lemma interpolation_budgets_witness :
  exists mat,
    example_interp true example_boundary_point 2 = Returns mat
    /\ budget (mat_d_nnz mat) 0 = Some 2 /\ budget (mat_o_nnz mat) 0 = Some 0
    /\ row_cols (mat_entries mat) 0 = [1; 0].
Proof.
  assert (E : exists mat, example_interp true example_boundary_point 2 = Returns mat
                          /\ row_cols (mat_entries mat) 0 = [1; 0]).
  { eexists. split; vm_compute; reflexivity. }
  destruct E as (mat & E & Hrow). exists mat. split; [exact E|].
  destruct (interpolation_budgets_cover_stored_columns
              2 true example_kernel IndexUtilities_getCellIndex
              example_x_lower example_x_upper example_dx0 [1; 1] [mkBox [0; 0] [1; 1]]
              [example_side_patch] example_ghost_box example_boundary_point 0 [12] 0%nat 2
              2%nat mat 0%nat 0%nat)
    as (domain & n & p & Hd & _ & Hp & Hbd & Hbo & _).
  - intros r. unfold example_kernel, Qc_sum. simpl. ring.
  - intros r. reflexivity.
  - vm_compute. lia.
  - vm_compute. discriminate.
  - lia.
  - vm_compute. discriminate.
  - intros domain j d [= <-] Hj Hd.
    assert (j = 0)%nat as -> by (vm_compute in Hj; lia).
    assert (d = 0 \/ d = 1)%nat as [-> | ->] by lia;
      unfold Int.in_range; repeat split; apply Z.leb_le; vm_compute; reflexivity.
  - repeat constructor. lia.
  - simpl. lia.
  - vm_compute. discriminate.
  - intros p a i Hp. enum_in Hp. change (n_total [12]) with 12. unfold example_side_patch.
    simpl sp_dof. unfold example_side_dof.
    destruct a as [|[|a]]; [| |lia];
      destruct i as [|x [|y [|? ?]]]; try lia;
      match goal with |- (if ?b then _ else _) < _ => destruct b eqn:Eb; [|lia] end;
      repeat (apply andb_true_iff in Eb as [Eb ?]);
      repeat match goal with H : (_ <=? _) = true |- _ => apply Z.leb_le in H end; lia.
  - exact E.
  - vm_compute. lia.
  - lia.
  - injection Hd as <-. destruct n as [|n]; [|destruct n; discriminate].
    injection Hp as <-.
    split; [|split; [|exact Hrow]].
    + refine (eq_trans Hbd _). vm_compute. reflexivity.
    + refine (eq_trans Hbo _). vm_compute. reflexivity.
Defined.

(** ** The stencil boxes of the interpolation assembler *)

(** X17. The stencil box of a component of a point: for a positive
    stencil width [s] (even, after the rounding at the head of the
    function), the box has exactly [s] cells in every direction, [s ^ NDIM]
    in all; in every direction it holds the cell of the point and reaches no
    further than [s / 2] cells from it; along the direction of the component
    it is the range from [x - s/2 + 1] to [x + s/2].  (The cell index of the
    point is at least [s] away from the ends of the range of [int].) *)
Theorem stencil_box_surrounds_the_cell_of_the_point
    (NDIM : nat)
    (getCellIndex : list Qc -> list Qc -> list Qc -> list Qc -> Index -> Index -> Index)
    (x_lower x_upper dx0 : list Qc) (ratio : Index) (X_arr : list Qc) (domain : Box)
    (interp_stencil : Z) (k axis : nat) :
  let s := round_up_to_even interp_stencil in
  let X_idx := X_idx NDIM getCellIndex x_lower x_upper dx0 ratio X_arr domain k in
  let box := stencil_box NDIM getCellIndex x_lower x_upper dx0 ratio X_arr domain s k axis in
  0 < s ->
  (forall d, (d < NDIM)%nat ->
     Int.in_range (X_idx !!! d - s) /\ Int.in_range (X_idx !!! d + s)) ->
  length (lower box) = NDIM /\ length (upper box) = NDIM
  /\ Z.of_nat (length (box_cells box)) = s ^ Z.of_nat NDIM
  /\ forall d, (d < NDIM)%nat ->
       exists l u, lower box !! d = Some l /\ upper box !! d = Some u
         /\ u - l + 1 = s
         /\ l <= X_idx !!! d <= u
         /\ X_idx !!! d - Z.quot s 2 <= l /\ u <= X_idx !!! d + Z.quot s 2
         /\ (d = axis -> l = X_idx !!! d - Z.quot s 2 + 1 /\ u = X_idx !!! d + Z.quot s 2).
Proof.
  intros s X_idx0 box Hpos Hrange.
  pose proof (round_up_to_even_even interp_stencil) as Heven. fold s in Heven.
  assert (Hext : forall d, (d < NDIM)%nat ->
            exists l u, lower box !! d = Some l /\ upper box !! d = Some u
              /\ u - l + 1 = s
              /\ l <= X_idx0 !!! d <= u
              /\ X_idx0 !!! d - Z.quot s 2 <= l /\ u <= X_idx0 !!! d + Z.quot s 2
              /\ (d = axis -> l = X_idx0 !!! d - Z.quot s 2 + 1
                              /\ u = X_idx0 !!! d + Z.quot s 2)).
  { intros d Hd. destruct (Hrange d Hd) as [R1 R2].
    unfold box, stencil_box, stencil_box_lower, stencil_box_upper. simpl lower. simpl upper.
    unfold Index in *. rewrite !map_seq_lookup by done. cbv zeta.
    eexists. eexists. split; [reflexivity|]. split; [reflexivity|].
    fold X_idx0.
    revert R1 R2. generalize (X_idx0 !!! d). intros x R1 R2.
    assert (Hhalf : s = 2 * Z.quot s 2).
    { pose proof (Z.quot_rem' s 2). lia. }
    revert Hhalf. generalize (Z.quot s 2). intros half Hhalf.
    unfold Int.in_range, Int.INT_MIN, Int.INT_MAX in *.
    destruct (Nat.eqb_spec d axis) as [Eq|Ne]; [|destruct (Qc_leb _ _)];
      unfold Int.add, Int.sub;
      repeat match goal with
             | |- context [Int.wrap ?z] =>
                 rewrite (Int_wrap_exact z)
                   by (unfold Int.in_range, Int.INT_MIN, Int.INT_MAX; lia)
             end;
      repeat split; try lia; intros; lia. }
  assert (L1 : length (lower box) = NDIM).
  { unfold box, stencil_box, stencil_box_lower. simpl. rewrite length_map, length_seq. done. }
  assert (L2 : length (upper box) = NDIM).
  { unfold box, stencil_box, stencil_box_upper. simpl. rewrite length_map, length_seq. done. }
  split; [done|]. split; [done|]. split; [|done].
  unfold box_cells. rewrite (cells_between_count s); [rewrite L1; done|lia|lia|].
  intros d l u Hl Hu.
  assert (Hd : (d < NDIM)%nat) by (apply lookup_lt_Some in Hl; lia).
  destruct (Hext d Hd) as (l' & u' & Hl' & Hu' & Hs & _).
  rewrite Hl in Hl'. rewrite Hu in Hu'. injection Hl' as <-. injection Hu' as <-. done.
Qed.

Lemma stencil_box_witness :
  stencil_box 2 IndexUtilities_getCellIndex example_x_lower example_x_upper example_dx0
    [1; 1] example_interior_point (mkBox [0; 0] [1; 1]) 2 0 0 = mkBox [0; 0] [1; 1]
  /\ Z.of_nat (length (box_cells
       (stencil_box 2 IndexUtilities_getCellIndex example_x_lower example_x_upper example_dx0
          [1; 1] example_interior_point (mkBox [0; 0] [1; 1]) (round_up_to_even 1) 0 0)))
     = round_up_to_even 1 ^ 2.
Proof.
  split; [vm_compute; reflexivity|].
  apply (stencil_box_surrounds_the_cell_of_the_point 2 IndexUtilities_getCellIndex
           example_x_lower example_x_upper example_dx0 [1; 1] example_interior_point
           (mkBox [0; 0] [1; 1]) 1 0 0).
  - vm_compute. reflexivity.
  - intros d Hd. assert (d = 0 \/ d = 1)%nat as [-> | ->] by lia;
      unfold Int.in_range; repeat split; apply Z.leb_le; vm_compute; reflexivity.
Defined.

(** ** Index sets across calls of the subdomain partitioner *)

Lemma references_cons x v h :
  references (x :: v) h
  = ((match x with Some h' => if Nat.eqb h' h then 1 else 0 | None => 0 end)
     + references v h)%nat.
Proof.
  unfold references. simpl. destruct x as [h'|]; [|done].
  destruct (Nat.eqb h' h); done.
Qed.

Lemma references_app v1 v2 h :
  references (v1 ++ v2) h = (references v1 h + references v2 h)%nat.
Proof. unfold references. rewrite List.filter_app, length_app. done. Qed.

(** Writing a handle into a null slot adds one reference to its object. *)
Lemma references_insert v k h0 h :
  v !! k = Some None ->
  references (<[k := Some h0]> v) h
  = (references v h + if Nat.eqb h0 h then 1 else 0)%nat.
Proof.
  intros Hk. pose proof (lookup_lt_Some _ _ _ Hk) as Hlt.
  rewrite insert_take_drop by done.
  rewrite <- (take_drop_middle v k None Hk) at 3.
  rewrite !references_app, !references_cons. unfold IS in *.
  destruct (Nat.eqb h0 h); lia.
Qed.

Lemma references_replicate n h : references (replicate n None) h = 0%nat.
Proof. induction n as [|n IH]; [done|]. simpl. rewrite references_cons, IH. done. Qed.

(** The loop that destroys the sets of a vector, on a heap whose objects
    have at least the references that the vector holds: it returns, every
    object has lost these references, and nothing else has changed. *)
Lemma destroy_loop_releases v heap :
  (forall h, (0 < references v h)%nat ->
     exists o, heap !! h = Some o /\ (references v h <= is_refct o)%nat) ->
  exists heap',
    ofold ISDestroy v heap = Returns heap'
    /\ length heap' = length heap
    /\ forall h, heap' !! h
                 = (fun o => mkIS (is_indices o) (is_refct o - references v h)) <$> heap !! h.
Proof.
  revert heap. induction v as [|x v IH]; intros heap Hrefs; simpl.
  - exists heap. split; [done|]. split; [done|].
    intros h. destruct (heap !! h) as [[idx n]|]; simpl; [|done].
    rewrite Nat.sub_0_r. done.
  - destruct x as [h0|]; simpl.
    + destruct (Hrefs h0) as (o & Ho & Hle).
      { rewrite references_cons, Nat.eqb_refl. lia. }
      rewrite references_cons, Nat.eqb_refl in Hle. rewrite Ho.
      destruct (is_refct o) as [|n] eqn:En; [lia|]. simpl.
      pose proof (lookup_lt_Some _ _ _ Ho) as Hlt.
      destruct (IH (<[h0 := mkIS (is_indices o) n]> heap)) as (heap' & Hfold & Hlen & Hheap').
      { intros h Hh. destruct (decide (h = h0)) as [->|Hne].
        - rewrite list_lookup_insert_eq by done. eexists. split; [done|]. simpl. lia.
        - rewrite list_lookup_insert_ne by done. destruct (Hrefs h) as (o' & Ho' & Hle').
          + rewrite references_cons. lia.
          + exists o'. split; [done|]. rewrite references_cons in Hle'. lia. }
      exists heap'. split; [done|]. split; [rewrite Hlen, length_insert; done|].
      intros h. rewrite Hheap', references_cons.
      destruct (decide (h = h0)) as [->|Hne].
      * rewrite list_lookup_insert_eq by done. rewrite Ho, Nat.eqb_refl. simpl.
        rewrite En. done.
      * rewrite list_lookup_insert_ne by done.
        assert (Nat.eqb h0 h = false) as -> by (apply Nat.eqb_neq; done). done.
    + destruct (IH heap) as (heap' & Hfold & Hlen & Hheap').
      { intros h Hh. apply Hrefs. rewrite references_cons. done. }
      exists heap'. split; [done|]. split; [done|].
      intros h. rewrite Hheap', references_cons. done.
Qed.

(** A loop that has returned kept an invariant of its steps. *)
Lemma ofold_invariant {A B} (P : A -> Prop) (f : A -> B -> outcome A) l a a' :
  (forall a x a', In x l -> P a -> f a x = Returns a' -> P a') ->
  P a -> ofold f l a = Returns a' -> P a'.
Proof.
  revert a. induction l as [|x l IH]; intros a H Ha; simpl.
  - intros [= <-]. done.
  - destruct (f a x) as [a1| | |] eqn:E; simpl; try discriminate.
    apply IH; [|eapply H; [left| |]; done]. intros. eapply H; [right| |]; done.
Qed.

Section BalancedReferences.
Variable partitionPatchBox : Box -> Index -> Index -> list Box * list Box.
Variable box_size : Index.
Variable overlap_size : Index.
Variable heap0 : list ISObject.

(** The objects that the caller had are untouched and not referenced by the
    two vectors; every object made since has as many references as the two
    vectors hold handles to it; the slots still to come are null. *)
Abbreviation balanced := (fun st : asm_state =>
  (length heap0 <= length (asm_heap st))%nat
  /\ (forall h, (h < length heap0)%nat -> asm_heap st !! h = heap0 !! h)
  /\ (forall h, (h < length heap0)%nat \/ (length (asm_heap st) <= h)%nat ->
        references (is_overlap st) h = 0%nat /\ references (is_nonoverlap st) h = 0%nat)
  /\ (forall h o, (length heap0 <= h)%nat -> asm_heap st !! h = Some o ->
        is_refct o = (references (is_overlap st) h + references (is_nonoverlap st) h)%nat)
  /\ (forall k, (subdomain_counter st <= k)%nat ->
        (k < length (is_overlap st) -> is_overlap st !! k = Some None)%nat
        /\ (k < length (is_nonoverlap st) -> is_nonoverlap st !! k = Some None)%nat)).

Lemma make_subdomain_sets_balanced st dofs ovl st' :
  make_subdomain_sets overlap_size st dofs ovl = Returns st' ->
  balanced st -> balanced st'.
Proof.
  intros Hstep (B0 & B1 & B2 & B3 & B4).
  unfold make_subdomain_sets in Hstep.
  set (k := subdomain_counter st) in *.
  set (len := length (asm_heap st)) in *.
  destruct (Nat.leb_spec (length (is_nonoverlap st)) k) as [|L2]; [discriminate|].
  simpl in Hstep.
  destruct (B4 k (Nat.le_refl _)) as [Hov Hnon].
  destruct (there_is_overlap overlap_size); simpl in Hstep.
  - destruct ovl as [dov| | |]; simpl in Hstep; try discriminate.
    destruct (Nat.leb_spec (length (is_overlap st)) k) as [|L1]; [discriminate|].
    injection Hstep as <-. simpl.
    rewrite !length_app. simpl. fold len.
    split; [lia|]. split; [|split; [|split]].
    + intros h Hh. rewrite !lookup_app_l by (rewrite ?length_app; simpl; lia). auto.
    + intros h Hh. rewrite !references_insert by auto.
      destruct (B2 h) as [-> ->]; [lia|].
      destruct (Nat.eqb_spec (len + 1) h), (Nat.eqb_spec len h); lia.
    + intros h o Hh Ho. rewrite !references_insert by auto.
      destruct (Nat.lt_ge_cases h len) as [Hlt|Hge].
      * rewrite !lookup_app_l in Ho by (rewrite ?length_app; simpl; lia).
        rewrite (B3 h o Hh Ho).
        destruct (Nat.eqb_spec (len + 1) h), (Nat.eqb_spec len h); lia.
      * destruct (B2 h) as [-> ->]; [lia|].
        destruct (decide (h = len)) as [->|Hne].
        -- rewrite lookup_app_l in Ho by (rewrite length_app; simpl; lia).
           rewrite lookup_app_r in Ho by lia. fold len in Ho.
           rewrite Nat.sub_diag in Ho. injection Ho as <-. simpl.
           destruct (Nat.eqb_spec (len + 1) len), (Nat.eqb_spec len len); lia.
        -- destruct (decide (h = len + 1)%nat) as [->|Hne'].
           ++ rewrite lookup_app_r in Ho by (rewrite length_app; simpl; lia).
              rewrite length_app in Ho. simpl in Ho. fold len in Ho.
              rewrite Nat.sub_diag in Ho. injection Ho as <-. simpl.
              destruct (Nat.eqb_spec (len + 1) (len + 1)), (Nat.eqb_spec len (len + 1)); lia.
           ++ apply lookup_lt_Some in Ho. rewrite !length_app in Ho. simpl in Ho.
              fold len in Ho. lia.
    + intros k' Hk'. rewrite !length_insert.
      rewrite !list_lookup_insert_ne by lia. apply B4. lia.
  - rewrite list_lookup_total_insert_eq in Hstep by lia.
    destruct (Nat.leb_spec (length (is_overlap st)) k) as [|L1]; [discriminate|].
    injection Hstep as <-. simpl. unfold PetscObjectReference.
    rewrite length_alter, length_app. simpl. fold len.
    split; [lia|]. split; [|split; [|split]].
    + intros h Hh. rewrite list_lookup_alter_ne by lia.
      rewrite lookup_app_l by lia. auto.
    + intros h Hh. rewrite !references_insert by auto.
      destruct (B2 h) as [-> ->]; [lia|].
      destruct (Nat.eqb_spec len h); lia.
    + intros h o Hh Ho. rewrite !references_insert by auto.
      destruct (decide (h = len)) as [->|Hne].
      * rewrite list_lookup_alter_eq in Ho. rewrite lookup_app_r in Ho by lia.
        fold len in Ho. rewrite Nat.sub_diag in Ho. simpl in Ho. injection Ho as <-. simpl.
        destruct (B2 len) as [-> ->]; [lia|].
        destruct (Nat.eqb_spec len len); lia.
      * rewrite list_lookup_alter_ne in Ho by lia.
        destruct (Nat.lt_ge_cases h len) as [Hlt|Hge].
        -- rewrite lookup_app_l in Ho by lia. rewrite (B3 h o Hh Ho).
           destruct (Nat.eqb_spec len h); lia.
        -- apply lookup_lt_Some in Ho. rewrite length_app in Ho. simpl in Ho.
           fold len in Ho. lia.
    + intros k' Hk'. rewrite !length_insert.
      rewrite !list_lookup_insert_ne by lia. apply B4. lia.
Qed.

Lemma cell_subdomains_balanced debug level ghost st :
  constructPatchLevelASMSubdomains_cell debug partitionPatchBox box_size overlap_size
    level ghost heap0 = Returns st ->
  balanced st.
Proof.
  unfold constructPatchLevelASMSubdomains_cell.
  set (N := cell_subdomain_count _ _ _ _).
  apply (ofold_invariant balanced).
  - intros st0 p st1 _ Hst0. unfold cell_patch_subdomains.
    destruct (debug && _); [discriminate|].
    apply (ofold_invariant balanced); [|done].
    intros st2 i st3 _ Hst2. unfold cell_subdomain, box_at.
    destruct (nonoverlap_boxes _ _ _ _ !! i) as [bl|]; simpl; [|discriminate].
    intros Hstep. eapply make_subdomain_sets_balanced; [exact Hstep|exact Hst2].
  - simpl. split; [lia|]. split; [done|]. split; [|split].
    + intros h _. rewrite !references_replicate. done.
    + intros h o Hh Ho. apply lookup_lt_Some in Ho. lia.
    + intros k _. rewrite !length_replicate. split; intros Hk; apply lookup_replicate_2; done.
Qed.
End BalancedReferences.

(** X18. The index sets across two calls of the public subdomain
    partitioner.  When the cell-centred function has filled the two vectors
    (with or without overlap), the two destruction loops at the head of a
    later call on these vectors return: every handle that they destroy is
    to an object with a reference left.  Afterwards every index set that the
    earlier call made has no reference left and the objects that existed
    before it are as they were, so that the reference added to a set shared
    by the two vectors is what balances its second destruction.  The later
    call then goes on, on that heap, with the function for the centering of
    the variable, or aborts for a variable of another kind. *)
Theorem later_call_releases_the_sets_of_an_earlier_call
    (NDIM : nat) (debug : bool)
    (partitionPatchBox : Box -> Index -> Index -> list Box * list Box)
    (box_size overlap_size : Index) (level : list CellPatch) (ghost : CellPatch -> Z)
    (heap0 : list ISObject) (st : asm_state) :
  constructPatchLevelASMSubdomains_cell debug partitionPatchBox box_size overlap_size
    level ghost heap0 = Returns st ->
  exists heap,
    (let* heap1 := ofold ISDestroy (is_overlap st) (asm_heap st) in
     ofold ISDestroy (is_nonoverlap st) heap1) = Returns heap
    /\ length heap = length (asm_heap st)
    /\ (forall h, (h < length heap0)%nat -> heap !! h = heap0 !! h)
    /\ (forall h, (length heap0 <= h < length heap)%nat ->
          exists o, asm_heap st !! h = Some o
                    /\ heap !! h = Some (mkIS (is_indices o) 0))
    /\ forall debug' box_size' overlap_size' var,
         constructPatchLevelASMSubdomains NDIM debug' partitionPatchBox box_size' overlap_size'
           var (is_overlap st) (is_nonoverlap st) (asm_heap st)
         = match var with
           | CellVariable level' ghost' =>
               constructPatchLevelASMSubdomains_cell debug' partitionPatchBox box_size'
                 overlap_size' level' ghost' heap
           | SideVariable level' ghost' geom level_num getBoundaries =>
               constructPatchLevelASMSubdomains_side NDIM debug' partitionPatchBox box_size'
                 overlap_size' level' ghost' geom level_num getBoundaries heap
           | OtherVariable => Fatal TboxError
           end.
Proof.
  intros Hcall.
  destruct (cell_subdomains_balanced partitionPatchBox box_size overlap_size heap0 debug level
              ghost st Hcall) as (B0 & B1 & B2 & B3 & _).
  assert (Hlive : forall h, (0 < references (is_overlap st) h
                             \/ 0 < references (is_nonoverlap st) h)%nat ->
            exists o, asm_heap st !! h = Some o
              /\ is_refct o = (references (is_overlap st) h
                               + references (is_nonoverlap st) h)%nat).
  { intros h Hh.
    destruct (Nat.lt_ge_cases h (length heap0)) as [Hlt|Hge];
      [destruct (B2 h); [auto|lia]|].
    destruct (Nat.lt_ge_cases h (length (asm_heap st))) as [Hlt'|Hge'];
      [|destruct (B2 h); [auto|lia]].
    destruct (lookup_lt_is_Some_2 _ _ Hlt') as [o Ho].
    exists o. split; [done|]. apply B3; done. }
  destruct (destroy_loop_releases (is_overlap st) (asm_heap st)) as (heap1 & E1 & L1 & H1).
  { intros h Hh. destruct (Hlive h) as (o & Ho & Hr); [auto|].
    exists o. split; [done|]. lia. }
  destruct (destroy_loop_releases (is_nonoverlap st) heap1) as (heap2 & E2 & L2 & H2).
  { intros h Hh. destruct (Hlive h) as (o & Ho & Hr); [auto|].
    rewrite H1, Ho. simpl. eexists. split; [done|]. simpl. lia. }
  exists heap2. rewrite E1. simpl. split; [done|]. split; [lia|]. split; [|split].
  - unfold IS in *. intros h Hh. rewrite H2, H1, (B1 h Hh). destruct (B2 h) as [-> ->]; [auto|].
    destruct (heap0 !! h) as [[idx n]|]; simpl; [|done]. rewrite !Nat.sub_0_r. done.
  - unfold IS in *. intros h [Hge Hlt]. rewrite L2, L1 in Hlt.
    destruct (lookup_lt_is_Some_2 _ _ Hlt) as [o Ho].
    exists o. split; [done|]. rewrite H2, H1, Ho. simpl.
    rewrite (B3 h o Hge Ho). do 2 f_equal. lia.
  - intros debug' box_size' overlap_size' var.
    unfold constructPatchLevelASMSubdomains. rewrite E1. simpl. rewrite E2. simpl. done.
Qed.

Lemma later_call_witness :
  exists st heap,
    constructPatchLevelASMSubdomains_cell true example_partition [2; 2] [0; 0]
      [example_fine_patch] (fun _ => 1) [] = Returns st
    /\ map is_refct (asm_heap st) = [2; 2]%nat
    /\ (let* heap1 := ofold ISDestroy (is_overlap st) (asm_heap st) in
        ofold ISDestroy (is_nonoverlap st) heap1) = Returns heap
    /\ map is_refct heap = [0; 0]%nat
    /\ constructPatchLevelASMSubdomains 2 true example_partition [2; 2] [1; 1] OtherVariable
         (is_overlap st) (is_nonoverlap st) (asm_heap st) = Fatal TboxError.
Proof.
  assert (E : exists st,
            constructPatchLevelASMSubdomains_cell true example_partition [2; 2] [0; 0]
              [example_fine_patch] (fun _ => 1) [] = Returns st
            /\ map is_refct (asm_heap st) = [2; 2]%nat).
  { eexists. split; vm_compute; reflexivity. }
  destruct E as (st & E & Hrefs).
  destruct (later_call_releases_the_sets_of_an_earlier_call 2 true example_partition
              [2; 2] [0; 0] [example_fine_patch] (fun _ => 1) [] st E)
    as (heap & Hheap & _ & _ & _ & Hlater).
  exists st, heap. split; [exact E|]. split; [exact Hrefs|]. split; [exact Hheap|].
  split; [|apply (Hlater true [2; 2] [1; 1] OtherVariable)].
  vm_compute in E. injection E as <-. vm_compute in Hheap. injection Hheap as <-.
  reflexivity.
Defined.

(** ** A kernel wider than the stencil *)

(** X19. The interpolation assembler gives the kernel a buffer of
    [interp_stencil] doubles (after the rounding to an even width) for the
    weights of each direction.  With a kernel that writes more weights than
    that, and at least one local point, the call does not return: once the
    first loop has located the points, the second loop lets the kernel write
    past the end of the first weight buffer, for the first component of the
    first point. *)
Theorem wider_kernel_overruns_the_weight_buffer
    (NDIM : nat) (debug : bool) (interp_fcn : Qc -> list Qc)
    (getCellIndex : list Qc -> list Qc -> list Qc -> list Qc -> Index -> Index -> Index)
    (x_lower x_upper dx0 : list Qc) (ratio : Index) (domain : Box)
    (patch_level : list SidePatch) (getGhostBox : SidePatch -> Box)
    (X_arr : list Qc) (X_i_lower : Z) (num_dofs_per_proc : list Z) (mpi_rank : nat)
    (interp_stencil : Z) (st : list nat * (list Z * list Z)) :
  let s := round_up_to_even interp_stencil in
  (0 < NDIM)%nat ->
  (0 < Z.to_nat (n_local_points NDIM X_arr))%nat ->
  0 < s -> s ^ Z.of_nat NDIM <= Int.INT_MAX ->
  (forall r, (Z.to_nat s < length (interp_fcn r))%nat) ->
  (debug = true -> Forall (fun p => sp_depth p = 1%nat) patch_level) ->
  ofold (interp_count_point NDIM debug getCellIndex x_lower x_upper dx0 ratio patch_level
           getGhostBox X_arr num_dofs_per_proc mpi_rank domain s)
        (seq 0 (Z.to_nat (n_local_points NDIM X_arr)))
        ([], (replicate (length X_arr) 0, replicate (length X_arr) 0)) = Returns st ->
  constructPatchLevelSCInterpOp NDIM debug interp_fcn getCellIndex x_lower x_upper dx0 ratio
    [domain] patch_level getGhostBox X_arr X_i_lower num_dofs_per_proc mpi_rank interp_stencil
  = OutOfBounds s.
Proof.
  intros s HN Hpoints Hpos Hnvals Hwide Hdepth Hcount.
  unfold constructPatchLevelSCInterpOp. cbv zeta. fold s. simpl the_domain_box. simpl obind.
  unfold new_counters, m_local_X.
  assert ((Z.of_nat (length X_arr) <? 0) = false) as -> by (apply Z.ltb_ge; lia).
  simpl obind. rewrite Nat2Z.id, Hcount. simpl obind.
  destruct (interp_count_patch_num NDIM debug getCellIndex x_lower x_upper dx0 ratio
              patch_level getGhostBox X_arr num_dofs_per_proc mpi_rank domain s _ _ st 0%nat
              Hcount eq_refl Hpoints) as (n & p & Hn & _ & Hp).
  destruct (Z.to_nat (n_local_points NDIM X_arr)) as [|N]; [lia|].
  cbn [seq ofold]. unfold interp_value_point at 1. rewrite Hn, Hp.
  assert (debug && negb (sp_depth p =? 1)%nat = false) as ->.
  { destruct debug; [|done]. simpl. apply negb_false_iff, Nat.eqb_eq.
    pose proof (Hdepth eq_refl) as Hall. rewrite List.Forall_forall in Hall.
    apply Hall. apply list_elem_of_In. apply (list_elem_of_lookup_2 _ n). done. }
  assert ((s <? 0) = false) as -> by (apply Z.ltb_ge; lia).
  rewrite stencil_box_nvals_exact by done.
  assert ((s ^ Z.of_nat NDIM <? 0) = false) as ->
    by (apply Z.ltb_ge; apply Z.pow_nonneg; lia).
  destruct NDIM as [|D]; [lia|].
  cbn [seq ofold]. unfold interp_value_axis at 1. cbn [seq ofold].
  unfold write_weights at 1. simpl fst. simpl snd.
  assert (Hbuf : forall (x : list Qc) l, (x :: l) !!! 0%nat = x) by done.
  rewrite !Hbuf, !length_replicate.
  assert ((length (interp_fcn (r_lower (S D) getCellIndex x_lower x_upper dx0 ratio X_arr
                                 domain s 0 0 0)) <=? Z.to_nat s)%nat = false) as ->.
  { apply Nat.leb_gt. apply Hwide. }
  simpl. rewrite Z2Nat.id by lia. done.
Qed.

Lemma wider_kernel_witness :
  constructPatchLevelSCInterpOp 2 true (fun r => [(1 - r)%Qc; r; 0%Qc])
    IndexUtilities_getCellIndex example_x_lower example_x_upper example_dx0 [1; 1]
    [mkBox [0; 0] [1; 1]] [example_side_patch] example_ghost_box example_interior_point 0
    [12] 0 2
  = OutOfBounds (round_up_to_even 2).
Proof.
  eapply (wider_kernel_overruns_the_weight_buffer 2 true (fun r => [(1 - r)%Qc; r; 0%Qc])
            IndexUtilities_getCellIndex example_x_lower example_x_upper example_dx0 [1; 1]
            (mkBox [0; 0] [1; 1]) [example_side_patch] example_ghost_box
            example_interior_point 0 [12] 0 2).
  - lia.
  - vm_compute. lia.
  - vm_compute. reflexivity.
  - vm_compute. discriminate.
  - intros r. vm_compute. lia.
  - intros _. repeat constructor.
  - vm_compute. reflexivity.
Defined.

(** *** Side-centred subdomains with an overlap *)

Section SideWithOverlap.
Variable NDIM : nat.
Variable partitionPatchBox : Box -> Index -> Index -> list Box * list Box.
Variable box_size : Index.
Variable overlap_size : Index.
Variable getPatchGeometry : SidePatch -> PatchGeometry.
Variable level_num : Z.
Variable getBoundaries : SidePatch -> list BoundaryBox.
Variable N : nat.
Variable heap0 : list ISObject.

Hypothesis overlap : there_is_overlap overlap_size = true.
Hypothesis parallel_boxes : forall b,
  length (overlap_boxes partitionPatchBox box_size overlap_size b)
  = length (nonoverlap_boxes partitionPatchBox box_size overlap_size b).

Abbreviation side_contents := (fun (p : SidePatch) (i : nat) =>
  (sort (side_box_local_dofs NDIM partitionPatchBox box_size overlap_size getPatchGeometry
                             level_num getBoundaries p i),
   unique (sort (side_box_overlap_dofs NDIM partitionPatchBox box_size overlap_size p i)))).

Lemma side_patch_subdomains_room debug ghost p st r :
  (debug = true -> sp_depth p = 1%nat /\ IntVector_max overlap_size <= ghost p) ->
  (forall b axis i,
     In b (nonoverlap_boxes partitionPatchBox box_size overlap_size (sp_box p)) ->
     (axis < NDIM)%nat -> In i (box_cells (toSideBox b axis)) ->
     side_outside_cf_boxes level_num getBoundaries p axis i = false) ->
  (subdomain_counter st
   + (length (overlap_boxes partitionPatchBox box_size overlap_size (sp_box p)) + r) = N)%nat
  /\ length (is_overlap st) = N /\ length (is_nonoverlap st) = N ->
  exists st', side_patch_subdomains NDIM debug partitionPatchBox box_size overlap_size ghost
                getPatchGeometry level_num getBoundaries st p = Returns st'
              /\ ((subdomain_counter st' + r = N)%nat
                  /\ length (is_overlap st') = N /\ length (is_nonoverlap st') = N).
Proof.
  intros Hassert Hnone Hst. unfold side_patch_subdomains.
  assert (debug && negb ((sp_depth p =? 1)%nat
                         && (ghost p >=? IntVector_max overlap_size)) = false) as ->.
  { destruct debug; [|done]. simpl. apply negb_false_iff.
    destruct (Hassert eq_refl) as [-> Hg]. simpl.
    rewrite Z.geb_leb. apply Z.leb_le. done. }
  apply (ofold_measure
           (fun r st => (subdomain_counter st + r = N)%nat
                        /\ length (is_overlap st) = N /\ length (is_nonoverlap st) = N)
           _ (fun _ => 1%nat)).
  - intros a i r' Hi Ha. apply in_seq in Hi. unfold side_subdomain.
    destruct (box_at_returns (nonoverlap_boxes partitionPatchBox box_size overlap_size (sp_box p)) i)
      as (b & -> & Hb); [lia|].
    destruct (box_at_returns (overlap_boxes partitionPatchBox box_size overlap_size (sp_box p)) i)
      as (b' & -> & _); [rewrite parallel_boxes; lia|].
    simpl. rewrite (side_local_dofs_collected NDIM getPatchGeometry level_num getBoundaries p b)
      by (intros; eapply Hnone; done).
    simpl. apply (make_subdomain_sets_room overlap_size N overlap). done.
  - rewrite count_ones, length_seq, <- parallel_boxes. done.
Qed.

Lemma side_patch_subdomains_filled debug ghost p acc st st' :
  (forall b axis i,
     In b (nonoverlap_boxes partitionPatchBox box_size overlap_size (sp_box p)) ->
     (axis < NDIM)%nat -> In i (box_cells (toSideBox b axis)) ->
     side_outside_cf_boxes level_num getBoundaries p axis i = false) ->
  side_patch_subdomains NDIM debug partitionPatchBox box_size overlap_size ghost
    getPatchGeometry level_num getBoundaries st p = Returns st' ->
  (subdomain_counter st = length acc
   /\ (length heap0 <= length (asm_heap st))%nat
   /\ forall k e, acc !! k = Some e ->
        exists h1 h2,
          is_nonoverlap st !! k = Some (Some h1) /\ is_overlap st !! k = Some (Some h2)
          /\ h1 <> h2 /\ (length heap0 <= h1)%nat /\ (length heap0 <= h2)%nat
          /\ asm_heap st !! h1 = Some (mkIS e.1 1) /\ asm_heap st !! h2 = Some (mkIS e.2 1)) ->
  let acc' := acc ++ map (side_contents p)
                         (seq 0 (length (nonoverlap_boxes partitionPatchBox box_size
                                                          overlap_size (sp_box p)))) in
  subdomain_counter st' = length acc'
  /\ (length heap0 <= length (asm_heap st'))%nat
  /\ forall k e, acc' !! k = Some e ->
       exists h1 h2,
         is_nonoverlap st' !! k = Some (Some h1) /\ is_overlap st' !! k = Some (Some h2)
         /\ h1 <> h2 /\ (length heap0 <= h1)%nat /\ (length heap0 <= h2)%nat
         /\ asm_heap st' !! h1 = Some (mkIS e.1 1) /\ asm_heap st' !! h2 = Some (mkIS e.2 1).
Proof.
  intros Hnone. unfold side_patch_subdomains. destruct (debug && _); [discriminate|].
  intros Hfold Hst. cbv zeta. rewrite <- flat_map_singleton.
  refine (ofold_trace_returned
            (fun (acc : list (list Z * list Z)) (st : asm_state) =>
               subdomain_counter st = length acc
               /\ (length heap0 <= length (asm_heap st))%nat
               /\ forall k e, acc !! k = Some e ->
                    exists h1 h2,
                      is_nonoverlap st !! k = Some (Some h1)
                      /\ is_overlap st !! k = Some (Some h2)
                      /\ h1 <> h2 /\ (length heap0 <= h1)%nat /\ (length heap0 <= h2)%nat
                      /\ asm_heap st !! h1 = Some (mkIS e.1 1)
                      /\ asm_heap st !! h2 = Some (mkIS e.2 1))
            _ (fun i => [side_contents p i]) _ acc st st' _ Hst Hfold).
  clear acc st st' Hst Hfold. intros acc st i st' _ Hst Hstep.
  unfold side_subdomain, box_at in Hstep.
  unfold side_box_local_dofs, side_box_overlap_dofs.
  destruct (nonoverlap_boxes partitionPatchBox box_size overlap_size (sp_box p) !! i)
    as [bl|] eqn:Hbl; simpl in Hstep; [|discriminate].
  rewrite (side_local_dofs_collected NDIM getPatchGeometry level_num getBoundaries p bl)
    in Hstep.
  2:{ intros axis j Ha Hj. apply (Hnone bl); [|done|done].
      apply list_elem_of_In. eapply list_elem_of_lookup_2. done. }
  simpl in Hstep.
  destruct (make_subdomain_sets_overlap_read overlap_size overlap _ _ _ _ Hstep) as [dov Hov].
  destruct (overlap_boxes partitionPatchBox box_size overlap_size (sp_box p) !! i)
    as [bo|]; simpl in *; [|discriminate].
  injection Hov as <-.
  eapply (make_subdomain_sets_filled overlap_size heap0 overlap); [exact Hstep|exact Hst].
Qed.
End SideWithOverlap.

Lemma side_subdomains_contents {T} partitionPatchBox box_size overlap_size
    (g : SidePatch -> nat -> T) level :
  flat_map (fun p => map (g p)
                         (seq 0 (length (nonoverlap_boxes partitionPatchBox box_size
                                                          overlap_size (sp_box p))))) level
  = map (fun pi => g pi.1 pi.2) (side_subdomains partitionPatchBox box_size overlap_size level).
Proof.
  unfold side_subdomains. induction level as [|p level IH]; simpl; [done|].
  rewrite map_app, map_map, IH. done.
Qed.

Lemma side_subdomains_count partitionPatchBox box_size overlap_size level :
  (forall b, length (overlap_boxes partitionPatchBox box_size overlap_size b)
             = length (nonoverlap_boxes partitionPatchBox box_size overlap_size b)) ->
  length (side_subdomains partitionPatchBox box_size overlap_size level)
  = side_subdomain_count partitionPatchBox box_size overlap_size level.
Proof.
  intros Hpar. unfold side_subdomain_count. rewrite fold_left_count. simpl.
  unfold side_subdomains. induction level as [|p level IH]; simpl; [done|].
  rewrite length_app, length_map, length_seq, IH, Hpar. done.
Qed.

(** X20. With an overlap, the side-centred subdomain partitioner returns
    and gives every sub-box two separate index-set objects made by the call,
    each referenced once, when no side of a non-overlapping box is tested
    against coarse-fine boundary boxes that do not hold it (on level 0 none
    is tested).  The non-overlapping set holds, in increasing order, the
    DOF indices of the sides that the loop keeps; the overlapping set holds
    the non-negative DOF indices of the sides of the overlapping box, each
    once, in strictly increasing order.  (The sub-box lists of
    [partitionPatchBox] are parallel; the data has depth 1 and its ghost
    width is at least the overlap in a build that asserts it.) *)
Theorem overlapping_side_subdomains_are_separate_sorted_sets
    (NDIM : nat) (debug : bool)
    (partitionPatchBox : Box -> Index -> Index -> list Box * list Box)
    (box_size overlap_size : Index) (level : list SidePatch) (ghost : SidePatch -> Z)
    (geom : SidePatch -> PatchGeometry) (level_num : Z)
    (getBoundaries : SidePatch -> list BoundaryBox) (heap : list ISObject) :
  there_is_overlap overlap_size = true ->
  (forall b, length (overlap_boxes partitionPatchBox box_size overlap_size b)
             = length (nonoverlap_boxes partitionPatchBox box_size overlap_size b)) ->
  (debug = true -> forall p, In p level ->
     sp_depth p = 1%nat /\ IntVector_max overlap_size <= ghost p) ->
  (forall p b axis i, In p level ->
     In b (nonoverlap_boxes partitionPatchBox box_size overlap_size (sp_box p)) ->
     (axis < NDIM)%nat -> In i (box_cells (toSideBox b axis)) ->
     side_outside_cf_boxes level_num getBoundaries p axis i = false) ->
  exists st,
    constructPatchLevelASMSubdomains_side NDIM debug partitionPatchBox box_size overlap_size
      level ghost geom level_num getBoundaries heap = Returns st
    /\ length (is_overlap st) = length (side_subdomains partitionPatchBox box_size overlap_size level)
    /\ length (is_nonoverlap st)
       = length (side_subdomains partitionPatchBox box_size overlap_size level)
    /\ forall k p i,
         side_subdomains partitionPatchBox box_size overlap_size level !! k = Some (p, i) ->
         exists box_local box_overlap h1 h2 o1 o2,
           nonoverlap_boxes partitionPatchBox box_size overlap_size (sp_box p) !! i
           = Some box_local
           /\ overlap_boxes partitionPatchBox box_size overlap_size (sp_box p) !! i
              = Some box_overlap
           /\ is_nonoverlap st !! k = Some (Some h1) /\ is_overlap st !! k = Some (Some h2)
           /\ h1 <> h2 /\ (length heap <= h1)%nat /\ (length heap <= h2)%nat
           /\ asm_heap st !! h1 = Some o1 /\ asm_heap st !! h2 = Some o2
           /\ is_refct o1 = 1%nat /\ is_refct o2 = 1%nat
           /\ Permutation (is_indices o1)
                          (side_collected_dofs NDIM geom level_num getBoundaries p box_local)
           /\ ascending false (is_indices o1) = true
           /\ ascending true (is_indices o2) = true
           /\ forall x, In x (is_indices o2) <->
                0 <= x /\ exists axis i, (axis < NDIM)%nat
                            /\ In i (box_cells (toSideBox box_overlap axis))
                            /\ x = sp_dof p axis i 0%nat.
Proof.
  intros Hovl Hpar Hassert Hnone.
  rewrite (side_subdomains_count _ _ _ _ Hpar).
  unfold constructPatchLevelASMSubdomains_side.
  set (N := side_subdomain_count _ _ _ _).
  destruct (ofold_measure
              (fun r st => (subdomain_counter st + r = N)%nat
                           /\ length (is_overlap st) = N /\ length (is_nonoverlap st) = N)
              (side_patch_subdomains NDIM debug partitionPatchBox box_size overlap_size ghost
                 geom level_num getBoundaries)
              (fun p => length (overlap_boxes partitionPatchBox box_size overlap_size (sp_box p)))
              level) with (r := 0%nat) (a := mkAsm heap (replicate N None) (replicate N None) 0)
    as (st & Hst & Hc & L1 & L2).
  { intros a p r Hp Ha. apply side_patch_subdomains_room; auto.
    intros b axis i. apply Hnone. done. }
  { simpl. rewrite !length_replicate. split; [|done].
    unfold N, side_subdomain_count. rewrite fold_left_count. lia. }
  exists st. split; [done|]. split; [done|]. split; [done|].
  pose proof (ofold_trace_returned
                (fun (acc : list (list Z * list Z)) (st : asm_state) =>
                   subdomain_counter st = length acc
                   /\ (length heap <= length (asm_heap st))%nat
                   /\ forall k e, acc !! k = Some e ->
                        exists h1 h2,
                          is_nonoverlap st !! k = Some (Some h1)
                          /\ is_overlap st !! k = Some (Some h2)
                          /\ h1 <> h2 /\ (length heap <= h1)%nat /\ (length heap <= h2)%nat
                          /\ asm_heap st !! h1 = Some (mkIS e.1 1)
                          /\ asm_heap st !! h2 = Some (mkIS e.2 1))
                (side_patch_subdomains NDIM debug partitionPatchBox box_size overlap_size ghost
                   geom level_num getBoundaries)
                (fun p => map (fun i =>
                                 (sort (side_box_local_dofs NDIM partitionPatchBox box_size
                                          overlap_size geom level_num getBoundaries p i),
                                  unique (sort (side_box_overlap_dofs NDIM partitionPatchBox
                                                  box_size overlap_size p i))))
                              (seq 0 (length (nonoverlap_boxes partitionPatchBox box_size
                                                               overlap_size (sp_box p)))))
                level [] (mkAsm heap (replicate N None) (replicate N None) 0) st) as Htrace.
  simpl in Htrace. rewrite side_subdomains_contents in Htrace.
  destruct Htrace as (_ & _ & Hfilled).
  { intros acc a p a' Hp Ha Hstep.
    eapply (side_patch_subdomains_filled NDIM partitionPatchBox box_size overlap_size geom
              level_num getBoundaries heap Hovl);
      [intros b axis i; apply Hnone; done|exact Hstep|exact Ha]. }
  { simpl. split; [done|]. split; [lia|]. intros k e Hk. done. }
  { exact Hst. }
  intros k p i Hk.
  assert (Hi : (i < length (nonoverlap_boxes partitionPatchBox box_size overlap_size
                                             (sp_box p)))%nat).
  { apply list_elem_of_lookup_2, list_elem_of_In in Hk. unfold side_subdomains in Hk.
    apply in_flat_map in Hk as (p' & _ & Hk). apply in_map_iff in Hk as (i' & [= <- <-] & Hi').
    apply in_seq in Hi'. lia. }
  destruct (lookup_lt_is_Some_2 _ _ Hi) as [bl Hbl].
  destruct (lookup_lt_is_Some_2
              (overlap_boxes partitionPatchBox box_size overlap_size (sp_box p)) i)
    as [bo Hbo]; [rewrite Hpar; done|].
  destruct (Hfilled k (sort (side_box_local_dofs NDIM partitionPatchBox box_size overlap_size
                               geom level_num getBoundaries p i),
                       unique (sort (side_box_overlap_dofs NDIM partitionPatchBox box_size
                                       overlap_size p i))))
    as (h1 & h2 & H1 & H2 & Hne & G1 & G2 & O1 & O2).
  { rewrite list_lookup_fmap, Hk. done. }
  unfold side_box_local_dofs, side_box_overlap_dofs in O1, O2. rewrite ?Hbl, ?Hbo in O1, O2.
  simpl in O1, O2.
  exists bl, bo, h1, h2,
    (mkIS (sort (side_collected_dofs NDIM geom level_num getBoundaries p bl)) 1),
    (mkIS (unique (sort (side_overlap_dofs NDIM p bo))) 1).
  repeat (split; [done|]). simpl.
  split; [apply sort_perm|]. split; [apply sort_ascending|].
  split; [apply unique_ascending, sort_ascending|].
  intros x. rewrite unique_in. unfold side_overlap_dofs. split.
  - intros Hx. apply (Permutation_in _ (sort_perm _)) in Hx.
    apply List.filter_In in Hx as [Hx Hpos]. split.
    + rewrite Z.geb_leb in Hpos. apply Z.leb_le. done.
    + apply in_flat_map in Hx as (axis & Ha & Hx). apply in_seq in Ha.
      apply in_map_iff in Hx as (j & <- & Hj). exists axis, j. repeat split; [lia|done].
  - intros (Hpos & axis & j & Ha & Hj & ->).
    apply (Permutation_in _ (Permutation_sym (sort_perm _))).
    apply List.filter_In. split.
    + apply in_flat_map. exists axis. split; [apply in_seq; lia|].
      apply in_map_iff. exists j. done.
    + rewrite Z.geb_leb. apply Z.leb_le. done.
Qed.

Lemma overlapping_side_subdomains_witness :
  exists st,
    constructPatchLevelASMSubdomains_side 2 true example_partition [2; 2] [1; 1]
      [example_side_patch] (fun _ => 1) example_geometry 0 example_cf_boundary []
    = Returns st
    /\ is_nonoverlap st = [Some 0%nat; Some 2%nat]
    /\ is_overlap st = [Some 1%nat; Some 3%nat]
    /\ map is_refct (asm_heap st) = [1; 1; 1; 1]%nat
    /\ length (is_overlap st) = length (side_subdomains example_partition [2; 2] [1; 1]
                                                        [example_side_patch]).
Proof.
  destruct (overlapping_side_subdomains_are_separate_sorted_sets 2 true example_partition
              [2; 2] [1; 1] [example_side_patch] (fun _ => 1) example_geometry 0
              example_cf_boundary [])
    as (st & Hst & L1 & _).
  - reflexivity.
  - intros b. unfold overlap_boxes, nonoverlap_boxes, example_partition.
    destruct (lower b) as [|x0 [|y0 [|? ?]]]; try reflexivity.
    destruct (upper b) as [|x1 [|y1 [|? ?]]]; reflexivity.
  - intros _ p Hp. enum_in Hp. split; [reflexivity|]. vm_compute. discriminate.
  - intros p b axis i _ _ _ _.
    unfold side_outside_cf_boxes, side_tested_at_cf_bdry, patch_touches_cf_bdry,
      cf_codim1_boxes. simpl. rewrite andb_false_r. reflexivity.
  - exists st. vm_compute in Hst. injection Hst as <-.
    split; [vm_compute; reflexivity|]. repeat (split; [reflexivity|]). reflexivity.
Defined.

(** ** Sides that the process does not own *)

(** X21. The prolongation of side-centred data skips the fine sides that
    have a component outside the owned range, where the cell-centred
    function fails: the call returns whatever the ownership of the DOFs of
    the level, and every entry of the matrix lies in the row of a component
    of a fine side all of whose components are owned, in one of the two
    bracketing coarse columns of that component.  (The partition of the fine
    DOFs is well formed: counts that are not negative, a valid rank, a total
    that is an [int].) *)
Theorem side_prolongation_skips_unowned_sides
    (NDIM : nat) (debug : bool) (coarsen refine : Index -> Index -> Index)
    (mapIndexToInteger : Index -> Index -> Index -> nat -> Z -> Z)
    (ao : Z -> Z) (ao_offset : Z) (fine_counts coarse_counts : list Z) (rank : nat)
    (cdom fdom : Box) (coarse_ratio fine_ratio : Index) (level : list SidePatch) :
  Forall (fun c => 0 <= c) fine_counts ->
  (rank < length fine_counts)%nat ->
  total_of fine_counts <= Int.INT_MAX ->
  exists mat,
    constructProlongationOp_side NDIM debug coarsen refine mapIndexToInteger ao ao_offset
      fine_counts coarse_counts rank [cdom] [fdom] coarse_ratio fine_ratio level = Returns mat
    /\ forall e, In e (mat_entries mat) ->
         exists p axis i d,
           side_location NDIM fine_counts rank level p axis i d
           /\ e.1.1 = sp_dof p axis i d
           /\ is_local fine_counts rank e.1.1 = true
           /\ (e.1.2 = col_lower NDIM coarsen mapIndexToInteger ao ao_offset coarse_ratio
                                 fine_ratio cdom (sp_depth p) axis i d
               \/ e.1.2 = col_upper NDIM coarsen mapIndexToInteger ao ao_offset coarse_ratio
                                    fine_ratio cdom (sp_depth p) axis i d)
           /\ 0 <= e.1.1 /\ 0 <= e.1.2.
Proof.
  intros Hnn Hrank Hmax.
  destruct (partition_exact fine_counts rank Hnn Hmax Hrank) as (E1 & E2 & E3 & E4 & E5 & E6 & E7).
  unfold constructProlongationOp_side. simpl the_domain_box. simpl obind.
  unfold new_counters.
  assert ((n_local fine_counts rank <? 0) = false) as -> by (apply Z.ltb_ge; lia).
  simpl obind. cbv zeta. eexists. split; [reflexivity|].
  intros e He. rewrite side_value_phase_entries in He. simpl mat_entries in He.
  apply assemble_in in He as [[]|(s0 & Hs0 & Hrow & Hcol & H0c & H0r)].
  apply side_steps_in in Hs0 as (p & axis & i & d & Hloc & ->).
  simpl in Hrow, Hcol.
  exists p, axis, i, d. split; [done|]. split; [done|]. split.
  - rewrite Hrow. destruct Hloc as (_ & _ & _ & Hon & Hd).
    unfold on_proc_fine_loc in Hon. rewrite forallb_forall in Hon.
    apply Hon. apply in_seq. lia.
  - split; [|done]. destruct Hcol as [<-|[<-|[]]]; auto.
Qed.

Lemma side_prolongation_skips_unowned_sides_witness :
  exists mat,
    constructProlongationOp_side 2 true IndexUtilities_coarsen IndexUtilities_refine
      IndexUtilities_mapIndexToInteger (fun j => j) 0 [6; 6] [4] 0
      [example_unit_domain] [mkBox [0; 0] [1; 1]] [1; 1] [2; 2] [example_side_patch]
    = Returns mat
    /\ map (fun e : entry => e.1.1) (mat_entries mat)
       = [5; 5; 4; 4; 3; 3; 2; 2; 1; 1; 0; 0]
    /\ forall e, In e (mat_entries mat) -> is_local [6; 6] 0 e.1.1 = true.
Proof.
  destruct (side_prolongation_skips_unowned_sides 2 true IndexUtilities_coarsen
              IndexUtilities_refine IndexUtilities_mapIndexToInteger (fun j => j) 0 [6; 6] [4]
              0 example_unit_domain (mkBox [0; 0] [1; 1]) [1; 1] [2; 2] [example_side_patch])
    as (mat & Hmat & Hrows).
  - repeat constructor; lia.
  - simpl. lia.
  - vm_compute. discriminate.
  - exists mat. split; [exact Hmat|]. split.
    + vm_compute in Hmat. injection Hmat as <-. vm_compute. reflexivity.
    + intros e He. destruct (Hrows e He) as (_ & _ & _ & _ & _ & _ & Hlocal & _).
      exact Hlocal.
Defined.
